(** * md_structured_retrieval (MSRL): a shallow embedding of the retrieval core

    The development follows the TypeScript sources module by module:
    the string primitives the code relies on, the fence detector and the
    chunker, the shard router, the hybrid scorer, the span merger, the
    retrieval pipeline, the engine's query entry point, the [docs] table of
    the metadata store and the snapshot manager.  All definitions come
    first; the lemmas and theorems about them follow in the second part. *)

From Stdlib Require Import ZArith QArith Qabs Sorted Lia Lqa.
From stdpp Require Import gmap list strings pretty.

Open Scope Z_scope.

(* ===================================================================== *)
(** * Part I: definitions *)
(* ===================================================================== *)

(** ** JavaScript strings

    A JavaScript string is a sequence of UTF-16 code units; [charCodeAt],
    [length], [slice], [indexOf], [startsWith] and [includes] all work on
    code units.  Offsets are natural numbers; the [-1] of [indexOf] is
    [None].  Numbers that the code only counts, adds and compares (token
    counts, limits, clock readings) are integers. *)

Module JS.

Abbreviation jsstring := (list Z).

(** A literal of ASCII characters, one code unit per character. *)
Definition lit (s : string) : jsstring :=
  map (fun a => Z.of_N (Ascii.N_of_ascii a)) (String.list_ascii_of_string s).

Definition LF : Z := 10.
Definition SPACE : Z := 32.
Definition BACKTICK : Z := 96.
Definition TILDE : Z := 126.

(** [s.slice(a, b)] and [s.slice(a)] for non-negative offsets. *)
Definition slice (s : jsstring) (a b : nat) : jsstring := take (b - a) (drop a s).
Definition sliceFrom (s : jsstring) (a : nat) : jsstring := drop a s.

(** [s.startsWith(p)]. *)
Fixpoint startsWith (s p : jsstring) {struct p} : bool :=
  match p, s with
  | [], _ => true
  | _ :: _, [] => false
  | c :: p', d :: s' => (c =? d) && startsWith s' p'
  end.

(** [s.indexOf(needle, pos)]: the first offset at or after [pos] where
    [needle] occurs. *)
Fixpoint indexOfAux (needle s : jsstring) (i : nat) : option nat :=
  if startsWith s needle then Some i
  else match s with
       | [] => None
       | _ :: s' => indexOfAux needle s' (S i)
       end.

Definition indexOf (s needle : jsstring) (pos : nat) : option nat :=
  let p := Nat.min pos (length s) in
  indexOfAux needle (drop p s) p.

(** [needle] occurs in [s] as a contiguous run of code units. *)
Definition occursIn (needle s : jsstring) : Prop := exists a b, s = a ++ needle ++ b.

(** [s.includes(needle)]. *)
Definition includes (s needle : jsstring) : bool :=
  match indexOf s needle 0 with Some _ => true | None => false end.

(** White space and line terminators: what [trim] strips and what [\s]
    matches in a regular expression. *)
Definition isWhiteSpace (c : Z) : bool :=
  ((9 <=? c) && (c <=? 13)) || (c =? 32) || (c =? 160) || (c =? 5760)
  || ((8192 <=? c) && (c <=? 8202)) || (c =? 8232) || (c =? 8233)
  || (c =? 8239) || (c =? 8287) || (c =? 12288) || (c =? 65279).

Fixpoint trimStart (s : jsstring) : jsstring :=
  match s with
  | c :: s' => if isWhiteSpace c then trimStart s' else s
  | [] => []
  end.

Definition trim (s : jsstring) : jsstring :=
  rev (trimStart (rev (trimStart s))).

(** [parts.join(sep)]. *)
Fixpoint join (sep : jsstring) (parts : list jsstring) : jsstring :=
  match parts with
  | [] => []
  | [p] => p
  | p :: rest => p ++ sep ++ join sep rest
  end.

(** [s.split('\n')]-style splitting on one code unit: the pieces between
    the separators, always at least one piece. *)
Fixpoint splitOn (sep : Z) (s : jsstring) : list jsstring :=
  match s with
  | [] => [[]]
  | c :: s' =>
      if c =? sep then [] :: splitOn sep s'
      else match splitOn sep s' with
           | [] => [[c]]
           | l :: ls => (c :: l) :: ls
           end
  end.

(** Length of the leading run of [c], and the same bounded by [limit]
    (the greedy [c{0,limit}] of a regular expression). *)
Fixpoint runLength (c : Z) (s : jsstring) : nat :=
  match s with
  | d :: s' => if d =? c then S (runLength c s') else O
  | [] => O
  end.

Definition runLengthUpTo (c : Z) (limit : nat) (s : jsstring) : nat :=
  Nat.min limit (runLength c s).

(** Thrown exceptions: a computation either returns or throws. *)
Inductive result (E A : Type) : Type :=
| Ok (a : A)
| Throw (e : E).
Arguments Ok {E A} a.
Arguments Throw {E A} e.

(** [Array.prototype.sort(cmp)]: a stable sort; [cmp a b > 0] asks for [a]
    to be placed after [b]. *)
Section Sort.
Context {A : Type} (cmp : A -> A -> bool).

(** [cmp x y = true] stands for "comparator result > 0". *)
Fixpoint insertSorted (x : A) (l : list A) : list A :=
  match l with
  | [] => [x]
  | y :: l' => if cmp x y then y :: insertSorted x l' else x :: l
  end.

Definition sort (l : list A) : list A := foldr insertSorted [] l.

End Sort.

End JS.

(** ** ShardRouter (vector/shard-router.ts) *)

Module ShardRouter.

(** [ToInt32] and [ToUint32] of ECMAScript on integers. *)
Definition toInt32 (z : Z) : Z :=
  let m := z mod 2 ^ 32 in if m <? 2 ^ 31 then m else m - 2 ^ 32.

Definition toUint32 (z : Z) : Z := z mod 2 ^ 32.

(** [a ^ b] on numbers: both operands go through [ToInt32]; the result is
    a signed 32-bit integer. *)
Definition xor32 (a b : Z) : Z := toInt32 (Z.lxor (toInt32 a) (toInt32 b)).

(** [Math.imul(a, b)]. *)
Definition imul (a b : Z) : Z := toInt32 (toInt32 a * toInt32 b).

Definition FNV_OFFSET_BASIS : Z := 0x811c9dc5.
Definition FNV_PRIME : Z := 0x01000193.

(** [fnv1a32(input)]: one round per UTF-16 code unit ([charCodeAt(i)]),
    then [hash >>> 0]. *)
Definition fnv1a32 (input : JS.jsstring) : Z :=
  toUint32 (fold_left (fun hash c => imul (xor32 hash c) FNV_PRIME) input FNV_OFFSET_BASIS).

Definition DEFAULT_SHARD_COUNT : Z := 128.

(** [ShardRouter.getShardId]: [fnv1a32(docUri) % this.shardCount]; both
    operands are non-negative, so [%] is [Z.rem]. *)
Definition getShardId (shardCount : Z) (docUri : JS.jsstring) : Z :=
  Z.rem (fnv1a32 docUri) shardCount.

(** *** The specification's reading: FNV-1a over the UTF-8 bytes *)

(** 32-bit FNV-1a over a sequence of octets, in unsigned arithmetic. *)
Definition FNV1a32 (data : list Z) : Z :=
  fold_left (fun h b => (Z.lxor h b * 16777619) mod 2 ^ 32) data 2166136261.

(** UTF-8 encoding of one code point. *)
Definition utf8_of_codepoint (cp : Z) : list Z :=
  if cp <? 0x80 then [cp]
  else if cp <? 0x800 then [Z.lor 0xC0 (Z.shiftr cp 6); Z.lor 0x80 (Z.land cp 0x3F)]
  else if cp <? 0x10000 then
    [Z.lor 0xE0 (Z.shiftr cp 12); Z.lor 0x80 (Z.land (Z.shiftr cp 6) 0x3F);
     Z.lor 0x80 (Z.land cp 0x3F)]
  else
    [Z.lor 0xF0 (Z.shiftr cp 18); Z.lor 0x80 (Z.land (Z.shiftr cp 12) 0x3F);
     Z.lor 0x80 (Z.land (Z.shiftr cp 6) 0x3F); Z.lor 0x80 (Z.land cp 0x3F)].

Definition isHighSurrogate (c : Z) : bool := (0xD800 <=? c) && (c <=? 0xDBFF).
Definition isLowSurrogate (c : Z) : bool := (0xDC00 <=? c) && (c <=? 0xDFFF).

(** UTF-8 encoding of a UTF-16 string: surrogate pairs combine into one
    code point, a lone surrogate encodes as U+FFFD. *)
Fixpoint utf8 (s : JS.jsstring) : list Z :=
  match s with
  | [] => []
  | c :: s' =>
      if isHighSurrogate c then
        match s' with
        | d :: s'' =>
            if isLowSurrogate d
            then utf8_of_codepoint (0x10000 + (c - 0xD800) * 0x400 + (d - 0xDC00)) ++ utf8 s''
            else utf8_of_codepoint 0xFFFD ++ utf8 s'
        | [] => utf8_of_codepoint 0xFFFD
        end
      else if isLowSurrogate c then utf8_of_codepoint 0xFFFD ++ utf8 s'
      else utf8_of_codepoint c ++ utf8 s'
  end.

(** The shard id as the specification words it. *)
Definition shardId_spec (shardCount : Z) (docUri : JS.jsstring) : Z :=
  Z.rem (FNV1a32 (utf8 docUri)) shardCount.

(** A UTF-16 code unit, and one below 0x80: the string is plain ASCII when
    all its code units are. *)
Definition isCodeUnit (c : Z) : bool := (0 <=? c) && (c <? 0x10000).
Definition isAscii (c : Z) : bool := (0 <=? c) && (c <? 0x80).

End ShardRouter.

(** ** FenceDetector (parser/fence-detector.ts) *)

Module FencedRegion.
Record t := mk { startChar : nat; endChar : nat; language : option JS.jsstring }.
End FencedRegion.

Module FenceDetector.
Import JS.

(** The result of [matchFenceOpen]. *)
Record FenceOpen := mkFenceOpen {
  char : Z;
  length : nat;
  language : option jsstring;
  isAtLineStart : bool
}.

(** [/^([ ]{0,3})/]: at most three leading spaces. *)
Definition leadingWhitespace (line : jsstring) : nat := runLengthUpTo SPACE 3 line.

(** The second group of the opening regular expression (a greedy run of
    "not white space, not the fence character"): the longest run of code
    units that are neither white space nor the fence character. *)
Fixpoint languageRun (c : Z) (s : jsstring) : jsstring :=
  match s with
  | d :: s' => if isWhiteSpace d || (d =? c) then [] else d :: languageRun c s'
  | [] => []
  end.

(** The match of [afterWhitespace] against the opening regular expression
    (three or more fence characters [c], then the optional language run),
    for [c] a backtick or a tilde: the length of the fence run and the
    language tag. *)
Definition matchFenceRun (c : Z) (afterWhitespace : jsstring) : option (nat * option jsstring) :=
  let n := runLength c afterWhitespace in
  if (3 <=? n)%nat then
    let lang := languageRun c (drop n afterWhitespace) in
    Some (n, match lang with [] => None | _ :: _ => Some lang end)
  else None.

Definition matchFenceOpen (line : jsstring) : option FenceOpen :=
  let lw := leadingWhitespace line in
  let afterWhitespace := sliceFrom line lw in
  let atStart :=
    (Nat.eqb (List.length line) 0)
    || startsWith line (replicate lw SPACE ++ [BACKTICK])
    || startsWith line (replicate lw SPACE ++ [TILDE]) in
  match matchFenceRun BACKTICK afterWhitespace with
  | Some (n, lang) => Some (mkFenceOpen BACKTICK n lang atStart)
  | None =>
      match matchFenceRun TILDE afterWhitespace with
      | Some (n, lang) => Some (mkFenceOpen TILDE n lang atStart)
      | None => None
      end
  end.

(** [matchFenceClose]: after at most three spaces, a run of at least
    [minLength] fence characters followed by white space only, up to the
    end of the line. *)
Definition matchFenceClose (line : jsstring) (fenceChar : Z) (minLength : nat) : bool :=
  let trimmed := sliceFrom line (leadingWhitespace line) in
  let c := if fenceChar =? BACKTICK then BACKTICK else TILDE in
  let n := runLength c trimmed in
  (minLength <=? n)%nat && forallb isWhiteSpace (drop n trimmed).

(** The open fence of the scan: [fenceStart], [fenceChar], [fenceLength]
    and [fenceLanguage], present exactly while [inFence] is set. *)
Record OpenFence := mkOpenFence {
  fenceStart : nat;
  fenceChar : Z;
  fenceLength : nat;
  fenceLanguage : option jsstring
}.

(** The [for] loop of [detect] over the remaining lines. *)
Fixpoint detectLoop (lines : list jsstring) (currentOffset : nat)
    (inFence : option OpenFence) (regions : list FencedRegion.t)
  : option OpenFence * list FencedRegion.t :=
  match lines with
  | [] => (inFence, regions)
  | line :: rest =>
      let lineStart := currentOffset in
      let '(inFence', regions') :=
        match inFence with
        | None =>
            match matchFenceOpen line with
            | Some m =>
                if isAtLineStart m
                then (Some (mkOpenFence lineStart (char m) (length m) (language m)), regions)
                else (None, regions)
            | None => (None, regions)
            end
        | Some f =>
            if matchFenceClose line (fenceChar f) (fenceLength f)
            then (None,
                  regions ++ [FencedRegion.mk (fenceStart f)
                                (currentOffset + List.length line) (fenceLanguage f)])
            else (Some f, regions)
        end in
      let step := match rest with [] => 0%nat | _ :: _ => 1%nat end in
      detectLoop rest (currentOffset + (List.length line + step))%nat inFence' regions'
  end.

(** The offset the loop of [detect] reaches after [lines]: each line's
    length, plus one for the newline after every line but the last. *)
Fixpoint linesLength (lines : list jsstring) : nat :=
  match lines with
  | [] => 0
  | line :: rest =>
      (List.length line + match rest with [] => 0 | _ :: _ => 1 end + linesLength rest)%nat
  end.

(** [FenceDetector.detect]. *)
Definition detect (text : jsstring) : list FencedRegion.t :=
  let '(inFence, regions) := detectLoop (splitOn LF text) 0 None [] in
  match inFence with
  | Some f => regions ++ [FencedRegion.mk (fenceStart f) (List.length text) (fenceLanguage f)]
  | None => regions
  end.

(** A region that ends after it starts. *)
Definition nonEmptyRegion (r : FencedRegion.t) : Prop :=
  (FencedRegion.startChar r < FencedRegion.endChar r)%nat.

(** [FenceDetector.isInsideFence]. *)
Definition isInsideFence (offset : nat) (regions : list FencedRegion.t) : bool :=
  existsb (fun region =>
             (FencedRegion.startChar region <=? offset)%nat
             && (offset <? FencedRegion.endChar region)%nat) regions.

(** [r1] ends before [r2] starts. *)
Definition regionBefore (r1 r2 : FencedRegion.t) : Prop :=
  (FencedRegion.endChar r1 < FencedRegion.startChar r2)%nat.

(** The offset holds a code unit of the text that is not a newline. *)
Definition startsLine (text : jsstring) (offset : nat) : Prop :=
  exists c, text !! offset = Some c /\ c <> LF.

(** The offset is where a line of the text begins, or where one ends. *)
Definition atLineStart (text : jsstring) (offset : nat) : Prop :=
  offset = 0%nat \/ text !! (offset - 1)%nat = Some LF.

Definition atLineEnd (text : jsstring) (offset : nat) : Prop :=
  offset = List.length text \/ text !! offset = Some LF.

(** A region made of whole lines of the text, the first of them not
    empty. *)
Definition wholeLines (text : jsstring) (r : FencedRegion.t) : Prop :=
  nonEmptyRegion r
  /\ (FencedRegion.endChar r <= List.length text)%nat
  /\ startsLine text (FencedRegion.startChar r)
  /\ atLineStart text (FencedRegion.startChar r)
  /\ atLineEnd text (FencedRegion.endChar r).

End FenceDetector.

(** ** Chunker (parser/chunker.ts) *)

Set Warnings "-register-all".

Module HeadingNode.
Inductive t := mk {
  nodeId : JS.jsstring;
  level : Z;
  title : JS.jsstring;
  headingPath : JS.jsstring;
  startChar : nat;
  endChar : nat;
  children : list t
}.
End HeadingNode.

Module Chunk.
Record t := mk {
  leafId : JS.jsstring;
  docUri : JS.jsstring;
  nodeId : JS.jsstring;
  headingPath : JS.jsstring;
  startChar : nat;
  endChar : nat;
  text : JS.jsstring;
  textHash : JS.jsstring;
  shardId : Z;
  tokenCount : Z
}.
End Chunk.

(** The [{ text, startOffset }] atoms of the chunker. *)
Module Paragraph.
Record t := mk { text : JS.jsstring; startOffset : nat }.
End Paragraph.

Module ChunkerConfig.
Record t := mk {
  targetMinTokens : Z;
  targetMaxTokens : Z;
  hardMaxTokens : Z;
  minPreferredTokens : Z;
  overlapTokens : Z
}.
End ChunkerConfig.

Module Chunker.
Import JS.

Definition DEFAULT_CHUNKER_CONFIG : ChunkerConfig.t :=
  ChunkerConfig.mk 600 1000 1200 200 100.

(** [${n}] for an offset: its decimal digits. *)
Definition decimal (n : nat) : jsstring := lit (pretty.pretty n).

Section Chunker.
(** The constructor's arguments, and the SHA-256 hex digest of
    [node:crypto], which the chunker only uses for ids and hashes. *)
Variable config : ChunkerConfig.t.
Variable fenceDetector_detect : jsstring -> list FencedRegion.t.
Variable tokenCounter : jsstring -> Z.
Variable sha256hex : jsstring -> jsstring.

Definition findContentStart (node : HeadingNode.t) (text : jsstring) : nat :=
  match indexOf text [LF] (HeadingNode.startChar node) with
  | None => HeadingNode.endChar node
  | Some headingLineEnd => (headingLineEnd + 1)%nat
  end.

(** [while (pos < text.length && text[pos] === '\n') pos++]. *)
Definition skipNewlines (text : jsstring) (pos : nat) : nat :=
  (pos + runLength LF (drop pos text))%nat.

(** [if (paraText.trim().length > 0) paragraphs.push(...)]. *)
Definition pushIfNotBlank (paragraphs : list Paragraph.t) (paraText : jsstring) (pos : nat)
  : list Paragraph.t :=
  match trim paraText with
  | [] => paragraphs
  | _ :: _ => paragraphs ++ [Paragraph.mk paraText pos]
  end.

(** The [while (pos < text.length)] loop of [splitIntoParagraphs]; [None]
    when [fuel] iterations were not enough. *)
Fixpoint splitLoop (fuel : nat) (text : jsstring) (fencedRegions : list FencedRegion.t)
    (pos : nat) (paragraphs : list Paragraph.t) : option (list Paragraph.t) :=
  match fuel with
  | O => None
  | S fuel' =>
      if negb (pos <? List.length text)%nat then Some paragraphs
      else
        match List.find (fun r => Nat.eqb (FencedRegion.startChar r) pos) fencedRegions with
        | Some fence =>
            let paragraphs' :=
              paragraphs ++
              [Paragraph.mk
                 (slice text (FencedRegion.startChar fence) (FencedRegion.endChar fence))
                 (FencedRegion.startChar fence)] in
            splitLoop fuel' text fencedRegions
              (skipNewlines text (FencedRegion.endChar fence)) paragraphs'
        | None =>
            let nextBreak0 := indexOf text [LF; LF] pos in
            let nextFence :=
              List.find (fun r => (pos <? FencedRegion.startChar r)%nat) fencedRegions in
            let nextBreak :=
              match nextFence with
              | Some nf =>
                  match nextBreak0 with
                  | None => Some (FencedRegion.startChar nf)
                  | Some nb =>
                      if (FencedRegion.startChar nf <? nb)%nat
                      then Some (FencedRegion.startChar nf) else Some nb
                  end
              | None => nextBreak0
              end in
            match nextBreak with
            | None => Some (pushIfNotBlank paragraphs (sliceFrom text pos) pos)
            | Some nb =>
                splitLoop fuel' text fencedRegions (skipNewlines text nb)
                  (pushIfNotBlank paragraphs (slice text pos nb) pos)
            end
        end
  end.

(** [splitIntoParagraphs]: every iteration on regions that are not empty
    moves [pos] forward, so [text.length + 1] iterations are enough. *)
Definition splitIntoParagraphs (text : jsstring) (fencedRegions : list FencedRegion.t)
  : option (list Paragraph.t) :=
  splitLoop (S (List.length text)) text fencedRegions 0 [].

Definition generateLeafId (docUri : jsstring) (startChar endChar : nat) : jsstring :=
  slice (sha256hex (docUri ++ lit ":" ++ decimal startChar ++ lit ":" ++ decimal endChar)) 0 16.

(** [createChunk]; [None] is the TypeError of [paragraphs[0]!.startOffset]
    on an empty array. *)
Definition createChunk (paragraphs : list Paragraph.t) (docUri : jsstring)
    (node : HeadingNode.t) (contentStart : nat) (shardId : Z) : option Chunk.t :=
  match paragraphs, last paragraphs with
  | firstPara :: _, Some lastPara =>
      let startChar := (contentStart + Paragraph.startOffset firstPara)%nat in
      let endChar :=
        (contentStart + Paragraph.startOffset lastPara
         + List.length (Paragraph.text lastPara))%nat in
      let text := join [LF; LF] (map Paragraph.text paragraphs) in
      Some (Chunk.mk (generateLeafId docUri startChar endChar) docUri
              (HeadingNode.nodeId node) (HeadingNode.headingPath node)
              startChar endChar text (sha256hex text) shardId (tokenCounter text))
  | _, _ => None
  end.

(** The [for (const para of paragraphs)] loop of [accumulateChunks]. *)
Fixpoint accumulateLoop (paragraphs : list Paragraph.t) (docUri : jsstring)
    (node : HeadingNode.t) (contentStart : nat) (shardId : Z)
    (chunks : list Chunk.t) (currentParagraphs : list Paragraph.t) (currentTokens : Z)
  : option (list Chunk.t * list Paragraph.t) :=
  match paragraphs with
  | [] => Some (chunks, currentParagraphs)
  | para :: rest =>
      let paraTokens := tokenCounter (Paragraph.text para) in
      if (currentTokens + paraTokens >? ChunkerConfig.targetMaxTokens config)
         && (0 <? List.length currentParagraphs)%nat
      then
        match createChunk currentParagraphs docUri node contentStart shardId with
        | Some c =>
            accumulateLoop rest docUri node contentStart shardId
              (chunks ++ [c]) [para] (0 + paraTokens)
        | None => None
        end
      else
        accumulateLoop rest docUri node contentStart shardId
          chunks (currentParagraphs ++ [para]) (currentTokens + paraTokens)
  end.

Definition accumulateChunks (paragraphs : list Paragraph.t) (docUri : jsstring)
    (node : HeadingNode.t) (contentStart : nat) (shardId : Z) : option (list Chunk.t) :=
  match paragraphs with
  | [] => Some []
  | _ :: _ =>
      match accumulateLoop paragraphs docUri node contentStart shardId [] [] 0 with
      | Some (chunks, currentParagraphs) =>
          if (0 <? List.length currentParagraphs)%nat then
            match createChunk currentParagraphs docUri node contentStart shardId with
            | Some c => Some (chunks ++ [c])
            | None => None
            end
          else Some chunks
      | None => None
      end
  end.

(** [Chunker.chunkNode]; [None] when the model ran out of fuel or the
    source would have thrown. *)
Definition chunkNode (docUri : jsstring) (node : HeadingNode.t) (normalizedText : jsstring)
    (shardId : Z) : option (list Chunk.t) :=
  let contentStart := findContentStart node normalizedText in
  let contentEnd :=
    match HeadingNode.children node with
    | child :: _ => HeadingNode.startChar child
    | [] => HeadingNode.endChar node
    end in
  if (contentEnd <=? contentStart)%nat then Some []
  else
    let nodeText := slice normalizedText contentStart contentEnd in
    match trim nodeText with
    | [] => Some []
    | _ :: _ =>
        let fencedRegions := fenceDetector_detect nodeText in
        match splitIntoParagraphs nodeText fencedRegions with
        | Some paragraphs => accumulateChunks paragraphs docUri node contentStart shardId
        | None => None
        end
    end.

(** The atoms [chunkNode] hands to [accumulateChunks]: the paragraphs and
    fenced blocks of the node's own content, none when that content is
    empty or blank. *)
Definition nodeParagraphs (node : HeadingNode.t) (normalizedText : jsstring)
  : option (list Paragraph.t) :=
  let contentStart := findContentStart node normalizedText in
  let contentEnd :=
    match HeadingNode.children node with
    | child :: _ => HeadingNode.startChar child
    | [] => HeadingNode.endChar node
    end in
  if (contentEnd <=? contentStart)%nat then Some []
  else
    let nodeText := slice normalizedText contentStart contentEnd in
    match trim nodeText with
    | [] => Some []
    | _ :: _ => splitIntoParagraphs nodeText (fenceDetector_detect nodeText)
    end.

End Chunker.

(** Where a paragraph ends, and the order of paragraphs and of chunks that
    follow one another without sharing a character. *)
Definition paragraphEnd (p : Paragraph.t) : nat :=
  (Paragraph.startOffset p + List.length (Paragraph.text p))%nat.

Definition endsBefore (p q : Paragraph.t) : Prop :=
  (paragraphEnd p <= Paragraph.startOffset q)%nat.

Definition chunkEndsBefore (c1 c2 : Chunk.t) : Prop :=
  (Chunk.endChar c1 <= Chunk.startChar c2)%nat.

(** The invariant of the loop of [splitIntoParagraphs]: the paragraphs
    collected so far are in order and end at or before the scanning
    position. *)
Definition collected (paragraphs : list Paragraph.t) (pos : nat) : Prop :=
  StronglySorted endsBefore paragraphs
  /\ Forall (fun p => (paragraphEnd p <= pos)%nat) paragraphs.

(** Whether [next] begins inside the span of [prev], so that the two
    chunks share text of the document. *)
Definition startsInside (prev next : Chunk.t) : bool :=
  (Chunk.startChar prev <=? Chunk.startChar next)%nat
  && (Chunk.startChar next <? Chunk.endChar prev)%nat.

(** [contentEnd] and [nodeText] of [chunkNode]: the node's own content
    runs from the end of its heading line to its first child, or to its
    end when it has no child. *)
Definition contentEnd (node : HeadingNode.t) : nat :=
  match HeadingNode.children node with
  | child :: _ => HeadingNode.startChar child
  | [] => HeadingNode.endChar node
  end.

Definition nodeText (node : HeadingNode.t) (normalizedText : jsstring) : jsstring :=
  slice normalizedText (findContentStart node normalizedText) (contentEnd node).

(** A paragraph that is a piece of [text], not empty, at its offset. *)
Definition sliceOf (text : jsstring) (p : Paragraph.t) : Prop :=
  Paragraph.text p <> []
  /\ (paragraphEnd p <= List.length text)%nat
  /\ Paragraph.text p = slice text (Paragraph.startOffset p) (paragraphEnd p).

(** The paragraph [splitIntoParagraphs] makes of a fenced region. *)
Definition fenceParagraph (text : jsstring) (r : FencedRegion.t) : Paragraph.t :=
  Paragraph.mk (slice text (FencedRegion.startChar r) (FencedRegion.endChar r))
    (FencedRegion.startChar r).

(** The token counts of the paragraphs of a group, added up as
    [accumulateChunks] adds them to [currentTokens]. *)
Definition paragraphTokens (tokenCounter : jsstring -> Z) (group : list Paragraph.t) : Z :=
  fold_left (fun tokens para => tokens + tokenCounter (Paragraph.text para)) group 0.

(** A group that fits the token target: one paragraph, or paragraphs
    whose token counts add up to at most [targetMaxTokens]. *)
Definition withinBudget (config : ChunkerConfig.t) (tokenCounter : jsstring -> Z)
    (group : list Paragraph.t) : Prop :=
  (List.length group <= 1)%nat
  \/ paragraphTokens tokenCounter group <= ChunkerConfig.targetMaxTokens config.

(** Consecutive groups that are cut only where the next paragraph would
    take the group over [targetMaxTokens]. *)
Fixpoint cutsWhenFull (config : ChunkerConfig.t) (tokenCounter : jsstring -> Z)
    (groups : list (list Paragraph.t)) : Prop :=
  match groups with
  | [] => True
  | group :: rest =>
      match rest with
      | [] => True
      | next :: _ =>
          (forall para, head next = Some para ->
             ChunkerConfig.targetMaxTokens config
             < paragraphTokens tokenCounter group + tokenCounter (Paragraph.text para))
          /\ cutsWhenFull config tokenCounter rest
      end
  end.

End Chunker.

(** ** Tokenizer (embedding/tokenizer.ts) *)

Module Tokenizer.

(** [approximateTokenCount]: [Math.ceil(text.length / 4)]. *)
Definition approximateTokenCount (text : JS.jsstring) : Z :=
  if Nat.eqb (length text) 0 then 0 else (Z.of_nat (length text) + 3) / 4.

End Tokenizer.

(** ** JavaScript [Map] and [Set] with string keys

    Both iterate in insertion order; [set] on a present key replaces the
    value and keeps the key's position. *)

Module JSMap.
Import JS.

Section JSMap.
Context {V : Type}.

Fixpoint set (k : jsstring) (v : V) (m : list (jsstring * V)) : list (jsstring * V) :=
  match m with
  | [] => [(k, v)]
  | (k', v') :: m' =>
      if bool_decide (k' = k) then (k', v) :: m' else (k', v') :: set k v m'
  end.

Fixpoint get (k : jsstring) (m : list (jsstring * V)) : option V :=
  match m with
  | [] => None
  | (k', v') :: m' => if bool_decide (k' = k) then Some v' else get k m'
  end.

Definition keys (m : list (jsstring * V)) : list jsstring := map fst m.

End JSMap.

(** [array.includes(x)] on an array of strings. *)
Definition arrayIncludes (l : list jsstring) (x : jsstring) : bool :=
  existsb (fun y => bool_decide (y = x)) l.

(** [new Set(iterable)]: the distinct elements in order of first
    occurrence. *)
Definition setOf (l : list jsstring) : list jsstring :=
  fold_left (fun s k => if arrayIncludes s k then s else s ++ [k]) l [].

End JSMap.

(** ** HybridScorer (retrieval/hybrid-scorer.ts)

    Scores are JavaScript numbers; the model computes with exact
    rationals. *)

(** [String.prototype.localeCompare] of the host: a collation, that is a
    total preorder on strings given by the sign of the result. *)
Class Collator := {
  localeCompare : JS.jsstring -> JS.jsstring -> Z;
  localeCompare_antisym : forall a b, 0 < localeCompare a b -> localeCompare b a <= 0;
  localeCompare_trans :
    forall a b c, localeCompare a b <= 0 -> localeCompare b c <= 0 -> localeCompare a c <= 0
}.

Module VectorResult.
Record t := mk { leafId : JS.jsstring; vectorScore : Q }.
End VectorResult.

Module BM25Result.
Record t := mk { leafId : JS.jsstring; bm25Score : Q; cachedVectorScore : option Q }.
End BM25Result.

Module HybridResult.
Record t := mk { leafId : JS.jsstring; score : Q; vectorScore : Q; bm25Score : Q }.
End HybridResult.

Module HybridWeights.
Record t := mk { vector : Q; bm25 : Q }.
End HybridWeights.

Module HybridScorer.
Import JS.

Definition DEFAULT_HYBRID_WEIGHTS : HybridWeights.t := HybridWeights.mk (7 # 10) (3 # 10).

(** An instance: its [weights] field. *)
Record t := mk { weights : HybridWeights.t }.

(** The constructor; the weights default to [DEFAULT_HYBRID_WEIGHTS] and
    must sum to 1 within 0.001. *)
Definition new (weights : option HybridWeights.t) : result string t :=
  let w := match weights with Some w => w | None => DEFAULT_HYBRID_WEIGHTS end in
  let sum := (HybridWeights.vector w + HybridWeights.bm25 w)%Q in
  if negb (Qle_bool (Qabs (sum - 1)) (1 # 1000))
  then Throw "Hybrid weights must sum to 1.0"%string
  else Ok (mk w).

(** The array [results] of [fuse] before it is sorted. *)
Definition fusedCandidates (this : t) (vectorResults : list VectorResult.t)
    (bm25Results : list BM25Result.t) : list HybridResult.t :=
  let vectorMap :=
    fold_left (fun m r => JSMap.set (VectorResult.leafId r) (VectorResult.vectorScore r) m)
      vectorResults [] in
  let bm25Map :=
    fold_left (fun m r => JSMap.set (BM25Result.leafId r)
                            (BM25Result.bm25Score r, BM25Result.cachedVectorScore r) m)
      bm25Results [] in
  let allLeafIds := JSMap.setOf (JSMap.keys vectorMap ++ JSMap.keys bm25Map) in
  map (fun leafId =>
         let vectorScore :=
           match JSMap.get leafId vectorMap with
           | Some v => v
           | None =>
               match JSMap.get leafId bm25Map with
               | Some (_, Some cached) => cached
               | _ => 0%Q
               end
           end in
         let bm25Score :=
           match JSMap.get leafId bm25Map with
           | Some (b, _) => b
           | None => 0%Q
           end in
         let score :=
           (HybridWeights.vector (weights this) * vectorScore
            + HybridWeights.bm25 (weights this) * bm25Score)%Q in
         HybridResult.mk leafId score vectorScore bm25Score)
      allLeafIds.

(** The comparator of [fuse] gives a positive number: [b.score - a.score]
    when the scores differ, [a.leafId.localeCompare(b.leafId)] otherwise. *)
Definition comesAfter `{Collator} (a b : HybridResult.t) : bool :=
  if negb (Qeq_bool (HybridResult.score b) (HybridResult.score a))
  then negb (Qle_bool (HybridResult.score b) (HybridResult.score a))
  else 0 <? localeCompare (HybridResult.leafId a) (HybridResult.leafId b).


(** [HybridScorer.fuse]. *)
Definition fuse `{Collator} (this : t) (vectorResults : list VectorResult.t)
    (bm25Results : list BM25Result.t) : list HybridResult.t :=
  sort comesAfter (fusedCandidates this vectorResults bm25Results).

End HybridScorer.

(** ** SpanMerger (retrieval/span-merger.ts) *)

Module Span.
Record t := mk {
  docUri : JS.jsstring;
  startChar : nat;
  endChar : nat;
  score : Q;
  leafIds : list JS.jsstring
}.
End Span.

Module SpanMerger.
Import JS.

(** [Math.max] on scores. *)
Definition maxScore (a b : Q) : Q := if Qle_bool a b then b else a.

(** Pushing the ids of [ids] that [current] does not hold yet. *)
Definition addUnique (current ids : list jsstring) : list jsstring :=
  fold_left (fun acc id => if JSMap.arrayIncludes acc id then acc else acc ++ [id]) ids current.

(** The loop over the sorted spans of one document; [current] is [null]
    before the first span. *)
Fixpoint mergeLoop (gapThreshold : nat) (docUri : jsstring) (sorted : list Span.t)
    (current : option Span.t) (merged : list Span.t) : list Span.t :=
  match sorted with
  | [] => match current with Some c => merged ++ [c] | None => merged end
  | span :: rest =>
      match current with
      | None =>
          mergeLoop gapThreshold docUri rest
            (Some (Span.mk docUri (Span.startChar span) (Span.endChar span)
                     (Span.score span) (Span.leafIds span))) merged
      | Some cur =>
          if (Span.startChar span <=? Span.endChar cur + gapThreshold)%nat then
            mergeLoop gapThreshold docUri rest
              (Some (Span.mk (Span.docUri cur) (Span.startChar cur)
                       (Nat.max (Span.endChar cur) (Span.endChar span))
                       (maxScore (Span.score cur) (Span.score span))
                       (addUnique (Span.leafIds cur) (Span.leafIds span)))) merged
          else
            mergeLoop gapThreshold docUri rest
              (Some (Span.mk docUri (Span.startChar span) (Span.endChar span)
                       (Span.score span) (Span.leafIds span))) (merged ++ [cur])
      end
  end.

(** [SpanMerger.mergeWithGap]. *)
Definition mergeWithGap (spans : list Span.t) (gapThreshold : nat) : list Span.t :=
  match spans with
  | [] => []
  | _ :: _ =>
      let byDoc :=
        fold_left (fun m span =>
                     let existing :=
                       match JSMap.get (Span.docUri span) m with
                       | Some l => l
                       | None => []
                       end in
                     JSMap.set (Span.docUri span) (existing ++ [span]) m)
          spans [] in
      let results :=
        flat_map (fun '(docUri, docSpans) =>
                    let sorted :=
                      sort (fun a b => (Span.startChar b <? Span.startChar a)%nat) docSpans in
                    mergeLoop gapThreshold docUri sorted None [])
          byDoc in
      sort (fun a b => negb (Qle_bool (Span.score b) (Span.score a))) results
  end.

(** [SpanMerger.merge]. *)
Definition merge (spans : list Span.t) : list Span.t := mergeWithGap spans 0.

(** [m] covers [s]: same document, a range that contains the range of
    [s], a score at least as high, and every leaf id of [s]. *)
Definition covers (m s : Span.t) : Prop :=
  Span.docUri m = Span.docUri s
  /\ (Span.startChar m <= Span.startChar s)%nat
  /\ (Span.endChar s <= Span.endChar m)%nat
  /\ (Span.score s <= Span.score m)%Q
  /\ (forall id, In id (Span.leafIds s) -> In id (Span.leafIds m)).

(** [a] ends more than [gapThreshold] code units before [b] starts, and
    two spans that are that far apart in either order. *)
Definition endsWellBefore (gapThreshold : nat) (a b : Span.t) : Prop :=
  (Span.endChar a + gapThreshold < Span.startChar b)%nat.

Definition apart (gapThreshold : nat) (a b : Span.t) : Prop :=
  endsWellBefore gapThreshold a b \/ endsWellBefore gapThreshold b a.

(** The spans of one document, in the order given. *)
Definition spansOf (docUri : jsstring) (spans : list Span.t) : list Span.t :=
  List.filter (fun s => bool_decide (Span.docUri s = docUri)) spans.

End SpanMerger.

(** ** RetrievalPipeline (retrieval/retrieval-pipeline.ts) *)

Module Filter.
Record t := mk {
  docUriPrefix : option JS.jsstring;
  docUris : option (list JS.jsstring);
  headingPathPrefix : option JS.jsstring;
  headingPathContains : option JS.jsstring
}.
End Filter.

Module QueryParams.
Record t := mk { query : JS.jsstring; limit : Z; filter : option Filter.t }.
End QueryParams.

Module LeafMetadata.
Record t := mk {
  docUri : JS.jsstring;
  headingPath : JS.jsstring;
  startChar : nat;
  endChar : nat
}.
End LeafMetadata.

Module ExcerptResult.
Record t := mk { excerpt : JS.jsstring; truncated : bool }.
End ExcerptResult.

Module SearchResult.
Record t := mk {
  docUri : JS.jsstring;
  headingPath : JS.jsstring;
  startChar : nat;
  endChar : nat;
  excerpt : JS.jsstring;
  excerptTruncated : bool;
  score : Q;
  vectorScore : Q;
  bm25Score : Q
}.
End SearchResult.

Module QueryResult.
Record t := mk { results : list SearchResult.t; meta_tookMs : Z }.
End QueryResult.

(** The injected searches and lookups; their promises are read as the
    values they resolve to. *)
Module PipelineDependencies.
Record t := mk {
  vectorSearch : JS.jsstring -> Z -> list VectorResult.t;
  bm25Search : JS.jsstring -> Z -> list BM25Result.t;
  getLeafMetadata : JS.jsstring -> option LeafMetadata.t;
  extractExcerpt : JS.jsstring -> nat -> nat -> ExcerptResult.t
}.
End PipelineDependencies.

(** An element of [resultsWithMetadata]. *)
Module ResultWithMetadata.
Record t := mk {
  leafId : JS.jsstring;
  score : Q;
  vectorScore : Q;
  bm25Score : Q;
  metadata : LeafMetadata.t
}.
End ResultWithMetadata.

Module RetrievalPipeline.
Import JS.

Record t := mk {
  deps : PipelineDependencies.t;
  hybridScorer : HybridScorer.t;
}.

(** The constructor: [this.hybridScorer = new HybridScorer()]. *)
Definition new (deps : PipelineDependencies.t) : result string t :=
  match HybridScorer.new None with
  | Ok scorer => Ok (mk deps scorer)
  | Throw e => Throw e
  end.

(** A string used as a condition: [undefined] and the empty string are
    falsy. *)
Definition truthy (s : option jsstring) : option jsstring :=
  match s with
  | Some (c :: s') => Some (c :: s')
  | _ => None
  end.

Section Pipeline.
(** [String.prototype.toLowerCase]. *)
Variable toLowerCase : jsstring -> jsstring.
Context `{Collator}.

(** [RetrievalPipeline.matchesFilters]. *)
Definition matchesFilters (metadata : LeafMetadata.t) (filter : option Filter.t) : bool :=
  match filter with
  | None => true
  | Some filter =>
      if match truthy (Filter.docUriPrefix filter) with
         | Some p => negb (startsWith (LeafMetadata.docUri metadata) p)
         | None => false
         end
      then false
      else if match Filter.docUris filter with
              | Some uris =>
                  (0 <? length uris)%nat
                  && negb (JSMap.arrayIncludes uris (LeafMetadata.docUri metadata))
              | None => false
              end
      then false
      else if match truthy (Filter.headingPathPrefix filter) with
              | Some p => negb (startsWith (LeafMetadata.headingPath metadata) p)
              | None => false
              end
      then false
      else if match truthy (Filter.headingPathContains filter) with
              | Some c =>
                  let lowerHeadingPath := toLowerCase (LeafMetadata.headingPath metadata) in
                  let lowerContains := toLowerCase c in
                  negb (includes lowerHeadingPath lowerContains)
              | None => false
              end
      then false
      else true
  end.


(** The first loop of [query]: the fused candidates that have metadata and
    pass the filters. *)
Fixpoint collectWithMetadata (this : t) (filter : option Filter.t)
    (hybridResults : list HybridResult.t) : list ResultWithMetadata.t :=
  match hybridResults with
  | [] => []
  | hr :: rest =>
      match PipelineDependencies.getLeafMetadata (deps this) (HybridResult.leafId hr) with
      | None => collectWithMetadata this filter rest
      | Some metadata =>
          if negb (matchesFilters metadata filter) then collectWithMetadata this filter rest
          else
            ResultWithMetadata.mk (HybridResult.leafId hr) (HybridResult.score hr)
              (HybridResult.vectorScore hr) (HybridResult.bm25Score hr) metadata
            :: collectWithMetadata this filter rest
      end
  end.

(** [array.slice(0, limit)]. *)
Definition sliceTo {A : Type} (l : list A) (limit : Z) : list A :=
  if limit <? 0 then take (length l - Z.to_nat (- limit)) l
  else take (Z.to_nat limit) l.

(** [RetrievalPipeline.query]; [startTime] and [endTime] are the readings
    of [Date.now()] on entry and at the [return] that is taken. *)
Definition query (this : t) (startTime endTime : Z) (params : QueryParams.t) : QueryResult.t :=
  match trim (QueryParams.query params) with
  | [] => QueryResult.mk [] (endTime - startTime)
  | _ :: _ =>
      let fetchLimit := QueryParams.limit params * 3 in
      let vectorResults :=
        PipelineDependencies.vectorSearch (deps this) (QueryParams.query params) fetchLimit in
      let bm25Results :=
        PipelineDependencies.bm25Search (deps this) (QueryParams.query params) fetchLimit in
      let hybridResults := HybridScorer.fuse (hybridScorer this) vectorResults bm25Results in
      let resultsWithMetadata :=
        collectWithMetadata this (QueryParams.filter params) hybridResults in
      let spans :=
        map (fun r =>
               Span.mk (LeafMetadata.docUri (ResultWithMetadata.metadata r))
                 (LeafMetadata.startChar (ResultWithMetadata.metadata r))
                 (LeafMetadata.endChar (ResultWithMetadata.metadata r))
                 (ResultWithMetadata.score r) [ResultWithMetadata.leafId r])
          resultsWithMetadata in
      let mergedSpans := SpanMerger.merge spans in
      let results :=
        flat_map (fun span =>
                    match List.find (fun r => JSMap.arrayIncludes (Span.leafIds span)
                                                (ResultWithMetadata.leafId r))
                            resultsWithMetadata with
                    | None => []
                    | Some leafData =>
                        let excerptResult :=
                          PipelineDependencies.extractExcerpt (deps this) (Span.docUri span)
                            (Span.startChar span) (Span.endChar span) in
                        [SearchResult.mk (Span.docUri span)
                           (LeafMetadata.headingPath (ResultWithMetadata.metadata leafData))
                           (Span.startChar span) (Span.endChar span)
                           (ExcerptResult.excerpt excerptResult)
                           (ExcerptResult.truncated excerptResult)
                           (Span.score span)
                           (ResultWithMetadata.vectorScore leafData)
                           (ResultWithMetadata.bm25Score leafData)]
                    end)
          (sliceTo mergedSpans (QueryParams.limit params)) in
      QueryResult.mk results (endTime - startTime)
  end.

End Pipeline.

End RetrievalPipeline.

(** ** MsrlEngine.query (engine.ts) *)

Module MsrlError.
Inductive MsrlErrorCode :=
| INVALID_ARGUMENT | NOT_FOUND | NOT_INDEXED | INDEX_BUSY
| INDEX_CORRUPT | IO_ERROR | MODEL_DOWNLOAD_FAILED | INTERNAL.

(** The error code and, for [invalidArgument], the offending field. *)
Record t := mk { code : MsrlErrorCode; field : option string }.

Definition invalidArgument (field : string) : t := mk INVALID_ARGUMENT (Some field).
Definition notIndexed : t := mk NOT_INDEXED None.
End MsrlError.

Module EngineQueryParams.
Record t := mk {
  query : JS.jsstring;
  topK : option Z;
  maxExcerptChars : option Z;
  filters : option Filter.t
}.
End EngineQueryParams.

(** The [retrieval] section of the configuration (config.ts). *)
Module RetrievalConfig.
Record t := mk {
  vectorWeight : Q;
  bm25Weight : Q;
  defaultTopK : Z;
  maxTopK : Z;
  defaultMaxExcerptChars : Z;
  maxMaxExcerptChars : Z;
  spanMergeGapThreshold : Z
}.

(** The defaults of [msrlConfigSchema]. *)
Definition defaults : t := mk (75 # 100) (25 # 100) 8 50 4000 20000 200.
End RetrievalConfig.

Module MsrlEngine.
Import JS.

Section Engine.
Variable toLowerCase : jsstring -> jsstring.
Context `{Collator}.

(** [MsrlEngine.query]; [currentSnapshot] is the pipeline of the loaded
    snapshot, if one is loaded. *)
Definition query (retrieval : RetrievalConfig.t) (currentSnapshot : option RetrievalPipeline.t)
    (startTime endTime : Z) (params : EngineQueryParams.t)
  : result MsrlError.t QueryResult.t :=
  match currentSnapshot with
  | None => Throw MsrlError.notIndexed
  | Some pipeline =>
      match EngineQueryParams.query params, trim (EngineQueryParams.query params) with
      | [], _ | _, [] => Throw (MsrlError.invalidArgument "query")
      | _ :: _, _ :: _ =>
          let topK :=
            match EngineQueryParams.topK params with
            | Some k => k
            | None => RetrievalConfig.defaultTopK retrieval
            end in
          let maxExcerptChars :=
            match EngineQueryParams.maxExcerptChars params with
            | Some m => m
            | None => RetrievalConfig.defaultMaxExcerptChars retrieval
            end in
          if (topK <? 1) || (RetrievalConfig.maxTopK retrieval <? topK)
          then Throw (MsrlError.invalidArgument "topK")
          else if (maxExcerptChars <? 200)
                  || (RetrievalConfig.maxMaxExcerptChars retrieval <? maxExcerptChars)
          then Throw (MsrlError.invalidArgument "maxExcerptChars")
          else
            let result :=
              RetrievalPipeline.query toLowerCase pipeline startTime endTime
                (QueryParams.mk (EngineQueryParams.query params) topK
                   (match EngineQueryParams.filters params with
                    | Some f =>
                        Some (Filter.mk (Filter.docUriPrefix f) (Filter.docUris f)
                                (Filter.headingPathPrefix f) (Filter.headingPathContains f))
                    | None => None
                    end)) in
            Ok (QueryResult.mk (QueryResult.results result) (QueryResult.meta_tookMs result))
      end
  end.

End Engine.

End MsrlEngine.

(** ** Host functions for the examples

    The theorems below hold for every collation and every lower-casing
    function; the worked examples run with these two, which agree with
    [localeCompare] and [toLowerCase] on the strings they are given
    (digits and lower-case ASCII letters; ASCII text). *)

Module Host.
Import JS.

(** Comparison of strings by code units. *)
Fixpoint compareCodeUnits (a b : jsstring) : Z :=
  match a, b with
  | [], [] => 0
  | [], _ :: _ => -1
  | _ :: _, [] => 1
  | x :: a', y :: b' =>
      if x <? y then -1 else if y <? x then 1 else compareCodeUnits a' b'
  end.

(** Lower-casing of the letters A to Z. *)
Definition asciiToLowerCase (s : jsstring) : jsstring :=
  map (fun c => if (65 <=? c) && (c <=? 90) then c + 32 else c) s.

End Host.

(** ** Data of the worked examples *)

Module Examples.
Import JS.

(** One indexed leaf, as in the pipeline's unit tests: the vector search
    returns leaf [l1] with score 1, BM25 returns nothing. *)
Definition oneLeafDeps : PipelineDependencies.t :=
  PipelineDependencies.mk
    (fun _ _ => [VectorResult.mk (lit "l1") 1])
    (fun _ _ => [])
    (fun _ => Some (LeafMetadata.mk (lit "test.md") (lit "Test") 0 100))
    (fun _ _ _ => ExcerptResult.mk (lit "excerpt") false).

Definition oneLeafPipeline : RetrievalPipeline.t :=
  RetrievalPipeline.mk oneLeafDeps (HybridScorer.mk HybridScorer.DEFAULT_HYBRID_WEIGHTS).

(** The documents of the two chunker examples: "# H\n\na\n\n\nb\n", and a
    heading followed by two paragraphs of 2400 characters each. *)
Definition doc_three_newlines : jsstring :=
  lit "# H" ++ [10; 10] ++ lit "a" ++ [10; 10; 10] ++ lit "b" ++ [10].

Definition doc_two_long_paragraphs : jsstring :=
  lit "# T" ++ [10; 10] ++ replicate 2400 65 ++ [10; 10] ++ replicate 2400 66 ++ [10].

(** The heading node of a document that consists of one heading. *)
Definition whole_document_node (text : jsstring) : HeadingNode.t :=
  HeadingNode.mk (lit "node") 1 (lit "H") (lit "H") 0 (length text) [].

(** The heading paths of the filter example: "Q1 -> Milestone: Launch"
    with the arrow U+2192, and "Story: Login". *)
Definition milestonePath : jsstring := lit "Q1 " ++ [8594] ++ lit " Milestone: Launch".
Definition storyPath : jsstring := lit "Story: Login".

End Examples.

(** ** MetadataStore: the [docs] table (store/metadata-store.ts)

    [docs(doc_id INTEGER PRIMARY KEY AUTOINCREMENT, doc_uri TEXT NOT NULL
    UNIQUE, mtime REAL, size INTEGER, hash TEXT)]: the rows in rowid order,
    the table's AUTOINCREMENT sequence (the largest [doc_id] that an
    [INSERT] has taken so far), and the connection's last insert rowid. *)

Module DocRow.
Record t := mk {
  docId : Z;
  docUri : JS.jsstring;
  mtime : Q;
  size : Z;
  hash : JS.jsstring
}.
End DocRow.

(** The argument of [upsertDoc]. *)
Module Doc.
Record t := mk { docUri : JS.jsstring; mtime : Q; size : Z; hash : JS.jsstring }.
End Doc.

Module MetadataStore.
Import JS.

Record t := mk {
  docs : list DocRow.t;
  docs_sequence : Z;
  lastInsertRowid : Z
}.

(** The store after [initialize] on a new database file. *)
Definition empty : t := mk [] 0 0.

(** [DO UPDATE SET mtime = excluded.mtime, size = excluded.size,
    hash = excluded.hash] on the row that conflicts. *)
Definition updateRow (doc : Doc.t) (row : DocRow.t) : DocRow.t :=
  if bool_decide (DocRow.docUri row = Doc.docUri doc)
  then DocRow.mk (DocRow.docId row) (DocRow.docUri row)
         (Doc.mtime doc) (Doc.size doc) (Doc.hash doc)
  else row.

(** [upsertDoc]: [INSERT INTO docs ... ON CONFLICT(doc_uri) DO UPDATE ...];
    the result is the statement's [lastInsertRowid].  The [INSERT] takes
    the next value of the sequence before the conflict on [doc_uri] is
    found, so the sequence advances also when the statement ends as an
    update; an update inserts no row and leaves the last insert rowid as it
    was. *)
Definition upsertDoc (db : t) (doc : Doc.t) : Z * t :=
  if existsb (fun row => bool_decide (DocRow.docUri row = Doc.docUri doc)) (docs db)
  then (lastInsertRowid db,
        mk (map (updateRow doc) (docs db)) (docs_sequence db + 1) (lastInsertRowid db))
  else
    let docId := docs_sequence db + 1 in
    (docId,
     mk (docs db ++ [DocRow.mk docId (Doc.docUri doc) (Doc.mtime doc) (Doc.size doc)
                       (Doc.hash doc)])
        docId docId).

(** [getDoc]: [SELECT ... FROM docs WHERE doc_uri = ?]. *)
Definition getDoc (db : t) (docUri : jsstring) : option DocRow.t :=
  List.find (fun row => bool_decide (DocRow.docUri row = docUri)) (docs db).

(** [deleteDoc]: [DELETE FROM docs WHERE doc_uri = ?]. *)
Definition deleteDoc (db : t) (docUri : jsstring) : t :=
  mk (List.filter (fun row => negb (bool_decide (DocRow.docUri row = docUri))) (docs db))
     (docs_sequence db) (lastInsertRowid db).

(** [listDocs]. *)
Definition listDocs (db : t) : list DocRow.t := docs db.

(** The rows of [docs] whose [doc_uri] is [docUri]. *)
Definition rowsFor (db : t) (docUri : jsstring) : list DocRow.t :=
  List.filter (fun row => bool_decide (DocRow.docUri row = docUri)) (docs db).

(** The UNIQUE constraint on [doc_uri]. *)
Definition uniqueDocUris (db : t) : Prop := NoDup (map DocRow.docUri (docs db)).

(** [getChangedDocs]: the stored documents compared with [knownDocs], a
    map from document URI to the [mtime] and [hash] known for it. *)
Record KnownDoc := mkKnownDoc { knownMtime : Q; knownHash : jsstring }.

Record ChangedDocs := mkChangedDocs {
  added : list jsstring;
  modified : list jsstring;
  deleted : list jsstring
}.

(** The first loop of [getChangedDocs], over the stored documents; [None]
    is the TypeError of reading [known.mtime] when [knownDocs.get] gives
    [undefined]. *)
Fixpoint changedLoop (knownDocs : list (jsstring * KnownDoc)) (knownUris : list jsstring)
    (currentDocs : list DocRow.t) (added modified : list jsstring)
  : option (list jsstring * list jsstring) :=
  match currentDocs with
  | [] => Some (added, modified)
  | doc :: rest =>
      if negb (JSMap.arrayIncludes knownUris (DocRow.docUri doc))
      then changedLoop knownDocs knownUris rest (added ++ [DocRow.docUri doc]) modified
      else
        match JSMap.get (DocRow.docUri doc) knownDocs with
        | Some known =>
            if negb (Qeq_bool (DocRow.mtime doc) (knownMtime known))
               || negb (bool_decide (DocRow.hash doc = knownHash known))
            then changedLoop knownDocs knownUris rest added (modified ++ [DocRow.docUri doc])
            else changedLoop knownDocs knownUris rest added modified
        | None => None
        end
  end.

Definition getChangedDocs (db : t) (knownDocs : list (jsstring * KnownDoc))
  : option ChangedDocs :=
  let currentDocs := listDocs db in
  let currentUris := JSMap.setOf (map DocRow.docUri currentDocs) in
  let knownUris := JSMap.setOf (JSMap.keys knownDocs) in
  match changedLoop knownDocs knownUris currentDocs [] [] with
  | Some (added, modified) =>
      let deleted :=
        List.filter (fun uri => negb (JSMap.arrayIncludes currentUris uri)) knownUris in
      Some (mkChangedDocs added modified deleted)
  | None => None
  end.

(** What the first loop decides for a stored document: added when its URI
    is not known, modified when it is known with another [mtime] or
    [hash]. *)
Definition isAdded (knownUris : list jsstring) (doc : DocRow.t) : bool :=
  negb (JSMap.arrayIncludes knownUris (DocRow.docUri doc)).

Definition isModified (knownDocs : list (jsstring * KnownDoc)) (knownUris : list jsstring)
    (doc : DocRow.t) : bool :=
  JSMap.arrayIncludes knownUris (DocRow.docUri doc)
  && match JSMap.get (DocRow.docUri doc) knownDocs with
     | Some known =>
         negb (Qeq_bool (DocRow.mtime doc) (knownMtime known))
         || negb (bool_decide (DocRow.hash doc = knownHash known))
     | None => false
     end.

(** The map a caller builds from a listing of the store to remember it. *)
Definition knownDocsOf (rows : list DocRow.t) : list (jsstring * KnownDoc) :=
  fold_left (fun m row =>
               JSMap.set (DocRow.docUri row)
                 (mkKnownDoc (DocRow.mtime row) (DocRow.hash row)) m)
    rows [].

(** The stores reached from a new database by [upsertDoc] and
    [deleteDoc]. *)
Inductive reachable : t -> Prop :=
| reachable_empty : reachable empty
| reachable_upsertDoc db doc : reachable db -> reachable (upsertDoc db doc).2
| reachable_deleteDoc db docUri : reachable db -> reachable (deleteDoc db docUri).

(** A new document followed by an update of it. *)
Definition insertedThenUpdated : t :=
  (upsertDoc (upsertDoc empty (Doc.mk (lit "a.md") 10 100 (lit "h1"))).2
     (Doc.mk (lit "a.md") 20 100 (lit "h2"))).2.

End MetadataStore.

(** ** SnapshotManager (lifecycle/snapshot-manager.ts)

    The manager keeps its state on disk: one directory per snapshot under
    [snapshots/], each with a [meta.json].  The model of the disk maps the
    name of every snapshot directory that holds a [meta.json] to the parsed
    content of that file; a directory without one is invisible to every
    operation. *)

Module SnapshotState.
Inductive t := building | active | inactive.

#[global] Instance eq_dec : EqDecision t.
Proof. solve_decision. Defined.
End SnapshotState.

Module SnapshotMeta.
Record t := mk { id : string; state : SnapshotState.t; createdAt : Z }.
End SnapshotMeta.

(** [path] is the snapshot's directory, given by its name under
    [snapshots/]. *)
Module SnapshotInfo.
Record t := mk { id : string; path : string; state : SnapshotState.t; createdAt : Z }.
End SnapshotInfo.

Module SnapshotManager.
Import JS.

Abbreviation disk := (gmap string SnapshotMeta.t).

(** [writeMeta]: [fs.writeFileSync] of [snapshots/<id>/meta.json]. *)
Definition writeMeta (fs : disk) (id : string) (meta : SnapshotMeta.t) : disk :=
  <[id := meta]> fs.

Definition infoOf (dir : string) (meta : SnapshotMeta.t) : SnapshotInfo.t :=
  SnapshotInfo.mk (SnapshotMeta.id meta) dir (SnapshotMeta.state meta)
    (SnapshotMeta.createdAt meta).

Definition getSnapshotInfo (fs : disk) (id : string) : option SnapshotInfo.t :=
  match fs !! id with
  | Some meta => Some (infoOf id meta)
  | None => None
  end.

(** [createSnapshot]; [id] is the value of [generateId()] and [now] the
    reading of [Date.now()]. *)
Definition createSnapshot (fs : disk) (id : string) (now : Z) : SnapshotInfo.t * disk :=
  let meta := SnapshotMeta.mk id SnapshotState.building now in
  (SnapshotInfo.mk id id SnapshotState.building (SnapshotMeta.createdAt meta),
   writeMeta fs id meta).

(** [listSnapshots]: the directory entries in the order [readdirSync]
    lists them, sorted by creation time, newest first. *)
Definition listSnapshots (fs : disk) : list SnapshotInfo.t :=
  sort (fun a b => SnapshotInfo.createdAt a <? SnapshotInfo.createdAt b)
    (map (fun entry => infoOf entry.1 entry.2) (map_to_list fs)).

Definition isActive (s : SnapshotInfo.t) : bool :=
  bool_decide (SnapshotInfo.state s = SnapshotState.active).

Definition getActiveSnapshot (fs : disk) : option SnapshotInfo.t :=
  List.find isActive (listSnapshots fs).

Definition updateState (fs : disk) (id : string) (state : SnapshotState.t) : disk :=
  match getSnapshotInfo fs id with
  | None => fs
  | Some info => writeMeta fs id (SnapshotMeta.mk id state (SnapshotInfo.createdAt info))
  end.

(** The disk after the first write of [activateSnapshot]: the current
    active snapshot, when there is one other than [id], is set inactive. *)
Definition deactivateCurrent (fs : disk) (id : string) : disk :=
  match getActiveSnapshot fs with
  | Some current =>
      if bool_decide (SnapshotInfo.id current <> id)
      then updateState fs (SnapshotInfo.id current) SnapshotState.inactive
      else fs
  | None => fs
  end.

Definition activateSnapshot (fs : disk) (id : string) : result string disk :=
  match getSnapshotInfo fs id with
  | None => Throw "Snapshot not found"%string
  | Some info => Ok (updateState (deactivateCurrent fs id) id SnapshotState.active)
  end.

(** The states the disk goes through during [activateSnapshot], one per
    [writeFileSync], from the state before the call to the state after. *)
Definition activateSnapshot_states (fs : disk) (id : string) : list disk :=
  match getSnapshotInfo fs id with
  | None => [fs]
  | Some info =>
      [fs; deactivateCurrent fs id;
       updateState (deactivateCurrent fs id) id SnapshotState.active]
  end.

Definition deleteSnapshot (fs : disk) (id : string) : result string disk :=
  match getSnapshotInfo fs id with
  | None => Ok fs
  | Some info =>
      if bool_decide (SnapshotInfo.state info = SnapshotState.active)
      then Throw "Cannot delete active snapshot"%string
      else Ok (delete (SnapshotInfo.path info) fs)
  end.

(** The loop of [cleanupOldSnapshots]: the disk it leaves, and the
    exception if [deleteSnapshot] threw. *)
Fixpoint cleanupLoop (snapshots : list SnapshotInfo.t) (activeId : option string)
    (keepCount kept : Z) (fs : disk) : disk * option string :=
  match snapshots with
  | [] => (fs, None)
  | snapshot :: rest =>
      if bool_decide (Some (SnapshotInfo.id snapshot) = activeId)
      then cleanupLoop rest activeId keepCount kept fs
      else if kept <? keepCount
      then cleanupLoop rest activeId keepCount (kept + 1) fs
      else
        match deleteSnapshot fs (SnapshotInfo.id snapshot) with
        | Ok fs' => cleanupLoop rest activeId keepCount kept fs'
        | Throw e => (fs, Some e)
        end
  end.

Definition cleanupOldSnapshots (fs : disk) (keepCount : Z) : disk * option string :=
  let snapshots := listSnapshots fs in
  let activeId := option_map SnapshotInfo.id (getActiveSnapshot fs) in
  cleanupLoop snapshots activeId keepCount 0 fs.

(** [snapshots.findIndex(s => s.state === 'active')]. *)
Fixpoint findIndexActive (snapshots : list SnapshotInfo.t) : option nat :=
  match snapshots with
  | [] => None
  | s :: rest => if isActive s then Some O else option_map S (findIndexActive rest)
  end.

Definition rollback (fs : disk) : result string disk :=
  let snapshots := listSnapshots fs in
  match findIndexActive snapshots with
  | None => Throw "No previous snapshot to rollback to"%string
  | Some activeIdx =>
      match snapshots !! (S activeIdx) with
      | None => Throw "No previous snapshot to rollback to"%string
      | Some previous => activateSnapshot fs (SnapshotInfo.id previous)
      end
  end.

(** One operation of the manager that returns. *)
Inductive step : disk -> disk -> Prop :=
| step_create fs id now : step fs (createSnapshot fs id now).2
| step_activate fs id fs' : activateSnapshot fs id = Ok fs' -> step fs fs'
| step_delete fs id fs' : deleteSnapshot fs id = Ok fs' -> step fs fs'
| step_cleanup fs keepCount : step fs (cleanupOldSnapshots fs keepCount).1
| step_rollback fs fs' : rollback fs = Ok fs' -> step fs fs'.

(** The disks reached from the empty [snapshots/] directory. *)
Inductive reachable : disk -> Prop :=
| reachable_empty : reachable ∅
| reachable_step fs fs' : reachable fs -> step fs fs' -> reachable fs'.

(** The ids of the active snapshots on the disk: what the manager
    publishes as active. *)
Definition activeIds (fs : disk) : list string :=
  map SnapshotInfo.id (List.filter isActive (listSnapshots fs)).

(** Every [meta.json] names its own directory, and at most one snapshot is
    active. *)
Definition wellFormed (fs : disk) : Prop :=
  (forall dir meta, fs !! dir = Some meta -> SnapshotMeta.id meta = dir)
  /\ (forall dir1 dir2 meta1 meta2,
        fs !! dir1 = Some meta1 -> fs !! dir2 = Some meta2 ->
        SnapshotMeta.state meta1 = SnapshotState.active ->
        SnapshotMeta.state meta2 = SnapshotState.active -> dir1 = dir2).

End SnapshotManager.

(** The disks of the worked examples: snapshot [a] created at time 1 and
    activated, then snapshot [b] created at time 2. *)
Module SnapshotExamples.
Import SnapshotManager.

Definition onlyA : disk :=
  <["a"%string := SnapshotMeta.mk "a" SnapshotState.active 1]> ∅.

Definition activeA_buildingB : disk :=
  <["b"%string := SnapshotMeta.mk "b" SnapshotState.building 2]> onlyA.

(** The disk after [b] has been activated as well: [a] is inactive. *)
Definition inactiveA_activeB : disk :=
  <["b"%string := SnapshotMeta.mk "b" SnapshotState.active 2]>
    (<["a"%string := SnapshotMeta.mk "a" SnapshotState.inactive 1]> ∅).

End SnapshotExamples.

(** ** MarkdownParser (parser/markdown-parser.ts) *)

(** The heading nodes that [parseHeadings] builds are objects that its loop
    changes after it has linked them into the tree
    ([popped.node.endChar = lineStart], [parent.node.children.push(node)]).
    They are kept in a store in the order of their creation, and the
    [children] of an object are references into the store (indices). *)
Module NodeObject.
Record t := mk {
  nodeId : JS.jsstring;
  level : Z;
  title : JS.jsstring;
  headingPath : JS.jsstring;
  startChar : nat;
  endChar : nat;
  children : list nat
}.
End NodeObject.

Module MarkdownParser.
Import JS.

Definition BOM : Z := 0xFEFF.
Definition CR : Z := 13.

(** [if (text.charCodeAt(0) === 0xfeff) text = text.slice(1)]. *)
Definition stripBOM (raw : jsstring) : jsstring :=
  match raw with
  | c :: rest => if c =? BOM then rest else raw
  | [] => []
  end.

(** [text.replace(/\r\n/g, '\n')]: every carriage return that a newline
    follows is dropped. *)
Fixpoint replaceCRLF (text : jsstring) : jsstring :=
  match text with
  | [] => []
  | c :: rest =>
      if c =? CR then
        match rest with
        | d :: rest' => if d =? LF then LF :: replaceCRLF rest' else c :: replaceCRLF rest
        | [] => [c]
        end
      else c :: replaceCRLF rest
  end.

(** [text.replace(/\r/g, '\n')]. *)
Definition replaceCR (text : jsstring) : jsstring :=
  map (fun c => if c =? CR then LF else c) text.

(** [text.endsWith('\n')]. *)
Definition endsWithLF (text : jsstring) : bool :=
  match last text with
  | Some c => c =? LF
  | None => false
  end.

(** [MarkdownParser.normalize]. *)
Definition normalize (raw : jsstring) : jsstring :=
  let text := replaceCR (replaceCRLF (stripBOM raw)) in
  if negb (endsWithLF text) then text ++ [LF] else text.

(** *** parseHeadings *)

Definition HASH : Z := 35.

(** [HEADING_PATH_SEPARATOR], a space, U+2192 and a space. *)
Definition HEADING_PATH_SEPARATOR : jsstring := [32; 8594; 32].

(** The code units that [.] of a regular expression does not match. *)
Definition isLineTerminator (c : Z) : bool :=
  (c =? 10) || (c =? 13) || (c =? 8232) || (c =? 8233).

(** Length of the leading run of white space (the greedy [\s+]). *)
Fixpoint whiteSpaceRun (s : jsstring) : nat :=
  match s with
  | c :: s' => if isWhiteSpace c then S (whiteSpaceRun s') else O
  | [] => O
  end.

(** [line.match(HEADING_REGEX)] for [/^(#{1,6})\s+(.+)$/], as the pair of
    [match[1].length] and [match[2].trim()].  Group 1 is the whole leading
    run of [#], which must have 1 to 6 of them since white space has to
    follow it.  [\s+] takes the whole run of white space, and gives its last
    code unit back to group 2 when the line ends with that run.  Group 2 is
    what is left of the line, must not be empty and must hold no line
    terminator. *)
Definition matchHeading (line : jsstring) : option (Z * jsstring) :=
  let hashes := runLength HASH line in
  let afterHashes := drop hashes line in
  let run := whiteSpaceRun afterHashes in
  let spaces := match drop run afterHashes with
                | [] => (run - 1)%nat
                | _ :: _ => run
                end in
  let group2 := drop spaces afterHashes in
  if (1 <=? hashes)%nat && (hashes <=? 6)%nat && (1 <=? spaces)%nat
     && forallb (fun c => negb (isLineTerminator c)) group2
  then Some (Z.of_nat hashes, trim group2)
  else None.

(** The stack of [{level, node}] entries, its top first. *)
Abbreviation Stack := (list (Z * nat)).

Section ParseHeadings.
(** The SHA-256 hex digest of [node:crypto], used for node ids only. *)
Variable sha256hex : jsstring -> jsstring.

(** [generateNodeId]. *)
Definition generateNodeId (docUri headingPath : jsstring) : jsstring :=
  slice (sha256hex (docUri ++ lit ":" ++ headingPath)) 0 16.

(** [node.endChar = endChar] and [node.children.push(child)] on the object
    that [ref] refers to. *)
Definition setEndChar (store : list NodeObject.t) (ref : nat) (endChar : nat)
  : list NodeObject.t :=
  alter (fun n => NodeObject.mk (NodeObject.nodeId n) (NodeObject.level n)
                    (NodeObject.title n) (NodeObject.headingPath n)
                    (NodeObject.startChar n) endChar (NodeObject.children n))
    ref store.

Definition pushChild (store : list NodeObject.t) (ref : nat) (child : nat)
  : list NodeObject.t :=
  alter (fun n => NodeObject.mk (NodeObject.nodeId n) (NodeObject.level n)
                    (NodeObject.title n) (NodeObject.headingPath n)
                    (NodeObject.startChar n) (NodeObject.endChar n)
                    (NodeObject.children n ++ [child]))
    ref store.

(** [buildHeadingPath]: the path of the topmost entry of a lower level,
    extended by the new title. *)
Definition buildHeadingPath (store : list NodeObject.t) (stack : Stack)
    (newLevel : Z) (newTitle : jsstring) : jsstring :=
  let parentPath :=
    match find (fun entry => fst entry <? newLevel) stack with
    | Some (_, ref) =>
        match store !! ref with
        | Some n => NodeObject.headingPath n
        | None => []
        end
    | None => []
    end in
  match parentPath with
  | [] => newTitle
  | _ :: _ => parentPath ++ HEADING_PATH_SEPARATOR ++ newTitle
  end.

(** [while (stack.length > 1 && stack[stack.length - 1].level >= level)]:
    pops the entry and sets the end of its node to [lineStart]. *)
Fixpoint popLoop (level : Z) (lineStart : nat) (stack : Stack) (store : list NodeObject.t)
  : Stack * list NodeObject.t :=
  match stack with
  | (topLevel, top) :: ((_ :: _) as rest) =>
      if level <=? topLevel
      then popLoop level lineStart rest (setEndChar store top lineStart)
      else (stack, store)
  | _ => (stack, store)
  end.

(** The body of the [for] loop for one line; [None] is the TypeError of
    [parent.node] on an empty stack. *)
Definition parseLine (docUri : jsstring) (textLength : nat)
    (fencedRegions : list FencedRegion.t) (line : jsstring) (lineStart : nat)
    (state : Stack * list NodeObject.t) : option (Stack * list NodeObject.t) :=
  let '(stack, store) := state in
  if negb (FenceDetector.isInsideFence lineStart fencedRegions) then
    match matchHeading line with
    | Some (level, title) =>
        let headingPath := buildHeadingPath store stack level title in
        let node := NodeObject.mk (generateNodeId docUri headingPath) level title
                      headingPath lineStart textLength [] in
        let '(stack', store') := popLoop level lineStart stack store in
        match stack' with
        | (_, parent) :: _ =>
            let ref := List.length store' in
            Some ((level, ref) :: stack', pushChild (store' ++ [node]) parent ref)
        | [] => None
        end
    | None => Some state
    end
  else Some state.

Fixpoint parseLoop (docUri : jsstring) (textLength : nat)
    (fencedRegions : list FencedRegion.t) (lines : list jsstring) (currentOffset : nat)
    (state : Stack * list NodeObject.t) : option (Stack * list NodeObject.t) :=
  match lines with
  | [] => Some state
  | line :: rest =>
      match parseLine docUri textLength fencedRegions line currentOffset state with
      | Some state' =>
          parseLoop docUri textLength fencedRegions rest
            (currentOffset + List.length line + 1)%nat state'
      | None => None
      end
  end.

(** The virtual root, object 0 of the store. *)
Definition rootNode (docUri : jsstring) (textLength : nat) : NodeObject.t :=
  NodeObject.mk (generateNodeId docUri []) 0 [] [] 0 textLength [].

(** [MarkdownParser.parseHeadings]: the store of the tree's nodes, whose
    root is object 0. *)
Definition parseHeadings (docUri normalizedText : jsstring) : option (list NodeObject.t) :=
  let fencedRegions := FenceDetector.detect normalizedText in
  let textLength := List.length normalizedText in
  match parseLoop docUri textLength fencedRegions (splitOn LF normalizedText) 0
          ([(0, 0%nat)], [rootNode docUri textLength]) with
  | Some (_, store) => Some store
  | None => None
  end.

End ParseHeadings.

(** The path of a heading under a parent with path [parentPath]. *)
Definition extendPath (parentPath title : jsstring) : jsstring :=
  match parentPath with
  | [] => title
  | _ :: _ => parentPath ++ HEADING_PATH_SEPARATOR ++ title
  end.

(** Level, title and offset of the lines that are headings: those that
    match [HEADING_REGEX] and do not start inside a fenced region. *)
Fixpoint headingLines (fencedRegions : list FencedRegion.t) (lines : list jsstring)
    (currentOffset : nat) : list (Z * jsstring * nat) :=
  match lines with
  | [] => []
  | line :: rest =>
      (if negb (FenceDetector.isInsideFence currentOffset fencedRegions) then
         match matchHeading line with
         | Some (level, title) => [(level, title, currentOffset)]
         | None => []
         end
       else [])
      ++ headingLines fencedRegions rest (currentOffset + List.length line + 1)%nat
  end.

Definition headingOf (n : NodeObject.t) : Z * jsstring * nat :=
  (NodeObject.level n, NodeObject.title n, NodeObject.startChar n).

(** Two states of one object: all but [endChar] and [children] is fixed
    when the object is made. *)
Definition sameHeading (n n' : NodeObject.t) : Prop :=
  NodeObject.nodeId n' = NodeObject.nodeId n
  /\ NodeObject.level n' = NodeObject.level n
  /\ NodeObject.title n' = NodeObject.title n
  /\ NodeObject.headingPath n' = NodeObject.headingPath n
  /\ NodeObject.startChar n' = NodeObject.startChar n.

(** [c] is a child of the object [p]. *)
Definition childOf (store : list NodeObject.t) (p c : nat) : Prop :=
  exists np, store !! p = Some np /\ In c (NodeObject.children np).

(** The section of object [i] is still open: it runs to the end of the
    text, and every later heading has a higher level.  Or it is closed: it
    ends where the first later heading of its level or of a lower one
    starts. *)
Definition openSection (textLength : nat) (store : list NodeObject.t)
    (i : nat) (n : NodeObject.t) : Prop :=
  NodeObject.endChar n = textLength
  /\ forall k nk, (i < k)%nat -> store !! k = Some nk ->
                  NodeObject.level n < NodeObject.level nk.

Definition closedSection (store : list NodeObject.t) (i : nat) (n : NodeObject.t) : Prop :=
  exists j nj,
    (i < j)%nat /\ store !! j = Some nj
    /\ NodeObject.level nj <= NodeObject.level n
    /\ NodeObject.endChar n = NodeObject.startChar nj
    /\ forall k nk, (i < k < j)%nat -> store !! k = Some nk ->
                    NodeObject.level n < NodeObject.level nk.

(** The link from an object [np] at [p] to its child [c]: the child is a
    later object of a higher level, the nearest heading before it of a
    lower level is [p], its section lies in the section of [p], and its path
    extends the path of [p]. *)
Definition linked (store : list NodeObject.t) (p : nat) (np : NodeObject.t) (c : nat) : Prop :=
  exists nc,
    store !! c = Some nc
    /\ (p < c)%nat
    /\ NodeObject.level np < NodeObject.level nc
    /\ (NodeObject.startChar np <= NodeObject.startChar nc)%nat
    /\ (NodeObject.endChar nc <= NodeObject.endChar np)%nat
    /\ NodeObject.headingPath nc
       = extendPath (NodeObject.headingPath np) (NodeObject.title nc)
    /\ forall k nk, (p < k < c)%nat -> store !! k = Some nk ->
                    NodeObject.level nc <= NodeObject.level nk.

(** The store after the loop body has handled a heading at [lineStart]: the
    objects of the popped entries are closed at [lineStart], and the new
    object, [child], is pushed to the children of [parent]. *)
Definition closeAll (lineStart : nat) (store : list NodeObject.t) (popped : Stack)
  : list NodeObject.t :=
  foldl (fun s entry => setEndChar s (snd entry) lineStart) store popped.

Definition closedBy (lineStart : nat) (popped : Stack) (i : nat) (n n' : NodeObject.t) : Prop :=
  sameHeading n n'
  /\ NodeObject.children n' = NodeObject.children n
  /\ ((In i (map snd popped) /\ NodeObject.endChar n' = lineStart)
      \/ (~ In i (map snd popped) /\ NodeObject.endChar n' = NodeObject.endChar n)).

Definition updatedBy (lineStart : nat) (popped : Stack) (parent child : nat)
    (i : nat) (n n' : NodeObject.t) : Prop :=
  sameHeading n n'
  /\ ((In i (map snd popped) /\ NodeObject.endChar n' = lineStart)
      \/ (~ In i (map snd popped) /\ NodeObject.endChar n' = NodeObject.endChar n))
  /\ ((i = parent /\ NodeObject.children n' = NodeObject.children n ++ [child])
      \/ (i <> parent /\ NodeObject.children n' = NodeObject.children n)).

(** One stack entry above another: a higher level and a later object. *)
Definition above (a b : Z * nat) : Prop := fst b < fst a /\ (snd b < snd a)%nat.

(** What holds of the stack and the store when the loop of
    [parseHeadings] is at the line that starts at [offset]. *)
Record Invariant (sha256hex : jsstring -> jsstring) (docUri : jsstring) (textLength : nat)
    (offset : nat) (stack : Stack) (store : list NodeObject.t) : Prop := mkInvariant {
  inv_sorted : StronglySorted above stack;
  inv_bottom : last stack = Some (0, 0%nat);
  inv_open : forall l i, In (l, i) stack ->
      exists n, store !! i = Some n /\ NodeObject.level n = l
                /\ openSection textLength store i n;
  inv_closed : forall i n, store !! i = Some n -> ~ In i (map snd stack) ->
      (NodeObject.endChar n <= offset)%nat /\ closedSection store i n;
  inv_root : exists n, store !! 0%nat = Some n
      /\ NodeObject.title n = [] /\ NodeObject.headingPath n = []
      /\ NodeObject.startChar n = 0%nat;
  inv_nodes : forall i n, store !! i = Some n -> (0 < i)%nat ->
      1 <= NodeObject.level n <= 6
      /\ (NodeObject.startChar n < offset)%nat
      /\ (NodeObject.startChar n < NodeObject.endChar n <= textLength)%nat;
  inv_ids : forall i n, store !! i = Some n ->
      NodeObject.nodeId n = generateNodeId sha256hex docUri (NodeObject.headingPath n);
  inv_links : forall p np c, store !! p = Some np -> In c (NodeObject.children np) ->
      linked store p np c;
  inv_parent : forall c, (0 < c < List.length store)%nat -> exists p, childOf store p c;
  inv_unique : forall p p' c, childOf store p c -> childOf store p' c -> p = p';
  inv_children : forall p np, store !! p = Some np -> NoDup (NodeObject.children np)
}.

End MarkdownParser.

(** ** ExcerptExtractor (retrieval/excerpt-extractor.ts)

    Offsets and [maxLength] are non-negative integers.  The vault is a
    partial map from document URI to file content; reading a file that
    does not exist throws. *)

Module ExcerptExtractor.
Import JS.

Definition DEFAULT_MAX_LENGTH : nat := 1000.

(** [s.lastIndexOf(c)] for one code unit; [None] is [-1]. *)
Fixpoint lastIndexOfFrom (c : Z) (s : jsstring) (i : nat) (found : option nat) : option nat :=
  match s with
  | [] => found
  | d :: s' => lastIndexOfFrom c s' (S i) (if d =? c then Some i else found)
  end.

Definition lastIndexOf (s : jsstring) (c : Z) : option nat := lastIndexOfFrom c s 0 None.

(** [truncateAtWordBoundary]; [lastSpace > maxLength * 0.5] is
    [maxLength < 2 * lastSpace]. *)
Definition truncateAtWordBoundary (text : jsstring) (maxLength : nat) : jsstring :=
  if (List.length text <=? maxLength)%nat then text
  else
    let truncated := slice text 0 maxLength in
    match lastIndexOf truncated SPACE with
    | Some lastSpace =>
        if (maxLength <? 2 * lastSpace)%nat then slice truncated 0 lastSpace else truncated
    | None => truncated
    end.

(** The part of [extract] after the file has been read. *)
Definition excerptOf (content : jsstring) (startChar endChar : nat) (maxLength : option nat)
  : ExcerptResult.t :=
  let maxLength := match maxLength with Some n => n | None => DEFAULT_MAX_LENGTH end in
  let excerpt := slice content startChar endChar in
  if (maxLength <? List.length excerpt)%nat
  then ExcerptResult.mk (truncateAtWordBoundary excerpt maxLength) true
  else ExcerptResult.mk excerpt false.

(** The extractor's [fileCache]. *)
Record t := mk { fileCache : list (jsstring * jsstring) }.

Definition new : t := mk [].

(** [readFile]: the cached content if there is one, otherwise the file's
    content, which is then cached. *)
Definition readFile (this : t) (vault : jsstring -> option jsstring) (docUri : jsstring)
  : result string (jsstring * t) :=
  match JSMap.get docUri (fileCache this) with
  | Some cached => Ok (cached, this)
  | None =>
      match vault docUri with
      | Some content => Ok (content, mk (JSMap.set docUri content (fileCache this)))
      | None => Throw "ENOENT"%string
      end
  end.

(** [extract]. *)
Definition extract (this : t) (vault : jsstring -> option jsstring) (docUri : jsstring)
    (startChar endChar : nat) (maxLength : option nat)
  : result string (ExcerptResult.t * t) :=
  match readFile this vault docUri with
  | Ok (content, this') => Ok (excerptOf content startChar endChar maxLength, this')
  | Throw e => Throw e
  end.

(** [clearCache]. *)
Definition clearCache (this : t) : t := mk [].

End ExcerptExtractor.

(** ** FileScanner.detectChanges (lifecycle/file-scanner.ts) *)

Module FileInfo.
Record t := mk { docUri : JS.jsstring; size : Z; mtimeMs : Q }.
End FileInfo.

Module FileScanner.
Import JS.

Record ChangeSet := mkChangeSet {
  added : list FileInfo.t;
  modified : list FileInfo.t;
  deleted : list jsstring
}.

(** [new Map] filled with [map.set(f.docUri, f)] for the files in order. *)
Definition byUri (files : list FileInfo.t) : list (jsstring * FileInfo.t) :=
  fold_left (fun m f => JSMap.set (FileInfo.docUri f) f m) files [].

(** [map.has(key)]. *)
Definition has {V : Type} (m : list (jsstring * V)) (key : jsstring) : bool :=
  match JSMap.get key m with Some _ => true | None => false end.

(** The loop over [current] that finds the added and the modified
    files. *)
Fixpoint changesLoop (prevMap : list (jsstring * FileInfo.t)) (current : list FileInfo.t)
    (added modified : list FileInfo.t) : list FileInfo.t * list FileInfo.t :=
  match current with
  | [] => (added, modified)
  | curr :: rest =>
      match JSMap.get (FileInfo.docUri curr) prevMap with
      | None => changesLoop prevMap rest (added ++ [curr]) modified
      | Some prev =>
          if negb (Qeq_bool (FileInfo.mtimeMs prev) (FileInfo.mtimeMs curr))
             || negb (FileInfo.size prev =? FileInfo.size curr)
          then changesLoop prevMap rest added (modified ++ [curr])
          else changesLoop prevMap rest added modified
      end
  end.

(** The loop over [previous] that finds the deleted files. *)
Fixpoint deletedLoop (currMap : list (jsstring * FileInfo.t)) (previous : list FileInfo.t)
    (deleted : list jsstring) : list jsstring :=
  match previous with
  | [] => deleted
  | prev :: rest =>
      if negb (has currMap (FileInfo.docUri prev))
      then deletedLoop currMap rest (deleted ++ [FileInfo.docUri prev])
      else deletedLoop currMap rest deleted
  end.

(** [FileScanner.detectChanges]. *)
Definition detectChanges (previous current : list FileInfo.t) : ChangeSet :=
  let prevMap := byUri previous in
  let currMap := byUri current in
  let '(added, modified) := changesLoop prevMap current [] [] in
  mkChangeSet added modified (deletedLoop currMap previous []).

(** A file that differs from [prev] in modification time or in size. *)
Definition differs (prev curr : FileInfo.t) : Prop :=
  ~ (FileInfo.mtimeMs prev == FileInfo.mtimeMs curr)%Q
  \/ FileInfo.size prev <> FileInfo.size curr.

End FileScanner.

(** ** computeAdaptiveK (vector/node-embedding.ts) *)

Module NodeEmbedding.

(** [Math.ceil(a / b)] for integers and a positive [b]. *)
Definition ceilDiv (a b : Z) : Z := - (- a / b).

(** [computeAdaptiveK] on an integer number of leaves. *)
Definition computeAdaptiveK (numLeaves : Z) : Z :=
  if numLeaves <=? 0 then 0
  else if numLeaves =? 1 then 1
  else
    let k := Z.min 5 (Z.max 2 (ceilDiv numLeaves 5)) in
    Z.min k numLeaves.

End NodeEmbedding.

(* ===================================================================== *)
(** * Part II: lemmas and theorems *)
(* ===================================================================== *)

(** ** JavaScript strings, arrays and maps *)

Section JSFacts.
Import JS.





Lemma arrayIncludes_In (l : list (list Z)) (x : list Z) :
  JSMap.arrayIncludes l x = true <-> In x l.
Proof.
  unfold JSMap.arrayIncludes. rewrite existsb_exists. split.
  - intros (y & Hin & Heq). apply bool_decide_eq_true in Heq. now subst.
  - intros Hin. exists x. split; [assumption | now apply bool_decide_eq_true].
Qed.

Lemma setOf_acc_NoDup (l : list (list Z)) :
  forall acc, NoDup acc ->
    NoDup (fold_left (fun s k => if JSMap.arrayIncludes s k then s else s ++ [k]) l acc).
Proof.
  induction l as [| k l IH]; intros acc Hnd; simpl; [assumption |].
  apply IH. destruct (JSMap.arrayIncludes acc k) eqn:E; [assumption |].
  apply NoDup_app. split; [assumption |]. split.
  - intros x Hx Hk. apply list_elem_of_singleton in Hk. subst x.
    assert (JSMap.arrayIncludes acc k = true) by (apply arrayIncludes_In, list_elem_of_In, Hx).
    congruence.
  - apply NoDup_singleton.
Qed.

Lemma setOf_NoDup (l : list (list Z)) : NoDup (JSMap.setOf l).
Proof. apply setOf_acc_NoDup. constructor. Qed.

Section SortFacts.
Context {A : Type} (cmp : A -> A -> bool).

Lemma insertSorted_Permutation (x : A) (l : list A) :
  Permutation (insertSorted cmp x l) (x :: l).
Proof.
  induction l as [| y l IH]; simpl; [reflexivity |].
  destruct (cmp x y); [| reflexivity].
  rewrite IH. apply perm_swap.
Qed.

(** Sorting reorders and neither drops nor repeats an element. *)
Lemma sort_Permutation (l : list A) : Permutation (sort cmp l) l.
Proof.
  induction l as [| x l IH]; simpl; [reflexivity |].
  unfold sort in *. simpl. rewrite insertSorted_Permutation. now rewrite IH.
Qed.

Variable R : A -> A -> Prop.
Hypothesis R_trans : forall x y z, R x y -> R y z -> R x z.
Hypothesis cmp_false : forall x y, cmp x y = false -> R x y.
Hypothesis cmp_true : forall x y, cmp x y = true -> R y x.

Lemma insertSorted_StronglySorted (x : A) (l : list A) :
  StronglySorted R l -> StronglySorted R (insertSorted cmp x l).
Proof.
  induction l as [| y l IH]; simpl; intros Hs.
  - repeat constructor.
  - inversion Hs as [| ? ? Hsl Hall]; subst.
    destruct (cmp x y) eqn:E.
    + constructor; [now apply IH |].
      rewrite insertSorted_Permutation. constructor; [now apply cmp_true | assumption].
    + constructor; [assumption |].
      constructor; [now apply cmp_false |].
      eapply Forall_impl; [exact Hall |].
      intros z Hyz. eapply R_trans; [apply cmp_false; exact E | exact Hyz].
Qed.

(** When the comparator decides a transitive order, the sorted array is
    in that order: every element stands before all later ones. *)
Lemma sort_StronglySorted (l : list A) : StronglySorted R (sort cmp l).
Proof.
  induction l as [| x l IH]; unfold sort in *; simpl.
  - constructor.
  - now apply insertSorted_StronglySorted.
Qed.

End SortFacts.

End JSFacts.

(** ** ShardRouter *)

Section ShardRouterFacts.
Import ShardRouter.

Lemma toInt32_mod (z : Z) : toInt32 z mod 2 ^ 32 = z mod 2 ^ 32.
Proof.
  unfold toInt32. cbv zeta.
  destruct (z mod 2 ^ 32 <? 2 ^ 31).
  - apply Z.mod_mod. lia.
  - rewrite Zminus_mod, Z.mod_same by lia.
    rewrite Z.mod_mod by lia. rewrite Z.sub_0_r. apply Z.mod_mod. lia.
Qed.

Lemma toInt32_range (z : Z) : - 2 ^ 31 <= toInt32 z < 2 ^ 31.
Proof.
  unfold toInt32. cbv zeta.
  pose proof (Z.mod_pos_bound z (2 ^ 32) ltac:(lia)) as Hb.
  destruct (z mod 2 ^ 32 <? 2 ^ 31) eqn:E.
  - apply Z.ltb_lt in E. lia.
  - apply Z.ltb_ge in E. lia.
Qed.

Lemma lxor_mod_pow2 (a b n : Z) :
  0 <= n -> Z.lxor a b mod 2 ^ n = Z.lxor (a mod 2 ^ n) (b mod 2 ^ n).
Proof.
  intros Hn. apply Z.bits_inj'. intros i Hi.
  rewrite Z.lxor_spec.
  destruct (Z.lt_ge_cases i n) as [Hlt | Hge].
  - rewrite !Z.mod_pow2_bits_low by lia. now rewrite Z.lxor_spec.
  - rewrite !Z.mod_pow2_bits_high by lia. reflexivity.
Qed.

Lemma lxor_u32_range (a b : Z) :
  0 <= a < 2 ^ 32 -> 0 <= b < 2 ^ 32 -> 0 <= Z.lxor a b < 2 ^ 32.
Proof.
  intros Ha Hb.
  rewrite <- (Z.mod_small a (2 ^ 32)), <- (Z.mod_small b (2 ^ 32)) by lia.
  rewrite <- lxor_mod_pow2 by lia. apply Z.mod_pos_bound. lia.
Qed.

(** One round of the source ([hash ^= c; hash = Math.imul(hash, prime)]),
    read modulo 2^32, is one round of unsigned FNV-1a. *)
Lemma fnv_round_mod (h c : Z) :
  0 <= c < 2 ^ 32 ->
  imul (xor32 h c) FNV_PRIME mod 2 ^ 32
  = (Z.lxor (h mod 2 ^ 32) c * 16777619) mod 2 ^ 32.
Proof.
  intros Hc. unfold imul. rewrite toInt32_mod.
  rewrite Zmult_mod, !toInt32_mod.
  unfold xor32. rewrite toInt32_mod.
  rewrite lxor_mod_pow2 by lia. rewrite !toInt32_mod.
  rewrite (Z.mod_small c) by lia.
  reflexivity.
Qed.

Lemma fnv_fold_mod (input : list Z) :
  forall h,
    Forall (fun c => 0 <= c < 2 ^ 32) input ->
    fold_left (fun hash c => imul (xor32 hash c) FNV_PRIME) input h mod 2 ^ 32
    = fold_left (fun h b => (Z.lxor h b * 16777619) mod 2 ^ 32) input (h mod 2 ^ 32).
Proof.
  induction input as [| c t IH]; intros h Hall; simpl.
  - reflexivity.
  - inversion Hall as [| ? ? Hc Ht]; subst.
    rewrite IH by assumption. now rewrite fnv_round_mod.
Qed.

(** The source's hash is unsigned FNV-1a with one round per code unit. *)
Lemma fnv1a32_code_units (input : list Z) :
  Forall (fun c => 0 <= c < 2 ^ 32) input -> fnv1a32 input = FNV1a32 input.
Proof.
  intros Hall. unfold fnv1a32, toUint32, FNV1a32.
  rewrite fnv_fold_mod by assumption. reflexivity.
Qed.

Lemma fnv1a32_range (input : list Z) : 0 <= fnv1a32 input < 2 ^ 32.
Proof. unfold fnv1a32, toUint32. apply Z.mod_pos_bound. lia. Qed.

Lemma utf8_ascii (s : list Z) : forallb isAscii s = true -> utf8 s = s.
Proof.
  induction s as [| c t IH]; simpl; intros H; [reflexivity |].
  apply andb_prop in H as [Hc Ht].
  unfold isAscii in Hc. apply andb_prop in Hc as [H0 H1].
  apply Z.leb_le in H0. apply Z.ltb_lt in H1.
  unfold isHighSurrogate, isLowSurrogate.
  replace (55296 <=? c) with false by (symmetry; apply Z.leb_gt; lia).
  replace (56320 <=? c) with false by (symmetry; apply Z.leb_gt; lia).
  simpl. unfold utf8_of_codepoint.
  replace (c <? 128) with true by (symmetry; apply Z.ltb_lt; lia).
  simpl. now rewrite IH.
Qed.

Lemma code_units_range (s : list Z) :
  forallb isCodeUnit s = true -> Forall (fun c => 0 <= c < 2 ^ 32) s.
Proof.
  induction s as [| c t IH]; simpl; intros H; constructor.
  - apply andb_prop in H as [Hc _]. unfold isCodeUnit in Hc.
    apply andb_prop in Hc as [H0 H1].
    apply Z.leb_le in H0. apply Z.ltb_lt in H1. lia.
  - apply IH. now apply andb_prop in H as [_ Ht].
Qed.

(** C6 (as amended): the shard id of a document URI is the 32-bit FNV-1a
    hash of its sequence of UTF-16 code units, one round per code unit,
    modulo the shard count; when the URI is made of ASCII characters only,
    that is the FNV-1a hash of its UTF-8 bytes modulo the shard count. *)
Theorem C6_shard_id_is_fnv1a_of_code_units (shardCount : Z) (docUri : list Z) :
  forallb isCodeUnit docUri = true ->
  getShardId shardCount docUri = Z.rem (FNV1a32 docUri) shardCount
  /\ (forallb isAscii docUri = true ->
      getShardId shardCount docUri = shardId_spec shardCount docUri).
Proof.
  intros Hunits.
  assert (Hcode : getShardId shardCount docUri = Z.rem (FNV1a32 docUri) shardCount).
  { unfold getShardId. now rewrite fnv1a32_code_units by now apply code_units_range. }
  split; [exact Hcode |].
  intros Hascii. rewrite Hcode. unfold shardId_spec. now rewrite utf8_ascii.
Qed.

(** The URI of the router's unit test with Japanese characters, and an
    ASCII one. *)
Lemma C6_shard_id_is_fnv1a_of_code_units_witness :
  forallb isCodeUnit ([26085; 26412; 35486] ++ JS.lit ".md") = true
  /\ getShardId 128 ([26085; 26412; 35486] ++ JS.lit ".md")
     = Z.rem (FNV1a32 ([26085; 26412; 35486] ++ JS.lit ".md")) 128.
Proof.
  split; [reflexivity |].
  apply (C6_shard_id_is_fnv1a_of_code_units 128 ([26085; 26412; 35486] ++ JS.lit ".md"));
    reflexivity.
Defined.

Example shard_id_of_ascii_uri :
  getShardId 128 (JS.lit "notes/test.md") = shardId_spec 128 (JS.lit "notes/test.md").
Proof. vm_compute. reflexivity. Qed.

(** C6 as stated fails on a non-ASCII URI: for the one-character string
    U+00E9 the source hashes the single code unit 0xE9, the UTF-8 reading
    hashes the two bytes C3 A9, and the shard ids differ (68 and 65). *)
Lemma C6_non_ascii_counterexample :
  getShardId 128 [233] = 68 /\ shardId_spec 128 [233] = 65 /\
  getShardId 128 [233] <> shardId_spec 128 [233].
Proof. vm_compute. repeat split; discriminate. Qed.

End ShardRouterFacts.

(** ** FenceDetector *)

Section FenceDetectorFacts.
Import JS FenceDetector.

Lemma splitOn_nonempty (sep : Z) (s : list Z) : splitOn sep s <> [].
Proof.
  destruct s as [| c s]; simpl; [discriminate |].
  destruct (c =? sep); [discriminate |].
  destruct (splitOn sep s); discriminate.
Qed.

(** The lines of a text and the newlines between them add up to the text. *)
Lemma linesLength_splitOn (sep : Z) (s : list Z) :
  linesLength (splitOn sep s) = List.length s.
Proof.
  induction s as [| c s IH]; simpl; [reflexivity |].
  pose proof (splitOn_nonempty sep s) as Hne.
  destruct (c =? sep).
  - simpl. destruct (splitOn sep s) as [| l ls]; [congruence |]. simpl in *. lia.
  - destruct (splitOn sep s) as [| l ls]; [congruence |]. simpl in *. lia.
Qed.

Lemma runLength_le (c : Z) (s : list Z) : (runLength c s <= List.length s)%nat.
Proof.
  induction s as [| d s IH]; simpl; [lia |]. destruct (d =? c); lia.
Qed.

Lemma matchFenceRun_length (c : Z) (s : list Z) (n : nat) (lang : option (list Z)) :
  matchFenceRun c s = Some (n, lang) -> (3 <= List.length s)%nat.
Proof.
  unfold matchFenceRun. destruct (3 <=? runLength c s)%nat eqn:E; [| discriminate].
  intros _. apply Nat.leb_le in E. pose proof (runLength_le c s). lia.
Qed.

(** A line that opens a fence has at least three code units. *)
Lemma matchFenceOpen_length (line : list Z) (m : FenceOpen) :
  matchFenceOpen line = Some m -> (3 <= List.length line)%nat.
Proof.
  unfold matchFenceOpen, sliceFrom.
  assert (Hdrop : forall k, (List.length (drop k line) <= List.length line)%nat).
  { intros k. rewrite length_drop. lia. }
  destruct (matchFenceRun BACKTICK _) as [[n lang] |] eqn:Eb.
  - intros _. apply matchFenceRun_length in Eb. specialize (Hdrop (leadingWhitespace line)). lia.
  - destruct (matchFenceRun TILDE _) as [[n lang] |] eqn:Et; [| discriminate].
    intros _. apply matchFenceRun_length in Et. specialize (Hdrop (leadingWhitespace line)). lia.
Qed.

(** The scan keeps the open fence's start before the current offset and
    only emits regions that end after they start. *)
Lemma detectLoop_regions (lines : list (list Z)) :
  forall currentOffset inFence regions,
    Forall nonEmptyRegion regions ->
    (forall f, inFence = Some f -> (fenceStart f < currentOffset)%nat) ->
    Forall nonEmptyRegion (detectLoop lines currentOffset inFence regions).2
    /\ (forall f, (detectLoop lines currentOffset inFence regions).1 = Some f ->
                  (fenceStart f < currentOffset + linesLength lines)%nat).
Proof.
  induction lines as [| line rest IH]; intros off inFence regions Hregs Hopen.
  - simpl. split; [exact Hregs |]. intros f Hf. specialize (Hopen f Hf). lia.
  - cbn [detectLoop linesLength].
    set (stepLen := match rest with [] => 0%nat | _ :: _ => 1%nat end).
    destruct inFence as [f |].
    + specialize (Hopen f eq_refl).
      destruct (matchFenceClose line (fenceChar f) (fenceLength f)).
      * destruct (IH (off + (List.length line + stepLen))%nat None
                    (regions ++ [FencedRegion.mk (fenceStart f) (off + List.length line)
                                   (fenceLanguage f)])) as [H1 H2].
        { apply Forall_app. split; [exact Hregs |].
          constructor; [unfold nonEmptyRegion; simpl; lia | constructor]. }
        { discriminate. }
        split; [exact H1 |]. intros g Hg. specialize (H2 g Hg). lia.
      * destruct (IH (off + (List.length line + stepLen))%nat (Some f) regions Hregs)
          as [H1 H2].
        { intros g [= <-]. lia. }
        split; [exact H1 |]. intros g Hg. specialize (H2 g Hg). lia.
    + destruct (matchFenceOpen line) as [m |] eqn:Em.
      * destruct (isAtLineStart m).
        -- apply matchFenceOpen_length in Em.
           destruct (IH (off + (List.length line + stepLen))%nat
                       (Some (mkOpenFence off (char m) (FenceDetector.length m) (language m)))
                       regions Hregs) as [H1 H2].
           { intros g [= <-]. simpl. lia. }
           split; [exact H1 |]. intros g Hg. specialize (H2 g Hg). lia.
        -- destruct (IH (off + (List.length line + stepLen))%nat None regions Hregs)
             as [H1 H2]; [discriminate |].
           split; [exact H1 |]. intros g Hg. specialize (H2 g Hg). lia.
      * destruct (IH (off + (List.length line + stepLen))%nat None regions Hregs)
          as [H1 H2]; [discriminate |].
        split; [exact H1 |]. intros g Hg. specialize (H2 g Hg). lia.
Qed.

(** Every region [detect] reports ends after it starts. *)
Lemma detect_regions_nonempty (text : list Z) :
  Forall nonEmptyRegion (detect text).
Proof.
  unfold detect.
  destruct (detectLoop_regions (splitOn LF text) 0 None [] (Forall_nil_2 _))
    as [Hregs Hopen]; [discriminate |].
  rewrite linesLength_splitOn in Hopen.
  destruct (detectLoop (splitOn LF text) 0 None []) as [inFence regions]. simpl in *.
  destruct inFence as [f |]; [| exact Hregs].
  apply Forall_app. split; [exact Hregs |].
  constructor; [| constructor]. unfold nonEmptyRegion. simpl.
  specialize (Hopen f eq_refl). lia.
Qed.

End FenceDetectorFacts.

(** ** Chunker *)

Section ChunkerFacts.
Import JS Chunker.

Variable config : ChunkerConfig.t.
Variable tokenCounter : list Z -> Z.
Variable sha256hex : list Z -> list Z.
Variable docUri : list Z.
Variable node : HeadingNode.t.
Variable contentStart : nat.
Variable shardId : Z.

Local Abbreviation createChunk' ps :=
  (createChunk tokenCounter sha256hex ps docUri node contentStart shardId).

(** [createChunk] returns on every non-empty list of paragraphs. *)
Lemma createChunk_nonempty (ps : list Paragraph.t) :
  ps <> [] -> exists c, createChunk' ps = Some c.
Proof.
  intros Hne. unfold createChunk.
  destruct ps as [| p ps']; [congruence |].
  destruct (last (p :: ps')) as [lp |] eqn:Hlast.
  - eexists. reflexivity.
  - apply last_None in Hlast. discriminate.
Qed.

Lemma createChunk_fields (ps : list Paragraph.t) (c : Chunk.t) :
  createChunk' ps = Some c ->
  exists firstPara lastPara,
    head ps = Some firstPara /\ last ps = Some lastPara /\
    Chunk.startChar c = (contentStart + Paragraph.startOffset firstPara)%nat /\
    Chunk.endChar c =
      (contentStart + Paragraph.startOffset lastPara
       + length (Paragraph.text lastPara))%nat /\
    Chunk.text c = join [LF; LF] (map Paragraph.text ps).
Proof.
  unfold createChunk. destruct ps as [| p ps']; [discriminate |].
  destruct (last (p :: ps')) as [lp |] eqn:Hlast; [| discriminate].
  intros [= <-]. exists p, lp. simpl. auto.
Qed.

(** The loop of [accumulateChunks] cuts the paragraphs it is given, after
    those already collected in [currentParagraphs], into consecutive
    groups and turns every finished group into one chunk. *)
Lemma accumulateLoop_groups (ps : list Paragraph.t) :
  forall chunks cur tok,
  exists groups cs cur',
    accumulateLoop config tokenCounter sha256hex ps docUri node contentStart shardId
      chunks cur tok = Some (chunks ++ cs, cur') /\
    Forall2 (fun g c => createChunk' g = Some c) groups cs /\
    Forall (fun g => g <> []) groups /\
    concat groups ++ cur' = cur ++ ps /\
    (cur ++ ps <> [] -> cur' <> []).
Proof.
  induction ps as [| para rest IH]; intros chunks cur tok; simpl.
  - exists [], [], cur. rewrite !app_nil_r. repeat split; auto.
  - destruct ((tok + tokenCounter (Paragraph.text para)
               >? ChunkerConfig.targetMaxTokens config)
              && (0 <? length cur)%nat) eqn:Hcut.
    + apply andb_prop in Hcut as [_ Hlen]. apply Nat.ltb_lt in Hlen.
      assert (Hne : cur <> []) by (destruct cur; simpl in Hlen; [lia | discriminate]).
      destruct (createChunk_nonempty cur Hne) as [c Hc]. rewrite Hc.
      destruct (IH (chunks ++ [c]) [para] (0 + tokenCounter (Paragraph.text para)))
        as (groups & cs & cur' & Hrun & Hmade & Hnonempty & Hcat & Hlast).
      exists (cur :: groups), (c :: cs), cur'.
      rewrite Hrun, <- app_assoc. simpl.
      split; [reflexivity |]. split; [constructor; assumption |].
      split; [constructor; assumption |].
      split; [rewrite <- app_assoc, Hcat; reflexivity |].
      intros _. apply Hlast. discriminate.
    + destruct (IH chunks (cur ++ [para]) (tok + tokenCounter (Paragraph.text para)))
        as (groups & cs & cur' & Hrun & Hmade & Hnonempty & Hcat & Hlast).
      exists groups, cs, cur'. rewrite Hrun.
      rewrite <- app_assoc in Hcat, Hlast. simpl in Hcat, Hlast.
      repeat split; auto.
Qed.

(** [accumulateChunks] always returns, and its chunks are made from
    consecutive non-empty groups that partition the paragraph list. *)
Lemma accumulateChunks_groups (ps : list Paragraph.t) :
  exists groups chunks,
    accumulateChunks config tokenCounter sha256hex ps docUri node contentStart shardId
      = Some chunks /\
    Forall2 (fun g c => createChunk' g = Some c) groups chunks /\
    Forall (fun g => g <> []) groups /\
    concat groups = ps.
Proof.
  unfold accumulateChunks. destruct ps as [| p ps'].
  - exists [], []. repeat split; constructor.
  - destruct (accumulateLoop_groups (p :: ps') [] [] 0)
      as (groups & cs & cur' & Hrun & Hmade & Hnonempty & Hcat & Hlast).
    rewrite Hrun. simpl in Hcat, Hlast |- *.
    assert (Hne : cur' <> []) by (apply Hlast; discriminate).
    destruct (createChunk_nonempty cur' Hne) as [c Hc].
    destruct cur' as [| q cur'']; [congruence |].
    replace (0 <? length (q :: cur''))%nat with true by reflexivity.
    rewrite Hc.
    exists (groups ++ [q :: cur'']), (cs ++ [c]). repeat split.
    + apply Forall2_app; [assumption | constructor; [assumption | constructor]].
    + apply Forall_app. split; [assumption | constructor; [discriminate | constructor]].
    + rewrite concat_app. simpl. rewrite app_nil_r. exact Hcat.
Qed.

End ChunkerFacts.

Section SplitFacts.
Import JS Chunker.

Lemma indexOfAux_found (needle s : list Z) :
  forall i j, indexOfAux needle s i = Some j ->
    (i <= j)%nat /\ startsWith (drop (j - i) s) needle = true.
Proof.
  induction s as [| c s IH]; intros i j; simpl.
  - destruct (startsWith [] needle) eqn:E; [| discriminate].
    intros [= <-]. rewrite Nat.sub_diag. simpl. auto.
  - destruct (startsWith (c :: s) needle) eqn:E.
    + intros [= <-]. rewrite Nat.sub_diag. simpl. auto.
    + intros Hrec. destruct (IH _ _ Hrec) as [Hle Hstarts]. split; [lia |].
      replace (j - i)%nat with (S (j - S i)) by lia. exact Hstarts.
Qed.

Lemma indexOf_found (text needle : list Z) (pos j : nat) :
  (pos <= List.length text)%nat ->
  indexOf text needle pos = Some j ->
  (pos <= j)%nat /\ startsWith (drop j text) needle = true.
Proof.
  intros Hpos. unfold indexOf. rewrite Nat.min_l by exact Hpos.
  intros Hfind. destruct (indexOfAux_found _ _ _ _ Hfind) as [Hle Hstarts].
  split; [exact Hle |]. rewrite drop_drop in Hstarts.
  now replace (pos + (j - pos))%nat with j in Hstarts by lia.
Qed.

Lemma startsWith_two_newlines (s : list Z) :
  startsWith s [LF; LF] = true -> (2 <= runLength LF s)%nat.
Proof.
  destruct s as [| c [| d s]]; cbn [startsWith]; try discriminate.
  - rewrite andb_false_r. discriminate.
  - intros H. apply andb_prop in H as [Hc H]. apply andb_prop in H as [Hd _].
    apply Z.eqb_eq in Hc, Hd. subst c d. cbn [runLength]. rewrite !Z.eqb_refl. lia.
Qed.

Variable text : list Z.
Variable fencedRegions : list FencedRegion.t.
Hypothesis regions_nonempty : Forall FenceDetector.nonEmptyRegion fencedRegions.

(** With enough fuel for the characters that remain, the loop of
    [splitIntoParagraphs] returns. *)
Lemma splitLoop_returns (fuel : nat) :
  forall pos paragraphs,
    (1 <= fuel)%nat ->
    ((pos < List.length text)%nat -> (List.length text + 1 - pos <= fuel)%nat) ->
    is_Some (splitLoop fuel text fencedRegions pos paragraphs).
Proof.
  induction fuel as [| fuel IH]; intros pos paragraphs Hfuel Hroom; [lia |].
  cbn [splitLoop].
  destruct (pos <? List.length text)%nat eqn:Hpos; simpl; [| eauto].
  apply Nat.ltb_lt in Hpos. specialize (Hroom Hpos).
  assert (Hnext : forall pos' ps, (pos < pos')%nat ->
            is_Some (splitLoop fuel text fencedRegions pos' ps)).
  { intros pos' ps Hlt. apply IH; lia. }
  destruct (List.find _ fencedRegions) as [fence |] eqn:Hfence.
  - apply find_some in Hfence as [Hin Hstart]. apply Nat.eqb_eq in Hstart.
    rewrite Forall_forall in regions_nonempty.
    specialize (regions_nonempty fence (proj2 (list_elem_of_In _ _) Hin)).
    unfold FenceDetector.nonEmptyRegion in regions_nonempty.
    apply Hnext. unfold skipNewlines. lia.
  - destruct (List.find (fun r => (pos <? FencedRegion.startChar r)%nat) fencedRegions)
      as [nf |] eqn:Hnf.
    + apply find_some in Hnf as [_ Hafter]. apply Nat.ltb_lt in Hafter.
      destruct (indexOf text [LF; LF] pos) as [nb |] eqn:Hnb.
      * destruct (FencedRegion.startChar nf <? nb)%nat.
        -- apply Hnext. unfold skipNewlines. lia.
        -- destruct (indexOf_found _ _ _ _ (Nat.lt_le_incl _ _ Hpos) Hnb) as [Hle Hstarts].
           apply startsWith_two_newlines in Hstarts.
           apply Hnext. unfold skipNewlines. lia.
      * apply Hnext. unfold skipNewlines. lia.
    + destruct (indexOf text [LF; LF] pos) as [nb |] eqn:Hnb; [| eauto].
      destruct (indexOf_found _ _ _ _ (Nat.lt_le_incl _ _ Hpos) Hnb) as [Hle Hstarts].
      apply startsWith_two_newlines in Hstarts.
      apply Hnext. unfold skipNewlines. lia.
Qed.

Lemma splitIntoParagraphs_returns :
  is_Some (splitIntoParagraphs text fencedRegions).
Proof. unfold splitIntoParagraphs. apply splitLoop_returns; lia. Qed.

End SplitFacts.

Section OrderFacts.
Import JS Chunker.

Lemma StronglySorted_snoc {A : Type} (R : A -> A -> Prop) (l : list A) (x : A) :
  StronglySorted R l -> Forall (fun y => R y x) l -> StronglySorted R (l ++ [x]).
Proof.
  induction 1 as [| y l Hs IH Hall]; intros Hx; simpl.
  - repeat constructor.
  - inversion Hx as [| ? ? Hyx Hlx]; subst. constructor; [now apply IH |].
    apply Forall_app. split; [exact Hall | repeat constructor; exact Hyx].
Qed.

Lemma StronglySorted_app_cross {A : Type} (R : A -> A -> Prop) (l1 l2 : list A) :
  StronglySorted R (l1 ++ l2) ->
  StronglySorted R l2 /\ (forall x y, In x l1 -> In y l2 -> R x y).
Proof.
  induction l1 as [| a l1 IH]; simpl; intros Hs.
  - split; [exact Hs | contradiction].
  - inversion Hs as [| ? ? Hrest Hall]; subst.
    destruct (IH Hrest) as [H2 Hcross]. split; [exact H2 |].
    intros x y [<- | Hx] Hy.
    + rewrite Forall_forall in Hall. apply Hall, list_elem_of_In, in_or_app. now right.
    + now apply Hcross.
Qed.

Lemma length_slice (s : list Z) (a b : nat) : (List.length (slice s a b) <= b - a)%nat.
Proof. unfold slice. rewrite length_take. lia. Qed.

Lemma collected_later (paragraphs : list Paragraph.t) (pos pos' : nat) :
  (pos <= pos')%nat -> collected paragraphs pos -> collected paragraphs pos'.
Proof.
  intros Hle [Hs Hb]. split; [exact Hs |].
  eapply Forall_impl; [exact Hb | intros p Hp; simpl in *; lia].
Qed.

Lemma collected_push (paragraphs : list Paragraph.t) (pos pos' : nat) (t : list Z) :
  (pos + List.length t <= pos')%nat ->
  collected paragraphs pos -> collected (paragraphs ++ [Paragraph.mk t pos]) pos'.
Proof.
  intros Hle [Hs Hb]. split.
  - apply StronglySorted_snoc; [exact Hs |].
    eapply Forall_impl; [exact Hb | intros p Hp; unfold endsBefore; simpl in *; lia].
  - apply Forall_app. split.
    + eapply Forall_impl; [exact Hb | intros p Hp; simpl in *; lia].
    + repeat constructor. unfold paragraphEnd. simpl. lia.
Qed.

Lemma collected_pushIfNotBlank (paragraphs : list Paragraph.t) (pos pos' : nat) (t : list Z) :
  (pos + List.length t <= pos')%nat ->
  collected paragraphs pos -> collected (pushIfNotBlank paragraphs t pos) pos'.
Proof.
  intros Hle Hc. unfold pushIfNotBlank. destruct (trim t).
  - apply (collected_later _ pos); [lia | exact Hc].
  - now apply collected_push.
Qed.

Variable text : list Z.
Variable fencedRegions : list FencedRegion.t.
Hypothesis regions_nonempty : Forall FenceDetector.nonEmptyRegion fencedRegions.

(** The paragraphs [splitIntoParagraphs] returns follow one another in the
    text: each ends at or before the start of the next. *)
Lemma splitLoop_ordered (fuel : nat) :
  forall pos paragraphs out,
    collected paragraphs pos ->
    splitLoop fuel text fencedRegions pos paragraphs = Some out ->
    StronglySorted endsBefore out.
Proof.
  induction fuel as [| fuel IH]; intros pos paragraphs out Hc; [discriminate |].
  cbn [splitLoop].
  destruct (pos <? List.length text)%nat eqn:Hpos; simpl.
  2:{ intros [= <-]. apply Hc. }
  apply Nat.ltb_lt in Hpos.
  destruct (List.find _ fencedRegions) as [fence |] eqn:Hfence.
  - apply find_some in Hfence as [Hin Hstart]. apply Nat.eqb_eq in Hstart.
    rewrite Forall_forall in regions_nonempty.
    specialize (regions_nonempty fence (proj2 (list_elem_of_In _ _) Hin)).
    unfold FenceDetector.nonEmptyRegion in regions_nonempty.
    apply IH. rewrite Hstart. apply collected_push; [| exact Hc].
    pose proof (length_slice text pos (FencedRegion.endChar fence)).
    unfold skipNewlines. lia.
  - assert (Hstep : forall nb, (pos <= nb)%nat ->
              splitLoop fuel text fencedRegions (skipNewlines text nb)
                (pushIfNotBlank paragraphs (slice text pos nb) pos) = Some out ->
              StronglySorted endsBefore out).
    { intros nb Hle. apply IH. apply collected_pushIfNotBlank; [| exact Hc].
      pose proof (length_slice text pos nb). unfold skipNewlines. lia. }
    destruct (List.find (fun r => (pos <? FencedRegion.startChar r)%nat) fencedRegions)
      as [nf |] eqn:Hnf.
    + apply find_some in Hnf as [_ Hafter]. apply Nat.ltb_lt in Hafter.
      destruct (indexOf text [LF; LF] pos) as [nb |] eqn:Hnb.
      * destruct (FencedRegion.startChar nf <? nb)%nat; [apply Hstep; lia |].
        apply Hstep. now apply (indexOf_found text [LF; LF] pos nb (Nat.lt_le_incl _ _ Hpos)).
      * apply Hstep. lia.
    + destruct (indexOf text [LF; LF] pos) as [nb |] eqn:Hnb.
      * apply Hstep. now apply (indexOf_found text [LF; LF] pos nb (Nat.lt_le_incl _ _ Hpos)).
      * intros [= <-].
        apply (collected_pushIfNotBlank paragraphs pos
                 (pos + List.length (sliceFrom text pos))); [lia | exact Hc].
Qed.

Lemma splitIntoParagraphs_ordered (out : list Paragraph.t) :
  splitIntoParagraphs text fencedRegions = Some out -> StronglySorted endsBefore out.
Proof.
  unfold splitIntoParagraphs. apply splitLoop_ordered. split; constructor.
Qed.

End OrderFacts.

Section ChunkOrderFacts.
Import JS Chunker.
Variable tokenCounter : list Z -> Z.
Variable sha256hex : list Z -> list Z.
Variable docUri : list Z.
Variable node : HeadingNode.t.
Variable contentStart : nat.
Variable shardId : Z.

(** Chunks made from consecutive groups of ordered paragraphs are ordered
    too: each ends at or before the start of every later one. *)
Lemma chunks_of_groups_ordered (groups : list (list Paragraph.t)) :
  forall chunks,
    Forall2 (fun g c =>
               createChunk tokenCounter sha256hex g docUri node contentStart shardId
               = Some c) groups chunks ->
    StronglySorted endsBefore (concat groups) ->
    StronglySorted chunkEndsBefore chunks.
Proof.
  induction groups as [| g gs IH]; intros chunks Hmade Hsorted.
  - inversion Hmade; subst. constructor.
  - inversion Hmade as [| ? c ? cs Hc Hcs]; subst. simpl in Hsorted.
    destruct (StronglySorted_app_cross _ _ _ Hsorted) as [Hgs Hcross].
    constructor; [now apply IH |].
    apply createChunk_fields in Hc as (fp & lp & _ & Hlast & _ & Hend & _).
    clear IH Hmade Hsorted Hgs. induction Hcs as [| g' c' gs' cs' Hc' _ IHcs].
    + constructor.
    + constructor.
      * apply createChunk_fields in Hc' as (fp' & lp' & Hhead' & _ & Hstart' & _).
        unfold chunkEndsBefore. rewrite Hend, Hstart'.
        assert (Hrel : endsBefore lp fp').
        { apply Hcross.
          - apply list_elem_of_In. eapply last_Some_elem_of. exact Hlast.
          - simpl. apply in_or_app. left. apply list_elem_of_In.
            eapply head_Some_elem_of. exact Hhead'. }
        unfold endsBefore, paragraphEnd in Hrel. lia.
      * apply IHcs. intros x y Hx Hy. apply Hcross; [exact Hx |].
        simpl. apply in_or_app. now right.
Qed.

End ChunkOrderFacts.

(** The paragraphs of a node, as the repository's fence detector and
    [splitIntoParagraphs] produce them, are in order. *)
Lemma nodeParagraphs_ordered (node : HeadingNode.t) (normalizedText : list Z)
    (paragraphs : list Paragraph.t) :
  Chunker.nodeParagraphs FenceDetector.detect node normalizedText = Some paragraphs ->
  StronglySorted Chunker.endsBefore paragraphs.
Proof.
  unfold Chunker.nodeParagraphs.
  destruct (_ <=? _)%nat; [intros [= <-]; constructor |].
  destruct (JS.trim _); [intros [= <-]; constructor |].
  apply splitIntoParagraphs_ordered, detect_regions_nonempty.
Qed.

(** [chunkNode] is [accumulateChunks] on the node's paragraphs. *)
Lemma chunkNode_nodeParagraphs (config : ChunkerConfig.t)
    (detect : list Z -> list FencedRegion.t) (tokenCounter : list Z -> Z)
    (sha256hex : list Z -> list Z) (docUri : list Z) (node : HeadingNode.t)
    (normalizedText : list Z) (shardId : Z) :
  Chunker.chunkNode config detect tokenCounter sha256hex docUri node normalizedText shardId
  = match Chunker.nodeParagraphs detect node normalizedText with
    | Some paragraphs =>
        Chunker.accumulateChunks config tokenCounter sha256hex paragraphs docUri node
          (Chunker.findContentStart node normalizedText) shardId
    | None => None
    end.
Proof.
  unfold Chunker.chunkNode, Chunker.nodeParagraphs.
  destruct (_ <=? _)%nat; [reflexivity |].
  destruct (JS.trim _); reflexivity.
Qed.

(** With the fence detector of the repository, [chunkNode] returns on
    every document and every heading node. *)
Lemma chunkNode_returns (config : ChunkerConfig.t) (tokenCounter : list Z -> Z)
    (sha256hex : list Z -> list Z) (docUri : list Z) (node : HeadingNode.t)
    (normalizedText : list Z) (shardId : Z) :
  is_Some (Chunker.chunkNode config FenceDetector.detect tokenCounter sha256hex docUri node
             normalizedText shardId).
Proof.
  unfold Chunker.chunkNode.
  destruct (_ <=? _)%nat; [eauto |].
  destruct (JS.trim _); [eauto |].
  match goal with
  | |- context [Chunker.splitIntoParagraphs ?t ?r] =>
      destruct (splitIntoParagraphs_returns t r (detect_regions_nonempty _)) as [ps Hps];
      rewrite Hps
  end.
  destruct (accumulateChunks_groups config tokenCounter sha256hex docUri node
              (Chunker.findContentStart node normalizedText) shardId ps)
    as (groups & chunks & Hacc & _).
  rewrite Hacc. eauto.
Qed.


(** The chunker never reads [overlapTokens]. *)
Lemma accumulateChunks_ignores_overlapTokens
    (config : ChunkerConfig.t) (overlap : Z) tokenCounter sha256hex ps docUri node
    contentStart shardId :
  Chunker.accumulateChunks
    (ChunkerConfig.mk (ChunkerConfig.targetMinTokens config)
       (ChunkerConfig.targetMaxTokens config) (ChunkerConfig.hardMaxTokens config)
       (ChunkerConfig.minPreferredTokens config) overlap)
    tokenCounter sha256hex ps docUri node contentStart shardId
  = Chunker.accumulateChunks config tokenCounter sha256hex ps docUri node contentStart shardId.
Proof.
  unfold Chunker.accumulateChunks.
  assert (Hloop : forall ps chunks cur tok,
    Chunker.accumulateLoop
      (ChunkerConfig.mk (ChunkerConfig.targetMinTokens config)
         (ChunkerConfig.targetMaxTokens config) (ChunkerConfig.hardMaxTokens config)
         (ChunkerConfig.minPreferredTokens config) overlap)
      tokenCounter sha256hex ps docUri node contentStart shardId chunks cur tok
    = Chunker.accumulateLoop config tokenCounter sha256hex ps docUri node contentStart
        shardId chunks cur tok).
  { clear ps. induction ps as [| p rest IH]; intros chunks cur tok; simpl; [reflexivity |].
    destruct (_ && _); [| apply IH].
    destruct (Chunker.createChunk _ _ _ _ _ _ _); [apply IH | reflexivity]. }
  destruct ps; [reflexivity |]. now rewrite Hloop.
Qed.

(** C4 (as amended): [chunkNode] returns on every node, and its chunks are
    cut from consecutive, non-empty groups of the node's paragraph list
    whose concatenation is the whole list: a chunk after the first begins
    with the first paragraph that was not put into the previous chunk, and
    every chunk ends at or before the start of each later one, so no text
    of a previous chunk is repeated.  [accumulateChunks] cuts every
    paragraph list this way, and its result does not depend on
    [overlapTokens]. *)
Theorem C4_chunks_partition_paragraphs
    (config : ChunkerConfig.t) (tokenCounter : list Z -> Z) (sha256hex : list Z -> list Z)
    (docUri : list Z) (node : HeadingNode.t) (normalizedText : list Z) (shardId : Z) :
  (exists paragraphs groups chunks,
     Chunker.nodeParagraphs FenceDetector.detect node normalizedText = Some paragraphs
     /\ Chunker.chunkNode config FenceDetector.detect tokenCounter sha256hex docUri node
          normalizedText shardId = Some chunks
     /\ Forall2 (fun g c =>
                   Chunker.createChunk tokenCounter sha256hex g docUri node
                     (Chunker.findContentStart node normalizedText) shardId = Some c)
          groups chunks
     /\ Forall (fun g => g <> []) groups
     /\ concat groups = paragraphs
     /\ StronglySorted Chunker.chunkEndsBefore chunks)
  /\ (forall paragraphs contentStart,
        exists groups chunks,
          Chunker.accumulateChunks config tokenCounter sha256hex paragraphs docUri node
            contentStart shardId = Some chunks
          /\ Forall2 (fun g c =>
                        Chunker.createChunk tokenCounter sha256hex g docUri node contentStart
                          shardId = Some c) groups chunks
          /\ Forall (fun g => g <> []) groups
          /\ concat groups = paragraphs)
  /\ (forall paragraphs contentStart overlap,
        Chunker.accumulateChunks
          (ChunkerConfig.mk (ChunkerConfig.targetMinTokens config)
             (ChunkerConfig.targetMaxTokens config) (ChunkerConfig.hardMaxTokens config)
             (ChunkerConfig.minPreferredTokens config) overlap)
          tokenCounter sha256hex paragraphs docUri node contentStart shardId
        = Chunker.accumulateChunks config tokenCounter sha256hex paragraphs docUri node
            contentStart shardId).
Proof.
  split; [| split].
  - destruct (chunkNode_returns config tokenCounter sha256hex docUri node normalizedText
                shardId) as [chunks Hchunks].
    rewrite chunkNode_nodeParagraphs in Hchunks.
    destruct (Chunker.nodeParagraphs FenceDetector.detect node normalizedText)
      as [paragraphs |] eqn:Hps; [| discriminate].
    destruct (accumulateChunks_groups config tokenCounter sha256hex docUri node
                (Chunker.findContentStart node normalizedText) shardId paragraphs)
      as (groups & chunks' & Hacc & Hmade & Hne & Hcat).
    exists paragraphs, groups, chunks'.
    rewrite chunkNode_nodeParagraphs, Hps.
    repeat split; try assumption.
    eapply chunks_of_groups_ordered; [exact Hmade |].
    rewrite Hcat. eapply nodeParagraphs_ordered. exact Hps.
  - intros paragraphs contentStart. apply accumulateChunks_groups.
  - intros paragraphs contentStart overlap. apply accumulateChunks_ignores_overlapTokens.
Qed.

(** C4 as stated fails: with the default configuration (overlapTokens =
    100) and two paragraphs of 600 tokens each, the node yields two chunks,
    [4, 2405) and [2407, 4808); the second one holds the second paragraph
    only and does not begin inside the first: nothing of the previous
    chunk is repeated. *)
Lemma C4_second_chunk_has_no_overlap :
  exists c1 c2,
    Chunker.chunkNode Chunker.DEFAULT_CHUNKER_CONFIG FenceDetector.detect
      Tokenizer.approximateTokenCount (fun _ => [])
      (JS.lit "t.md") (Examples.whole_document_node Examples.doc_two_long_paragraphs)
      Examples.doc_two_long_paragraphs 0
    = Some [c1; c2]
    /\ (Chunk.startChar c1, Chunk.endChar c1) = (4%nat, 2405%nat)
    /\ (Chunk.startChar c2, Chunk.endChar c2) = (2407%nat, 4808%nat)
    /\ Chunk.text c1 = [10] ++ replicate 2400 65
    /\ Chunk.text c2 = replicate 2400 66 ++ [10]
    /\ Chunker.startsInside c1 c2 = false.
Proof.
  eexists _, _. split; [vm_compute; reflexivity |].
  repeat split; vm_compute; reflexivity.
Qed.

(** C1 on the code: for the normalized text "# H\n\na\n\n\nb\n" (two
    paragraphs separated by three newlines) the single chunk spans
    [4, 11), its text is the two paragraphs joined by two newlines (six
    code units), and the slice of the normalized text over [4, 11) has
    seven: the text field is not the slice. *)
Theorem C1_chunk_text_is_not_the_slice (sha256hex : list Z -> list Z) :
  exists c,
    Chunker.chunkNode Chunker.DEFAULT_CHUNKER_CONFIG FenceDetector.detect
      Tokenizer.approximateTokenCount sha256hex
      (JS.lit "t.md") (Examples.whole_document_node Examples.doc_three_newlines) Examples.doc_three_newlines 0
    = Some [c] /\
    Chunk.startChar c = 4%nat /\ Chunk.endChar c = 11%nat /\
    Chunk.text c = [10; 97; 10; 10; 98; 10] /\
    JS.slice Examples.doc_three_newlines (Chunk.startChar c) (Chunk.endChar c)
    = [10; 97; 10; 10; 10; 98; 10] /\
    JS.slice Examples.doc_three_newlines (Chunk.startChar c) (Chunk.endChar c) <> Chunk.text c.
Proof.
  eexists. split; [vm_compute; reflexivity |].
  repeat split; try reflexivity. vm_compute. discriminate.
Qed.

(** ** The collation of the examples *)

Lemma compareCodeUnits_antisym (a : list Z) :
  forall b, 0 < Host.compareCodeUnits a b -> Host.compareCodeUnits b a <= 0.
Proof.
  induction a as [| x a IH]; intros [| y b]; simpl; try lia.
  destruct (x <? y) eqn:Exy; [lia |].
  destruct (y <? x) eqn:Eyx; [lia |].
  apply IH.
Qed.

Lemma compareCodeUnits_trans (a : list Z) :
  forall b c,
    Host.compareCodeUnits a b <= 0 -> Host.compareCodeUnits b c <= 0 ->
    Host.compareCodeUnits a c <= 0.
Proof.
  induction a as [| x a IH]; intros [| y b] [| z c]; simpl; try lia.
  destruct (x <? y) eqn:Exy; destruct (y <? x) eqn:Eyx;
    destruct (y <? z) eqn:Eyz; destruct (z <? y) eqn:Ezy;
    destruct (x <? z) eqn:Exz; destruct (z <? x) eqn:Ezx;
    rewrite ?Z.ltb_lt, ?Z.ltb_ge in *; try lia.
  apply IH.
Qed.

#[export] Instance codeUnitCollator : Collator :=
  {| localeCompare := Host.compareCodeUnits;
     localeCompare_antisym := compareCodeUnits_antisym;
     localeCompare_trans := compareCodeUnits_trans |}.

(** ** HybridScorer *)

Section HybridScorerFacts.
Import JS HybridScorer.
Context `{Collator}.




Lemma fusedCandidates_leafIds (this : HybridScorer.t) vectorResults bm25Results :
  NoDup (map HybridResult.leafId (fusedCandidates this vectorResults bm25Results)).
Proof.
  unfold fusedCandidates. rewrite map_map. simpl. rewrite map_id. apply setOf_NoDup.
Qed.

(** Every fused candidate's score is the weighted sum of its two scores. *)
Lemma fusedCandidates_score (this : HybridScorer.t) vectorResults bm25Results r :
  In r (fusedCandidates this vectorResults bm25Results) ->
  HybridResult.score r
  = (HybridWeights.vector (weights this) * HybridResult.vectorScore r
     + HybridWeights.bm25 (weights this) * HybridResult.bm25Score r)%Q.
Proof.
  unfold fusedCandidates. rewrite in_map_iff. intros (leafId & <- & _). reflexivity.
Qed.

Lemma fuse_Permutation (this : HybridScorer.t) vectorResults bm25Results :
  Permutation (fuse this vectorResults bm25Results)
    (fusedCandidates this vectorResults bm25Results).
Proof. apply sort_Permutation. Qed.

End HybridScorerFacts.

(** The two orderings of scenario S4: weights (0.7, 0.3) put [l2] (0.66)
    before [l1] (0.62), and equal scores put leaf [a] before leaf [b]. *)
Example fuse_scenario_S4 :
  map HybridResult.leafId
    (HybridScorer.fuse (HybridScorer.mk (HybridWeights.mk (7 # 10) (3 # 10)))
       [VectorResult.mk (JS.lit "l1") (5 # 10); VectorResult.mk (JS.lit "l2") (9 # 10)]
       [BM25Result.mk (JS.lit "l1") (9 # 10) None; BM25Result.mk (JS.lit "l2") (1 # 10) None])
  = [JS.lit "l2"; JS.lit "l1"]
  /\ map HybridResult.leafId
       (HybridScorer.fuse (HybridScorer.mk HybridScorer.DEFAULT_HYBRID_WEIGHTS)
          [VectorResult.mk (JS.lit "b") (5 # 10); VectorResult.mk (JS.lit "a") (5 # 10)]
          [BM25Result.mk (JS.lit "b") (5 # 10) None; BM25Result.mk (JS.lit "a") (5 # 10) None])
     = [JS.lit "a"; JS.lit "b"].
Proof. split; vm_compute; reflexivity. Qed.

(** C2 (as amended): the pipeline builds its scorer with no argument, so
    the scorer holds DEFAULT_HYBRID_WEIGHTS, which are 0.7 and 0.3, and
    every fused candidate's score is 0.7 times its vector score plus 0.3
    times its BM25 score. *)
Theorem C2_pipeline_fuses_with_seven_and_three_tenths `{Collator}
    (deps : PipelineDependencies.t) :
  exists pipeline,
    RetrievalPipeline.new deps = JS.Ok pipeline
    /\ HybridScorer.weights (RetrievalPipeline.hybridScorer pipeline)
       = HybridWeights.mk (7 # 10) (3 # 10)
    /\ forall vectorResults bm25Results r,
         In r (HybridScorer.fuse (RetrievalPipeline.hybridScorer pipeline)
                 vectorResults bm25Results) ->
         HybridResult.score r
         = ((7 # 10) * HybridResult.vectorScore r + (3 # 10) * HybridResult.bm25Score r)%Q.
Proof.
  eexists. split; [reflexivity |]. split; [reflexivity |].
  intros vectorResults bm25Results r Hin.
  apply (Permutation_in _ (fuse_Permutation _ _ _)) in Hin.
  apply fusedCandidates_score in Hin. exact Hin.
Qed.

(** C2 as stated fails: a query over one leaf with vector score 1 and no
    BM25 hit returns the score 0.7, which is not 0.75 * 1 + 0.25 * 0. *)
Lemma C2_default_weights_counterexample :
  RetrievalPipeline.new Examples.oneLeafDeps = JS.Ok Examples.oneLeafPipeline
  /\ map (fun r =>
            (Qeq_bool (SearchResult.score r) (7 # 10),
             Qeq_bool (SearchResult.score r)
               ((75 # 100) * SearchResult.vectorScore r
                + (25 # 100) * SearchResult.bm25Score r)))
       (QueryResult.results
          (RetrievalPipeline.query Host.asciiToLowerCase Examples.oneLeafPipeline 0 1
             (QueryParams.mk (JS.lit "test") 10 None)))
     = [(true, false)].
Proof. repeat split; vm_compute; reflexivity. Qed.

(** ** RetrievalPipeline *)

Section PipelineFacts.
Import JS RetrievalPipeline.

Variable toLowerCase : list Z -> list Z.






(** The loop over the fused candidates keeps those, and only those, whose
    metadata is found and passes [matchesFilters]. *)
Lemma collectWithMetadata_In (this : RetrievalPipeline.t) (filter : option Filter.t)
    (hybridResults : list HybridResult.t) (r : ResultWithMetadata.t) :
  In r (collectWithMetadata toLowerCase this filter hybridResults)
  <-> exists hr metadata,
        In hr hybridResults
        /\ PipelineDependencies.getLeafMetadata (deps this) (HybridResult.leafId hr)
           = Some metadata
        /\ matchesFilters toLowerCase metadata filter = true
        /\ r = ResultWithMetadata.mk (HybridResult.leafId hr) (HybridResult.score hr)
                 (HybridResult.vectorScore hr) (HybridResult.bm25Score hr) metadata.
Proof.
  induction hybridResults as [| hr rest IH]; simpl.
  - split; [contradiction | intros (? & ? & [] & _)].
  - destruct (PipelineDependencies.getLeafMetadata (deps this) (HybridResult.leafId hr))
      as [metadata |] eqn:Emeta.
    + destruct (matchesFilters toLowerCase metadata filter) eqn:Ematch; simpl.
      * rewrite IH. split.
        -- intros [<- | (hr' & m' & Hin & Hm & Hf & Hr)].
           ++ exists hr, metadata. auto.
           ++ exists hr', m'. auto.
        -- intros (hr' & m' & [<- | Hin] & Hm & Hf & Hr).
           ++ left. rewrite Emeta in Hm. injection Hm as <-. now subst r.
           ++ right. exists hr', m'. auto.
      * rewrite IH. split.
        -- intros (hr' & m' & Hin & Hm & Hf & Hr). exists hr', m'. auto.
        -- intros (hr' & m' & [<- | Hin] & Hm & Hf & Hr).
           ++ rewrite Emeta in Hm. injection Hm as <-. congruence.
           ++ exists hr', m'. auto.
    + rewrite IH. split.
      * intros (hr' & m' & Hin & Hm & Hf & Hr). exists hr', m'. auto.
      * intros (hr' & m' & [<- | Hin] & Hm & Hf & Hr).
        -- congruence.
        -- exists hr', m'. auto.
Qed.

End PipelineFacts.



(** The example of the specification: "Milestone" is found inside
    "Q1 -> Milestone: Launch" whatever its case, and not in
    "Story: Login". *)
Example headingPathContains_milestone :
  RetrievalPipeline.matchesFilters Host.asciiToLowerCase
    (LeafMetadata.mk (JS.lit "a.md") Examples.milestonePath 0 10)
    (Some (Filter.mk None None None (Some (JS.lit "MILESTONE")))) = true
  /\ RetrievalPipeline.matchesFilters Host.asciiToLowerCase
       (LeafMetadata.mk (JS.lit "a.md") Examples.storyPath 0 10)
       (Some (Filter.mk None None None (Some (JS.lit "Milestone")))) = false
  /\ RetrievalPipeline.matchesFilters Host.asciiToLowerCase
       (LeafMetadata.mk (JS.lit "a.md") Examples.storyPath 0 10)
       (Some (Filter.mk None (Some []) None None)) = true.
Proof. repeat split. Qed.

(** ** Empty queries *)

(** C3 (as amended): on a query that is empty after trimming,
    [RetrievalPipeline.query] returns no results and the elapsed time,
    which is not negative when the clock did not run backwards;
    [MsrlEngine.query] does not return: it throws INVALID_ARGUMENT for the
    field [query] when a snapshot is loaded and NOT_INDEXED when none is. *)
Theorem C3_empty_query_pipeline_returns_engine_rejects
    (toLowerCase : list Z -> list Z) `{Collator}
    (pipeline : RetrievalPipeline.t) (retrieval : RetrievalConfig.t)
    (startTime endTime : Z) (query : list Z) (limit : Z) (filter : option Filter.t)
    (topK maxExcerptChars : option Z) :
  JS.trim query = [] ->
  startTime <= endTime ->
  RetrievalPipeline.query toLowerCase pipeline startTime endTime
    (QueryParams.mk query limit filter)
  = QueryResult.mk [] (endTime - startTime)
  /\ 0 <= QueryResult.meta_tookMs
            (RetrievalPipeline.query toLowerCase pipeline startTime endTime
               (QueryParams.mk query limit filter))
  /\ MsrlEngine.query toLowerCase retrieval (Some pipeline) startTime endTime
       (EngineQueryParams.mk query topK maxExcerptChars filter)
     = JS.Throw (MsrlError.invalidArgument "query")
  /\ MsrlEngine.query toLowerCase retrieval None startTime endTime
       (EngineQueryParams.mk query topK maxExcerptChars filter)
     = JS.Throw MsrlError.notIndexed.
Proof.
  intros Htrim Hclock.
  assert (Hq : RetrievalPipeline.query toLowerCase pipeline startTime endTime
                 (QueryParams.mk query limit filter)
               = QueryResult.mk [] (endTime - startTime)).
  { unfold RetrievalPipeline.query. simpl. now rewrite Htrim. }
  split; [exact Hq |]. split; [rewrite Hq; simpl; lia |]. split.
  - unfold MsrlEngine.query. simpl. rewrite Htrim. now destruct query.
  - reflexivity.
Qed.

Lemma C3_empty_query_pipeline_returns_engine_rejects_witness :
  JS.trim (JS.lit "   ") = []
  /\ (3 <= 8)
  /\ RetrievalPipeline.query Host.asciiToLowerCase Examples.oneLeafPipeline 3 8
       (QueryParams.mk (JS.lit "   ") 10 None)
     = QueryResult.mk [] 5.
Proof.
  split; [reflexivity |]. split; [lia |].
  apply (C3_empty_query_pipeline_returns_engine_rejects Host.asciiToLowerCase
           Examples.oneLeafPipeline RetrievalConfig.defaults 3 8 (JS.lit "   ") 10 None
           None None); [reflexivity | lia].
Defined.

(** C3 as stated fails for the engine's query operation: with a snapshot
    loaded and the default configuration, a query of three spaces does not
    return an empty result, it throws INVALID_ARGUMENT; so does the empty
    string. *)
Lemma C3_engine_rejects_blank_query :
  MsrlEngine.query Host.asciiToLowerCase RetrievalConfig.defaults
    (Some Examples.oneLeafPipeline) 3 8
    (EngineQueryParams.mk (JS.lit "   ") None None None)
  = JS.Throw (MsrlError.mk MsrlError.INVALID_ARGUMENT (Some "query"%string))
  /\ MsrlEngine.query Host.asciiToLowerCase RetrievalConfig.defaults
       (Some Examples.oneLeafPipeline) 3 8
       (EngineQueryParams.mk [] None None None)
     = JS.Throw (MsrlError.mk MsrlError.INVALID_ARGUMENT (Some "query"%string)).
Proof. split; reflexivity. Qed.

(** ** MetadataStore *)

Section MetadataStoreFacts.
Import JS MetadataStore.

Lemma updateRow_docUri (doc : Doc.t) (row : DocRow.t) :
  DocRow.docUri (updateRow doc row) = DocRow.docUri row.
Proof. unfold updateRow. now destruct (bool_decide _). Qed.

Lemma rows_none (u : list Z) (rows : list DocRow.t) :
  existsb (fun row => bool_decide (DocRow.docUri row = u)) rows = false ->
  List.filter (fun row => bool_decide (DocRow.docUri row = u)) rows = []
  /\ ~ In u (map DocRow.docUri rows).
Proof.
  induction rows as [| r rows IH]; simpl; [auto |].
  intros Hex. apply orb_false_iff in Hex as [Hr Hrest].
  rewrite Hr. destruct (IH Hrest) as [Hfilter Hnotin]. split; [exact Hfilter |].
  intros [Heq | Hin]; [| contradiction].
  apply bool_decide_eq_false in Hr. contradiction.
Qed.

(** Under the UNIQUE constraint a conflicting upsert rewrites one row. *)
Lemma rows_updated (doc : Doc.t) (rows : list DocRow.t) :
  NoDup (map DocRow.docUri rows) ->
  existsb (fun row => bool_decide (DocRow.docUri row = Doc.docUri doc)) rows = true ->
  exists row,
    List.filter (fun row => bool_decide (DocRow.docUri row = Doc.docUri doc))
      (map (updateRow doc) rows)
    = [DocRow.mk (DocRow.docId row) (Doc.docUri doc) (Doc.mtime doc) (Doc.size doc)
         (Doc.hash doc)]
    /\ In row rows.
Proof.
  induction rows as [| r rows IH]; simpl; [discriminate |].
  intros Hnd Hex. apply NoDup_cons in Hnd as [Hnotin Hnd].
  rewrite updateRow_docUri.
  destruct (bool_decide (DocRow.docUri r = Doc.docUri doc)) eqn:Er.
  - apply bool_decide_eq_true in Er. exists r.
    unfold updateRow at 1. rewrite bool_decide_eq_true_2 by exact Er.
    rewrite Er. split; [| now left]. f_equal.
    assert (Hnone : existsb (fun row => bool_decide (DocRow.docUri row = Doc.docUri doc))
                      (map (updateRow doc) rows) = false).
    { apply not_true_is_false. intros Hc. apply existsb_exists in Hc as (y & Hy & Huri).
      apply in_map_iff in Hy as (y0 & <- & Hy0). rewrite updateRow_docUri in Huri.
      apply bool_decide_eq_true in Huri. apply Hnotin. rewrite Er, <- Huri.
      apply list_elem_of_In, in_map, Hy0. }
    apply (rows_none _ _ Hnone).
  - simpl in Hex. destruct (IH Hnd Hex) as (row & Hfilter & Hin).
    exists row. split; [exact Hfilter | now right].
Qed.

Lemma map_updateRow_docUris (doc : Doc.t) (rows : list DocRow.t) :
  map DocRow.docUri (map (updateRow doc) rows) = map DocRow.docUri rows.
Proof.
  rewrite map_map. apply map_ext. intros row. apply updateRow_docUri.
Qed.

(** After [upsertDoc] the constraint still holds and the table has one
    row for the document's URI, with the fields just given. *)
Lemma upsertDoc_one_row (db : MetadataStore.t) (doc : Doc.t) :
  uniqueDocUris db ->
  uniqueDocUris (upsertDoc db doc).2
  /\ exists docId,
       rowsFor (upsertDoc db doc).2 (Doc.docUri doc)
       = [DocRow.mk docId (Doc.docUri doc) (Doc.mtime doc) (Doc.size doc) (Doc.hash doc)].
Proof.
  unfold uniqueDocUris, rowsFor, upsertDoc. intros Hnd.
  destruct (existsb _ (docs db)) eqn:Hex; simpl.
  - split; [now rewrite map_updateRow_docUris |].
    destruct (rows_updated doc (docs db) Hnd Hex) as (row & Hfilter & _).
    exists (DocRow.docId row). exact Hfilter.
  - destruct (rows_none _ _ Hex) as [Hfilter Hnotin]. split.
    + rewrite map_app. simpl. apply NoDup_app. split; [exact Hnd |]. split.
      * intros u Hu Hsingle. apply list_elem_of_singleton in Hsingle. subst u.
        apply Hnotin, list_elem_of_In, Hu.
      * apply NoDup_singleton.
    + exists (docs_sequence db + 1). rewrite List.filter_app, Hfilter. simpl.
      now rewrite bool_decide_eq_true_2.
Qed.

(** Upserting the same record again leaves the table as it is. *)
Lemma upsertDoc_again (db : MetadataStore.t) (doc : Doc.t) :
  docs (upsertDoc (upsertDoc db doc).2 doc).2 = docs (upsertDoc db doc).2.
Proof.
  assert (Hfix : forall rows,
    Forall (fun row => DocRow.docUri row = Doc.docUri doc ->
                       row = DocRow.mk (DocRow.docId row) (DocRow.docUri row)
                               (Doc.mtime doc) (Doc.size doc) (Doc.hash doc)) rows ->
    map (updateRow doc) rows = rows).
  { induction rows as [| r rows IH]; intros Hall; simpl; [reflexivity |].
    inversion Hall as [| ? ? Hr Hrest]; subst. rewrite (IH Hrest). f_equal.
    unfold updateRow. destruct (bool_decide (DocRow.docUri r = Doc.docUri doc)) eqn:E;
      [| reflexivity].
    apply bool_decide_eq_true in E. symmetry. now apply Hr. }
  assert (Hrows : Forall (fun row => DocRow.docUri row = Doc.docUri doc ->
                       row = DocRow.mk (DocRow.docId row) (DocRow.docUri row)
                               (Doc.mtime doc) (Doc.size doc) (Doc.hash doc))
                    (docs (upsertDoc db doc).2)
                  /\ existsb (fun row => bool_decide (DocRow.docUri row = Doc.docUri doc))
                       (docs (upsertDoc db doc).2) = true).
  { unfold upsertDoc. destruct (existsb _ (docs db)) eqn:Hex; simpl.
    - split.
      + apply Forall_forall. intros row Hin Huri.
        apply list_elem_of_In, in_map_iff in Hin as (r0 & <- & _).
        rewrite updateRow_docUri in Huri. unfold updateRow.
        rewrite bool_decide_eq_true_2 by exact Huri. reflexivity.
      + rewrite <- Hex. clear Hex. induction (docs db) as [| r rows IH]; simpl; [reflexivity |].
        now rewrite updateRow_docUri, IH.
    - destruct (rows_none _ _ Hex) as [_ Hnotin]. split.
      + apply Forall_app. split.
        * apply Forall_forall. intros row Hin Huri. exfalso. apply Hnotin.
          rewrite <- Huri. apply in_map, list_elem_of_In, Hin.
        * constructor; [reflexivity | constructor].
      + rewrite existsb_app. simpl. rewrite bool_decide_eq_true_2 by reflexivity.
        apply orb_true_iff. right. reflexivity. }
  destruct Hrows as [Hall Hex].
  unfold upsertDoc at 1. rewrite Hex. simpl. now apply Hfix.
Qed.

End MetadataStoreFacts.

(** C9: on a [docs] table that respects its UNIQUE constraint, two calls
    of [upsertDoc] for the same document URI leave exactly one row for
    that URI, carrying the [mtime], [size] and [hash] of the second call;
    the constraint still holds, and a third call with the second record
    changes nothing. *)
Theorem C9_upsertDoc_twice_leaves_one_row
    (db : MetadataStore.t) (first second : Doc.t) :
  MetadataStore.uniqueDocUris db ->
  Doc.docUri first = Doc.docUri second ->
  let db' := (MetadataStore.upsertDoc (MetadataStore.upsertDoc db first).2 second).2 in
  (exists docId,
     MetadataStore.rowsFor db' (Doc.docUri second)
     = [DocRow.mk docId (Doc.docUri second) (Doc.mtime second) (Doc.size second)
          (Doc.hash second)])
  /\ MetadataStore.uniqueDocUris db'
  /\ MetadataStore.docs (MetadataStore.upsertDoc db' second).2 = MetadataStore.docs db'.
Proof.
  intros Hunique Huri db'.
  destruct (upsertDoc_one_row db first Hunique) as [Hunique1 _].
  destruct (upsertDoc_one_row _ second Hunique1) as [Hunique2 Hrow].
  split; [exact Hrow |]. split; [exact Hunique2 |].
  apply upsertDoc_again.
Qed.

Lemma C9_upsertDoc_twice_leaves_one_row_witness :
  MetadataStore.uniqueDocUris MetadataStore.empty
  /\ Doc.docUri (Doc.mk (JS.lit "a.md") 10 100 (JS.lit "h1"))
     = Doc.docUri (Doc.mk (JS.lit "a.md") 20 200 (JS.lit "h2"))
  /\ exists docId,
       MetadataStore.rowsFor
         (MetadataStore.upsertDoc
            (MetadataStore.upsertDoc MetadataStore.empty
               (Doc.mk (JS.lit "a.md") 10 100 (JS.lit "h1"))).2
            (Doc.mk (JS.lit "a.md") 20 200 (JS.lit "h2"))).2
         (JS.lit "a.md")
       = [DocRow.mk docId (JS.lit "a.md") 20 200 (JS.lit "h2")].
Proof.
  split; [constructor |]. split; [reflexivity |].
  apply (C9_upsertDoc_twice_leaves_one_row MetadataStore.empty
           (Doc.mk (JS.lit "a.md") 10 100 (JS.lit "h1"))
           (Doc.mk (JS.lit "a.md") 20 200 (JS.lit "h2"))); [constructor | reflexivity].
Defined.

(** ** SnapshotManager *)

Section SnapshotManagerFacts.
Import JS SnapshotManager.

Lemma listSnapshots_In (fs : gmap string SnapshotMeta.t) (info : SnapshotInfo.t) :
  In info (listSnapshots fs)
  <-> exists dir meta, fs !! dir = Some meta /\ info = infoOf dir meta.
Proof.
  unfold listSnapshots. split.
  - intros Hin. apply (Permutation_in _ (sort_Permutation _ _)) in Hin.
    apply in_map_iff in Hin as ([dir meta] & <- & Hentry).
    exists dir, meta. split; [| reflexivity].
    now apply elem_of_map_to_list, list_elem_of_In.
  - intros (dir & meta & Hlookup & ->).
    apply (Permutation_in _ (Permutation_sym (sort_Permutation _ _))).
    apply in_map_iff. exists (dir, meta). split; [reflexivity |].
    now apply list_elem_of_In, elem_of_map_to_list.
Qed.

Lemma getActiveSnapshot_Some (fs : gmap string SnapshotMeta.t) (info : SnapshotInfo.t) :
  getActiveSnapshot fs = Some info ->
  exists dir meta,
    fs !! dir = Some meta /\ info = infoOf dir meta
    /\ SnapshotMeta.state meta = SnapshotState.active.
Proof.
  unfold getActiveSnapshot. intros Hfind. apply find_some in Hfind as [Hin Hact].
  apply listSnapshots_In in Hin as (dir & meta & Hlookup & ->).
  exists dir, meta. repeat split; [assumption |].
  now apply bool_decide_eq_true in Hact.
Qed.

Lemma getActiveSnapshot_None (fs : gmap string SnapshotMeta.t) :
  getActiveSnapshot fs = None
  <-> (forall dir meta, fs !! dir = Some meta ->
                        SnapshotMeta.state meta <> SnapshotState.active).
Proof.
  unfold getActiveSnapshot. split.
  - intros Hfind dir meta Hlookup Hact.
    assert (Hin : In (infoOf dir meta) (listSnapshots fs)).
    { apply listSnapshots_In. eauto. }
    apply (find_none _ _ Hfind) in Hin.
    apply bool_decide_eq_false in Hin. now apply Hin.
  - intros Hnone. destruct (List.find isActive (listSnapshots fs)) as [info |] eqn:Hfind;
      [| reflexivity].
    apply getActiveSnapshot_Some in Hfind as (dir & meta & Hlookup & _ & Hact).
    exfalso. eapply Hnone; eassumption.
Qed.

(** *** Cleanup and deletion *)

Lemma deleteSnapshot_active_throws (fs : gmap string SnapshotMeta.t) (id : string)
    (meta : SnapshotMeta.t) :
  fs !! id = Some meta -> SnapshotMeta.state meta = SnapshotState.active ->
  deleteSnapshot fs id = Throw "Cannot delete active snapshot"%string.
Proof.
  intros Hlookup Hact. unfold deleteSnapshot, getSnapshotInfo. rewrite Hlookup. simpl.
  now rewrite bool_decide_eq_true_2.
Qed.

Lemma deleteSnapshot_keeps_active (fs fs' : gmap string SnapshotMeta.t) (id : string) :
  deleteSnapshot fs id = Ok fs' ->
  forall dir meta,
    fs !! dir = Some meta -> SnapshotMeta.state meta = SnapshotState.active ->
    fs' !! dir = Some meta.
Proof.
  unfold deleteSnapshot, getSnapshotInfo.
  destruct (fs !! id) as [m |] eqn:Hid; simpl.
  - destruct (bool_decide (SnapshotMeta.state m = SnapshotState.active)) eqn:Hact;
      [discriminate |].
    intros [= <-] dir meta Hlookup Hmeta.
    apply bool_decide_eq_false in Hact.
    destruct (decide (id = dir)) as [-> | Hne].
    + rewrite Hid in Hlookup. injection Hlookup as ->. contradiction.
    + now rewrite lookup_delete_ne.
  - intros [= <-] dir meta Hlookup _. exact Hlookup.
Qed.

Lemma deleteSnapshot_subset (fs fs' : gmap string SnapshotMeta.t) (id : string) :
  deleteSnapshot fs id = Ok fs' ->
  forall dir meta, fs' !! dir = Some meta -> fs !! dir = Some meta.
Proof.
  unfold deleteSnapshot, getSnapshotInfo.
  destruct (fs !! id) as [m |] eqn:Hid; simpl.
  - destruct (bool_decide _); [discriminate |].
    intros [= <-] dir meta Hlookup. apply lookup_delete_Some in Hlookup. tauto.
  - intros [= <-] dir meta Hlookup. exact Hlookup.
Qed.

Lemma cleanupLoop_keeps_active (snapshots : list SnapshotInfo.t) (activeId : option string)
    (keepCount : Z) :
  forall kept (fs : gmap string SnapshotMeta.t) dir meta,
    fs !! dir = Some meta -> SnapshotMeta.state meta = SnapshotState.active ->
    (cleanupLoop snapshots activeId keepCount kept fs).1 !! dir = Some meta.
Proof.
  induction snapshots as [| snapshot rest IH]; intros kept fs dir meta Hlookup Hact; simpl.
  - exact Hlookup.
  - destruct (bool_decide (Some (SnapshotInfo.id snapshot) = activeId)); [now apply IH |].
    destruct (kept <? keepCount); [now apply IH |].
    destruct (deleteSnapshot fs (SnapshotInfo.id snapshot)) as [fs' | e] eqn:Hdel.
    + apply IH; [| exact Hact]. eapply deleteSnapshot_keeps_active; eassumption.
    + exact Hlookup.
Qed.

Lemma cleanupLoop_subset (snapshots : list SnapshotInfo.t) (activeId : option string)
    (keepCount : Z) :
  forall kept (fs : gmap string SnapshotMeta.t) dir meta,
    (cleanupLoop snapshots activeId keepCount kept fs).1 !! dir = Some meta ->
    fs !! dir = Some meta.
Proof.
  induction snapshots as [| snapshot rest IH]; intros kept fs dir meta; simpl.
  - auto.
  - destruct (bool_decide (Some (SnapshotInfo.id snapshot) = activeId)); [apply IH |].
    destruct (kept <? keepCount); [apply IH |].
    destruct (deleteSnapshot fs (SnapshotInfo.id snapshot)) as [fs' | e] eqn:Hdel.
    + intros Hlookup. apply IH in Hlookup. eapply deleteSnapshot_subset; eassumption.
    + auto.
Qed.

(** On a well-formed disk the only active snapshot is the one the loop
    skips, so [deleteSnapshot] is never asked to delete an active
    snapshot and the loop ends without an exception. *)
Lemma cleanupLoop_returns (snapshots : list SnapshotInfo.t) (activeId : option string)
    (keepCount : Z) (fs0 : gmap string SnapshotMeta.t) :
  (forall dir meta, fs0 !! dir = Some meta ->
                    SnapshotMeta.state meta = SnapshotState.active ->
                    activeId = Some dir) ->
  forall kept (fs : gmap string SnapshotMeta.t),
    (forall dir meta, fs !! dir = Some meta -> fs0 !! dir = Some meta) ->
    (cleanupLoop snapshots activeId keepCount kept fs).2 = None.
Proof.
  intros Hactive. induction snapshots as [| snapshot rest IH]; intros kept fs Hsub; simpl.
  - reflexivity.
  - destruct (bool_decide (Some (SnapshotInfo.id snapshot) = activeId)) eqn:Eskip;
      [now apply IH |].
    destruct (kept <? keepCount); [now apply IH |].
    destruct (deleteSnapshot fs (SnapshotInfo.id snapshot)) as [fs' | e] eqn:Hdel.
    + apply IH. intros dir meta Hlookup. apply Hsub.
      eapply deleteSnapshot_subset; eassumption.
    + exfalso. unfold deleteSnapshot, getSnapshotInfo in Hdel.
      destruct (fs !! SnapshotInfo.id snapshot) as [m |] eqn:Hid; [| discriminate].
      simpl in Hdel.
      destruct (bool_decide (SnapshotMeta.state m = SnapshotState.active)) eqn:Hact;
        [| discriminate].
      apply bool_decide_eq_true in Hact.
      apply bool_decide_eq_false in Eskip. apply Eskip. symmetry.
      eapply Hactive; [apply Hsub; exact Hid | exact Hact].
Qed.

Lemma wellFormed_activeId (fs : gmap string SnapshotMeta.t) :
  wellFormed fs ->
  forall dir meta,
    fs !! dir = Some meta -> SnapshotMeta.state meta = SnapshotState.active ->
    option_map SnapshotInfo.id (getActiveSnapshot fs) = Some dir.
Proof.
  intros [Hid Huniq] dir meta Hlookup Hact.
  destruct (getActiveSnapshot fs) as [info |] eqn:Hget.
  - apply getActiveSnapshot_Some in Hget as (dir' & meta' & Hlookup' & -> & Hact').
    simpl. rewrite (Hid _ _ Hlookup'). f_equal.
    eapply Huniq; eassumption.
  - exfalso. eapply getActiveSnapshot_None; eassumption.
Qed.

End SnapshotManagerFacts.

(** C10: whatever the disk holds and whatever [keepCount] is, a snapshot
    whose state is active is still there, unchanged, after
    [cleanupOldSnapshots], also when the call ends in an exception;
    [deleteSnapshot] throws on it; and on a well-formed disk the active
    snapshot is skipped, so that cleanup ends without an exception. *)
Theorem C10_cleanup_never_deletes_an_active_snapshot
    (fs : gmap string SnapshotMeta.t) (keepCount : Z) (dir : string)
    (meta : SnapshotMeta.t) :
  fs !! dir = Some meta ->
  SnapshotMeta.state meta = SnapshotState.active ->
  (SnapshotManager.cleanupOldSnapshots fs keepCount).1 !! dir = Some meta
  /\ SnapshotManager.deleteSnapshot fs dir = JS.Throw "Cannot delete active snapshot"%string
  /\ (SnapshotManager.wellFormed fs ->
      (SnapshotManager.cleanupOldSnapshots fs keepCount).2 = None).
Proof.
  intros Hlookup Hact. split; [| split].
  - unfold SnapshotManager.cleanupOldSnapshots. now apply cleanupLoop_keeps_active.
  - eapply deleteSnapshot_active_throws; eassumption.
  - intros Hwf. unfold SnapshotManager.cleanupOldSnapshots.
    apply (cleanupLoop_returns _ _ _ fs); [| auto].
    intros dir' meta' Hlookup' Hact'. now apply (wellFormed_activeId fs Hwf dir' meta').
Qed.

Lemma C10_cleanup_never_deletes_an_active_snapshot_witness :
  SnapshotExamples.activeA_buildingB !! "a"%string
  = Some (SnapshotMeta.mk "a" SnapshotState.active 1)
  /\ SnapshotMeta.state (SnapshotMeta.mk "a" SnapshotState.active 1) = SnapshotState.active
  /\ (SnapshotManager.cleanupOldSnapshots SnapshotExamples.activeA_buildingB 0).1 !! "a"%string
     = Some (SnapshotMeta.mk "a" SnapshotState.active 1).
Proof.
  split; [reflexivity |]. split; [reflexivity |].
  apply (C10_cleanup_never_deletes_an_active_snapshot SnapshotExamples.activeA_buildingB 0
           "a"%string (SnapshotMeta.mk "a" SnapshotState.active 1)); reflexivity.
Defined.

(** With [keepCount = 0] cleanup deletes the other snapshot and keeps the
    active one, although it is the oldest. *)
Example cleanup_keeps_oldest_when_active :
  SnapshotManager.cleanupOldSnapshots SnapshotExamples.activeA_buildingB 0
  = (SnapshotExamples.onlyA, None).
Proof. vm_compute. reflexivity. Qed.

Section ActivationFacts.
Import JS SnapshotManager.

Lemma updateState_lookup (fs : gmap string SnapshotMeta.t) (id : string)
    (state : SnapshotState.t) (dir : string) (meta : SnapshotMeta.t) :
  updateState fs id state !! dir = Some meta ->
  (dir = id /\ SnapshotMeta.id meta = id /\ SnapshotMeta.state meta = state
   /\ is_Some (fs !! id))
  \/ (dir <> id /\ fs !! dir = Some meta)
  \/ (fs !! id = None /\ fs !! dir = Some meta).
Proof.
  unfold updateState, getSnapshotInfo, writeMeta.
  destruct (fs !! id) as [m |] eqn:Hid; simpl.
  - destruct (decide (id = dir)) as [<- | Hne].
    + rewrite lookup_insert_eq. intros [= <-]. left. simpl. eauto.
    + rewrite lookup_insert_ne by exact Hne. intros Hl. right. left. auto.
  - intros Hl. right. right. auto.
Qed.

Lemma updateState_at (fs : gmap string SnapshotMeta.t) (id : string)
    (state : SnapshotState.t) (m : SnapshotMeta.t) :
  fs !! id = Some m ->
  updateState fs id state !! id
  = Some (SnapshotMeta.mk id state (SnapshotMeta.createdAt m)).
Proof.
  intros Hid. unfold updateState, getSnapshotInfo, writeMeta. rewrite Hid. simpl.
  apply lookup_insert_eq.
Qed.

Lemma updateState_is_Some (fs : gmap string SnapshotMeta.t) (id dir : string)
    (state : SnapshotState.t) :
  is_Some (fs !! dir) -> is_Some (updateState fs id state !! dir).
Proof.
  intros [m Hm]. unfold updateState, getSnapshotInfo, writeMeta.
  destruct (fs !! id) as [m' |] eqn:Hid; simpl; [| eauto].
  destruct (decide (id = dir)) as [<- | Hne].
  - rewrite lookup_insert_eq. eauto.
  - rewrite lookup_insert_ne by exact Hne. eauto.
Qed.

(** After the first write of [activateSnapshot] on a well-formed disk no
    directory other than [id] is active. *)
Lemma deactivateCurrent_active (fs : gmap string SnapshotMeta.t) (id : string) :
  wellFormed fs ->
  forall dir meta,
    deactivateCurrent fs id !! dir = Some meta ->
    SnapshotMeta.state meta = SnapshotState.active -> dir = id.
Proof.
  intros [Hid Huniq] dir meta. unfold deactivateCurrent.
  destruct (getActiveSnapshot fs) as [current |] eqn:Hget.
  - apply getActiveSnapshot_Some in Hget as (d & m & Hd & -> & Hact). simpl.
    rewrite (Hid _ _ Hd).
    destruct (bool_decide (d <> id)) eqn:Hne.
    + intros Hl Hmeta.
      apply updateState_lookup in Hl as [(-> & _ & Hst & _) | [(Hdir & Hl) | (Hnone & _)]].
      * congruence.
      * exfalso. apply Hdir. eapply Huniq; eassumption.
      * congruence.
    + apply bool_decide_eq_false in Hne. apply dec_stable in Hne. subst d.
      intros Hl Hmeta. eapply Huniq; eassumption.
  - intros Hl Hmeta. exfalso.
    eapply (proj1 (getActiveSnapshot_None fs)); eassumption.
Qed.

Lemma deactivateCurrent_ids (fs : gmap string SnapshotMeta.t) (id : string) :
  wellFormed fs ->
  forall dir meta, deactivateCurrent fs id !! dir = Some meta -> SnapshotMeta.id meta = dir.
Proof.
  intros [Hid Huniq] dir meta. unfold deactivateCurrent.
  destruct (getActiveSnapshot fs) as [current |] eqn:Hget; [| apply Hid].
  destruct (bool_decide (SnapshotInfo.id current <> id)); [| apply Hid].
  intros Hl.
  apply updateState_lookup in Hl as [(-> & Hm & _) | [(_ & Hl) | (_ & Hl)]];
    [exact Hm | now apply Hid | now apply Hid].
Qed.

Lemma deactivateCurrent_is_Some (fs : gmap string SnapshotMeta.t) (id dir : string) :
  is_Some (fs !! dir) -> is_Some (deactivateCurrent fs id !! dir).
Proof.
  intros Hsome. unfold deactivateCurrent.
  destruct (getActiveSnapshot fs) as [current |]; [| exact Hsome].
  destruct (bool_decide _); [| exact Hsome].
  now apply updateState_is_Some.
Qed.

(** The in-between state: when another snapshot was active, the disk
    after the first write has no active snapshot at all. *)
Lemma deactivateCurrent_none_active (fs : gmap string SnapshotMeta.t) (id : string)
    (current : SnapshotInfo.t) :
  wellFormed fs ->
  getActiveSnapshot fs = Some current -> SnapshotInfo.id current <> id ->
  getActiveSnapshot (deactivateCurrent fs id) = None.
Proof.
  intros Hwf Hget Hne. apply getActiveSnapshot_None. intros dir meta Hl Hact.
  assert (Hdir : dir = id) by (eapply deactivateCurrent_active; eassumption).
  subst dir. destruct Hwf as [Hid Huniq].
  unfold deactivateCurrent in Hl. rewrite Hget in Hl.
  rewrite bool_decide_eq_true_2 in Hl by exact Hne.
  apply getActiveSnapshot_Some in Hget as (d & m & Hd & -> & Hactd). simpl in *.
  rewrite (Hid _ _ Hd) in *.
  apply updateState_lookup in Hl as [(-> & _) | [(_ & Hl) | (Hnone & _)]].
  - now apply Hne.
  - apply Hne. eapply Huniq; eassumption.
  - congruence.
Qed.

(** A successful activation leaves a well-formed disk on which [id], and
    no other snapshot, is active. *)
Lemma activateSnapshot_ok (fs fs' : gmap string SnapshotMeta.t) (id : string) :
  wellFormed fs -> activateSnapshot fs id = Ok fs' ->
  wellFormed fs'
  /\ (exists meta, fs' !! id = Some meta
                   /\ SnapshotMeta.state meta = SnapshotState.active)
  /\ (forall dir meta, fs' !! dir = Some meta ->
                       SnapshotMeta.state meta = SnapshotState.active -> dir = id).
Proof.
  intros Hwf. unfold activateSnapshot, getSnapshotInfo.
  destruct (fs !! id) as [m0 |] eqn:Hid0; simpl; [| discriminate].
  intros [= <-].
  destruct (deactivateCurrent_is_Some fs id id (ex_intro _ m0 Hid0)) as [m1 Hm1].
  assert (Honly : forall dir meta,
            updateState (deactivateCurrent fs id) id SnapshotState.active !! dir = Some meta ->
            SnapshotMeta.state meta = SnapshotState.active -> dir = id).
  { intros dir meta Hl Hact.
    apply updateState_lookup in Hl as [(-> & _) | [(_ & Hl) | (Hnone & _)]].
    - reflexivity.
    - eapply deactivateCurrent_active; eassumption.
    - congruence. }
  split; [split |]; [| | split].
  - intros dir meta Hl.
    apply updateState_lookup in Hl as [(-> & Hm & _) | [(_ & Hl) | (_ & Hl)]].
    + exact Hm.
    + eapply deactivateCurrent_ids; eassumption.
    + eapply deactivateCurrent_ids; eassumption.
  - intros dir1 dir2 meta1 meta2 Hl1 Hl2 Hact1 Hact2.
    rewrite (Honly _ _ Hl1 Hact1), (Honly _ _ Hl2 Hact2). reflexivity.
  - eexists. split; [apply (updateState_at _ _ _ _ Hm1) | reflexivity].
  - exact Honly.
Qed.

(** *** The invariant of the reachable disks *)

Lemma wellFormed_empty : wellFormed ∅.
Proof. split; intros *; rewrite lookup_empty; discriminate. Qed.

Lemma wellFormed_subset (fs fs' : gmap string SnapshotMeta.t) :
  (forall dir meta, fs' !! dir = Some meta -> fs !! dir = Some meta) ->
  wellFormed fs -> wellFormed fs'.
Proof.
  intros Hsub [Hid Huniq]. split.
  - intros dir meta Hl. apply Hid, Hsub, Hl.
  - intros dir1 dir2 meta1 meta2 Hl1 Hl2. apply Huniq; now apply Hsub.
Qed.

Lemma wellFormed_createSnapshot (fs : gmap string SnapshotMeta.t) (id : string) (now : Z) :
  wellFormed fs -> wellFormed (createSnapshot fs id now).2.
Proof.
  intros [Hid Huniq]. unfold createSnapshot, writeMeta. simpl. split.
  - intros dir meta. destruct (decide (id = dir)) as [<- | Hne].
    + rewrite lookup_insert_eq. now intros [= <-].
    + rewrite lookup_insert_ne by exact Hne. apply Hid.
  - intros dir1 dir2 meta1 meta2.
    destruct (decide (id = dir1)) as [<- | Hne1].
    { rewrite lookup_insert_eq. intros [= <-] _ Hact. discriminate. }
    destruct (decide (id = dir2)) as [<- | Hne2].
    { rewrite lookup_insert_eq. intros _ [= <-] _ Hact. discriminate. }
    rewrite !lookup_insert_ne by assumption. apply Huniq.
Qed.

Lemma wellFormed_step (fs fs' : gmap string SnapshotMeta.t) :
  step fs fs' -> wellFormed fs -> wellFormed fs'.
Proof.
  intros Hstep Hwf. destruct Hstep as [fs id now | fs id fs' Hact | fs id fs' Hdel
                                       | fs keepCount | fs fs' Hroll].
  - now apply wellFormed_createSnapshot.
  - now apply (activateSnapshot_ok fs fs' id).
  - eapply wellFormed_subset; [| exact Hwf]. eapply deleteSnapshot_subset; eassumption.
  - eapply wellFormed_subset; [| exact Hwf]. apply cleanupLoop_subset.
  - unfold rollback in Hroll.
    destruct (findIndexActive (listSnapshots fs)) as [idx |]; [| discriminate].
    destruct (listSnapshots fs !! S idx) as [previous |]; [| discriminate].
    now apply (activateSnapshot_ok fs fs' (SnapshotInfo.id previous)).
Qed.

(** Every disk the manager's operations reach is well-formed. *)
Lemma reachable_wellFormed (fs : gmap string SnapshotMeta.t) :
  reachable fs -> wellFormed fs.
Proof.
  induction 1 as [| fs fs' _ IH Hstep]; [apply wellFormed_empty |].
  eapply wellFormed_step; eassumption.
Qed.

End ActivationFacts.

(** C5 (as amended): on every disk the manager's operations reach,
    [activateSnapshot id] either throws, and then nothing was written, or
    returns a reachable disk on which [id] is the active snapshot and the
    only one.  It does so by two writes: between them, when another
    snapshot was active before, the disk has no active snapshot. *)
Theorem C5_activation_outcome_and_in_between_state
    (fs : gmap string SnapshotMeta.t) (id : string) :
  SnapshotManager.reachable fs ->
  (forall e, SnapshotManager.activateSnapshot fs id = JS.Throw e ->
             SnapshotManager.activateSnapshot_states fs id = [fs])
  /\ (forall fs', SnapshotManager.activateSnapshot fs id = JS.Ok fs' ->
        SnapshotManager.reachable fs'
        /\ last (SnapshotManager.activateSnapshot_states fs id) = Some fs'
        /\ option_map SnapshotInfo.id (SnapshotManager.getActiveSnapshot fs') = Some id
        /\ forall dir meta, fs' !! dir = Some meta ->
                            SnapshotMeta.state meta = SnapshotState.active -> dir = id)
  /\ (forall fs' current,
        SnapshotManager.activateSnapshot fs id = JS.Ok fs' ->
        SnapshotManager.getActiveSnapshot fs = Some current ->
        SnapshotInfo.id current <> id ->
        SnapshotManager.activateSnapshot_states fs id
        = [fs; SnapshotManager.deactivateCurrent fs id; fs']
        /\ SnapshotManager.getActiveSnapshot (SnapshotManager.deactivateCurrent fs id)
           = None).
Proof.
  intros Hreach. pose proof (reachable_wellFormed fs Hreach) as Hwf.
  split; [| split].
  - intros e. unfold SnapshotManager.activateSnapshot, SnapshotManager.activateSnapshot_states.
    destruct (SnapshotManager.getSnapshotInfo fs id); [discriminate | reflexivity].
  - intros fs' Hok.
    destruct (activateSnapshot_ok fs fs' id Hwf Hok) as (Hwf' & (meta & Hl & Hact) & Honly).
    split; [| split; [| split]].
    + eapply SnapshotManager.reachable_step; [exact Hreach |].
      eapply SnapshotManager.step_activate; exact Hok.
    + unfold SnapshotManager.activateSnapshot, SnapshotManager.activateSnapshot_states in *.
      destruct (SnapshotManager.getSnapshotInfo fs id); [| discriminate].
      injection Hok as <-. reflexivity.
    + now apply (wellFormed_activeId fs' Hwf' id meta).
    + exact Honly.
  - intros fs' current Hok Hget Hne. split.
    + unfold SnapshotManager.activateSnapshot, SnapshotManager.activateSnapshot_states in *.
      destruct (SnapshotManager.getSnapshotInfo fs id); [| discriminate].
      injection Hok as <-. reflexivity.
    + eapply deactivateCurrent_none_active; eassumption.
Qed.

(** The example disk is reached by creating [a], activating it and
    creating [b]. *)
Lemma activeA_buildingB_reachable :
  SnapshotManager.reachable SnapshotExamples.activeA_buildingB.
Proof.
  apply (SnapshotManager.reachable_step SnapshotExamples.onlyA);
    [| exact (SnapshotManager.step_create SnapshotExamples.onlyA "b" 2)].
  apply (SnapshotManager.reachable_step (SnapshotManager.createSnapshot ∅ "a" 1).2);
    [| apply (SnapshotManager.step_activate _ "a"%string); reflexivity].
  apply (SnapshotManager.reachable_step ∅);
    [apply SnapshotManager.reachable_empty | apply SnapshotManager.step_create].
Defined.

Lemma C5_activation_outcome_and_in_between_state_witness :
  SnapshotManager.reachable SnapshotExamples.activeA_buildingB
  /\ (forall fs',
        SnapshotManager.activateSnapshot SnapshotExamples.activeA_buildingB "b" = JS.Ok fs' ->
        option_map SnapshotInfo.id (SnapshotManager.getActiveSnapshot fs') = Some "b"%string).
Proof.
  split; [exact activeA_buildingB_reachable |].
  intros fs' Hok.
  apply (proj1 (proj2 (C5_activation_outcome_and_in_between_state
                         SnapshotExamples.activeA_buildingB "b"
                         activeA_buildingB_reachable)) fs' Hok).
Defined.

(** C5 as stated fails: activating [b] while [a] is active takes the disk
    through three states, and the active snapshot they publish is [a],
    then none, then [b]: the state in between names neither the old nor
    the new snapshot. *)
Lemma C5_in_between_state_has_no_active_snapshot :
  SnapshotManager.reachable SnapshotExamples.activeA_buildingB
  /\ map (fun d => option_map SnapshotInfo.id (SnapshotManager.getActiveSnapshot d))
       (SnapshotManager.activateSnapshot_states SnapshotExamples.activeA_buildingB "b")
     = [Some "a"%string; None; Some "b"%string].
Proof. split; [exact activeA_buildingB_reachable | vm_compute; reflexivity]. Qed.

(** ** FenceDetector: shape of the detected regions *)

Section FenceRegionFacts.
Import JS FenceDetector.

(** Joining the lines of a text with the separator gives the text back,
    and no line holds the separator. *)
Lemma join_splitOn (sep : Z) (s : list Z) : join [sep] (splitOn sep s) = s.
Proof.
  induction s as [| c s IH]; [reflexivity |].
  pose proof (splitOn_nonempty sep s) as Hne.
  cbn [splitOn]. destruct (c =? sep) eqn:E.
  - apply Z.eqb_eq in E. subst c.
    destruct (splitOn sep s) as [| l ls]; [congruence |].
    cbn [join]. cbn [join] in IH. simpl. f_equal. exact IH.
  - destruct (splitOn sep s) as [| l ls]; [congruence |].
    destruct ls as [| l' ls]; cbn [join] in *; simpl; f_equal; exact IH.
Qed.

Lemma splitOn_no_sep (sep : Z) (s : list Z) :
  Forall (fun line => ~ In sep line) (splitOn sep s).
Proof.
  induction s as [| c s IH]; cbn [splitOn].
  - constructor; [intros [] | constructor].
  - destruct (c =? sep) eqn:E.
    + constructor; [intros [] | exact IH].
    + apply Z.eqb_neq in E.
      destruct (splitOn sep s) as [| l ls].
      * constructor; [| constructor]. intros [-> | []]. congruence.
      * inversion IH; subst. constructor; [| assumption].
        intros [-> | Hin]; [congruence | contradiction].
Qed.

(** What the scan of [detect] maintains about the regions it has emitted
    and about the fence that is open; [pre] is the text before the lines
    still to be scanned. *)
Lemma detectLoop_wf (text : list Z) (lines : list (list Z)) :
  forall pre inFence regions,
    (lines <> [] -> text = pre ++ join [LF] lines /\ atLineStart text (List.length pre)) ->
    (lines = [] -> List.length pre = List.length text) ->
    Forall (fun line => ~ In LF line) lines ->
    StronglySorted regionBefore regions ->
    Forall (fun r => wholeLines text r
                     /\ (lines <> [] -> (FencedRegion.endChar r < List.length pre)%nat))
      regions ->
    (forall f, inFence = Some f ->
               (fenceStart f < List.length pre)%nat
               /\ startsLine text (fenceStart f)
               /\ atLineStart text (fenceStart f)
               /\ Forall (fun r => (FencedRegion.endChar r < fenceStart f)%nat) regions) ->
    let out := detectLoop lines (List.length pre) inFence regions in
    StronglySorted regionBefore out.2
    /\ Forall (wholeLines text) out.2
    /\ (forall f, out.1 = Some f ->
                  (fenceStart f < List.length text)%nat
                  /\ startsLine text (fenceStart f)
                  /\ atLineStart text (fenceStart f)
                  /\ Forall (fun r => (FencedRegion.endChar r < fenceStart f)%nat) out.2).
Proof.
  induction lines as [| line rest IH]; intros pre inFence regions Htext Hend Hlf Hsorted Hregs Hopen.
  - cbn [detectLoop]. simpl. specialize (Hend eq_refl).
    split; [exact Hsorted |]. split.
    + eapply Forall_impl; [exact Hregs |]. intros r [? _]. assumption.
    + intros f Hf. destruct (Hopen f Hf) as (? & ? & ? & ?). repeat split; auto. lia.
  - destruct (Htext ltac:(discriminate)) as [Htext' Hstart]. clear Htext Hend.
    inversion Hlf as [| x l Hline Hrest]; subst x l.
    assert (Hregs' : Forall (fun r => wholeLines text r
                                      /\ (FencedRegion.endChar r < List.length pre)%nat) regions).
    { eapply Forall_impl; [exact Hregs |]. intros r [? Hlt]. split; [assumption |].
      apply Hlt. discriminate. }
    clear Hregs.
    cbn [detectLoop].
    set (stepLen := match rest with [] => 0%nat | _ :: _ => 1%nat end).
    (* the text up to the next line *)
    set (pre' := pre ++ line ++ match rest with [] => [] | _ :: _ => [LF] end).
    assert (Hpre' : (List.length pre + (List.length line + stepLen))%nat = List.length pre').
    { unfold pre', stepLen. rewrite !length_app. destruct rest; simpl; lia. }
    assert (Hnext : rest <> [] ->
                    text = pre' ++ join [LF] rest /\ atLineStart text (List.length pre')).
    { intros Hne. unfold pre'. destruct rest as [| l ls]; [congruence |]. split.
      - rewrite Htext'. cbn [join]. rewrite <- !app_assoc. reflexivity.
      - right. rewrite Htext'. cbn [join]. rewrite !length_app. simpl.
        rewrite lookup_app_r by lia. rewrite lookup_app_r by lia.
        replace (List.length pre + (List.length line + 1) - 1 - List.length pre
                 - List.length line)%nat with 0%nat by lia.
        reflexivity. }
    assert (Hend' : rest = [] -> List.length pre' = List.length text).
    { intros ->. rewrite Htext'. unfold pre'. cbn [join]. rewrite !length_app. simpl. lia. }
    assert (Hlen : (List.length pre + List.length line <= List.length text)%nat).
    { rewrite Htext'. rewrite length_app.
      destruct rest as [| l ls]; cbn [join]; rewrite ?length_app; lia. }
    assert (HlineEnd : atLineEnd text (List.length pre + List.length line)).
    { destruct rest as [| l ls].
      - left. rewrite Htext'. cbn [join]. rewrite length_app. reflexivity.
      - right. rewrite Htext'. cbn [join].
        rewrite lookup_app_r by lia. rewrite lookup_app_r by lia.
        replace (List.length pre + List.length line - List.length pre - List.length line)%nat
          with 0%nat by lia.
        reflexivity. }
    assert (Hle' : (List.length pre <= List.length pre')%nat) by lia.
    rewrite Hpre'.
    assert (Hkeep : Forall (fun r => wholeLines text r
                       /\ (rest <> [] -> (FencedRegion.endChar r < List.length pre')%nat))
                      regions).
    { eapply Forall_impl; [exact Hregs' |]. intros r [? ?]. split; [assumption |].
      intros _. lia. }
    destruct inFence as [f |].
    + destruct (Hopen f eq_refl) as (Hf1 & Hf2 & Hf3 & Hf4).
      destruct (matchFenceClose line (fenceChar f) (fenceLength f)).
      * apply IH; auto.
        -- apply StronglySorted_snoc; [exact Hsorted | exact Hf4].
        -- apply Forall_app. split; [exact Hkeep |].
           constructor; [| constructor]. split.
           ++ unfold wholeLines, nonEmptyRegion. simpl. repeat split; auto. lia.
           ++ simpl. intros Hne. rewrite <- Hpre'. unfold stepLen.
              destruct rest; [congruence | lia].
        -- discriminate.
      * apply IH; auto.
        intros g [= <-]. repeat split; auto. lia.
    + assert (Hplain :
        let out := detectLoop rest (List.length pre') None regions in
        StronglySorted regionBefore out.2
        /\ Forall (wholeLines text) out.2
        /\ (forall f, out.1 = Some f ->
                      (fenceStart f < List.length text)%nat
                      /\ startsLine text (fenceStart f)
                      /\ atLineStart text (fenceStart f)
                      /\ Forall (fun r => (FencedRegion.endChar r < fenceStart f)%nat) out.2)).
      { apply IH; auto. discriminate. }
      destruct (matchFenceOpen line) as [m |] eqn:Em; [| exact Hplain].
      destruct (isAtLineStart m); [| exact Hplain].
      apply matchFenceOpen_length in Em.
      apply IH; auto.
      intros g [= <-]. simpl.
      destruct line as [| c line']; [simpl in Em; lia |].
      split; [simpl in Hpre'; lia |]. split; [| split; [exact Hstart |]].
      * exists c. split.
        -- rewrite Htext'. rewrite lookup_app_r by lia. rewrite Nat.sub_diag.
           destruct rest; reflexivity.
        -- intros ->. apply Hline. left. reflexivity.
      * eapply Forall_impl; [exact Hregs' |]. intros r [_ ?]. assumption.
Qed.

(** The regions of [detect]: in the order of the text and apart from one
    another, and each made of whole lines. *)
Lemma detect_wf (text : list Z) :
  StronglySorted regionBefore (detect text) /\ Forall (wholeLines text) (detect text).
Proof.
  unfold detect.
  pose proof (detectLoop_wf text (splitOn LF text) [] None []) as H.
  simpl List.length in H.
  destruct H as (Hs & Hr & Ho).
  - intros _. rewrite join_splitOn. split; [reflexivity | left; reflexivity].
  - intros E. exfalso. exact (splitOn_nonempty _ _ E).
  - apply splitOn_no_sep.
  - constructor.
  - constructor.
  - discriminate.
  - destruct (detectLoop (splitOn LF text) 0 None []) as [inFence regions]. simpl in *.
    destruct inFence as [f |]; [| split; assumption].
    destruct (Ho f eq_refl) as (Hf1 & Hf2 & Hf3 & Hf4).
    split.
    + apply StronglySorted_snoc; [exact Hs | exact Hf4].
    + apply Forall_app. split; [exact Hr |].
      constructor; [| constructor].
      unfold wholeLines, nonEmptyRegion, atLineEnd. simpl. repeat split; auto.
Qed.

End FenceRegionFacts.

(** X1.  The fenced regions that [FenceDetector.detect]
    reports for a text come in the order of the text with at least one code
    unit between the end of one region and the start of the next, so no
    two of them overlap.  Every region is not empty, lies inside the text
    and is made of whole lines: it starts at offset 0 or right after a
    newline, on a code unit that is not a newline, and it ends at the end
    of the text or right before a newline. *)
Theorem detect_regions_are_separate_whole_lines (text : list Z) :
  StronglySorted
    (fun r1 r2 => (FencedRegion.endChar r1 < FencedRegion.startChar r2)%nat)
    (FenceDetector.detect text)
  /\ Forall (fun r =>
               (FencedRegion.startChar r < FencedRegion.endChar r)%nat
               /\ (FencedRegion.endChar r <= length text)%nat
               /\ (FencedRegion.startChar r = 0%nat
                   \/ text !! (FencedRegion.startChar r - 1)%nat = Some JS.LF)
               /\ (exists c, text !! FencedRegion.startChar r = Some c /\ c <> JS.LF)
               /\ (FencedRegion.endChar r = length text
                   \/ text !! FencedRegion.endChar r = Some JS.LF))
       (FenceDetector.detect text).
Proof.
  destruct (detect_wf text) as [Hs Hr]. split; [exact Hs |].
  eapply Forall_impl; [exact Hr |].
  intros r (H1 & H2 & H3 & H4 & H5). repeat split; assumption.
Qed.

(** ** FenceDetector: texts without fence characters *)

Section NoFenceFacts.
Import JS FenceDetector.

Lemma splitOn_In (sep : Z) (s : list Z) :
  forall line c, In line (splitOn sep s) -> In c line -> In c s.
Proof.
  induction s as [| d s IH]; intros line c; cbn [splitOn].
  - intros [<- | []] [].
  - pose proof (splitOn_nonempty sep s) as Hne.
    destruct (d =? sep).
    + intros [<- | Hin] Hc; [destruct Hc |]. right. eapply IH; eassumption.
    + destruct (splitOn sep s) as [| l ls]; [congruence |].
      intros [<- | Hin] Hc.
      * destruct Hc as [<- | Hc]; [now left |]. right. apply (IH l); [now left | exact Hc].
      * right. apply (IH line); [now right | exact Hc].
Qed.

Lemma runLength_absent (c : Z) (s : list Z) : ~ In c s -> runLength c s = 0%nat.
Proof.
  destruct s as [| d s]; [reflexivity |]. intros Hnot. cbn [runLength].
  destruct (d =? c) eqn:E; [| reflexivity].
  apply Z.eqb_eq in E. subst d. exfalso. apply Hnot. now left.
Qed.

(** A line without a backtick and without a tilde opens no fence. *)
Lemma matchFenceOpen_none (line : list Z) :
  ~ In BACKTICK line -> ~ In TILDE line -> matchFenceOpen line = None.
Proof.
  intros Hb Ht. unfold matchFenceOpen, matchFenceRun, sliceFrom.
  assert (Hdrop : forall c k, ~ In c line -> ~ In c (drop k line)).
  { intros c k Hnot Hin. apply Hnot. rewrite <- (take_drop k line).
    apply in_or_app. now right. }
  rewrite (runLength_absent BACKTICK _ (Hdrop _ _ Hb)).
  rewrite (runLength_absent TILDE _ (Hdrop _ _ Ht)).
  reflexivity.
Qed.

Lemma detectLoop_none (lines : list (list Z)) :
  Forall (fun line => ~ In BACKTICK line /\ ~ In TILDE line) lines ->
  forall currentOffset regions,
    detectLoop lines currentOffset None regions = (None, regions).
Proof.
  induction 1 as [| line rest [Hb Ht] _ IH]; intros off regions; cbn [detectLoop];
    [reflexivity |].
  rewrite (matchFenceOpen_none line Hb Ht). apply IH.
Qed.

Lemma detect_none (text : list Z) :
  ~ In BACKTICK text -> ~ In TILDE text -> detect text = [].
Proof.
  intros Hb Ht. unfold detect. rewrite detectLoop_none; [reflexivity |].
  apply Forall_forall. intros line Hline. apply list_elem_of_In in Hline.
  split; intros Hin; [apply Hb | apply Ht]; eapply splitOn_In; eassumption.
Qed.

Lemma trimStart_nil (s : list Z) : trimStart s = [] -> Forall (fun c => isWhiteSpace c = true) s.
Proof.
  induction s as [| c s IH]; cbn [trimStart]; [constructor |].
  destruct (isWhiteSpace c) eqn:E; [| discriminate].
  intros H. constructor; [exact E | now apply IH].
Qed.

Lemma trimStart_split (s : list Z) :
  exists pre, s = pre ++ trimStart s /\ Forall (fun c => isWhiteSpace c = true) pre.
Proof.
  induction s as [| c s (pre & Hs & Hpre)]; cbn [trimStart].
  - exists []. split; [reflexivity | constructor].
  - destruct (isWhiteSpace c) eqn:E.
    + exists (c :: pre). split; [simpl; congruence | constructor; assumption].
    + exists []. split; [reflexivity | constructor].
Qed.

(** A text that [trim] empties holds white space only. *)
Lemma trim_nil (s : list Z) : trim s = [] -> Forall (fun c => isWhiteSpace c = true) s.
Proof.
  unfold trim. intros H.
  assert (H' : trimStart (rev (trimStart s)) = []).
  { destruct (trimStart (rev (trimStart s))); [reflexivity |].
    apply (f_equal (@List.length Z)) in H. rewrite length_rev in H. discriminate. }
  apply trimStart_nil in H'.
  destruct (trimStart_split s) as (pre & Hs & Hpre).
  rewrite Hs. apply Forall_app. split; [exact Hpre |].
  apply Forall_forall. intros c Hc. rewrite Forall_forall in H'.
  apply H'. apply list_elem_of_In, in_rev. rewrite rev_involutive. apply list_elem_of_In, Hc.
Qed.

Lemma detect_blank (text : list Z) : trim text = [] -> detect text = [].
Proof.
  intros H. apply trim_nil in H. rewrite Forall_forall in H.
  apply detect_none; intros Hin; apply list_elem_of_In in Hin; specialize (H _ Hin);
    vm_compute in H; discriminate.
Qed.

End NoFenceFacts.

(** X2.  A text that holds neither a backtick nor a tilde has no fenced
    region; in particular a text of white space only has none. *)
Theorem detect_without_fence_characters (text : list Z) :
  (~ In JS.BACKTICK text /\ ~ In JS.TILDE text) \/ JS.trim text = [] ->
  FenceDetector.detect text = [].
Proof.
  intros [[Hb Ht] | Hblank]; [now apply detect_none | now apply detect_blank].
Qed.

Lemma detect_without_fence_characters_witness :
  ((~ In JS.BACKTICK (JS.lit "# Title") /\ ~ In JS.TILDE (JS.lit "# Title"))
   \/ JS.trim (JS.lit "# Title") = [])
  /\ FenceDetector.detect (JS.lit "# Title") = [].
Proof.
  assert (H : (~ In JS.BACKTICK (JS.lit "# Title") /\ ~ In JS.TILDE (JS.lit "# Title"))
              \/ JS.trim (JS.lit "# Title") = []).
  { left. split; vm_compute; intuition discriminate. }
  split; [exact H |].
  apply (detect_without_fence_characters (JS.lit "# Title")); exact H.
Defined.

(** ** Chunker: what the paragraphs of a node are *)

Section ParagraphFacts.
Import JS Chunker FenceDetector.

Lemma runLength_lookup (c : Z) (s : list Z) :
  forall i, (i < runLength c s)%nat -> s !! i = Some c.
Proof.
  induction s as [| d s IH]; intros i; cbn [runLength]; [lia |].
  destruct (d =? c) eqn:E; [| lia]. apply Z.eqb_eq in E. subst d.
  destruct i as [| i]; [reflexivity |]. intros Hi. simpl. apply IH. lia.
Qed.

(** [skipNewlines] moves over newlines only, and not beyond the text. *)
Lemma skipNewlines_newlines (text : list Z) (pos i : nat) :
  (pos <= i < skipNewlines text pos)%nat -> text !! i = Some LF.
Proof.
  unfold skipNewlines. intros [Hle Hlt].
  pose proof (runLength_lookup LF (drop pos text) (i - pos) ltac:(lia)) as H.
  rewrite lookup_drop in H. now replace (pos + (i - pos))%nat with i in H by lia.
Qed.

Lemma skipNewlines_bounds (text : list Z) (pos : nat) :
  (pos <= skipNewlines text pos)%nat
  /\ ((pos <= List.length text)%nat -> (skipNewlines text pos <= List.length text)%nat).
Proof.
  unfold skipNewlines. split; [lia |]. intros Hle.
  pose proof (runLength_le LF (drop pos text)) as H. rewrite length_drop in H. lia.
Qed.

Lemma find_first {A : Type} (f : A -> bool) (l : list A) (x : A) :
  List.find f l = Some x ->
  exists l1 l2, l = l1 ++ x :: l2 /\ Forall (fun y => f y = false) l1 /\ f x = true.
Proof.
  induction l as [| a l IH]; simpl; [discriminate |].
  destruct (f a) eqn:E.
  - intros [= <-]. exists [], l. split; [reflexivity |]. split; [constructor | exact E].
  - intros H. destruct (IH H) as (l1 & l2 & -> & Hall & Hx).
    exists (a :: l1), l2. split; [reflexivity |]. split; [constructor; assumption | exact Hx].
Qed.

Lemma StronglySorted_trichotomy {A : Type} (R : A -> A -> Prop) (l : list A) (a b : A) :
  StronglySorted R l -> In a l -> In b l -> a = b \/ R a b \/ R b a.
Proof.
  induction 1 as [| x l Hs IH Hall]; simpl; [contradiction |].
  rewrite Forall_forall in Hall.
  intros [<- | Ha] [<- | Hb]; auto.
  - right. left. apply Hall, list_elem_of_In, Hb.
  - right. right. apply Hall, list_elem_of_In, Ha.
Qed.

Lemma length_slice_within (s : list Z) (a b : nat) :
  (b <= List.length s)%nat -> List.length (slice s a b) = (b - a)%nat.
Proof. intros Hb. unfold slice. rewrite length_take, length_drop. lia. Qed.

Lemma sliceOf_slice (text : list Z) (a b : nat) :
  (a < b <= List.length text)%nat -> sliceOf text (Paragraph.mk (slice text a b) a).
Proof.
  intros [Hab Hb]. pose proof (length_slice_within text a b Hb) as Hlen.
  unfold sliceOf, paragraphEnd. simpl. rewrite Hlen.
  replace (a + (b - a))%nat with b by lia.
  split; [| split; [exact Hb | reflexivity]].
  intros E. rewrite E in Hlen. simpl in Hlen. lia.
Qed.

Lemma pushIfNotBlank_facts (text : list Z) (paragraphs : list Paragraph.t) (a b : nat) :
  (a <= b <= List.length text)%nat ->
  Forall (sliceOf text) paragraphs ->
  Forall (sliceOf text) (pushIfNotBlank paragraphs (slice text a b) a)
  /\ (forall p, In p paragraphs -> In p (pushIfNotBlank paragraphs (slice text a b) a)).
Proof.
  intros [Hab Hb] Hall. unfold pushIfNotBlank.
  destruct (trim (slice text a b)) eqn:E; [split; auto |].
  split.
  - apply Forall_app. split; [exact Hall |]. constructor; [| constructor].
    apply sliceOf_slice. split; [| exact Hb].
    destruct (Nat.eq_dec a b) as [-> |]; [| lia].
    unfold slice in E. rewrite Nat.sub_diag in E. simpl in E. discriminate.
  - intros p Hp. apply in_or_app. now left.
Qed.

Variable text : list Z.
Variable fencedRegions : list FencedRegion.t.
Hypothesis regions_sorted : StronglySorted regionBefore fencedRegions.
Hypothesis regions_wholeLines : Forall (wholeLines text) fencedRegions.

(** The loop of [splitIntoParagraphs] on regions as [detect] gives them:
    every paragraph is a piece of the text, and every fenced region
    becomes one paragraph. *)
Lemma splitLoop_facts (fuel : nat) :
  forall pos paragraphs out,
    Forall (sliceOf text) paragraphs ->
    (forall r, In r fencedRegions -> (FencedRegion.startChar r < pos)%nat ->
               In (fenceParagraph text r) paragraphs) ->
    splitLoop fuel text fencedRegions pos paragraphs = Some out ->
    Forall (sliceOf text) out
    /\ (forall r, In r fencedRegions -> In (fenceParagraph text r) out).
Proof.
  assert (Hwf : forall r, In r fencedRegions -> wholeLines text r).
  { intros r Hr. rewrite Forall_forall in regions_wholeLines.
    apply regions_wholeLines, list_elem_of_In, Hr. }
  assert (Hnotnl : forall r i, In r fencedRegions -> text !! i = Some LF ->
                               FencedRegion.startChar r <> i).
  { intros r i Hr Hi <-. destruct (Hwf r Hr) as (_ & _ & (c & Hc & Hne) & _). congruence. }
  induction fuel as [| fuel IH]; intros pos paragraphs out Hslices Hseen; [discriminate |].
  cbn [splitLoop].
  destruct (pos <? List.length text)%nat eqn:Hpos; simpl.
  2:{ intros [= <-]. split; [exact Hslices |]. intros r Hr. apply Hseen; [exact Hr |].
      apply Nat.ltb_ge in Hpos. destruct (Hwf r Hr) as (Hne & Hend & _).
      unfold nonEmptyRegion in Hne. lia. }
  apply Nat.ltb_lt in Hpos.
  destruct (List.find (fun r => Nat.eqb (FencedRegion.startChar r) pos) fencedRegions)
    as [fence |] eqn:Hfence.
  - apply find_some in Hfence as [Hin Hstart]. apply Nat.eqb_eq in Hstart.
    destruct (Hwf fence Hin) as (Hne & Hend & _). unfold nonEmptyRegion in Hne.
    apply IH.
    + apply Forall_app. split; [exact Hslices |]. constructor; [| constructor].
      apply sliceOf_slice. lia.
    + intros r Hr Hlt. apply in_or_app.
      destruct (Nat.lt_ge_cases (FencedRegion.startChar r) pos) as [Hbefore | Hafter].
      { left. now apply Hseen. }
      right. left.
      destruct (StronglySorted_trichotomy _ _ r fence regions_sorted Hr Hin)
        as [-> | [Hrf | Hfr]]; [reflexivity | |]; unfold regionBefore in *.
      * destruct (Hwf r Hr) as (Hner & _). unfold nonEmptyRegion in Hner. lia.
      * exfalso. apply (Hnotnl r (FencedRegion.startChar r) Hr); [| reflexivity].
        apply (skipNewlines_newlines text (FencedRegion.endChar fence)). lia.
  - pose proof (find_none _ _ Hfence) as Hnone.
    assert (Hstep : forall nb,
              (pos <= nb <= List.length text)%nat ->
              (forall r, In r fencedRegions -> (pos < FencedRegion.startChar r)%nat ->
                         (nb <= FencedRegion.startChar r)%nat) ->
              splitLoop fuel text fencedRegions (skipNewlines text nb)
                (pushIfNotBlank paragraphs (slice text pos nb) pos) = Some out ->
              Forall (sliceOf text) out
              /\ (forall r, In r fencedRegions -> In (fenceParagraph text r) out)).
    { intros nb Hnb Hmin.
      destruct (pushIfNotBlank_facts text paragraphs pos nb Hnb Hslices) as [Hs' Hkeep].
      apply IH; [exact Hs' |].
      intros r Hr Hlt. apply Hkeep.
      destruct (Nat.lt_total (FencedRegion.startChar r) pos) as [Hb | [He | Ha]].
      - now apply Hseen.
      - specialize (Hnone r Hr). simpl in Hnone. apply Nat.eqb_neq in Hnone. contradiction.
      - exfalso. apply (Hnotnl r (FencedRegion.startChar r) Hr); [| reflexivity].
        apply (skipNewlines_newlines text nb). specialize (Hmin r Hr Ha). lia. }
    assert (Hbreak : forall nb, indexOf text [LF; LF] pos = Some nb ->
                                (pos <= nb <= List.length text)%nat).
    { intros nb Hnb.
      destruct (indexOf_found _ _ _ _ (Nat.lt_le_incl _ _ Hpos) Hnb) as [Hle Hstarts].
      apply startsWith_two_newlines in Hstarts.
      pose proof (runLength_le LF (drop nb text)) as Hrl. rewrite length_drop in Hrl. lia. }
    destruct (List.find (fun r => (pos <? FencedRegion.startChar r)%nat) fencedRegions)
      as [nf |] eqn:Hnf.
    + destruct (find_first _ _ _ Hnf) as (l1 & l2 & Hsplit & Hl1 & Hafter).
      apply Nat.ltb_lt in Hafter.
      assert (Hnfin : In nf fencedRegions).
      { rewrite Hsplit. apply in_or_app. right. now left. }
      destruct (Hwf nf Hnfin) as (Hne & Hend & _). unfold nonEmptyRegion in Hne.
      assert (Hfirst : forall r, In r fencedRegions -> (pos < FencedRegion.startChar r)%nat ->
                                 (FencedRegion.startChar nf <= FencedRegion.startChar r)%nat).
      { intros r Hr Hlt. rewrite Hsplit in Hr. apply in_app_or in Hr as [Hr | [<- | Hr]].
        - rewrite Forall_forall in Hl1. specialize (Hl1 r (proj2 (list_elem_of_In _ _) Hr)).
          simpl in Hl1. apply Nat.ltb_ge in Hl1. lia.
        - lia.
        - pose proof regions_sorted as Hs. rewrite Hsplit in Hs.
          apply StronglySorted_app_cross in Hs as [Hs _].
          inversion Hs as [| ? ? _ Hall]; subst. rewrite Forall_forall in Hall.
          specialize (Hall r (proj2 (list_elem_of_In _ _) Hr)).
          unfold regionBefore in Hall. lia. }
      destruct (indexOf text [LF; LF] pos) as [nb |] eqn:Hnb.
      * specialize (Hbreak nb eq_refl).
        destruct (FencedRegion.startChar nf <? nb)%nat eqn:Hcmp.
        -- apply Hstep; [lia | exact Hfirst].
        -- apply Nat.ltb_ge in Hcmp. apply Hstep; [lia |].
           intros r Hr Hlt. specialize (Hfirst r Hr Hlt). lia.
      * apply Hstep; [lia | exact Hfirst].
    + pose proof (find_none _ _ Hnf) as Hnoafter.
      assert (Hnever : forall r, In r fencedRegions ->
                                 (FencedRegion.startChar r < pos)%nat).
      { intros r Hr. specialize (Hnone r Hr). specialize (Hnoafter r Hr). simpl in *.
        apply Nat.eqb_neq in Hnone. apply Nat.ltb_ge in Hnoafter. lia. }
      destruct (indexOf text [LF; LF] pos) as [nb |] eqn:Hnb.
      * apply Hstep; [exact (Hbreak nb eq_refl) |].
        intros r Hr Hlt. specialize (Hnever r Hr). lia.
      * intros [= <-].
        assert (Hfrom : sliceFrom text pos = slice text pos (List.length text)).
        { unfold sliceFrom, slice. rewrite take_ge; [reflexivity |]. rewrite length_drop. lia. }
        rewrite Hfrom.
        destruct (pushIfNotBlank_facts text paragraphs pos (List.length text)
                    ltac:(lia) Hslices) as [Hs' Hkeep].
        split; [exact Hs' |]. intros r Hr. apply Hkeep, Hseen; [exact Hr |].
        now apply Hnever.
Qed.

Lemma splitIntoParagraphs_facts (out : list Paragraph.t) :
  splitIntoParagraphs text fencedRegions = Some out ->
  Forall (sliceOf text) out
  /\ (forall r, In r fencedRegions -> In (fenceParagraph text r) out).
Proof.
  unfold splitIntoParagraphs. apply splitLoop_facts; [constructor |].
  intros r _ Hlt. lia.
Qed.

End ParagraphFacts.

(** ** Chunker: the chunks of a node *)

Section ChunkCoverFacts.
Import JS Chunker.

Lemma StronglySorted_app_l {A : Type} (R : A -> A -> Prop) (l1 l2 : list A) :
  StronglySorted R (l1 ++ l2) -> StronglySorted R l1.
Proof.
  induction l1 as [| a l1 IH]; simpl; intros Hs; [constructor |].
  inversion Hs as [| ? ? Hrest Hall]; subst. constructor; [now apply IH |].
  apply Forall_app in Hall. tauto.
Qed.

Lemma occursIn_join (sep : list Z) (parts : list (list Z)) (x : list Z) :
  In x parts -> occursIn x (join sep parts).
Proof.
  induction parts as [| p rest IH]; [contradiction |].
  intros [<- | Hin].
  - destruct rest as [| q rest]; cbn [join].
    + exists [], []. now rewrite app_nil_r.
    + exists [], (sep ++ join sep (q :: rest)). reflexivity.
  - destruct (IH Hin) as (a & b & Hab).
    destruct rest as [| q rest]; [contradiction |]. cbn [join] in *.
    exists (p ++ sep ++ a), b. rewrite Hab, <- !app_assoc. reflexivity.
Qed.

Variable config : ChunkerConfig.t.
Variable tokenCounter : list Z -> Z.
Variable sha256hex : list Z -> list Z.
Variable docUri : list Z.
Variable node : HeadingNode.t.
Variable contentStart : nat.
Variable shardId : Z.

(** A chunk spans its group of paragraphs, from the first one's start to
    the last one's end, and its text holds the text of each of them. *)
Lemma chunk_covers_paragraph (g : list Paragraph.t) (c : Chunk.t) (p : Paragraph.t) :
  createChunk tokenCounter sha256hex g docUri node contentStart shardId = Some c ->
  StronglySorted endsBefore g ->
  In p g ->
  (Chunk.startChar c <= contentStart + Paragraph.startOffset p)%nat
  /\ (contentStart + paragraphEnd p <= Chunk.endChar c)%nat
  /\ occursIn (Paragraph.text p) (Chunk.text c).
Proof.
  intros Hc Hsorted Hin.
  apply createChunk_fields in Hc as (fp & lp & Hhead & Hlast & Hstart & Hend & Htext).
  rewrite Hstart, Hend, Htext. split; [| split].
  - destruct g as [| q g']; [discriminate |]. simpl in Hhead. injection Hhead as ->.
    inversion Hsorted as [| ? ? _ Hall]; subst. rewrite Forall_forall in Hall.
    destruct Hin as [<- | Hin]; [lia |].
    specialize (Hall p (proj2 (list_elem_of_In _ _) Hin)).
    unfold endsBefore, paragraphEnd in Hall. lia.
  - apply last_Some in Hlast as (g' & ->).
    apply in_app_or in Hin as [Hin | [<- | []]].
    + apply StronglySorted_app_cross in Hsorted as [_ Hcross].
      specialize (Hcross p lp Hin ltac:(now left)).
      unfold endsBefore, paragraphEnd in *. lia.
    + unfold paragraphEnd. lia.
  - apply occursIn_join. apply in_map. exact Hin.
Qed.

Lemma chunks_cover_paragraphs (groups : list (list Paragraph.t)) :
  forall chunks p,
    Forall2 (fun g c =>
               createChunk tokenCounter sha256hex g docUri node contentStart shardId
               = Some c) groups chunks ->
    StronglySorted endsBefore (concat groups) ->
    In p (concat groups) ->
    exists c,
      In c chunks
      /\ (Chunk.startChar c <= contentStart + Paragraph.startOffset p)%nat
      /\ (contentStart + paragraphEnd p <= Chunk.endChar c)%nat
      /\ occursIn (Paragraph.text p) (Chunk.text c).
Proof.
  induction groups as [| g gs IH]; intros chunks p Hmade Hsorted Hin; [contradiction |].
  inversion Hmade as [| ? c ? cs Hc Hcs]; subst. simpl in Hsorted, Hin.
  apply in_app_or in Hin as [Hin | Hin].
  - exists c. split; [now left |].
    apply (chunk_covers_paragraph g c p Hc); [| exact Hin].
    eapply StronglySorted_app_l. exact Hsorted.
  - apply StronglySorted_app_cross in Hsorted as [Hgs _].
    destruct (IH cs p Hcs Hgs Hin) as (c' & Hc' & Hrest).
    exists c'. split; [now right | exact Hrest].
Qed.

(** A chunk made of paragraphs of [text] is not empty and ends inside
    [text], and carries the node and the document it was made for. *)
Lemma chunk_of_slices (text : list Z) (g : list Paragraph.t) (c : Chunk.t) :
  createChunk tokenCounter sha256hex g docUri node contentStart shardId = Some c ->
  StronglySorted endsBefore g ->
  Forall (sliceOf text) g ->
  (contentStart <= Chunk.startChar c < Chunk.endChar c)%nat
  /\ (Chunk.endChar c <= contentStart + List.length text)%nat
  /\ Chunk.docUri c = docUri /\ Chunk.nodeId c = HeadingNode.nodeId node
  /\ Chunk.headingPath c = HeadingNode.headingPath node /\ Chunk.shardId c = shardId.
Proof.
  intros Hc Hsorted Hslices.
  assert (Hfields : Chunk.docUri c = docUri /\ Chunk.nodeId c = HeadingNode.nodeId node
                    /\ Chunk.headingPath c = HeadingNode.headingPath node
                    /\ Chunk.shardId c = shardId).
  { unfold createChunk in Hc. destruct g; [discriminate |].
    destruct (last _); [| discriminate]. injection Hc as <-. simpl. auto. }
  split; [| split; [| exact Hfields]].
  - destruct g as [| q g']; [discriminate |].
    destruct (chunk_covers_paragraph (q :: g') c q Hc Hsorted ltac:(now left)) as (H1 & H2 & _).
    apply createChunk_fields in Hc as (fp & lp & Hhead & _ & Hstart & _).
    simpl in Hhead. injection Hhead as <-.
    inversion Hslices as [| ? ? (Hne & _ & _) _]; subst.
    unfold paragraphEnd in H2.
    assert (0 < List.length (Paragraph.text q))%nat by (destruct (Paragraph.text q); simpl; [congruence | lia]).
    lia.
  - apply createChunk_fields in Hc as (fp & lp & _ & Hlast & _ & Hend & _).
    rewrite Forall_forall in Hslices.
    destruct (Hslices lp (last_Some_elem_of _ _ Hlast)) as (_ & Hle & _).
    unfold paragraphEnd in Hle. lia.
Qed.

Lemma paragraphTokens_snoc (cur : list Paragraph.t) (para : Paragraph.t) :
  paragraphTokens tokenCounter (cur ++ [para])
  = paragraphTokens tokenCounter cur + tokenCounter (Paragraph.text para).
Proof. unfold paragraphTokens. rewrite fold_left_app. reflexivity. Qed.

Lemma cutsWhenFull_cons (g : list Paragraph.t) (rest : list (list Paragraph.t)) :
  (forall next more para, rest = next :: more -> head next = Some para ->
     ChunkerConfig.targetMaxTokens config
     < paragraphTokens tokenCounter g + tokenCounter (Paragraph.text para)) ->
  cutsWhenFull config tokenCounter rest ->
  cutsWhenFull config tokenCounter (g :: rest).
Proof.
  intros Hcut Hrest. cbn [cutsWhenFull]. destruct rest as [| next more]; [exact I |].
  split; [| exact Hrest]. intros para Hp. now apply (Hcut next more).
Qed.

(** The loop of [accumulateChunks] with its token counter: the groups it
    closes and the one it is filling stay within the token target, and a
    group is closed only when the next paragraph would exceed it. *)
Lemma accumulateLoop_budget (ps : list Paragraph.t) :
  forall chunks cur tok,
    tok = paragraphTokens tokenCounter cur ->
    withinBudget config tokenCounter cur ->
    exists groups cs cur',
      accumulateLoop config tokenCounter sha256hex ps docUri node contentStart shardId
        chunks cur tok = Some (chunks ++ cs, cur')
      /\ Forall2 (fun g c =>
                    createChunk tokenCounter sha256hex g docUri node contentStart shardId
                    = Some c) groups cs
      /\ concat groups ++ cur' = cur ++ ps
      /\ (cur ++ ps <> [] -> cur' <> [])
      /\ (exists ext more, groups ++ [cur'] = (cur ++ ext) :: more)
      /\ Forall (withinBudget config tokenCounter) (groups ++ [cur'])
      /\ cutsWhenFull config tokenCounter (groups ++ [cur']).
Proof.
  induction ps as [| para rest IH]; intros chunks cur tok Htok Hbudget; cbn [accumulateLoop].
  - exists [], [], cur. rewrite !app_nil_r. simpl.
    repeat split; auto.
    exists [], []. now rewrite app_nil_r.
  - destruct ((tok + tokenCounter (Paragraph.text para)
               >? ChunkerConfig.targetMaxTokens config)
              && (0 <? List.length cur)%nat) eqn:Hcut.
    + apply andb_prop in Hcut as [Hover Hlen]. apply Nat.ltb_lt in Hlen.
      apply Z.gtb_lt in Hover.
      assert (Hne : cur <> []) by (destruct cur; simpl in Hlen; [lia | discriminate]).
      destruct (createChunk_nonempty tokenCounter sha256hex docUri node contentStart shardId
                  cur Hne) as [c Hc].
      rewrite Hc.
      destruct (IH (chunks ++ [c]) [para] (0 + tokenCounter (Paragraph.text para)))
        as (groups & cs & cur' & Hrun & Hmade & Hcat & Hlast & (ext & more & Hshape)
            & Hall & Hcuts).
      { reflexivity. }
      { left. simpl. lia. }
      exists (cur :: groups), (c :: cs), cur'.
      rewrite Hrun, <- app_assoc. simpl.
      split; [reflexivity |]. split; [constructor; assumption |].
      split; [rewrite <- app_assoc, Hcat; reflexivity |].
      split; [intros _; apply Hlast; discriminate |].
      split; [exists [], (groups ++ [cur']); now rewrite app_nil_r |].
      split; [constructor; assumption |].
      apply cutsWhenFull_cons; [| exact Hcuts].
      intros next more' p Hnext Hp. rewrite Hshape in Hnext. injection Hnext as <- _.
      simpl in Hp. injection Hp as <-. rewrite <- Htok. lia.
    + destruct (IH chunks (cur ++ [para]) (tok + tokenCounter (Paragraph.text para)))
        as (groups & cs & cur' & Hrun & Hmade & Hcat & Hlast & (ext & more & Hshape)
            & Hall & Hcuts).
      { rewrite paragraphTokens_snoc, Htok. reflexivity. }
      { apply andb_false_iff in Hcut as [Hfits | Hempty].
        - right. rewrite paragraphTokens_snoc, <- Htok. lia.
        - left. apply Nat.ltb_ge in Hempty. rewrite length_app. simpl. lia. }
      exists groups, cs, cur'. rewrite Hrun.
      rewrite <- app_assoc in Hcat, Hlast, Hshape. simpl in Hcat, Hlast, Hshape.
      repeat split; auto.
      exists ([para] ++ ext), more. exact Hshape.
Qed.

Lemma accumulateChunks_budget (ps : list Paragraph.t) :
  exists groups chunks,
    accumulateChunks config tokenCounter sha256hex ps docUri node contentStart shardId
      = Some chunks
    /\ Forall2 (fun g c =>
                  createChunk tokenCounter sha256hex g docUri node contentStart shardId
                  = Some c) groups chunks
    /\ concat groups = ps
    /\ Forall (withinBudget config tokenCounter) groups
    /\ cutsWhenFull config tokenCounter groups.
Proof.
  unfold accumulateChunks. destruct ps as [| p ps'].
  - exists [], []. repeat split; constructor.
  - destruct (accumulateLoop_budget (p :: ps') [] [] 0 eq_refl)
      as (groups & cs & cur' & Hrun & Hmade & Hcat & Hlast & _ & Hall & Hcuts).
    { left. simpl. lia. }
    rewrite Hrun. simpl in Hcat, Hlast |- *.
    assert (Hne : cur' <> []) by (apply Hlast; discriminate).
    destruct (createChunk_nonempty tokenCounter sha256hex docUri node contentStart shardId
                cur' Hne) as [c Hc].
    destruct cur' as [| q cur'']; [congruence |].
    replace (0 <? List.length (q :: cur''))%nat with true by reflexivity.
    rewrite Hc.
    exists (groups ++ [q :: cur'']), (cs ++ [c]). repeat split; auto.
    + apply Forall2_app; [assumption | constructor; [assumption | constructor]].
    + rewrite concat_app. simpl. rewrite app_nil_r. exact Hcat.
Qed.

End ChunkCoverFacts.

Section ChunkNodeFacts.
Import JS Chunker.

Variable config : ChunkerConfig.t.
Variable tokenCounter : list Z -> Z.
Variable sha256hex : list Z -> list Z.
Variable docUri : list Z.
Variable node : HeadingNode.t.
Variable normalizedText : list Z.
Variable shardId : Z.

(** The paragraphs of a node with the repository's fence detector: pieces
    of the node's text, in order, with one paragraph per fenced region. *)
Lemma nodeParagraphs_facts :
  exists paragraphs,
    nodeParagraphs FenceDetector.detect node normalizedText = Some paragraphs
    /\ StronglySorted endsBefore paragraphs
    /\ Forall (sliceOf (nodeText node normalizedText)) paragraphs
    /\ (forall r, In r (FenceDetector.detect (nodeText node normalizedText)) ->
                  In (fenceParagraph (nodeText node normalizedText) r) paragraphs).
Proof.
  unfold nodeParagraphs, nodeText, contentEnd.
  set (contentStart := findContentStart node normalizedText).
  set (contentEnd := match HeadingNode.children node with
                     | child :: _ => HeadingNode.startChar child
                     | [] => HeadingNode.endChar node
                     end).
  destruct (contentEnd <=? contentStart)%nat eqn:Hcmp.
  - exists []. split; [reflexivity |]. split; [constructor |]. split; [constructor |].
    apply Nat.leb_le in Hcmp. unfold slice.
    replace (contentEnd - contentStart)%nat with 0%nat by lia. simpl. intros r [].
  - destruct (trim (slice normalizedText contentStart contentEnd)) eqn:Htrim.
    + exists []. split; [reflexivity |]. split; [constructor |]. split; [constructor |].
      rewrite (detect_blank _ Htrim). intros r [].
    + destruct (detect_wf (slice normalizedText contentStart contentEnd)) as [Hs Hw].
      destruct (splitIntoParagraphs_returns (slice normalizedText contentStart contentEnd)
                  (FenceDetector.detect (slice normalizedText contentStart contentEnd))
                  (detect_regions_nonempty _)) as [ps Hps].
      exists ps. split; [exact Hps |].
      split; [eapply splitIntoParagraphs_ordered;
              [apply detect_regions_nonempty | exact Hps] |].
      eapply splitIntoParagraphs_facts; eassumption.
Qed.

Lemma length_nodeText :
  (findContentStart node normalizedText + List.length (nodeText node normalizedText)
   <= Nat.max (findContentStart node normalizedText)
        (Nat.min (contentEnd node) (List.length normalizedText)))%nat.
Proof.
  unfold nodeText, slice. rewrite length_take, length_drop. lia.
Qed.

End ChunkNodeFacts.

(** X3.  With the repository's fence detector, [Chunker.chunkNode] returns
    for every node, and every chunk it returns is a non-empty range of
    the node's own content: it starts at or after the end of the heading
    line, ends at or before the node's first child (or the node's end) and
    inside the document, and it carries the given document URI and shard
    id and the node's id and heading path. *)
Theorem chunkNode_chunks_lie_in_node_content
    (config : ChunkerConfig.t) (tokenCounter : list Z -> Z) (sha256hex : list Z -> list Z)
    (docUri : list Z) (node : HeadingNode.t) (normalizedText : list Z) (shardId : Z) :
  exists chunks,
    Chunker.chunkNode config FenceDetector.detect tokenCounter sha256hex docUri node
      normalizedText shardId = Some chunks
    /\ Forall (fun c =>
                 (Chunker.findContentStart node normalizedText <= Chunk.startChar c)%nat
                 /\ (Chunk.startChar c < Chunk.endChar c)%nat
                 /\ (Chunk.endChar c <= Chunker.contentEnd node)%nat
                 /\ (Chunk.endChar c <= length normalizedText)%nat
                 /\ Chunk.docUri c = docUri
                 /\ Chunk.nodeId c = HeadingNode.nodeId node
                 /\ Chunk.headingPath c = HeadingNode.headingPath node
                 /\ Chunk.shardId c = shardId) chunks.
Proof.
  destruct (nodeParagraphs_facts node normalizedText) as (ps & Hps & Hsorted & Hslices & _).
  rewrite chunkNode_nodeParagraphs, Hps.
  destruct (accumulateChunks_groups config tokenCounter sha256hex docUri node
              (Chunker.findContentStart node normalizedText) shardId ps)
    as (groups & chunks & Hacc & Hmade & _ & Hcat).
  exists chunks. split; [exact Hacc |].
  subst ps. clear Hps Hacc.
  pose proof (length_nodeText node normalizedText) as Hlen.
  induction Hmade as [| g c gs cs Hc _ IH]; [constructor |].
  simpl in Hsorted, Hslices. apply Forall_app in Hslices as [Hg Hgs].
  constructor.
  - destruct (chunk_of_slices tokenCounter sha256hex docUri node
                (Chunker.findContentStart node normalizedText) shardId
                (Chunker.nodeText node normalizedText) g c Hc
                (StronglySorted_app_l _ _ _ Hsorted) Hg)
      as ((H1 & H2) & H3 & H4 & H5 & H6 & H7).
    repeat split; auto; lia.
  - apply IH; [exact Hgs |]. now apply StronglySorted_app_cross in Hsorted.
Qed.

(** X4.  With the repository's fence detector, [Chunker.chunkNode] keeps
    every fenced code block of the node's content whole: for each fenced
    region of the content there is a chunk whose range covers the region
    and whose text holds the text of the region from its first to its last
    code unit. *)
Theorem chunkNode_keeps_fenced_blocks_whole
    (config : ChunkerConfig.t) (tokenCounter : list Z -> Z) (sha256hex : list Z -> list Z)
    (docUri : list Z) (node : HeadingNode.t) (normalizedText : list Z) (shardId : Z) :
  exists chunks,
    Chunker.chunkNode config FenceDetector.detect tokenCounter sha256hex docUri node
      normalizedText shardId = Some chunks
    /\ forall r,
         In r (FenceDetector.detect (Chunker.nodeText node normalizedText)) ->
         exists c,
           In c chunks
           /\ (Chunk.startChar c
               <= Chunker.findContentStart node normalizedText + FencedRegion.startChar r)%nat
           /\ (Chunker.findContentStart node normalizedText + FencedRegion.endChar r
               <= Chunk.endChar c)%nat
           /\ JS.occursIn
                (JS.slice (Chunker.nodeText node normalizedText)
                   (FencedRegion.startChar r) (FencedRegion.endChar r))
                (Chunk.text c).
Proof.
  destruct (nodeParagraphs_facts node normalizedText) as (ps & Hps & Hsorted & _ & Hfences).
  rewrite chunkNode_nodeParagraphs, Hps.
  destruct (accumulateChunks_groups config tokenCounter sha256hex docUri node
              (Chunker.findContentStart node normalizedText) shardId ps)
    as (groups & chunks & Hacc & Hmade & _ & Hcat).
  exists chunks. split; [exact Hacc |].
  intros r Hr. subst ps.
  destruct (chunks_cover_paragraphs tokenCounter sha256hex docUri node
              (Chunker.findContentStart node normalizedText) shardId groups chunks
              (Chunker.fenceParagraph (Chunker.nodeText node normalizedText) r)
              Hmade Hsorted (Hfences r Hr)) as (c & Hc & H1 & H2 & H3).
  exists c. split; [exact Hc |]. simpl in H1, H3. split; [exact H1 |]. split; [| exact H3].
  destruct (detect_wf (Chunker.nodeText node normalizedText)) as [_ Hw].
  rewrite Forall_forall in Hw.
  destruct (Hw r (proj2 (list_elem_of_In _ _) Hr)) as (Hne & Hend & _).
  unfold FenceDetector.nonEmptyRegion in Hne.
  unfold Chunker.paragraphEnd, Chunker.fenceParagraph in H2. simpl in H2.
  rewrite length_slice_within in H2 by exact Hend. lia.
Qed.

(** X5.  With the repository's fence detector, [Chunker.chunkNode] cuts the
    paragraphs of a node into consecutive groups, one chunk per group, so
    that a group of more than one paragraph has token counts that add up
    to at most [targetMaxTokens], and a group ends only where adding the
    next paragraph would take the sum over [targetMaxTokens].  A single
    paragraph larger than the target stays one chunk. *)
Theorem chunkNode_groups_fit_the_token_target
    (config : ChunkerConfig.t) (tokenCounter : list Z -> Z) (sha256hex : list Z -> list Z)
    (docUri : list Z) (node : HeadingNode.t) (normalizedText : list Z) (shardId : Z) :
  exists paragraphs groups chunks,
    Chunker.nodeParagraphs FenceDetector.detect node normalizedText = Some paragraphs
    /\ Chunker.chunkNode config FenceDetector.detect tokenCounter sha256hex docUri node
         normalizedText shardId = Some chunks
    /\ Forall2 (fun g c =>
                  Chunker.createChunk tokenCounter sha256hex g docUri node
                    (Chunker.findContentStart node normalizedText) shardId = Some c)
         groups chunks
    /\ concat groups = paragraphs
    /\ Forall (Chunker.withinBudget config tokenCounter) groups
    /\ Chunker.cutsWhenFull config tokenCounter groups.
Proof.
  destruct (nodeParagraphs_facts node normalizedText) as (ps & Hps & _).
  destruct (accumulateChunks_budget config tokenCounter sha256hex docUri node
              (Chunker.findContentStart node normalizedText) shardId ps)
    as (groups & chunks & Hacc & Hmade & Hcat & Hbudget & Hcuts).
  exists ps, groups, chunks.
  rewrite chunkNode_nodeParagraphs, Hps. repeat split; assumption.
Qed.

Lemma accumulateLoop_reads_targetMaxTokens
    (config1 config2 : ChunkerConfig.t) (tokenCounter : list Z -> Z)
    (sha256hex : list Z -> list Z) (docUri : list Z) (node : HeadingNode.t)
    (contentStart : nat) (shardId : Z) (ps : list Paragraph.t) :
  ChunkerConfig.targetMaxTokens config1 = ChunkerConfig.targetMaxTokens config2 ->
  forall chunks cur tok,
    Chunker.accumulateLoop config1 tokenCounter sha256hex ps docUri node contentStart shardId
      chunks cur tok
    = Chunker.accumulateLoop config2 tokenCounter sha256hex ps docUri node contentStart
        shardId chunks cur tok.
Proof.
  intros Hmax. induction ps as [| para rest IH]; intros chunks cur tok;
    cbn [Chunker.accumulateLoop]; [reflexivity |].
  rewrite Hmax. destruct (_ && _).
  - destruct (Chunker.createChunk _ _ _ _ _ _ _); [apply IH | reflexivity].
  - apply IH.
Qed.

(** X6.  Of the chunker's configuration only [targetMaxTokens] is
    read: two configurations that agree on it give the same chunks, whatever
    their [targetMinTokens], [hardMaxTokens], [minPreferredTokens] and
    [overlapTokens] are. *)
Theorem chunkNode_reads_only_targetMaxTokens
    (config1 config2 : ChunkerConfig.t) (detect : list Z -> list FencedRegion.t)
    (tokenCounter : list Z -> Z) (sha256hex : list Z -> list Z)
    (docUri : list Z) (node : HeadingNode.t) (normalizedText : list Z) (shardId : Z) :
  ChunkerConfig.targetMaxTokens config1 = ChunkerConfig.targetMaxTokens config2 ->
  Chunker.chunkNode config1 detect tokenCounter sha256hex docUri node normalizedText shardId
  = Chunker.chunkNode config2 detect tokenCounter sha256hex docUri node normalizedText shardId.
Proof.
  intros Hmax. rewrite !chunkNode_nodeParagraphs.
  destruct (Chunker.nodeParagraphs detect node normalizedText) as [ps |]; [| reflexivity].
  unfold Chunker.accumulateChunks. destruct ps as [| p ps']; [reflexivity |].
  rewrite (accumulateLoop_reads_targetMaxTokens config1 config2 _ _ _ _ _ _ _ Hmax).
  reflexivity.
Qed.

Lemma chunkNode_reads_only_targetMaxTokens_witness :
  ChunkerConfig.targetMaxTokens Chunker.DEFAULT_CHUNKER_CONFIG
  = ChunkerConfig.targetMaxTokens (ChunkerConfig.mk 0 1000 1 0 0)
  /\ Chunker.chunkNode Chunker.DEFAULT_CHUNKER_CONFIG FenceDetector.detect
       Tokenizer.approximateTokenCount (fun _ => [])
       (JS.lit "t.md") (Examples.whole_document_node Examples.doc_two_long_paragraphs)
       Examples.doc_two_long_paragraphs 0
     = Chunker.chunkNode (ChunkerConfig.mk 0 1000 1 0 0) FenceDetector.detect
         Tokenizer.approximateTokenCount (fun _ => [])
         (JS.lit "t.md") (Examples.whole_document_node Examples.doc_two_long_paragraphs)
         Examples.doc_two_long_paragraphs 0.
Proof.
  split; [reflexivity |].
  apply (chunkNode_reads_only_targetMaxTokens Chunker.DEFAULT_CHUNKER_CONFIG
           (ChunkerConfig.mk 0 1000 1 0 0)).
  reflexivity.
Defined.

(** ** JavaScript maps: lookups after updates *)

Section JSMapFacts.
Import JS.
Context {V : Type}.

Lemma get_set_eq (k : list Z) (v : V) (m : list (list Z * V)) :
  JSMap.get k (JSMap.set k v m) = Some v.
Proof.
  induction m as [| [k' v'] m IH]; simpl.
  - rewrite bool_decide_eq_true_2; reflexivity.
  - destruct (bool_decide (k' = k)) eqn:E; simpl; rewrite E; [reflexivity | exact IH].
Qed.

Lemma get_set_ne (k k0 : list Z) (v : V) (m : list (list Z * V)) :
  k0 <> k -> JSMap.get k0 (JSMap.set k v m) = JSMap.get k0 m.
Proof.
  intros Hne. induction m as [| [k' v'] m IH]; simpl.
  - rewrite bool_decide_eq_false_2; [reflexivity | congruence].
  - destruct (bool_decide (k' = k)) eqn:E; simpl.
    + apply bool_decide_eq_true in E. subst k'.
      rewrite !bool_decide_eq_false_2 by congruence. reflexivity.
    + destruct (bool_decide (k' = k0)); [reflexivity | exact IH].
Qed.

Lemma keys_set (k : list Z) (v : V) (m : list (list Z * V)) :
  JSMap.keys (JSMap.set k v m)
  = if JSMap.arrayIncludes (JSMap.keys m) k then JSMap.keys m else JSMap.keys m ++ [k].
Proof.
  unfold JSMap.keys, JSMap.arrayIncludes.
  induction m as [| [k' v'] m IH]; simpl; [reflexivity |].
  destruct (bool_decide (k' = k)) eqn:E; simpl; [reflexivity |].
  rewrite IH. destruct (existsb _ _); reflexivity.
Qed.

Lemma In_keys_set (k k0 : list Z) (v : V) (m : list (list Z * V)) :
  In k0 (JSMap.keys (JSMap.set k v m)) <-> k0 = k \/ In k0 (JSMap.keys m).
Proof.
  rewrite keys_set. destruct (JSMap.arrayIncludes (JSMap.keys m) k) eqn:E.
  - apply arrayIncludes_In in E. split; [tauto |]. intros [-> | H]; assumption.
  - rewrite in_app_iff. simpl. split; [intros [H | [<- | []]]; auto | intros [-> | H]; auto].
Qed.

Lemma NoDup_keys_set (k : list Z) (v : V) (m : list (list Z * V)) :
  NoDup (JSMap.keys m) -> NoDup (JSMap.keys (JSMap.set k v m)).
Proof.
  intros Hnd. rewrite keys_set. destruct (JSMap.arrayIncludes (JSMap.keys m) k) eqn:E;
    [exact Hnd |].
  apply NoDup_app. split; [exact Hnd |]. split; [| apply NoDup_singleton].
  intros x Hx Hk. apply list_elem_of_In in Hx, Hk. destruct Hk as [<- | []].
  apply arrayIncludes_In in Hx. congruence.
Qed.

Lemma get_Some_In (k : list Z) (v : V) (m : list (list Z * V)) :
  JSMap.get k m = Some v -> In (k, v) m.
Proof.
  induction m as [| [k' v'] m IH]; simpl; [discriminate |].
  destruct (bool_decide (k' = k)) eqn:E.
  - apply bool_decide_eq_true in E. intros [= ->]. left. congruence.
  - intros H. right. now apply IH.
Qed.

Lemma In_get (k : list Z) (v : V) (m : list (list Z * V)) :
  NoDup (JSMap.keys m) -> In (k, v) m -> JSMap.get k m = Some v.
Proof.
  unfold JSMap.keys. induction m as [| [k' v'] m IH]; simpl; [contradiction |].
  intros Hnd. apply NoDup_cons in Hnd as [Hnot Hnd].
  intros [[= -> ->] | Hin].
  - rewrite bool_decide_eq_true_2; reflexivity.
  - rewrite bool_decide_eq_false_2; [now apply IH |].
    intros ->. apply Hnot. apply list_elem_of_In. apply (in_map fst _ _ Hin).
Qed.

Lemma get_None_keys (k : list Z) (m : list (list Z * V)) :
  JSMap.get k m = None <-> ~ In k (JSMap.keys m).
Proof.
  unfold JSMap.keys. induction m as [| [k' v'] m IH]; simpl; [tauto |].
  destruct (bool_decide (k' = k)) eqn:E.
  - apply bool_decide_eq_true in E. split; [discriminate | intros H; exfalso; auto].
  - apply bool_decide_eq_false in E. rewrite IH. tauto.
Qed.

(** A map filled with [set] from a list of entries. *)
Section Fill.
Context {A : Type} (key : A -> list Z) (val : A -> V).

Lemma keys_fill (l : list A) :
  forall m k,
    In k (JSMap.keys (fold_left (fun m r => JSMap.set (key r) (val r) m) l m))
    <-> In k (JSMap.keys m) \/ In k (map key l).
Proof.
  induction l as [| r l IH]; intros m k; simpl; [tauto |].
  rewrite IH, In_keys_set. intuition congruence.
Qed.

Lemma NoDup_keys_fill (l : list A) :
  forall m, NoDup (JSMap.keys m) ->
            NoDup (JSMap.keys (fold_left (fun m r => JSMap.set (key r) (val r) m) l m)).
Proof.
  induction l as [| r l IH]; intros m Hnd; simpl; [exact Hnd |].
  apply IH, NoDup_keys_set, Hnd.
Qed.

Lemma get_fill_other (l : list A) :
  forall m k,
    ~ In k (map key l) ->
    JSMap.get k (fold_left (fun m r => JSMap.set (key r) (val r) m) l m) = JSMap.get k m.
Proof.
  induction l as [| a l IH]; intros m k Hnot; simpl; [reflexivity |].
  simpl in Hnot. rewrite IH by tauto. apply get_set_ne. intros ->. tauto.
Qed.

(** With distinct keys in the list, an entry's value is what [get]
    finds. *)
Lemma get_fill (l : list A) :
  NoDup (map key l) ->
  forall m r,
    In r l ->
    JSMap.get (key r) (fold_left (fun m r => JSMap.set (key r) (val r) m) l m)
    = Some (val r).
Proof.
  induction l as [| a l IH]; intros Hnd m r; simpl; [contradiction |].
  simpl in Hnd. apply NoDup_cons in Hnd as [Hnot Hnd].
  intros [<- | Hin]; [| now apply IH].
  rewrite get_fill_other; [apply get_set_eq |].
  intros Hin. apply Hnot, list_elem_of_In, Hin.
Qed.


End Fill.

End JSMapFacts.

(** ** ShardRouter: the range of shard ids *)

(** X7.  For a positive shard count, [ShardRouter.getShardId] returns a
    shard id from [0] up to, and not including, the shard count, for every
    document URI. *)
Theorem getShardId_in_range (shardCount : Z) (docUri : list Z) :
  0 < shardCount ->
  0 <= ShardRouter.getShardId shardCount docUri < shardCount.
Proof.
  intros Hpos. unfold ShardRouter.getShardId.
  pose proof (fnv1a32_range docUri) as [Hlo _].
  apply Z.rem_bound_pos; lia.
Qed.

Lemma getShardId_in_range_witness :
  0 < ShardRouter.DEFAULT_SHARD_COUNT
  /\ 0 <= ShardRouter.getShardId ShardRouter.DEFAULT_SHARD_COUNT (JS.lit "notes/test.md")
     < ShardRouter.DEFAULT_SHARD_COUNT.
Proof.
  split; [reflexivity |].
  apply (getShardId_in_range ShardRouter.DEFAULT_SHARD_COUNT (JS.lit "notes/test.md")).
  reflexivity.
Defined.

(** ** HybridScorer: where the fused results come from *)

Section FuseFacts.
Import JS HybridScorer.

Lemma addUnique_In (ids : list (list Z)) :
  forall current x,
    In x (SpanMerger.addUnique current ids) <-> In x current \/ In x ids.
Proof.
  unfold SpanMerger.addUnique.
  induction ids as [| id ids IH]; intros current x; simpl; [tauto |].
  rewrite IH. destruct (JSMap.arrayIncludes current id) eqn:E.
  - apply arrayIncludes_In in E. split; [tauto |].
    intros [H | [<- | H]]; auto.
  - rewrite in_app_iff. simpl. tauto.
Qed.

Lemma setOf_In (l : list (list Z)) (x : list Z) : In x (JSMap.setOf l) <-> In x l.
Proof.
  change (JSMap.setOf l) with (SpanMerger.addUnique [] l).
  rewrite addUnique_In. simpl. tauto.
Qed.

Lemma fusedCandidates_ids (this : HybridScorer.t) (vectorResults : list VectorResult.t)
    (bm25Results : list BM25Result.t) (id : list Z) :
  In id (map HybridResult.leafId (fusedCandidates this vectorResults bm25Results))
  <-> In id (map VectorResult.leafId vectorResults)
      \/ In id (map BM25Result.leafId bm25Results).
Proof.
  unfold fusedCandidates. rewrite map_map. simpl. rewrite map_id.
  rewrite setOf_In, in_app_iff.
  rewrite (keys_fill VectorResult.leafId VectorResult.vectorScore).
  rewrite (keys_fill BM25Result.leafId
             (fun r => (BM25Result.bm25Score r, BM25Result.cachedVectorScore r))).
  simpl. tauto.
Qed.

Lemma fusedCandidates_inputs (this : HybridScorer.t) (vectorResults : list VectorResult.t)
    (bm25Results : list BM25Result.t) (r : HybridResult.t) :
  NoDup (map VectorResult.leafId vectorResults) ->
  NoDup (map BM25Result.leafId bm25Results) ->
  In r (fusedCandidates this vectorResults bm25Results) ->
  (forall v, In v vectorResults -> VectorResult.leafId v = HybridResult.leafId r ->
             HybridResult.vectorScore r = VectorResult.vectorScore v)
  /\ (forall b, In b bm25Results -> BM25Result.leafId b = HybridResult.leafId r ->
                HybridResult.bm25Score r = BM25Result.bm25Score b
                /\ (~ In (HybridResult.leafId r) (map VectorResult.leafId vectorResults) ->
                    HybridResult.vectorScore r
                    = match BM25Result.cachedVectorScore b with
                      | Some cached => cached
                      | None => 0%Q
                      end))
  /\ (~ In (HybridResult.leafId r) (map BM25Result.leafId bm25Results) ->
      HybridResult.bm25Score r = 0%Q).
Proof.
  intros Hv Hb. unfold fusedCandidates. rewrite in_map_iff.
  intros (id & <- & _). simpl.
  split; [| split].
  - intros v Hin <-.
    rewrite (get_fill VectorResult.leafId VectorResult.vectorScore _ Hv [] v Hin).
    reflexivity.
  - intros b Hin <-.
    rewrite (get_fill BM25Result.leafId
               (fun r => (BM25Result.bm25Score r, BM25Result.cachedVectorScore r))
               _ Hb [] b Hin).
    split; [reflexivity |]. intros Hnot.
    rewrite (get_fill_other VectorResult.leafId VectorResult.vectorScore _ [] _ Hnot).
    simpl. reflexivity.
  - intros Hnot.
    rewrite (get_fill_other BM25Result.leafId
               (fun r => (BM25Result.bm25Score r, BM25Result.cachedVectorScore r))
               _ [] _ Hnot).
    reflexivity.
Qed.


End FuseFacts.


(** X8.  [HybridScorer.fuse] returns one result for every leaf id that
    occurs in the vector results or in the BM25 results, and for no other
    leaf id. *)
Theorem fuse_returns_the_union_of_leaf_ids `{Collator}
    (this : HybridScorer.t) (vectorResults : list VectorResult.t)
    (bm25Results : list BM25Result.t) (id : list Z) :
  In id (map HybridResult.leafId (HybridScorer.fuse this vectorResults bm25Results))
  <-> In id (map VectorResult.leafId vectorResults)
      \/ In id (map BM25Result.leafId bm25Results).
Proof.
  rewrite <- fusedCandidates_ids with (this := this).
  pose proof (fuse_Permutation this vectorResults bm25Results) as Hperm.
  apply (Permutation_map HybridResult.leafId) in Hperm.
  split; apply Permutation_in; [exact Hperm | symmetry; exact Hperm].
Qed.

(** X9.  When no leaf id occurs twice in the vector results or twice in
    the BM25 results, a fused result takes its vector score from the vector
    result of its leaf, or, for a leaf only BM25 found, from that result's
    cached vector score, or 0 without one; and its BM25 score from the BM25
    result of its leaf, or 0 when only the vector search found the leaf. *)
Theorem fuse_takes_scores_from_the_inputs `{Collator}
    (this : HybridScorer.t) (vectorResults : list VectorResult.t)
    (bm25Results : list BM25Result.t) (r : HybridResult.t) :
  NoDup (map VectorResult.leafId vectorResults) ->
  NoDup (map BM25Result.leafId bm25Results) ->
  In r (HybridScorer.fuse this vectorResults bm25Results) ->
  (forall v, In v vectorResults -> VectorResult.leafId v = HybridResult.leafId r ->
             HybridResult.vectorScore r = VectorResult.vectorScore v)
  /\ (forall b, In b bm25Results -> BM25Result.leafId b = HybridResult.leafId r ->
                HybridResult.bm25Score r = BM25Result.bm25Score b
                /\ (~ In (HybridResult.leafId r) (map VectorResult.leafId vectorResults) ->
                    HybridResult.vectorScore r
                    = match BM25Result.cachedVectorScore b with
                      | Some cached => cached
                      | None => 0%Q
                      end))
  /\ (~ In (HybridResult.leafId r) (map BM25Result.leafId bm25Results) ->
      HybridResult.bm25Score r = 0%Q).
Proof.
  intros Hv Hb Hin. apply (fusedCandidates_inputs this); [exact Hv | exact Hb |].
  eapply Permutation_in; [apply fuse_Permutation | exact Hin].
Qed.

Lemma fuse_takes_scores_from_the_inputs_witness :
  NoDup (map VectorResult.leafId [VectorResult.mk (JS.lit "l1") (5 # 10)])
  /\ NoDup (map BM25Result.leafId [BM25Result.mk (JS.lit "l2") (9 # 10) (Some (4 # 10))])
  /\ In (HybridResult.mk (JS.lit "l2") ((7 # 10) * (4 # 10) + (3 # 10) * (9 # 10))
           (4 # 10) (9 # 10))
        (HybridScorer.fuse (HybridScorer.mk HybridScorer.DEFAULT_HYBRID_WEIGHTS)
           [VectorResult.mk (JS.lit "l1") (5 # 10)]
           [BM25Result.mk (JS.lit "l2") (9 # 10) (Some (4 # 10))])
  /\ (~ In (JS.lit "l2") (map VectorResult.leafId [VectorResult.mk (JS.lit "l1") (5 # 10)]) ->
      HybridResult.vectorScore
        (HybridResult.mk (JS.lit "l2") ((7 # 10) * (4 # 10) + (3 # 10) * (9 # 10))
           (4 # 10) (9 # 10))
      = (4 # 10)%Q).
Proof.
  assert (Hv : NoDup (map VectorResult.leafId [VectorResult.mk (JS.lit "l1") (5 # 10)])).
  { apply NoDup_singleton. }
  assert (Hb : NoDup (map BM25Result.leafId
                        [BM25Result.mk (JS.lit "l2") (9 # 10) (Some (4 # 10))])).
  { apply NoDup_singleton. }
  assert (Hin : In (HybridResult.mk (JS.lit "l2")
                      ((7 # 10) * (4 # 10) + (3 # 10) * (9 # 10)) (4 # 10) (9 # 10))
                   (HybridScorer.fuse (HybridScorer.mk HybridScorer.DEFAULT_HYBRID_WEIGHTS)
                      [VectorResult.mk (JS.lit "l1") (5 # 10)]
                      [BM25Result.mk (JS.lit "l2") (9 # 10) (Some (4 # 10))])).
  { vm_compute. left. reflexivity. }
  split; [exact Hv |]. split; [exact Hb |]. split; [exact Hin |].
  destruct (fuse_takes_scores_from_the_inputs
              (HybridScorer.mk HybridScorer.DEFAULT_HYBRID_WEIGHTS)
              [VectorResult.mk (JS.lit "l1") (5 # 10)]
              [BM25Result.mk (JS.lit "l2") (9 # 10) (Some (4 # 10))]
              _ Hv Hb Hin) as (_ & H2 & _).
  intros Hnot.
  exact (proj2 (H2 (BM25Result.mk (JS.lit "l2") (9 # 10) (Some (4 # 10)))
                  ltac:(left; reflexivity) eq_refl) Hnot).
Defined.

(** ** SpanMerger *)

Section SpanMergerFacts.
Import JS SpanMerger.

Lemma maxScore_l (a b : Q) : (a <= maxScore a b)%Q.
Proof.
  unfold maxScore. destruct (Qle_bool a b) eqn:E.
  - now apply Qle_bool_iff.
  - apply Qle_refl.
Qed.

Lemma maxScore_r (a b : Q) : (b <= maxScore a b)%Q.
Proof.
  unfold maxScore. destruct (Qle_bool a b) eqn:E.
  - apply Qle_refl.
  - apply Qlt_le_weak, Qnot_le_lt. intros Hle. apply Qle_bool_iff in Hle. congruence.
Qed.

Lemma covers_refl (m : Span.t) : covers m m.
Proof. unfold covers. repeat split; auto. apply Qle_refl. Qed.

Lemma covers_trans (a b c : Span.t) : covers a b -> covers b c -> covers a c.
Proof.
  unfold covers. intros (H1 & H2 & H3 & H4 & H5) (G1 & G2 & G3 & G4 & G5).
  repeat split; [congruence | lia | lia | eapply Qle_trans; eassumption | auto].
Qed.

(** The loop over the sorted spans of one document. *)
Lemma mergeLoop_inv (gapThreshold : nat) (key : list Z) (all : list Span.t)
    (sorted : list Span.t) :
  forall cur merged,
    StronglySorted (fun a b => (Span.startChar a <= Span.startChar b)%nat) sorted ->
    Forall (fun s => (Span.startChar cur <= Span.startChar s)%nat) sorted ->
    Forall (fun s => Span.docUri s = key /\ In s all) sorted ->
    Forall (fun m => Span.docUri m = key
                     /\ forall id, In id (Span.leafIds m) ->
                                   exists s, In s all /\ covers m s /\ In id (Span.leafIds s))
      (merged ++ [cur]) ->
    StronglySorted (endsWellBefore gapThreshold) (merged ++ [cur]) ->
    let out := mergeLoop gapThreshold key sorted (Some cur) merged in
    StronglySorted (endsWellBefore gapThreshold) out
    /\ Forall (fun m => Span.docUri m = key
                        /\ forall id, In id (Span.leafIds m) ->
                                      exists s, In s all /\ covers m s
                                                /\ In id (Span.leafIds s)) out
    /\ (forall s, In s (merged ++ [cur]) \/ In s sorted -> exists m, In m out /\ covers m s).
Proof.
  induction sorted as [| span rest IH]; intros cur merged Hsorted Hfrom Hkey Horig Hsep.
  - cbn [mergeLoop]. simpl. split; [exact Hsep |]. split; [exact Horig |].
    intros s [Hs | []]. exists s. split; [exact Hs | apply covers_refl].
  - cbn [mergeLoop].
    apply StronglySorted_inv in Hsorted as [Hrest Hall].
    apply Forall_cons in Hfrom as [Hcur Hfrom'].
    apply Forall_cons in Hkey as [[Hspankey Hspanall] Hkey'].
    apply Forall_app in Horig as [Hmerged Hcurorig].
    pose proof Hcurorig as Hcurorig'.
    apply Forall_cons in Hcurorig' as [[Hcurkey Hcurids] _].
    destruct (Span.startChar span <=? Span.endChar cur + gapThreshold)%nat eqn:Hnear.
    + (* merge [span] into [current] *)
      set (cur' := Span.mk (Span.docUri cur) (Span.startChar cur)
                     (Nat.max (Span.endChar cur) (Span.endChar span))
                     (maxScore (Span.score cur) (Span.score span))
                     (addUnique (Span.leafIds cur) (Span.leafIds span))).
      assert (Hcc : covers cur' cur).
      { unfold covers, cur'. simpl. repeat split; [lia | lia | apply maxScore_l |].
        intros id Hid. apply addUnique_In. now left. }
      assert (Hcs : covers cur' span).
      { unfold covers, cur'. simpl. repeat split; [congruence | lia | lia | apply maxScore_r |].
        intros id Hid. apply addUnique_In. now right. }
      destruct (IH cur' merged) as (H1 & H2 & H3).
      * exact Hrest.
      * exact Hfrom'.
      * exact Hkey'.
      * apply Forall_app. split; [exact Hmerged |]. constructor; [| constructor].
        split; [exact Hcurkey |]. intros id Hid. unfold cur' in Hid. simpl in Hid.
        apply addUnique_In in Hid as [Hid | Hid].
        -- destruct (Hcurids id Hid) as (s & Hs & Hcov & Hin).
           exists s. split; [exact Hs |]. split; [| exact Hin].
           exact (covers_trans _ _ _ Hcc Hcov).
        -- exists span. auto.
      * apply StronglySorted_app_l in Hsep as Hm.
        apply StronglySorted_snoc; [exact Hm |].
        apply StronglySorted_app_cross in Hsep as [_ Hcross].
        apply Forall_forall. intros m Hm'. apply list_elem_of_In in Hm'.
        specialize (Hcross m cur Hm' ltac:(now left)).
        unfold endsWellBefore in *. simpl. exact Hcross.
      * split; [exact H1 |]. split; [exact H2 |].
        intros s [Hs | [<- | Hs]].
        -- apply in_app_or in Hs as [Hs | [<- | []]].
           ++ apply H3. left. apply in_or_app. now left.
           ++ destruct (H3 cur') as (m & Hm & Hcov).
              { left. apply in_or_app. right. now left. }
              exists m. split; [exact Hm |]. exact (covers_trans _ _ _ Hcov Hcc).
        -- destruct (H3 cur') as (m & Hm & Hcov).
           { left. apply in_or_app. right. now left. }
           exists m. split; [exact Hm |]. exact (covers_trans _ _ _ Hcov Hcs).
        -- apply H3. now right.
    + (* [span] starts a new merged span *)
      apply Nat.leb_gt in Hnear.
      set (cur' := Span.mk key (Span.startChar span) (Span.endChar span)
                     (Span.score span) (Span.leafIds span)).
      assert (Hcs : covers cur' span).
      { unfold covers, cur'. simpl. repeat split; auto. apply Qle_refl. }
      destruct (IH cur' (merged ++ [cur])) as (H1 & H2 & H3).
      * exact Hrest.
      * exact Hall.
      * exact Hkey'.
      * apply Forall_app. split.
        -- apply Forall_app. split; [exact Hmerged | exact Hcurorig].
        -- constructor; [| constructor]. split; [reflexivity |].
           intros id Hid. exists span. auto.
      * apply StronglySorted_snoc; [exact Hsep |].
        apply Forall_app. split.
        -- apply StronglySorted_app_cross in Hsep as [_ Hcross].
           apply Forall_forall. intros m Hm'. apply list_elem_of_In in Hm'.
           specialize (Hcross m cur Hm' ltac:(now left)).
           unfold endsWellBefore in *. simpl. lia.
        -- constructor; [| constructor]. unfold endsWellBefore. simpl. lia.
      * split; [exact H1 |]. split; [exact H2 |].
        intros s [Hs | [<- | Hs]].
        -- apply H3. left. apply in_or_app. now left.
        -- destruct (H3 cur') as (m & Hm & Hcov).
           { left. apply in_or_app. right. now left. }
           exists m. split; [exact Hm |]. exact (covers_trans _ _ _ Hcov Hcs).
        -- apply H3. now right.
Qed.

(** The merged spans of one document's spans. *)
Lemma mergeLoop_doc (gapThreshold : nat) (key : list Z) (docSpans : list Span.t) :
  Forall (fun s => Span.docUri s = key) docSpans ->
  let out :=
    mergeLoop gapThreshold key
      (sort (fun a b => (Span.startChar b <? Span.startChar a)%nat) docSpans) None [] in
  StronglySorted (endsWellBefore gapThreshold) out
  /\ Forall (fun m => Span.docUri m = key
                      /\ forall id, In id (Span.leafIds m) ->
                                    exists s, In s docSpans /\ covers m s
                                              /\ In id (Span.leafIds s)) out
  /\ (forall s, In s docSpans -> exists m, In m out /\ covers m s).
Proof.
  intros Hkey.
  pose proof (sort_Permutation (fun a b => (Span.startChar b <? Span.startChar a)%nat) docSpans)
    as Hperm.
  pose proof (sort_StronglySorted (fun a b => (Span.startChar b <? Span.startChar a)%nat)
                (fun a b => (Span.startChar a <= Span.startChar b)%nat)) as Hsorted.
  specialize (Hsorted ltac:(simpl; intros; lia)
                ltac:(simpl; intros x y E; apply Nat.ltb_ge in E; exact E)
                ltac:(simpl; intros x y E; apply Nat.ltb_lt in E; lia) docSpans).
  assert (Hin : forall s, In s (sort (fun a b => (Span.startChar b <? Span.startChar a)%nat)
                                  docSpans) <-> In s docSpans).
  { intros s. split; apply Permutation_in; [exact Hperm | symmetry; exact Hperm]. }
  destruct (sort (fun a b => (Span.startChar b <? Span.startChar a)%nat) docSpans)
    as [| span rest] eqn:Esort.
  - cbn [mergeLoop]. simpl. split; [constructor |]. split; [constructor |].
    intros s Hs. apply Hin in Hs. destruct Hs.
  - cbn [mergeLoop].
    set (cur := Span.mk key (Span.startChar span) (Span.endChar span)
                  (Span.score span) (Span.leafIds span)).
    assert (Hspan : In span docSpans) by (apply Hin; now left).
    assert (Hcs : covers cur span).
    { rewrite Forall_forall in Hkey. specialize (Hkey span (proj2 (list_elem_of_In _ _) Hspan)).
      unfold covers, cur. simpl. repeat split; auto. apply Qle_refl. }
    apply StronglySorted_inv in Hsorted as [Hrest Hall].
    destruct (mergeLoop_inv gapThreshold key docSpans rest cur []) as (H1 & H2 & H3).
    + exact Hrest.
    + exact Hall.
    + apply Forall_forall. intros s Hs. apply list_elem_of_In in Hs.
      assert (Hs' : In s docSpans) by (apply Hin; now right).
      split; [| exact Hs'].
      rewrite Forall_forall in Hkey. apply Hkey, list_elem_of_In, Hs'.
    + constructor; [| constructor]. split; [reflexivity |].
      intros id Hid. exists span. auto.
    + repeat constructor.
    + split; [exact H1 |]. split; [exact H2 |].
      intros s Hs. apply Hin in Hs as [<- | Hs].
      * destruct (H3 cur) as (m & Hm & Hcov); [left; now left |].
        exists m. split; [exact Hm |]. exact (covers_trans _ _ _ Hcov Hcs).
      * apply H3. now right.
Qed.

(** The map [byDoc] after the spans [processed]: one entry per document
    that has a span, holding that document's spans. *)
Lemma byDoc_inv (spans : list Span.t) :
  forall (m : list (list Z * list Span.t)) processed,
    NoDup (JSMap.keys m) ->
    (forall k, JSMap.get k m
               = match spansOf k processed with [] => None | g => Some g end) ->
    let byDoc :=
      fold_left (fun m span =>
                   let existing :=
                     match JSMap.get (Span.docUri span) m with
                     | Some l => l
                     | None => []
                     end in
                   JSMap.set (Span.docUri span) (existing ++ [span]) m)
        spans m in
    NoDup (JSMap.keys byDoc)
    /\ (forall k, JSMap.get k byDoc
                  = match spansOf k (processed ++ spans) with [] => None | g => Some g end).
Proof.
  induction spans as [| span rest IH]; intros m processed Hnd Hget; simpl.
  - rewrite app_nil_r. auto.
  - replace (processed ++ span :: rest) with ((processed ++ [span]) ++ rest)
      by (rewrite <- app_assoc; reflexivity).
    apply IH; [apply NoDup_keys_set, Hnd |].
    intros k. unfold spansOf. rewrite List.filter_app. simpl.
    fold (spansOf k processed). fold (spansOf (Span.docUri span) processed).
    assert (Hexisting : match JSMap.get (Span.docUri span) m with
                        | Some l => l
                        | None => []
                        end = spansOf (Span.docUri span) processed).
    { rewrite Hget. destruct (spansOf (Span.docUri span) processed); reflexivity. }
    rewrite Hexisting.
    destruct (bool_decide (Span.docUri span = k)) eqn:E.
    + apply bool_decide_eq_true in E. subst k. rewrite get_set_eq.
      destruct (spansOf (Span.docUri span) processed); reflexivity.
    + apply bool_decide_eq_false in E. rewrite get_set_ne by congruence.
      rewrite app_nil_r. apply Hget.
Qed.

Lemma spansOf_In (k : list Z) (spans : list Span.t) (s : Span.t) :
  In s (spansOf k spans) <-> In s spans /\ Span.docUri s = k.
Proof.
  unfold spansOf. rewrite List.filter_In. rewrite bool_decide_eq_true. tauto.
Qed.

Lemma ForallOrdPairs_app {A : Type} (S : A -> A -> Prop) (l1 l2 : list A) :
  ForallOrdPairs S l1 -> ForallOrdPairs S l2 ->
  (forall x y, In x l1 -> In y l2 -> S x y) ->
  ForallOrdPairs S (l1 ++ l2).
Proof.
  induction 1 as [| a l1 Ha H1 IH]; intros H2 Hcross; simpl; [exact H2 |].
  constructor.
  - apply Forall_app. split; [exact Ha |].
    apply Forall_forall. intros y Hy. apply Hcross; [now left | apply list_elem_of_In, Hy].
  - apply IH; [exact H2 |]. intros x y Hx Hy. apply Hcross; [now right | exact Hy].
Qed.

Lemma StronglySorted_ForallOrdPairs {A : Type} (R S : A -> A -> Prop) (l : list A) :
  (forall x y, R x y -> S x y) -> StronglySorted R l -> ForallOrdPairs S l.
Proof.
  intros Himp. induction 1 as [| a l Hs IH Hall]; constructor; [| exact IH].
  eapply Forall_impl; [exact Hall | exact (Himp a)].
Qed.

Lemma ForallOrdPairs_Permutation {A : Type} (S : A -> A -> Prop) (l l' : list A) :
  (forall x y, S x y -> S y x) ->
  Permutation l l' -> ForallOrdPairs S l -> ForallOrdPairs S l'.
Proof.
  intros Hsym. induction 1 as [| x l l' Hp IH | x y l | l l' l'' _ IH1 _ IH2]; intros H.
  - exact H.
  - inversion H as [| ? ? Hx Hl]; subst. constructor; [| now apply IH].
    rewrite Forall_forall in *. intros z Hz. apply Hx.
    rewrite list_elem_of_In in *. eapply Permutation_in; [symmetry; exact Hp | exact Hz].
  - inversion H as [| ? ? Hy Hl]; subst. inversion Hl as [| ? ? Hx Hl']; subst.
    inversion Hy as [| ? ? Hyx Hy']; subst.
    constructor; [constructor; [now apply Hsym | exact Hx] |].
    constructor; [exact Hy' | exact Hl'].
  - auto.
Qed.

(** The merged spans before the final sort by score. *)
Lemma merged_results (spans : list Span.t) (gapThreshold : nat)
    (byDoc : list (list Z * list Span.t)) :
  NoDup (JSMap.keys byDoc) ->
  (forall k l, In (k, l) byDoc -> l = spansOf k spans) ->
  let results :=
    flat_map (fun '(docUri, docSpans) =>
                let sorted :=
                  sort (fun a b => (Span.startChar b <? Span.startChar a)%nat) docSpans in
                mergeLoop gapThreshold docUri sorted None [])
      byDoc in
  ForallOrdPairs (fun a b => Span.docUri a = Span.docUri b -> apart gapThreshold a b) results
  /\ Forall (fun m => In (Span.docUri m) (JSMap.keys byDoc)
                      /\ forall id, In id (Span.leafIds m) ->
                                    exists s, In s spans /\ covers m s
                                              /\ In id (Span.leafIds s)) results
  /\ (forall k l s, In (k, l) byDoc -> In s l -> exists m, In m results /\ covers m s).
Proof.
  induction byDoc as [| [k l] byDoc IH]; intros Hnd Hgroups; simpl.
  - split; [constructor |]. split; [constructor |]. intros k l s [].
  - unfold JSMap.keys in Hnd. simpl in Hnd. apply NoDup_cons in Hnd as [Hnot Hnd].
    destruct IH as (IH1 & IH2 & IH3); [exact Hnd | intros; apply Hgroups; now right |].
    assert (Hl : l = spansOf k spans) by (apply Hgroups; now left).
    destruct (mergeLoop_doc gapThreshold k l) as (H1 & H2 & H3).
    { apply Forall_forall. intros s Hs. apply list_elem_of_In in Hs.
      rewrite Hl in Hs. now apply spansOf_In in Hs. }
    split; [| split].
    + apply ForallOrdPairs_app; [| exact IH1 |].
      * eapply StronglySorted_ForallOrdPairs; [| exact H1].
        intros x y Hxy _. now left.
      * intros x y Hx Hy Heq. exfalso. apply Hnot.
        rewrite Forall_forall in H2, IH2.
        destruct (H2 x (proj2 (list_elem_of_In _ _) Hx)) as [Hxk _].
        destruct (IH2 y (proj2 (list_elem_of_In _ _) Hy)) as [Hyk _].
        apply list_elem_of_In. unfold JSMap.keys in Hyk. congruence.
    + apply Forall_app. split.
      * eapply Forall_impl; [exact H2 |]. intros m [Hm Horig]. split.
        -- unfold JSMap.keys. simpl. now left.
        -- intros id Hid. destruct (Horig id Hid) as (s & Hs & Hrest).
           exists s. split; [| exact Hrest]. rewrite Hl in Hs. now apply spansOf_In in Hs.
      * eapply Forall_impl; [exact IH2 |]. intros m [Hm Horig]. split; [| exact Horig].
        unfold JSMap.keys in *. simpl. now right.
    + intros k' l' s [[= <- <-] | Hin] Hs.
      * destruct (H3 s Hs) as (m & Hm & Hcov). exists m. split; [| exact Hcov].
        apply in_or_app. now left.
      * destruct (IH3 k' l' s Hin Hs) as (m & Hm & Hcov). exists m. split; [| exact Hcov].
        apply in_or_app. now right.
Qed.

(** [mergeWithGap] without its final sort, and with it. *)
Lemma mergeWithGap_facts (spans : list Span.t) (gapThreshold : nat) :
  ForallOrdPairs (fun a b => Span.docUri a = Span.docUri b -> apart gapThreshold a b)
    (mergeWithGap spans gapThreshold)
  /\ (forall m id, In m (mergeWithGap spans gapThreshold) -> In id (Span.leafIds m) ->
                   exists s, In s spans /\ covers m s /\ In id (Span.leafIds s))
  /\ (forall s, In s spans -> exists m, In m (mergeWithGap spans gapThreshold) /\ covers m s).
Proof.
  unfold mergeWithGap. destruct spans as [| s0 spans'].
  - split; [constructor |]. split; [intros m id [] | intros s []].
  - set (spans := s0 :: spans').
    destruct (byDoc_inv spans [] []) as [Hnd Hget]; [constructor | reflexivity |].
    simpl app in Hget.
    match goal with
    | |- context [flat_map ?f ?b] => set (byDoc := b) in *; set (results := flat_map f b)
    end.
    destruct (merged_results spans gapThreshold byDoc Hnd) as (H1 & H2 & H3).
    { intros k l Hin. apply (In_get k l byDoc Hnd) in Hin. rewrite Hget in Hin.
      destruct (spansOf k spans); congruence. }
    fold results in H1, H2, H3.
    pose proof (sort_Permutation
                  (fun a b => negb (Qle_bool (Span.score b) (Span.score a))) results) as Hperm.
    split; [| split].
    + eapply ForallOrdPairs_Permutation; [| symmetry; exact Hperm | exact H1].
      intros x y Hxy Heq. symmetry in Heq. destruct (Hxy Heq); [now right | now left].
    + intros m id Hm Hid. rewrite Forall_forall in H2.
      apply (Permutation_in _ Hperm) in Hm.
      exact (proj2 (H2 m (proj2 (list_elem_of_In _ _) Hm)) id Hid).
    + intros s Hs.
      assert (Hgroup : In (Span.docUri s, spansOf (Span.docUri s) spans) byDoc).
      { apply get_Some_In. rewrite Hget.
        destruct (spansOf (Span.docUri s) spans) eqn:E; [| reflexivity].
        assert (Hin : In s (spansOf (Span.docUri s) spans)) by (apply spansOf_In; auto).
        rewrite E in Hin. destruct Hin. }
      destruct (H3 _ _ s Hgroup) as (m & Hm & Hcov); [apply spansOf_In; auto |].
      exists m. split; [| exact Hcov].
      eapply Permutation_in; [symmetry; exact Hperm | exact Hm].
Qed.

Lemma mergeWithGap_sorted (spans : list Span.t) (gapThreshold : nat) :
  StronglySorted (fun a b => (Span.score b <= Span.score a)%Q)
    (mergeWithGap spans gapThreshold).
Proof.
  unfold mergeWithGap. destruct spans as [| s0 spans']; [constructor |].
  apply sort_StronglySorted.
  - intros x y z Hxy Hyz. eapply Qle_trans; eassumption.
  - intros x y E. apply negb_false_iff in E. now apply Qle_bool_iff.
  - intros x y E. apply negb_true_iff in E.
    apply Qlt_le_weak, Qnot_le_lt. intros Hle. apply Qle_bool_iff in Hle. congruence.
Qed.

End SpanMergerFacts.

(** X10.  Merging loses nothing and invents nothing: every span given to
    [SpanMerger.mergeWithGap] lies inside a merged span of the same
    document that has at least its score and all its leaf ids; and every
    leaf id of a merged span comes from a given span that lies inside
    it. *)
Theorem mergeWithGap_covers_the_spans (spans : list Span.t) (gapThreshold : nat) :
  (forall s, In s spans ->
             exists m, In m (SpanMerger.mergeWithGap spans gapThreshold)
                       /\ SpanMerger.covers m s)
  /\ (forall m id,
        In m (SpanMerger.mergeWithGap spans gapThreshold) -> In id (Span.leafIds m) ->
        exists s, In s spans /\ SpanMerger.covers m s /\ In id (Span.leafIds s)).
Proof.
  destruct (mergeWithGap_facts spans gapThreshold) as (_ & H2 & H3). split; assumption.
Qed.

(** X11.  [SpanMerger.mergeWithGap] returns its merged spans in
    descending order of score, and any two of them that belong to the same
    document are more than [gapThreshold] code units apart: one of them
    ends more than [gapThreshold] before the other starts. *)
Theorem mergeWithGap_sorted_by_score_and_apart (spans : list Span.t) (gapThreshold : nat) :
  StronglySorted (fun a b => (Span.score b <= Span.score a)%Q)
    (SpanMerger.mergeWithGap spans gapThreshold)
  /\ ForallOrdPairs
       (fun a b => Span.docUri a = Span.docUri b -> SpanMerger.apart gapThreshold a b)
       (SpanMerger.mergeWithGap spans gapThreshold).
Proof.
  split; [apply mergeWithGap_sorted |].
  destruct (mergeWithGap_facts spans gapThreshold) as (H1 & _). exact H1.
Qed.

(** ** RetrievalPipeline and MsrlEngine: the results of a query *)

Section QueryFacts.
Import JS RetrievalPipeline.

Variable toLowerCase : list Z -> list Z.
Context `{Collator}.

(** The part of [query] after the merge: one result per merged span whose
    leaf is found. *)
Lemma length_flat_map_option {A B : Type} (f : A -> list B) (l : list A) :
  (forall a, (List.length (f a) <= 1)%nat) ->
  (List.length (flat_map f l) <= List.length l)%nat.
Proof.
  intros Hf. induction l as [| a l IH]; simpl; [lia |].
  rewrite length_app. specialize (Hf a). lia.
Qed.

Lemma length_sliceTo {A : Type} (l : list A) (limit : Z) :
  0 <= limit -> (List.length (sliceTo l limit) <= Z.to_nat limit)%nat.
Proof.
  intros Hpos. unfold sliceTo. destruct (limit <? 0) eqn:E; [lia |].
  rewrite length_take. lia.
Qed.

Lemma sliceTo_sublist {A : Type} (l : list A) (limit : Z) :
  exists rest, l = sliceTo l limit ++ rest.
Proof.
  unfold sliceTo. destruct (limit <? 0).
  - exists (drop (List.length l - Z.to_nat (- limit)) l). now rewrite take_drop.
  - exists (drop (Z.to_nat limit) l). now rewrite take_drop.
Qed.

Lemma StronglySorted_flat_map {A B : Type} (R : A -> A -> Prop) (S : B -> B -> Prop)
    (f : A -> list B) (l : list A) :
  (forall a, (List.length (f a) <= 1)%nat) ->
  (forall a a' b b', R a a' -> In b (f a) -> In b' (f a') -> S b b') ->
  StronglySorted R l -> StronglySorted S (flat_map f l).
Proof.
  intros Hone Hrel. induction 1 as [| a l Hs IH Hall]; simpl; [constructor |].
  pose proof (Hone a) as Ha.
  destruct (f a) as [| b [| b' bs]] eqn:Efa; simpl in Ha; [exact IH | | lia].
  simpl. constructor; [exact IH |].
  apply Forall_forall. intros b' Hb'. apply list_elem_of_In, in_flat_map in Hb'.
  destruct Hb' as (a' & Ha' & Hb').
  rewrite Forall_forall in Hall. specialize (Hall a' (proj2 (list_elem_of_In _ _) Ha')).
  apply (Hrel a a' b b' Hall); [rewrite Efa; now left | exact Hb'].
Qed.

Lemma NoDup_map_inj {A B : Type} (f : A -> B) (l : list A) (a b : A) :
  NoDup (map f l) -> In a l -> In b l -> f a = f b -> a = b.
Proof.
  induction l as [| x l IH]; simpl; [contradiction |].
  intros Hnd. apply NoDup_cons in Hnd as [Hnot Hnd].
  intros [<- | Ha] [<- | Hb] Hf; auto.
  - exfalso. apply Hnot. rewrite Hf. apply list_elem_of_In, in_map, Hb.
  - exfalso. apply Hnot. rewrite <- Hf. apply list_elem_of_In, in_map, Ha.
Qed.

Lemma collectWithMetadata_leafIds (this : RetrievalPipeline.t) (filter : option Filter.t)
    (hybridResults : list HybridResult.t) :
  NoDup (map HybridResult.leafId hybridResults) ->
  NoDup (map ResultWithMetadata.leafId
           (collectWithMetadata toLowerCase this filter hybridResults)).
Proof.
  induction hybridResults as [| hr rest IH]; simpl; [constructor |].
  intros Hnd. apply NoDup_cons in Hnd as [Hnot Hnd].
  destruct (PipelineDependencies.getLeafMetadata _ _) as [metadata |]; [| now apply IH].
  destruct (negb _); [now apply IH |].
  simpl. apply NoDup_cons. split; [| now apply IH].
  intros Hin. apply Hnot. apply list_elem_of_In in Hin. apply list_elem_of_In.
  apply in_map_iff in Hin as (r & Hr & Hin).
  apply collectWithMetadata_In in Hin as (hr' & md & Hhr' & _ & _ & ->).
  simpl in Hr. rewrite <- Hr. apply in_map, Hhr'.
Qed.

(** The results of [query], read off the candidates that have metadata
    and pass the filters. *)
Lemma query_results (this : RetrievalPipeline.t) (startTime endTime : Z)
    (params : QueryParams.t) (res : SearchResult.t) :
  In res (QueryResult.results (query toLowerCase this startTime endTime params)) ->
  exists hr metadata,
    In hr (HybridScorer.fuse (hybridScorer this)
             (PipelineDependencies.vectorSearch (deps this) (QueryParams.query params)
                (QueryParams.limit params * 3))
             (PipelineDependencies.bm25Search (deps this) (QueryParams.query params)
                (QueryParams.limit params * 3)))
    /\ PipelineDependencies.getLeafMetadata (deps this) (HybridResult.leafId hr) = Some metadata
    /\ matchesFilters toLowerCase metadata (QueryParams.filter params) = true
    /\ SearchResult.docUri res = LeafMetadata.docUri metadata
    /\ SearchResult.headingPath res = LeafMetadata.headingPath metadata
    /\ (SearchResult.startChar res <= LeafMetadata.startChar metadata)%nat
    /\ (LeafMetadata.endChar metadata <= SearchResult.endChar res)%nat
    /\ (HybridResult.score hr <= SearchResult.score res)%Q
    /\ SearchResult.vectorScore res = HybridResult.vectorScore hr
    /\ SearchResult.bm25Score res = HybridResult.bm25Score hr.
Proof.
  unfold query. destruct (trim (QueryParams.query params)); [intros [] |].
  set (hybridResults := HybridScorer.fuse _ _ _).
  set (rwm := collectWithMetadata toLowerCase this (QueryParams.filter params) hybridResults).
  set (toSpan := fun r : ResultWithMetadata.t =>
                   Span.mk (LeafMetadata.docUri (ResultWithMetadata.metadata r))
                     (LeafMetadata.startChar (ResultWithMetadata.metadata r))
                     (LeafMetadata.endChar (ResultWithMetadata.metadata r))
                     (ResultWithMetadata.score r) [ResultWithMetadata.leafId r]).
  simpl. intros Hres. apply in_flat_map in Hres as (m & Hm & Hres).
  destruct (List.find _ rwm) as [leafData |] eqn:Hfind; [| destruct Hres].
  destruct Hres as [<- | []]. simpl.
  apply find_some in Hfind as [Hleaf Hid]. apply arrayIncludes_In in Hid.
  assert (Hm' : In m (SpanMerger.merge (map toSpan rwm))).
  { destruct (sliceTo_sublist (SpanMerger.merge (map toSpan rwm)) (QueryParams.limit params))
      as (rest & Hsplit).
    rewrite Hsplit. apply in_or_app. now left. }
  destruct (mergeWithGap_facts (map toSpan rwm) 0) as (_ & Horigin & _).
  destruct (Horigin m _ Hm' Hid) as (s & Hs & Hcov & Hids).
  apply in_map_iff in Hs as (r' & <- & Hr').
  simpl in Hids. destruct Hids as [Hsame | []].
  assert (Hnd : NoDup (map ResultWithMetadata.leafId rwm)).
  { apply collectWithMetadata_leafIds. unfold hybridResults.
    rewrite (fuse_Permutation (hybridScorer this)). apply fusedCandidates_leafIds. }
  assert (Heq : r' = leafData) by (eapply NoDup_map_inj; eassumption).
  subst r'.
  apply collectWithMetadata_In in Hleaf as (hr & metadata & Hhr & Hmeta & Hmatch & ->).
  destruct Hcov as (Hdoc & Hstart & Hend & Hscore & _). simpl in *.
  exists hr, metadata. repeat split; auto.
Qed.

Lemma query_length (this : RetrievalPipeline.t) (startTime endTime : Z)
    (params : QueryParams.t) :
  0 <= QueryParams.limit params ->
  (List.length (QueryResult.results (query toLowerCase this startTime endTime params))
   <= Z.to_nat (QueryParams.limit params))%nat.
Proof.
  intros Hlimit. unfold query. destruct (trim (QueryParams.query params)); simpl; [lia |].
  etransitivity; [apply length_flat_map_option | apply length_sliceTo, Hlimit].
  intros span. destruct (List.find _ _); simpl; lia.
Qed.

Lemma query_sorted (this : RetrievalPipeline.t) (startTime endTime : Z)
    (params : QueryParams.t) :
  StronglySorted (fun a b => (SearchResult.score b <= SearchResult.score a)%Q)
    (QueryResult.results (query toLowerCase this startTime endTime params)).
Proof.
  unfold query. destruct (trim (QueryParams.query params)); simpl; [constructor |].
  match goal with
  | |- context [sliceTo (SpanMerger.merge ?spans) ?limit] =>
      pose proof (mergeWithGap_sorted spans 0) as Hsorted;
      destruct (sliceTo_sublist (SpanMerger.merge spans) limit) as (rest & Hsplit)
  end.
  unfold SpanMerger.merge in *. rewrite Hsplit in Hsorted.
  apply StronglySorted_app_l in Hsorted.
  eapply StronglySorted_flat_map; [| | exact Hsorted].
  - intros span. destruct (List.find _ _); simpl; lia.
  - intros a a' b b' Hrel Hb Hb'.
    destruct (List.find _ _); [| destruct Hb]. destruct Hb as [<- | []].
    destruct (List.find _ _); [| destruct Hb']. destruct Hb' as [<- | []].
    exact Hrel.
Qed.

End QueryFacts.

(** X12.  [RetrievalPipeline.query] returns at most [limit] results when
    [limit] is not negative, and returns them in descending order of
    score. *)
Theorem query_returns_at_most_limit_results_in_score_order
    (toLowerCase : list Z -> list Z) `{Collator}
    (this : RetrievalPipeline.t) (startTime endTime : Z) (params : QueryParams.t) :
  StronglySorted (fun a b => (SearchResult.score b <= SearchResult.score a)%Q)
    (QueryResult.results (RetrievalPipeline.query toLowerCase this startTime endTime params))
  /\ (0 <= QueryParams.limit params ->
      (length (QueryResult.results
                 (RetrievalPipeline.query toLowerCase this startTime endTime params))
       <= Z.to_nat (QueryParams.limit params))%nat).
Proof.
  split; [apply query_sorted | apply query_length].
Qed.

(** X13.  Every result of [RetrievalPipeline.query] stands for a leaf that
    the searches found, that has metadata and that passes the filters: the
    query is not blank, the leaf is a fused candidate of the vector search
    and the BM25 search for the query text with three times the limit, so
    its id is among the ids that one of the two searches returned; the
    result has the leaf's document and heading path and the candidate's
    vector and BM25 scores, its range contains the leaf's range, and its
    score is at least the candidate's fused score. *)
Theorem query_results_come_from_matching_leaves
    (toLowerCase : list Z -> list Z) `{Collator}
    (this : RetrievalPipeline.t) (startTime endTime : Z) (params : QueryParams.t) :
  let vectorResults :=
    PipelineDependencies.vectorSearch (RetrievalPipeline.deps this)
      (QueryParams.query params) (QueryParams.limit params * 3) in
  let bm25Results :=
    PipelineDependencies.bm25Search (RetrievalPipeline.deps this)
      (QueryParams.query params) (QueryParams.limit params * 3) in
  Forall (fun res =>
            JS.trim (QueryParams.query params) <> []
            /\ exists hr metadata,
                 In hr (HybridScorer.fuse (RetrievalPipeline.hybridScorer this)
                          vectorResults bm25Results)
                 /\ (In (HybridResult.leafId hr) (map VectorResult.leafId vectorResults)
                     \/ In (HybridResult.leafId hr) (map BM25Result.leafId bm25Results))
                 /\ PipelineDependencies.getLeafMetadata (RetrievalPipeline.deps this)
                      (HybridResult.leafId hr) = Some metadata
                 /\ RetrievalPipeline.matchesFilters toLowerCase metadata
                      (QueryParams.filter params) = true
                 /\ SearchResult.docUri res = LeafMetadata.docUri metadata
                 /\ SearchResult.headingPath res = LeafMetadata.headingPath metadata
                 /\ (SearchResult.startChar res <= LeafMetadata.startChar metadata)%nat
                 /\ (LeafMetadata.endChar metadata <= SearchResult.endChar res)%nat
                 /\ (HybridResult.score hr <= SearchResult.score res)%Q
                 /\ SearchResult.vectorScore res = HybridResult.vectorScore hr
                 /\ SearchResult.bm25Score res = HybridResult.bm25Score hr)
    (QueryResult.results (RetrievalPipeline.query toLowerCase this startTime endTime params)).
Proof.
  intros vectorResults bm25Results.
  apply Forall_forall. intros res Hres. apply list_elem_of_In in Hres.
  split.
  - intros Hblank. unfold RetrievalPipeline.query in Hres. rewrite Hblank in Hres.
    destruct Hres.
  - apply query_results in Hres as (hr & metadata & Hhr & Hrest).
    exists hr, metadata. split; [exact Hhr |]. split; [| exact Hrest].
    apply fusedCandidates_ids with (this := RetrievalPipeline.hybridScorer this).
    apply (Permutation_in _
             (Permutation_map HybridResult.leafId
                (fuse_Permutation (RetrievalPipeline.hybridScorer this)
                   vectorResults bm25Results))).
    apply in_map, Hhr.
Qed.

(** X14.  When [MsrlEngine.query] returns, it returns at most [topK]
    results, or at most the configured [defaultTopK] when the call gives
    no [topK], and never more than the configured [maxTopK]. *)
Theorem engine_query_returns_at_most_topK_results
    (toLowerCase : list Z -> list Z) `{Collator}
    (retrieval : RetrievalConfig.t) (currentSnapshot : option RetrievalPipeline.t)
    (startTime endTime : Z) (params : EngineQueryParams.t) (result : QueryResult.t) :
  MsrlEngine.query toLowerCase retrieval currentSnapshot startTime endTime params
  = JS.Ok result ->
  let topK := match EngineQueryParams.topK params with
              | Some k => k
              | None => RetrievalConfig.defaultTopK retrieval
              end in
  1 <= topK <= RetrievalConfig.maxTopK retrieval
  /\ Z.of_nat (length (QueryResult.results result)) <= topK.
Proof.
  unfold MsrlEngine.query.
  destruct currentSnapshot as [pipeline |]; [| discriminate].
  destruct (EngineQueryParams.query params) as [| c q] eqn:Eq; [discriminate |].
  destruct (JS.trim (c :: q)); [discriminate |].
  set (topK := match EngineQueryParams.topK params with
               | Some k => k
               | None => RetrievalConfig.defaultTopK retrieval
               end).
  destruct (topK <? 1) eqn:Hlo; [discriminate |].
  destruct (RetrievalConfig.maxTopK retrieval <? topK) eqn:Hhi; [discriminate |].
  cbn [orb].
  destruct (_ || _); [discriminate |].
  apply Z.ltb_ge in Hlo, Hhi.
  intros [= <-]. simpl. split; [lia |].
  match goal with
  | |- context [RetrievalPipeline.query _ _ _ _ ?p] =>
      pose proof (query_length toLowerCase pipeline startTime endTime p) as Hlen
  end.
  simpl in Hlen. specialize (Hlen ltac:(lia)). lia.
Qed.

Lemma engine_query_returns_at_most_topK_results_witness :
  MsrlEngine.query Host.asciiToLowerCase RetrievalConfig.defaults
    (Some Examples.oneLeafPipeline) 0 1
    (EngineQueryParams.mk (JS.lit "test") (Some 3) None None)
  = JS.Ok (QueryResult.mk
             (QueryResult.results
                (RetrievalPipeline.query Host.asciiToLowerCase Examples.oneLeafPipeline 0 1
                   (QueryParams.mk (JS.lit "test") 3 None))) 1)
  /\ Z.of_nat (length (QueryResult.results
                         (RetrievalPipeline.query Host.asciiToLowerCase
                            Examples.oneLeafPipeline 0 1
                            (QueryParams.mk (JS.lit "test") 3 None)))) <= 3.
Proof.
  assert (Hrun : MsrlEngine.query Host.asciiToLowerCase RetrievalConfig.defaults
                   (Some Examples.oneLeafPipeline) 0 1
                   (EngineQueryParams.mk (JS.lit "test") (Some 3) None None)
                 = JS.Ok (QueryResult.mk
                            (QueryResult.results
                               (RetrievalPipeline.query Host.asciiToLowerCase
                                  Examples.oneLeafPipeline 0 1
                                  (QueryParams.mk (JS.lit "test") 3 None))) 1)).
  { reflexivity. }
  split; [exact Hrun |].
  exact (proj2 (engine_query_returns_at_most_topK_results Host.asciiToLowerCase
                  RetrievalConfig.defaults (Some Examples.oneLeafPipeline) 0 1
                  (EngineQueryParams.mk (JS.lit "test") (Some 3) None None) _ Hrun)).
Defined.

(** X15.  [MsrlEngine.query] checks [maxExcerptChars] against its bounds
    and then does not use it: two calls that differ only in an accepted
    [maxExcerptChars] have the same outcome, so the excerpts of the results
    are not cut to that length. *)
Theorem engine_query_does_not_use_maxExcerptChars
    (toLowerCase : list Z -> list Z) `{Collator}
    (retrieval : RetrievalConfig.t) (currentSnapshot : option RetrievalPipeline.t)
    (startTime endTime : Z) (query : list Z) (topK : option Z) (filters : option Filter.t)
    (chars1 chars2 : Z) :
  200 <= chars1 <= RetrievalConfig.maxMaxExcerptChars retrieval ->
  200 <= chars2 <= RetrievalConfig.maxMaxExcerptChars retrieval ->
  MsrlEngine.query toLowerCase retrieval currentSnapshot startTime endTime
    (EngineQueryParams.mk query topK (Some chars1) filters)
  = MsrlEngine.query toLowerCase retrieval currentSnapshot startTime endTime
      (EngineQueryParams.mk query topK (Some chars2) filters).
Proof.
  intros H1 H2. unfold MsrlEngine.query. simpl.
  destruct currentSnapshot as [pipeline |]; [| reflexivity].
  destruct query as [| c q]; [reflexivity |].
  destruct (JS.trim (c :: q)); [reflexivity |].
  destruct (_ || _); [reflexivity |].
  replace ((chars1 <? 200) || (RetrievalConfig.maxMaxExcerptChars retrieval <? chars1))
    with false by (symmetry; apply orb_false_iff; split; apply Z.ltb_ge; lia).
  replace ((chars2 <? 200) || (RetrievalConfig.maxMaxExcerptChars retrieval <? chars2))
    with false by (symmetry; apply orb_false_iff; split; apply Z.ltb_ge; lia).
  reflexivity.
Qed.

Lemma engine_query_does_not_use_maxExcerptChars_witness :
  200 <= 200 <= RetrievalConfig.maxMaxExcerptChars RetrievalConfig.defaults
  /\ 200 <= 20000 <= RetrievalConfig.maxMaxExcerptChars RetrievalConfig.defaults
  /\ MsrlEngine.query Host.asciiToLowerCase RetrievalConfig.defaults
       (Some Examples.oneLeafPipeline) 0 1
       (EngineQueryParams.mk (JS.lit "test") None (Some 200) None)
     = MsrlEngine.query Host.asciiToLowerCase RetrievalConfig.defaults
         (Some Examples.oneLeafPipeline) 0 1
         (EngineQueryParams.mk (JS.lit "test") None (Some 20000) None).
Proof.
  assert (H1 : 200 <= 200 <= RetrievalConfig.maxMaxExcerptChars RetrievalConfig.defaults)
    by (simpl; lia).
  assert (H2 : 200 <= 20000 <= RetrievalConfig.maxMaxExcerptChars RetrievalConfig.defaults)
    by (simpl; lia).
  split; [exact H1 |]. split; [exact H2 |].
  exact (engine_query_does_not_use_maxExcerptChars Host.asciiToLowerCase
           RetrievalConfig.defaults (Some Examples.oneLeafPipeline) 0 1 (JS.lit "test")
           None None 200 20000 H1 H2).
Defined.

(** ** MetadataStore: lookups after updates, and change detection *)

Section MetadataStoreMoreFacts.
Import JS MetadataStore.

Lemma find_existsb {A : Type} (f : A -> bool) (l : list A) :
  existsb f l = match List.find f l with Some _ => true | None => false end.
Proof.
  induction l as [| a l IH]; simpl; [reflexivity |]. destruct (f a); [reflexivity | exact IH].
Qed.

Lemma find_updateRow (doc : Doc.t) (rows : list DocRow.t) (old : DocRow.t) :
  List.find (fun row => bool_decide (DocRow.docUri row = Doc.docUri doc)) rows = Some old ->
  List.find (fun row => bool_decide (DocRow.docUri row = Doc.docUri doc))
    (map (updateRow doc) rows)
  = Some (DocRow.mk (DocRow.docId old) (Doc.docUri doc) (Doc.mtime doc) (Doc.size doc)
            (Doc.hash doc)).
Proof.
  induction rows as [| row rows IH]; simpl; [discriminate |].
  rewrite updateRow_docUri.
  destruct (bool_decide (DocRow.docUri row = Doc.docUri doc)) eqn:E.
  - intros [= <-]. unfold updateRow. rewrite E.
    apply bool_decide_eq_true in E. rewrite E. reflexivity.
  - exact IH.
Qed.

Lemma find_updateRow_other (doc : Doc.t) (rows : list DocRow.t) (docUri : list Z) :
  docUri <> Doc.docUri doc ->
  List.find (fun row => bool_decide (DocRow.docUri row = docUri)) (map (updateRow doc) rows)
  = List.find (fun row => bool_decide (DocRow.docUri row = docUri)) rows.
Proof.
  intros Hne. induction rows as [| row rows IH]; simpl; [reflexivity |].
  rewrite updateRow_docUri.
  destruct (bool_decide (DocRow.docUri row = docUri)) eqn:E; [| exact IH].
  apply bool_decide_eq_true in E. unfold updateRow.
  rewrite bool_decide_eq_false_2 by congruence. reflexivity.
Qed.

Lemma find_app_none {A : Type} (f : A -> bool) (l1 l2 : list A) :
  List.find f l1 = None -> List.find f (l1 ++ l2) = List.find f l2.
Proof.
  induction l1 as [| a l1 IH]; simpl; [reflexivity |]. destruct (f a); [discriminate | exact IH].
Qed.

Lemma find_app_some {A : Type} (f : A -> bool) (l1 l2 : list A) (x : A) :
  List.find f l1 = Some x -> List.find f (l1 ++ l2) = Some x.
Proof.
  induction l1 as [| a l1 IH]; simpl; [discriminate |]. destruct (f a); [auto | exact IH].
Qed.

Lemma getDoc_upsertDoc (db : MetadataStore.t) (doc : Doc.t) :
  getDoc (upsertDoc db doc).2 (Doc.docUri doc)
  = Some (DocRow.mk
            match getDoc db (Doc.docUri doc) with
            | Some old => DocRow.docId old
            | None => (upsertDoc db doc).1
            end
            (Doc.docUri doc) (Doc.mtime doc) (Doc.size doc) (Doc.hash doc)).
Proof.
  unfold getDoc, upsertDoc. rewrite find_existsb.
  destruct (List.find _ (docs db)) as [old |] eqn:Hfind; simpl.
  - now apply find_updateRow.
  - rewrite find_app_none by exact Hfind. simpl.
    rewrite bool_decide_eq_true_2; reflexivity.
Qed.

Lemma getDoc_upsertDoc_other (db : MetadataStore.t) (doc : Doc.t) (docUri : list Z) :
  docUri <> Doc.docUri doc ->
  getDoc (upsertDoc db doc).2 docUri = getDoc db docUri.
Proof.
  intros Hne. unfold getDoc, upsertDoc.
  destruct (existsb _ (docs db)); simpl.
  - now apply find_updateRow_other.
  - destruct (List.find (fun row => bool_decide (DocRow.docUri row = docUri)) (docs db))
      as [row |] eqn:Hfind.
    + now apply find_app_some.
    + rewrite find_app_none by exact Hfind. simpl.
      rewrite bool_decide_eq_false_2 by congruence. reflexivity.
Qed.

Lemma getDoc_deleteDoc (db : MetadataStore.t) (docUri docUri' : list Z) :
  getDoc (deleteDoc db docUri) docUri'
  = if bool_decide (docUri' = docUri) then None else getDoc db docUri'.
Proof.
  unfold getDoc, deleteDoc. simpl.
  induction (docs db) as [| row rows IH]; simpl.
  - destruct (bool_decide _); reflexivity.
  - destruct (bool_decide (DocRow.docUri row = docUri)) eqn:E; simpl.
    + apply bool_decide_eq_true in E. rewrite IH.
      destruct (bool_decide (docUri' = docUri)) eqn:E'; [reflexivity |].
      apply bool_decide_eq_false in E'.
      rewrite bool_decide_eq_false_2 by congruence. reflexivity.
    + apply bool_decide_eq_false in E.
      destruct (bool_decide (DocRow.docUri row = docUri')) eqn:E''.
      * apply bool_decide_eq_true in E''.
        rewrite bool_decide_eq_false_2 by congruence. reflexivity.
      * exact IH.
Qed.

Lemma NoDup_map_filter {A B : Type} (f : A -> B) (g : A -> bool) (l : list A) :
  NoDup (map f l) -> NoDup (map f (List.filter g l)).
Proof.
  induction l as [| a l IH]; simpl; [auto |].
  intros Hnd. apply NoDup_cons in Hnd as [Hnot Hnd].
  destruct (g a); simpl; [| now apply IH].
  apply NoDup_cons. split; [| now apply IH].
  intros Hin. apply Hnot. apply list_elem_of_In in Hin. apply list_elem_of_In.
  apply in_map_iff in Hin as (x & Hx & Hin). apply List.filter_In in Hin as [Hin _].
  rewrite <- Hx. now apply in_map.
Qed.

(** The rows of a reachable store: distinct URIs, distinct ids, and no id
    above the sequence. *)
Lemma reachable_inv (db : MetadataStore.t) :
  reachable db ->
  uniqueDocUris db
  /\ NoDup (map DocRow.docId (docs db))
  /\ Forall (fun row => 1 <= DocRow.docId row <= docs_sequence db) (docs db)
  /\ 0 <= docs_sequence db.
Proof.
  induction 1 as [| db doc Hreach (Huri & Hid & Hbound & Hseq)
                    | db docUri Hreach (Huri & Hid & Hbound & Hseq)].
  - unfold uniqueDocUris. simpl. repeat split; try constructor; lia.
  - split; [apply upsertDoc_one_row, Huri |].
    unfold upsertDoc. destruct (existsb _ (docs db)) eqn:E; simpl.
    + assert (Hids : map DocRow.docId (map (updateRow doc) (docs db))
                     = map DocRow.docId (docs db)).
      { rewrite map_map. apply map_ext. intros row. unfold updateRow.
        destruct (bool_decide _); reflexivity. }
      rewrite Hids. split; [exact Hid |]. split; [| lia].
      apply Forall_forall. intros row Hin. apply list_elem_of_In, in_map_iff in Hin.
      destruct Hin as (row' & <- & Hin). rewrite Forall_forall in Hbound.
      specialize (Hbound row' (proj2 (list_elem_of_In _ _) Hin)).
      unfold updateRow. destruct (bool_decide _); simpl; lia.
    + rewrite map_app. simpl. split; [| split; [| lia]].
      * apply NoDup_app. split; [exact Hid |]. split; [| apply NoDup_singleton].
        intros id Hin Hnew. apply list_elem_of_In in Hin, Hnew.
        destruct Hnew as [<- | []]. apply in_map_iff in Hin as (row & Hrow & Hin).
        rewrite Forall_forall in Hbound.
        specialize (Hbound row (proj2 (list_elem_of_In _ _) Hin)). lia.
      * apply Forall_app. split.
        -- eapply Forall_impl; [exact Hbound |]. intros row Hrow. simpl in *. lia.
        -- constructor; [simpl; lia | constructor].
  - unfold uniqueDocUris, deleteDoc in *. simpl.
    split; [| split; [| split; [| exact Hseq]]].
    + now apply NoDup_map_filter.
    + now apply NoDup_map_filter.
    + apply Forall_forall. intros row Hin. apply list_elem_of_In, List.filter_In in Hin.
      rewrite Forall_forall in Hbound. apply Hbound, list_elem_of_In, Hin.
Qed.

End MetadataStoreMoreFacts.

Section ChangedDocsFacts.
Import JS MetadataStore.

Lemma NoDup_nil_iff {A : Type} (l : list A) : (forall x, ~ In x l) -> l = [].
Proof. destruct l as [| a l]; [reflexivity |]. intros H. exfalso. apply (H a). now left. Qed.

Lemma NoDup_singleton_iff {A : Type} (l : list A) (a : A) :
  NoDup l -> (forall x, In x l <-> x = a) -> l = [a].
Proof.
  intros Hnd Hin. destruct l as [| b l].
  - exfalso. apply (Hin a). reflexivity.
  - assert (b = a) as -> by (apply Hin; now left).
    f_equal. apply NoDup_nil_iff. intros x Hx.
    apply NoDup_cons in Hnd as [Hnot _]. apply Hnot.
    assert (x = a) as -> by (apply Hin; now right).
    apply list_elem_of_In, Hx.
Qed.

Lemma NoDup_filter {A : Type} (f : A -> bool) (l : list A) :
  NoDup l -> NoDup (List.filter f l).
Proof.
  intros Hnd. rewrite <- (map_id (List.filter f l)).
  apply NoDup_map_filter. now rewrite map_id.
Qed.

Lemma changedLoop_spec (knownDocs : list (list Z * KnownDoc)) (knownUris : list (list Z))
    (currentDocs : list DocRow.t) :
  (forall uri, In uri knownUris -> In uri (JSMap.keys knownDocs)) ->
  forall added modified,
    changedLoop knownDocs knownUris currentDocs added modified
    = Some (added ++ map DocRow.docUri (List.filter (isAdded knownUris) currentDocs),
            modified
            ++ map DocRow.docUri (List.filter (isModified knownDocs knownUris) currentDocs)).
Proof.
  intros Hkeys. induction currentDocs as [| doc rest IH]; intros added modified;
    cbn [changedLoop List.filter].
  - simpl. now rewrite !app_nil_r.
  - unfold isAdded at 1, isModified at 1.
    destruct (JSMap.arrayIncludes knownUris (DocRow.docUri doc)) eqn:Hknown; simpl.
    + destruct (JSMap.get (DocRow.docUri doc) knownDocs) as [known |] eqn:Hget.
      * destruct (_ || _); rewrite IH; simpl; [rewrite <- app_assoc |]; reflexivity.
      * exfalso. apply get_None_keys in Hget. apply Hget, Hkeys.
        now apply arrayIncludes_In.
    + rewrite IH, <- app_assoc. reflexivity.
Qed.


Lemma getChangedDocs_lists (db : MetadataStore.t) (knownDocs : list (list Z * KnownDoc)) :
  getChangedDocs db knownDocs
  = Some (mkChangedDocs
            (map DocRow.docUri
               (List.filter (isAdded (JSMap.setOf (JSMap.keys knownDocs))) (docs db)))
            (map DocRow.docUri
               (List.filter (isModified knownDocs (JSMap.setOf (JSMap.keys knownDocs)))
                  (docs db)))
            (List.filter
               (fun uri => negb (JSMap.arrayIncludes
                                   (JSMap.setOf (map DocRow.docUri (docs db))) uri))
               (JSMap.setOf (JSMap.keys knownDocs)))).
Proof.
  unfold getChangedDocs, listDocs. rewrite changedLoop_spec; [reflexivity |].
  intros uri. apply setOf_In.
Qed.

(** Membership in the three lists of [getChangedDocs]. *)
Lemma getChangedDocs_In (db : MetadataStore.t) (knownDocs : list (list Z * KnownDoc))
    (changes : ChangedDocs) :
  getChangedDocs db knownDocs = Some changes ->
  (forall uri, In uri (added changes)
               <-> In uri (map DocRow.docUri (docs db)) /\ ~ In uri (JSMap.keys knownDocs))
  /\ (forall uri, In uri (modified changes)
                  <-> exists row known,
                        In row (docs db) /\ DocRow.docUri row = uri
                        /\ JSMap.get uri knownDocs = Some known
                        /\ (Qeq_bool (DocRow.mtime row) (knownMtime known) = false
                            \/ DocRow.hash row <> knownHash known))
  /\ (forall uri, In uri (deleted changes)
                  <-> In uri (JSMap.keys knownDocs) /\ ~ In uri (map DocRow.docUri (docs db))).
Proof.
  rewrite getChangedDocs_lists. intros [= <-]. simpl. split; [| split]; intros uri.
  - rewrite in_map_iff. split.
    + intros (row & <- & Hin). apply List.filter_In in Hin as [Hin Hadd].
      split; [now apply in_map |]. unfold isAdded in Hadd. apply negb_true_iff in Hadd.
      intros Hk. apply (proj2 (setOf_In _ _)), arrayIncludes_In in Hk. congruence.
    + intros [Hin Hnot]. apply in_map_iff in Hin as (row & <- & Hin).
      exists row. split; [reflexivity |]. apply List.filter_In. split; [exact Hin |].
      unfold isAdded. apply negb_true_iff.
      destruct (JSMap.arrayIncludes _ _) eqn:E; [| reflexivity].
      exfalso. apply Hnot. apply arrayIncludes_In in E. exact (proj1 (setOf_In _ _) E).
  - rewrite in_map_iff. split.
    + intros (row & <- & Hin). apply List.filter_In in Hin as [Hin Hmod].
      unfold isModified in Hmod. apply andb_prop in Hmod as [_ Hmod].
      destruct (JSMap.get (DocRow.docUri row) knownDocs) as [known |] eqn:Hget;
        [| discriminate].
      exists row, known. repeat split; auto.
      apply orb_prop in Hmod as [Hm | Hh]; [left | right].
      * now apply negb_true_iff in Hm.
      * apply negb_true_iff in Hh. now apply bool_decide_eq_false in Hh.
    + intros (row & known & Hin & <- & Hget & Hchanged).
      exists row. split; [reflexivity |]. apply List.filter_In. split; [exact Hin |].
      unfold isModified. rewrite Hget. apply andb_true_intro. split.
      * apply arrayIncludes_In, setOf_In. apply get_Some_In in Hget.
        apply (in_map fst) in Hget. exact Hget.
      * apply orb_true_iff. destruct Hchanged as [Hm | Hh]; [left | right].
        -- now apply negb_true_iff.
        -- apply negb_true_iff. now apply bool_decide_eq_false.
  - rewrite List.filter_In, setOf_In, negb_true_iff. split.
    + intros [Hk Hnot]. split; [exact Hk |]. intros Hin.
      apply (proj2 (setOf_In _ _)), arrayIncludes_In in Hin. congruence.
    + intros [Hk Hnot]. split; [exact Hk |].
      destruct (JSMap.arrayIncludes _ _) eqn:E; [| reflexivity].
      exfalso. apply Hnot. apply arrayIncludes_In in E. exact (proj1 (setOf_In _ _) E).
Qed.

Lemma getChangedDocs_NoDup (db : MetadataStore.t) (knownDocs : list (list Z * KnownDoc))
    (changes : ChangedDocs) :
  uniqueDocUris db ->
  getChangedDocs db knownDocs = Some changes ->
  NoDup (added changes) /\ NoDup (modified changes) /\ NoDup (deleted changes).
Proof.
  intros Huri. rewrite getChangedDocs_lists. intros [= <-]. simpl.
  split; [| split].
  - now apply NoDup_map_filter.
  - now apply NoDup_map_filter.
  - apply NoDup_filter, setOf_NoDup.
Qed.

(** What the map made of a listing knows about each listed row. *)
Lemma knownDocsOf_get (rows : list DocRow.t) :
  NoDup (map DocRow.docUri rows) ->
  (forall row, In row rows ->
               JSMap.get (DocRow.docUri row) (knownDocsOf rows)
               = Some (mkKnownDoc (DocRow.mtime row) (DocRow.hash row)))
  /\ (forall uri, In uri (JSMap.keys (knownDocsOf rows)) <-> In uri (map DocRow.docUri rows)).
Proof.
  intros Hnd. unfold knownDocsOf. split.
  - intros row Hin.
    apply (get_fill DocRow.docUri (fun row => mkKnownDoc (DocRow.mtime row) (DocRow.hash row))
             rows Hnd [] row Hin).
  - intros uri.
    rewrite (keys_fill DocRow.docUri
               (fun row => mkKnownDoc (DocRow.mtime row) (DocRow.hash row))).
    simpl. tauto.
Qed.

End ChangedDocsFacts.

Section ChangedDocsRoundTrip.
Import JS MetadataStore.

Variable db : MetadataStore.t.
Hypothesis db_unique : uniqueDocUris db.

Local Abbreviation known := (knownDocsOf (listDocs db)).

Lemma known_keys (uri : list Z) :
  In uri (JSMap.keys known) <-> In uri (map DocRow.docUri (docs db)).
Proof. apply knownDocsOf_get, db_unique. Qed.

Lemma known_get (row : DocRow.t) :
  In row (docs db) ->
  JSMap.get (DocRow.docUri row) known
  = Some (mkKnownDoc (DocRow.mtime row) (DocRow.hash row)).
Proof. apply knownDocsOf_get, db_unique. Qed.

(** A row of the listing is not reported as modified. *)
Lemma known_row_unchanged (row : DocRow.t) (k : KnownDoc) :
  In row (docs db) ->
  JSMap.get (DocRow.docUri row) known = Some k ->
  ~ (Qeq_bool (DocRow.mtime row) (knownMtime k) = false \/ DocRow.hash row <> knownHash k).
Proof.
  intros Hin Hget. rewrite (known_get row Hin) in Hget. injection Hget as <-. simpl.
  intros [Hm | Hh]; [| congruence].
  assert (Qeq_bool (DocRow.mtime row) (DocRow.mtime row) = true)
    by (apply Qeq_bool_iff, Qeq_refl).
  congruence.
Qed.

(** The outcome of [getChangedDocs] from what its three lists hold. *)
Lemma getChangedDocs_eq (db' : MetadataStore.t) (A M D : list (list Z)) :
  uniqueDocUris db' ->
  (forall changes, getChangedDocs db' known = Some changes ->
     (A = [] /\ (forall uri, ~ In uri (added changes))
      \/ exists a, A = [a] /\ forall uri, In uri (added changes) <-> uri = a)
     /\ (M = [] /\ (forall uri, ~ In uri (modified changes))
         \/ exists a, M = [a] /\ forall uri, In uri (modified changes) <-> uri = a)
     /\ (D = [] /\ (forall uri, ~ In uri (deleted changes))
         \/ exists a, D = [a] /\ forall uri, In uri (deleted changes) <-> uri = a)) ->
  getChangedDocs db' known = Some (mkChangedDocs A M D).
Proof.
  intros Hunique Hlists.
  destruct (getChangedDocs db' known) as [changes |] eqn:Hrun.
  2:{ rewrite getChangedDocs_lists in Hrun. discriminate. }
  destruct (getChangedDocs_NoDup db' known changes Hunique Hrun) as (Ha & Hm & Hd).
  destruct (Hlists changes eq_refl) as (HA & HM & HD).
  destruct changes as [a m d]. simpl in *. f_equal. f_equal.
  - destruct HA as [[-> H] | (x & -> & H)];
      [now apply NoDup_nil_iff | now apply NoDup_singleton_iff].
  - destruct HM as [[-> H] | (x & -> & H)];
      [now apply NoDup_nil_iff | now apply NoDup_singleton_iff].
  - destruct HD as [[-> H] | (x & -> & H)];
      [now apply NoDup_nil_iff | now apply NoDup_singleton_iff].
Qed.

Lemma changes_none :
  getChangedDocs db known = Some (mkChangedDocs [] [] []).
Proof.
  apply getChangedDocs_eq; [exact db_unique |].
  intros changes Hrun. destruct (getChangedDocs_In db known changes Hrun) as (Ha & Hm & Hd).
  split; [| split]; left; (split; [reflexivity |]); intros uri Hin.
  - apply Ha in Hin as [Hin Hnot]. apply Hnot, known_keys, Hin.
  - apply Hm in Hin as (row & k & Hrow & <- & Hget & Hchanged).
    exact (known_row_unchanged row k Hrow Hget Hchanged).
  - apply Hd in Hin as [Hin Hnot]. apply Hnot, known_keys, Hin.
Qed.

Lemma changes_after_deleteDoc (docUri : list Z) :
  In docUri (map DocRow.docUri (docs db)) ->
  getChangedDocs (deleteDoc db docUri) known = Some (mkChangedDocs [] [] [docUri]).
Proof.
  intros Hstored.
  assert (Hsub : forall row, In row (docs (deleteDoc db docUri))
                             <-> In row (docs db) /\ DocRow.docUri row <> docUri).
  { intros row. unfold deleteDoc. simpl. rewrite List.filter_In, negb_true_iff.
    rewrite bool_decide_eq_false. tauto. }
  apply getChangedDocs_eq.
  { unfold uniqueDocUris, deleteDoc. simpl. now apply NoDup_map_filter. }
  intros changes Hrun.
  destruct (getChangedDocs_In _ known changes Hrun) as (Ha & Hm & Hd).
  split; [| split].
  - left. split; [reflexivity |]. intros uri Hin.
    apply Ha in Hin as [Hin Hnot]. apply Hnot, known_keys.
    apply in_map_iff in Hin as (row & <- & Hin). apply Hsub in Hin as [Hin _].
    now apply in_map.
  - left. split; [reflexivity |]. intros uri Hin.
    apply Hm in Hin as (row & k & Hrow & <- & Hget & Hchanged).
    apply Hsub in Hrow as [Hrow _].
    exact (known_row_unchanged row k Hrow Hget Hchanged).
  - right. exists docUri. split; [reflexivity |]. intros uri. rewrite Hd, known_keys. split.
    + intros [Hin Hnot]. destruct (decide (uri = docUri)) as [-> | Hne]; [reflexivity |].
      exfalso. apply Hnot. apply in_map_iff in Hin as (row & <- & Hin).
      apply in_map. apply Hsub. auto.
    + intros ->. split; [exact Hstored |]. intros Hin.
      apply in_map_iff in Hin as (row & Hrow & Hin). apply Hsub in Hin as [_ Hne]. congruence.
Qed.

Lemma changes_after_insert (doc : Doc.t) :
  ~ In (Doc.docUri doc) (map DocRow.docUri (docs db)) ->
  getChangedDocs (upsertDoc db doc).2 known = Some (mkChangedDocs [Doc.docUri doc] [] []).
Proof.
  intros Hnew.
  assert (Hdocs : docs (upsertDoc db doc).2
                  = docs db ++ [DocRow.mk (docs_sequence db + 1) (Doc.docUri doc)
                                  (Doc.mtime doc) (Doc.size doc) (Doc.hash doc)]).
  { unfold upsertDoc.
    destruct (existsb _ (docs db)) eqn:E; [| reflexivity].
    exfalso. apply Hnew. apply existsb_exists in E as (row & Hin & Hrow).
    apply bool_decide_eq_true in Hrow. rewrite <- Hrow. now apply in_map. }
  apply getChangedDocs_eq; [apply upsertDoc_one_row, db_unique |].
  intros changes Hrun.
  destruct (getChangedDocs_In _ known changes Hrun) as (Ha & Hm & Hd).
  rewrite Hdocs in Ha, Hm, Hd.
  split; [| split].
  - right. exists (Doc.docUri doc). split; [reflexivity |]. intros uri.
    rewrite Ha, known_keys, map_app, in_app_iff. simpl. split.
    + intros [[Hin | [<- | []]] Hnot]; [contradiction | reflexivity].
    + intros ->. split; [right; now left | exact Hnew].
  - left. split; [reflexivity |]. intros uri Hin.
    apply Hm in Hin as (row & k & Hrow & <- & Hget & Hchanged).
    apply in_app_or in Hrow as [Hrow | [<- | []]].
    + exact (known_row_unchanged row k Hrow Hget Hchanged).
    + simpl in Hget. apply get_Some_In, (in_map fst) in Hget. simpl in Hget.
      apply Hnew, known_keys, Hget.
  - left. split; [reflexivity |]. intros uri Hin.
    apply Hd in Hin as [Hin Hnot]. apply Hnot. rewrite map_app, in_app_iff.
    left. apply known_keys, Hin.
Qed.

Lemma changes_after_update (doc : Doc.t) (old : DocRow.t) :
  getDoc db (Doc.docUri doc) = Some old ->
  getChangedDocs (upsertDoc db doc).2 known
  = Some (mkChangedDocs []
            (if Qeq_bool (Doc.mtime doc) (DocRow.mtime old)
                && bool_decide (Doc.hash doc = DocRow.hash old)
             then [] else [Doc.docUri doc])
            []).
Proof.
  intros Hold.
  assert (Hdocs : docs (upsertDoc db doc).2 = map (updateRow doc) (docs db)).
  { unfold upsertDoc. rewrite find_existsb. unfold getDoc in Hold. rewrite Hold. reflexivity. }
  pose proof Hold as Hfound. unfold getDoc in Hfound.
  apply find_some in Hfound as [Holdin Holduri]. apply bool_decide_eq_true in Holduri.
  apply getChangedDocs_eq; [apply upsertDoc_one_row, db_unique |].
  intros changes Hrun.
  destruct (getChangedDocs_In _ known changes Hrun) as (Ha & Hm & Hd).
  rewrite Hdocs, map_updateRow_docUris in Ha, Hd. rewrite Hdocs in Hm.
  assert (Hmod : forall uri,
            In uri (modified changes)
            <-> uri = Doc.docUri doc
                /\ (Qeq_bool (Doc.mtime doc) (DocRow.mtime old) = false
                    \/ Doc.hash doc <> DocRow.hash old)).
  { intros uri. rewrite Hm. split.
    - intros (row' & k & Hrow' & <- & Hget & Hchanged).
      apply in_map_iff in Hrow' as (row & <- & Hrow).
      rewrite updateRow_docUri in Hget |- *. unfold updateRow in Hchanged.
      destruct (bool_decide (DocRow.docUri row = Doc.docUri doc)) eqn:E.
      + apply bool_decide_eq_true in E. split; [exact E |].
        assert (row = old) as ->.
        { apply (NoDup_map_inj DocRow.docUri (docs db)); auto. congruence. }
        rewrite (known_get old Holdin) in Hget. injection Hget as <-. exact Hchanged.
      + exfalso. exact (known_row_unchanged row k Hrow Hget Hchanged).
    - intros [-> Hchanged]. exists (updateRow doc old), (mkKnownDoc (DocRow.mtime old) (DocRow.hash old)).
      split; [now apply in_map |]. rewrite updateRow_docUri. split; [exact Holduri |].
      split; [rewrite <- Holduri; now apply known_get |].
      unfold updateRow. rewrite bool_decide_eq_true_2 by exact Holduri. exact Hchanged. }
  split; [| split].
  - left. split; [reflexivity |]. intros uri Hin.
    apply Ha in Hin as [Hin Hnot]. apply Hnot, known_keys, Hin.
  - destruct (Qeq_bool (Doc.mtime doc) (DocRow.mtime old)) eqn:Em; simpl.
    + destruct (bool_decide (Doc.hash doc = DocRow.hash old)) eqn:Eh.
      * left. split; [reflexivity |]. intros uri Hin. apply Hmod in Hin as [_ [Hc | Hc]].
        -- discriminate.
        -- now apply bool_decide_eq_true in Eh.
      * right. exists (Doc.docUri doc). split; [reflexivity |]. intros uri.
        rewrite Hmod. apply bool_decide_eq_false in Eh. tauto.
    + right. exists (Doc.docUri doc). split; [reflexivity |]. intros uri.
      rewrite Hmod. tauto.
  - left. split; [reflexivity |]. intros uri Hin.
    apply Hd in Hin as [Hin Hnot]. apply Hnot, known_keys, Hin.
Qed.

End ChangedDocsRoundTrip.

(** X16.  The [docs] table behaves as a map from document URI to row.  After
    [upsertDoc], [getDoc] on the document's URI returns a row with the
    given [mtime], [size] and [hash]; the row keeps the [doc_id] it had
    when the URI was stored before, and otherwise has the id that
    [upsertDoc] returned.  After [deleteDoc], [getDoc] on that URI returns
    nothing.  Neither operation changes what [getDoc] returns for any other
    URI. *)
Theorem getDoc_after_upsertDoc_and_deleteDoc
    (db : MetadataStore.t) (doc : Doc.t) (docUri : list Z) :
  (exists docId,
     MetadataStore.getDoc (MetadataStore.upsertDoc db doc).2 (Doc.docUri doc)
     = Some (DocRow.mk docId (Doc.docUri doc) (Doc.mtime doc) (Doc.size doc) (Doc.hash doc))
     /\ (forall old, MetadataStore.getDoc db (Doc.docUri doc) = Some old ->
                     docId = DocRow.docId old)
     /\ (MetadataStore.getDoc db (Doc.docUri doc) = None ->
         docId = (MetadataStore.upsertDoc db doc).1))
  /\ (docUri <> Doc.docUri doc ->
      MetadataStore.getDoc (MetadataStore.upsertDoc db doc).2 docUri
      = MetadataStore.getDoc db docUri)
  /\ MetadataStore.getDoc (MetadataStore.deleteDoc db docUri) docUri = None
  /\ (forall other, other <> docUri ->
        MetadataStore.getDoc (MetadataStore.deleteDoc db docUri) other
        = MetadataStore.getDoc db other).
Proof.
  split; [| split; [| split]].
  - eexists. split; [apply getDoc_upsertDoc |].
    destruct (MetadataStore.getDoc db (Doc.docUri doc)) as [row |] eqn:E.
    + split; [intros old [= <-]; reflexivity | discriminate].
    + split; [discriminate | reflexivity].
  - apply getDoc_upsertDoc_other.
  - rewrite getDoc_deleteDoc. rewrite bool_decide_eq_true_2; reflexivity.
  - intros other Hne. rewrite getDoc_deleteDoc.
    rewrite bool_decide_eq_false_2 by exact Hne. reflexivity.
Qed.

(** X17.  In every store reached from a new database by [upsertDoc] and
    [deleteDoc], no two rows share a document URI and no two rows share a
    [doc_id], and every [doc_id] is at least 1 and at most the table's
    sequence.  Every [upsertDoc] advances the sequence by one, also when
    the URI is stored already and the row is only updated, and [deleteDoc]
    leaves it as it is.  A document whose URI is not stored gets the next
    value of the sequence as its id, which no row has or had; so ids are
    not handed out again after a delete, and an update in between leaves a
    gap. *)
Theorem reachable_store_has_unique_uris_and_ids (db : MetadataStore.t) :
  MetadataStore.reachable db ->
  MetadataStore.uniqueDocUris db
  /\ NoDup (map DocRow.docId (MetadataStore.docs db))
  /\ Forall (fun row => 1 <= DocRow.docId row <= MetadataStore.docs_sequence db)
       (MetadataStore.docs db)
  /\ (forall doc,
        MetadataStore.docs_sequence (MetadataStore.upsertDoc db doc).2
        = MetadataStore.docs_sequence db + 1)
  /\ (forall docUri,
        MetadataStore.docs_sequence (MetadataStore.deleteDoc db docUri)
        = MetadataStore.docs_sequence db)
  /\ (forall doc,
        MetadataStore.getDoc db (Doc.docUri doc) = None ->
        (MetadataStore.upsertDoc db doc).1 = MetadataStore.docs_sequence db + 1
        /\ MetadataStore.getDoc (MetadataStore.upsertDoc db doc).2 (Doc.docUri doc)
           = Some (DocRow.mk (MetadataStore.docs_sequence db + 1) (Doc.docUri doc)
                     (Doc.mtime doc) (Doc.size doc) (Doc.hash doc))).
Proof.
  intros Hreach. destruct (reachable_inv db Hreach) as (Huri & Hid & Hbound & Hseq).
  split; [exact Huri |]. split; [exact Hid |]. split; [exact Hbound |].
  split; [| split; [reflexivity |]].
  - intros doc. unfold MetadataStore.upsertDoc. destruct (existsb _ _); reflexivity.
  - intros doc Hnone.
    assert (Hid' : (MetadataStore.upsertDoc db doc).1 = MetadataStore.docs_sequence db + 1).
    { unfold MetadataStore.upsertDoc, MetadataStore.getDoc in *.
      rewrite find_existsb, Hnone. reflexivity. }
    split; [exact Hid' |].
    rewrite getDoc_upsertDoc, Hnone, Hid'. reflexivity.
Qed.

(** A new document, an update of it, and a second new document: the
    sequence stands at 2 after the update, and the second document gets the
    id 3. *)
Lemma reachable_store_has_unique_uris_and_ids_witness :
  MetadataStore.reachable MetadataStore.insertedThenUpdated
  /\ MetadataStore.docs_sequence MetadataStore.insertedThenUpdated = 2
  /\ (MetadataStore.upsertDoc MetadataStore.insertedThenUpdated
        (Doc.mk (JS.lit "b.md") 10 100 (JS.lit "h3"))).1
     = MetadataStore.docs_sequence MetadataStore.insertedThenUpdated + 1.
Proof.
  assert (Hreach : MetadataStore.reachable MetadataStore.insertedThenUpdated).
  { unfold MetadataStore.insertedThenUpdated.
    do 2 apply MetadataStore.reachable_upsertDoc. apply MetadataStore.reachable_empty. }
  split; [exact Hreach |]. split; [reflexivity |].
  destruct (reachable_store_has_unique_uris_and_ids _ Hreach) as (_ & _ & _ & _ & _ & Hnew).
  exact (proj1 (Hnew (Doc.mk (JS.lit "b.md") 10 100 (JS.lit "h3")) eq_refl)).
Defined.

(** X18.  [getChangedDocs] always returns, and reports exactly this: as
    added, the stored URIs that [knownDocs] has no entry for; as modified,
    the stored URIs whose row differs from the known entry in [mtime] or in
    [hash]; as deleted, the keys of [knownDocs] that are not stored.  A
    change of [size] alone is not reported. *)
Theorem getChangedDocs_reports
    (db : MetadataStore.t) (knownDocs : list (list Z * MetadataStore.KnownDoc)) :
  exists changes,
    MetadataStore.getChangedDocs db knownDocs = Some changes
    /\ (forall uri,
          In uri (MetadataStore.added changes)
          <-> In uri (map DocRow.docUri (MetadataStore.docs db))
              /\ ~ In uri (JSMap.keys knownDocs))
    /\ (forall uri,
          In uri (MetadataStore.modified changes)
          <-> exists row known,
                In row (MetadataStore.docs db) /\ DocRow.docUri row = uri
                /\ JSMap.get uri knownDocs = Some known
                /\ (Qeq_bool (DocRow.mtime row) (MetadataStore.knownMtime known) = false
                    \/ DocRow.hash row <> MetadataStore.knownHash known))
    /\ (forall uri,
          In uri (MetadataStore.deleted changes)
          <-> In uri (JSMap.keys knownDocs)
              /\ ~ In uri (map DocRow.docUri (MetadataStore.docs db))).
Proof.
  destruct (MetadataStore.getChangedDocs db knownDocs) as [changes |] eqn:Hrun.
  - exists changes. split; [reflexivity |]. now apply getChangedDocs_In.
  - rewrite getChangedDocs_lists in Hrun. discriminate.
Qed.

(** X19.  Against the map made of its own listing, a store with distinct
    URIs reports no change.  After one more operation it reports that
    operation: [deleteDoc] of a stored URI gives that URI as deleted,
    [upsertDoc] of a URI that was not stored gives it as added, and
    [upsertDoc] of a stored URI gives it as modified when the new [mtime]
    or [hash] differs from the stored one and gives nothing when both are
    the same. *)
Theorem getChangedDocs_after_one_operation (db : MetadataStore.t) :
  MetadataStore.uniqueDocUris db ->
  let known := MetadataStore.knownDocsOf (MetadataStore.listDocs db) in
  MetadataStore.getChangedDocs db known = Some (MetadataStore.mkChangedDocs [] [] [])
  /\ (forall docUri,
        In docUri (map DocRow.docUri (MetadataStore.docs db)) ->
        MetadataStore.getChangedDocs (MetadataStore.deleteDoc db docUri) known
        = Some (MetadataStore.mkChangedDocs [] [] [docUri]))
  /\ (forall doc,
        ~ In (Doc.docUri doc) (map DocRow.docUri (MetadataStore.docs db)) ->
        MetadataStore.getChangedDocs (MetadataStore.upsertDoc db doc).2 known
        = Some (MetadataStore.mkChangedDocs [Doc.docUri doc] [] []))
  /\ (forall doc old,
        MetadataStore.getDoc db (Doc.docUri doc) = Some old ->
        MetadataStore.getChangedDocs (MetadataStore.upsertDoc db doc).2 known
        = Some (MetadataStore.mkChangedDocs []
                  (if Qeq_bool (Doc.mtime doc) (DocRow.mtime old)
                      && bool_decide (Doc.hash doc = DocRow.hash old)
                   then [] else [Doc.docUri doc])
                  [])).
Proof.
  intros Hunique known. split; [| split; [| split]].
  - now apply changes_none.
  - intros docUri. now apply changes_after_deleteDoc.
  - intros doc. now apply changes_after_insert.
  - intros doc old. now apply changes_after_update.
Qed.

Lemma getChangedDocs_after_one_operation_witness :
  MetadataStore.uniqueDocUris
    (MetadataStore.upsertDoc MetadataStore.empty
       (Doc.mk (JS.lit "a.md") 10 100 (JS.lit "h1"))).2
  /\ MetadataStore.getChangedDocs
       (MetadataStore.upsertDoc MetadataStore.empty
          (Doc.mk (JS.lit "a.md") 10 100 (JS.lit "h1"))).2
       (MetadataStore.knownDocsOf
          (MetadataStore.listDocs
             (MetadataStore.upsertDoc MetadataStore.empty
                (Doc.mk (JS.lit "a.md") 10 100 (JS.lit "h1"))).2))
     = Some (MetadataStore.mkChangedDocs [] [] []).
Proof.
  assert (Hunique : MetadataStore.uniqueDocUris
                      (MetadataStore.upsertDoc MetadataStore.empty
                         (Doc.mk (JS.lit "a.md") 10 100 (JS.lit "h1"))).2).
  { apply NoDup_singleton. }
  split; [exact Hunique |].
  exact (proj1 (getChangedDocs_after_one_operation _ Hunique)).
Defined.

(** ** SnapshotManager: listing and rollback *)

Section SnapshotListFacts.
Import JS SnapshotManager.

Lemma listSnapshots_sorted (fs : gmap string SnapshotMeta.t) :
  StronglySorted (fun a b => SnapshotInfo.createdAt b <= SnapshotInfo.createdAt a)
    (listSnapshots fs).
Proof.
  unfold listSnapshots. apply sort_StronglySorted.
  - simpl. intros x y z Hxy Hyz. lia.
  - simpl. intros x y E. apply Z.ltb_ge in E. exact E.
  - simpl. intros x y E. apply Z.ltb_lt in E. lia.
Qed.

Lemma length_listSnapshots (fs : gmap string SnapshotMeta.t) :
  List.length (listSnapshots fs) = size fs.
Proof.
  unfold listSnapshots.
  rewrite (Permutation_length (sort_Permutation _ _)).
  rewrite length_map. apply length_map_to_list.
Qed.

(** In a well-formed disk a listed snapshot is the one of the directory
    that its id names. *)
Lemma listSnapshots_wellFormed (fs : gmap string SnapshotMeta.t) (info : SnapshotInfo.t) :
  wellFormed fs -> In info (listSnapshots fs) ->
  exists meta, fs !! SnapshotInfo.id info = Some meta
               /\ info = infoOf (SnapshotInfo.id info) meta.
Proof.
  intros [Hids _] Hin. apply listSnapshots_In in Hin as (dir & meta & Hl & ->).
  simpl. rewrite (Hids dir meta Hl). eauto.
Qed.

Lemma findIndexActive_Some (snapshots : list SnapshotInfo.t) (idx : nat) :
  findIndexActive snapshots = Some idx ->
  exists cur, snapshots !! idx = Some cur /\ isActive cur = true.
Proof.
  revert idx. induction snapshots as [| s rest IH]; intros idx; simpl; [discriminate |].
  destruct (isActive s) eqn:E.
  - intros [= <-]. eauto.
  - destruct (findIndexActive rest) as [i |]; simpl; [| discriminate].
    intros [= <-]. apply IH. reflexivity.
Qed.

Lemma findIndexActive_None (snapshots : list SnapshotInfo.t) :
  findIndexActive snapshots = None -> List.find isActive snapshots = None.
Proof.
  induction snapshots as [| s rest IH]; simpl; [reflexivity |].
  destruct (isActive s); [discriminate |].
  destruct (findIndexActive rest); simpl; [discriminate | auto].
Qed.

Lemma StronglySorted_lookup {A : Type} (R : A -> A -> Prop) (l : list A) (i j : nat) (a b : A) :
  StronglySorted R l -> (i < j)%nat -> l !! i = Some a -> l !! j = Some b -> R a b.
Proof.
  intros Hs. revert i j. induction Hs as [| x l Hs IH Hall]; intros i j Hij Ha Hb;
    [discriminate |].
  destruct j as [| j]; [lia |]. simpl in Hb.
  destruct i as [| i]; simpl in Ha.
  - injection Ha as <-. rewrite Forall_forall in Hall.
    apply Hall. eapply list_elem_of_lookup_2. exact Hb.
  - apply (IH i j); [lia | exact Ha | exact Hb].
Qed.

Lemma rollback_facts (fs : gmap string SnapshotMeta.t) :
  wellFormed fs ->
  match rollback fs with
  | Ok fs' =>
      exists idx cur prev,
        listSnapshots fs !! idx = Some cur
        /\ SnapshotInfo.state cur = SnapshotState.active
        /\ listSnapshots fs !! (S idx) = Some prev
        /\ SnapshotInfo.createdAt prev <= SnapshotInfo.createdAt cur
        /\ activateSnapshot fs (SnapshotInfo.id prev) = Ok fs'
        /\ wellFormed fs'
        /\ option_map SnapshotInfo.id (getActiveSnapshot fs') = Some (SnapshotInfo.id prev)
        /\ (forall dir meta, fs' !! dir = Some meta ->
                             SnapshotMeta.state meta = SnapshotState.active ->
                             dir = SnapshotInfo.id prev)
  | Throw e =>
      getActiveSnapshot fs = None
      \/ exists cur, last (listSnapshots fs) = Some cur
                     /\ SnapshotInfo.state cur = SnapshotState.active
  end.
Proof.
  intros Hwf. unfold rollback.
  destruct (findIndexActive (listSnapshots fs)) as [idx |] eqn:Hidx.
  2:{ left. unfold getActiveSnapshot. now apply findIndexActive_None. }
  apply findIndexActive_Some in Hidx as (cur & Hcur & Hact).
  unfold isActive in Hact. apply bool_decide_eq_true in Hact.
  destruct (listSnapshots fs !! S idx) as [prev |] eqn:Hprev.
  - assert (Hin : In prev (listSnapshots fs)).
    { apply list_elem_of_In. eapply list_elem_of_lookup_2. exact Hprev. }
    destruct (listSnapshots_wellFormed fs prev Hwf Hin) as (meta & Hl & Hinfo).
    destruct (activateSnapshot fs (SnapshotInfo.id prev)) as [fs' | e] eqn:Hrun.
    + destruct (activateSnapshot_ok fs fs' _ Hwf Hrun) as (Hwf' & (m & Hm & Hmact) & Honly).
      exists idx, cur, prev.
      split; [exact Hcur |]. split; [exact Hact |]. split; [exact Hprev |].
      split.
      { apply (StronglySorted_lookup _ _ idx (S idx) cur prev (listSnapshots_sorted fs));
          [lia | exact Hcur | exact Hprev]. }
      split; [exact Hrun |]. split; [exact Hwf' |].
      split; [exact (wellFormed_activeId fs' Hwf' _ m Hm Hmact) | exact Honly].
    + exfalso. unfold activateSnapshot, getSnapshotInfo in Hrun. rewrite Hl in Hrun.
      discriminate.
  - right. exists cur. split; [| exact Hact].
    apply lookup_ge_None in Hprev.
    assert (Hlen : List.length (listSnapshots fs) = S idx).
    { apply lookup_lt_Some in Hcur. lia. }
    rewrite last_lookup, Hlen. simpl. exact Hcur.
Qed.

End SnapshotListFacts.

(** X20.  [SnapshotManager.listSnapshots] lists every snapshot directory
    that has a [meta.json] once, and nothing else, newest first. *)
Theorem listSnapshots_lists_every_snapshot_newest_first
    (fs : gmap string SnapshotMeta.t) :
  StronglySorted (fun a b => SnapshotInfo.createdAt b <= SnapshotInfo.createdAt a)
    (SnapshotManager.listSnapshots fs)
  /\ length (SnapshotManager.listSnapshots fs) = size fs
  /\ (forall info,
        In info (SnapshotManager.listSnapshots fs)
        <-> exists dir meta,
              fs !! dir = Some meta /\ info = SnapshotManager.infoOf dir meta).
Proof.
  split; [apply listSnapshots_sorted |]. split; [apply length_listSnapshots |].
  apply listSnapshots_In.
Qed.

(** X21.  On a disk reached by the manager's operations, [rollback] either
    activates the snapshot listed right after the active one, that is the
    next older one whatever its state, and leaves it the only active
    snapshot; or it throws, and then there is no active snapshot or the
    active snapshot is the oldest one. *)
Theorem rollback_activates_the_next_older_snapshot (fs : gmap string SnapshotMeta.t) :
  SnapshotManager.reachable fs ->
  match SnapshotManager.rollback fs with
  | JS.Ok fs' =>
      exists idx cur prev,
        SnapshotManager.listSnapshots fs !! idx = Some cur
        /\ SnapshotInfo.state cur = SnapshotState.active
        /\ SnapshotManager.listSnapshots fs !! (S idx) = Some prev
        /\ SnapshotInfo.createdAt prev <= SnapshotInfo.createdAt cur
        /\ option_map SnapshotInfo.id (SnapshotManager.getActiveSnapshot fs')
           = Some (SnapshotInfo.id prev)
        /\ (forall dir meta, fs' !! dir = Some meta ->
                             SnapshotMeta.state meta = SnapshotState.active ->
                             dir = SnapshotInfo.id prev)
        /\ SnapshotManager.reachable fs'
  | JS.Throw e =>
      SnapshotManager.getActiveSnapshot fs = None
      \/ exists cur, last (SnapshotManager.listSnapshots fs) = Some cur
                     /\ SnapshotInfo.state cur = SnapshotState.active
  end.
Proof.
  intros Hreach. pose proof (rollback_facts fs (reachable_wellFormed fs Hreach)) as H.
  destruct (SnapshotManager.rollback fs) as [fs' | e] eqn:Hrun; [| exact H].
  destruct H as (idx & cur & prev & H1 & H2 & H3 & H4 & _ & _ & H7 & H8).
  exists idx, cur, prev. repeat split; auto.
  eapply SnapshotManager.reachable_step; [exact Hreach |].
  now apply SnapshotManager.step_rollback.
Qed.

Lemma inactiveA_activeB_reachable :
  SnapshotManager.reachable SnapshotExamples.inactiveA_activeB.
Proof.
  apply (SnapshotManager.reachable_step SnapshotExamples.activeA_buildingB);
    [exact activeA_buildingB_reachable |].
  apply (SnapshotManager.step_activate _ "b"%string). reflexivity.
Defined.

Lemma rollback_activates_the_next_older_snapshot_witness :
  SnapshotManager.reachable SnapshotExamples.inactiveA_activeB
  /\ exists fs',
       SnapshotManager.rollback SnapshotExamples.inactiveA_activeB = JS.Ok fs'
       /\ exists idx cur prev,
            SnapshotManager.listSnapshots SnapshotExamples.inactiveA_activeB !! idx = Some cur
            /\ SnapshotInfo.state cur = SnapshotState.active
            /\ SnapshotManager.listSnapshots SnapshotExamples.inactiveA_activeB !! (S idx)
               = Some prev
            /\ SnapshotInfo.createdAt prev <= SnapshotInfo.createdAt cur
            /\ option_map SnapshotInfo.id (SnapshotManager.getActiveSnapshot fs')
               = Some (SnapshotInfo.id prev)
            /\ (forall dir meta, fs' !! dir = Some meta ->
                                 SnapshotMeta.state meta = SnapshotState.active ->
                                 dir = SnapshotInfo.id prev)
            /\ SnapshotManager.reachable fs'.
Proof.
  split; [exact inactiveA_activeB_reachable |].
  pose proof (rollback_activates_the_next_older_snapshot SnapshotExamples.inactiveA_activeB
                inactiveA_activeB_reachable) as H.
  destruct (SnapshotManager.rollback SnapshotExamples.inactiveA_activeB) as [fs' | e] eqn:Hrun.
  - exists fs'. split; [reflexivity | exact H].
  - exfalso. vm_compute in Hrun. discriminate.
Defined.

(** ** computeAdaptiveK *)

(** X22.  [computeAdaptiveK] returns 0 for no leaves, 1 for one leaf, 2 for
    2 to 10 leaves, 3 for 11 to 15, 4 for 16 to 20 and 5 for 21 leaves or
    more; so it never asks for more representatives than there are leaves,
    and never for more than 5. *)
Theorem computeAdaptiveK_table (numLeaves : Z) :
  (numLeaves <= 0 -> NodeEmbedding.computeAdaptiveK numLeaves = 0)
  /\ (numLeaves = 1 -> NodeEmbedding.computeAdaptiveK numLeaves = 1)
  /\ (2 <= numLeaves <= 10 -> NodeEmbedding.computeAdaptiveK numLeaves = 2)
  /\ (11 <= numLeaves <= 15 -> NodeEmbedding.computeAdaptiveK numLeaves = 3)
  /\ (16 <= numLeaves <= 20 -> NodeEmbedding.computeAdaptiveK numLeaves = 4)
  /\ (21 <= numLeaves -> NodeEmbedding.computeAdaptiveK numLeaves = 5)
  /\ 0 <= NodeEmbedding.computeAdaptiveK numLeaves <= 5
  /\ (0 <= numLeaves -> NodeEmbedding.computeAdaptiveK numLeaves <= numLeaves).
Proof.
  unfold NodeEmbedding.computeAdaptiveK, NodeEmbedding.ceilDiv.
  destruct (numLeaves <=? 0) eqn:E0; [apply Z.leb_le in E0; repeat split; lia |].
  apply Z.leb_gt in E0.
  destruct (numLeaves =? 1) eqn:E1; [apply Z.eqb_eq in E1; repeat split; lia |].
  apply Z.eqb_neq in E1.
  pose proof (Z.div_mod (- numLeaves) 5 ltac:(lia)) as Hdiv.
  pose proof (Z.mod_pos_bound (- numLeaves) 5 ltac:(lia)) as Hmod.
  remember (- numLeaves / 5) as q. remember ((- numLeaves) mod 5) as r.
  repeat split; intros; lia.
Qed.

(** ** MarkdownParser.normalize *)

Section NormalizeFacts.
Import JS MarkdownParser.

Lemma replaceCR_no_CR (text : list Z) : ~ In CR (replaceCR text).
Proof.
  unfold replaceCR. rewrite in_map_iff. intros (c & Hc & _).
  destruct (c =? CR) eqn:E; [discriminate |]. apply Z.eqb_neq in E. congruence.
Qed.

Lemma replaceCR_id (text : list Z) : ~ In CR text -> replaceCR text = text.
Proof.
  unfold replaceCR. induction text as [| c text IH]; simpl; [reflexivity |].
  intros Hnot. rewrite IH by tauto.
  destruct (c =? CR) eqn:E; [| reflexivity].
  apply Z.eqb_eq in E. tauto.
Qed.

Lemma replaceCRLF_id (text : list Z) : ~ In CR text -> replaceCRLF text = text.
Proof.
  induction text as [| c text IH]; cbn [replaceCRLF]; [reflexivity |].
  intros Hnot. simpl in Hnot.
  destruct (c =? CR) eqn:E; [apply Z.eqb_eq in E; tauto |].
  rewrite IH by tauto. reflexivity.
Qed.

Lemma stripBOM_id (raw : list Z) : head raw <> Some BOM -> stripBOM raw = raw.
Proof.
  destruct raw as [| c rest]; simpl; [reflexivity |].
  intros Hne. destruct (c =? BOM) eqn:E; [| reflexivity].
  apply Z.eqb_eq in E. congruence.
Qed.

Lemma endsWithLF_last (text : list Z) : endsWithLF text = true <-> last text = Some LF.
Proof.
  unfold endsWithLF. destruct (last text) as [c |]; [| split; discriminate].
  rewrite Z.eqb_eq. split; congruence.
Qed.

(** The first code unit after the two replacements. *)
Lemma head_replaced (text : list Z) :
  head text <> Some BOM -> head (replaceCR (replaceCRLF text)) <> Some BOM.
Proof.
  destruct text as [| c rest]; [simpl; discriminate |].
  cbn [replaceCRLF]. intros Hne.
  destruct (c =? CR) eqn:E.
  - destruct rest as [| d rest']; [simpl; rewrite E; discriminate |].
    destruct (d =? LF); simpl; [discriminate |]. rewrite E. discriminate.
  - simpl. rewrite E. exact Hne.
Qed.

Lemma normalize_no_CR (raw : list Z) : ~ In CR (normalize raw).
Proof.
  unfold normalize. destruct (negb _); [| apply replaceCR_no_CR].
  rewrite in_app_iff. intros [H | [H | []]]; [exact (replaceCR_no_CR _ H) | discriminate].
Qed.

Lemma normalize_last (raw : list Z) : last (normalize raw) = Some LF.
Proof.
  unfold normalize. destruct (endsWithLF _) eqn:E; simpl.
  - now apply endsWithLF_last.
  - apply last_snoc.
Qed.

Lemma normalize_fixed (raw : list Z) :
  ~ In CR raw -> head raw <> Some BOM -> last raw = Some LF -> normalize raw = raw.
Proof.
  intros Hcr Hbom Hlast. unfold normalize.
  rewrite stripBOM_id, replaceCRLF_id, replaceCR_id by assumption.
  apply endsWithLF_last in Hlast. rewrite Hlast. reflexivity.
Qed.

Lemma normalize_head (raw : list Z) :
  head (stripBOM raw) <> Some BOM -> head (normalize raw) <> Some BOM.
Proof.
  intros Hne. apply head_replaced in Hne. unfold normalize.
  destruct (negb _); [| exact Hne].
  destruct (replaceCR (replaceCRLF (stripBOM raw))); [simpl; discriminate | exact Hne].
Qed.

End NormalizeFacts.

(** X23.  The text [MarkdownParser.normalize] returns holds no
    carriage return and ends with a newline, whatever the input.  A text
    that has no carriage return, ends with a newline and does not start
    with a byte order mark is returned unchanged.  Normalizing twice gives
    the same as normalizing once when the input has at most one leading
    byte order mark; with two of them it does not, since only the first is
    stripped. *)
Theorem normalize_result_and_fixed_points (raw : list Z) :
  ~ In MarkdownParser.CR (MarkdownParser.normalize raw)
  /\ last (MarkdownParser.normalize raw) = Some JS.LF
  /\ (~ In MarkdownParser.CR raw -> head raw <> Some MarkdownParser.BOM ->
      last raw = Some JS.LF -> MarkdownParser.normalize raw = raw)
  /\ (head (MarkdownParser.stripBOM raw) <> Some MarkdownParser.BOM ->
      MarkdownParser.normalize (MarkdownParser.normalize raw)
      = MarkdownParser.normalize raw)
  /\ MarkdownParser.normalize
       (MarkdownParser.normalize [MarkdownParser.BOM; MarkdownParser.BOM])
     <> MarkdownParser.normalize [MarkdownParser.BOM; MarkdownParser.BOM].
Proof.
  split; [apply normalize_no_CR |]. split; [apply normalize_last |].
  split; [apply normalize_fixed |]. split.
  - intros Hne. apply normalize_fixed.
    + apply normalize_no_CR.
    + now apply normalize_head.
    + apply normalize_last.
  - vm_compute. discriminate.
Qed.

(** ** ExcerptExtractor *)

Section ExcerptFacts.
Import JS ExcerptExtractor.

Lemma lastIndexOfFrom_Some (c : Z) (s : list Z) :
  forall i found j,
    lastIndexOfFrom c s i found = Some j ->
    found = Some j \/ ((i <= j)%nat /\ s !! (j - i)%nat = Some c).
Proof.
  induction s as [| d s IH]; intros i found j; cbn [lastIndexOfFrom]; [auto |].
  intros H. apply IH in H as [H | [Hle Hl]].
  - destruct (d =? c) eqn:E; [| now left].
    apply Z.eqb_eq in E. injection H as <-. right. split; [lia |].
    rewrite Nat.sub_diag. simpl. congruence.
  - right. split; [lia |]. replace (j - i)%nat with (S (j - S i)) by lia. exact Hl.
Qed.

Lemma lastIndexOf_Some (s : list Z) (c : Z) (j : nat) :
  lastIndexOf s c = Some j -> s !! j = Some c.
Proof.
  unfold lastIndexOf. intros H. apply lastIndexOfFrom_Some in H as [H | [_ H]];
    [discriminate |].
  now rewrite Nat.sub_0_r in H.
Qed.

(** What [truncateAtWordBoundary] makes of a text longer than
    [maxLength]. *)
Lemma truncateAtWordBoundary_long (text : list Z) (maxLength : nat) :
  (maxLength < List.length text)%nat ->
  let cut := truncateAtWordBoundary text maxLength in
  cut `prefix_of` text
  /\ (List.length cut <= maxLength)%nat
  /\ (maxLength <= 2 * List.length cut)%nat
  /\ ((List.length cut < maxLength)%nat -> text !! List.length cut = Some SPACE).
Proof.
  intros Hlong. unfold truncateAtWordBoundary.
  replace (List.length text <=? maxLength)%nat with false by (symmetry; apply Nat.leb_gt; lia).
  unfold slice. rewrite !Nat.sub_0_r, !drop_0.
  assert (Hlen : List.length (take maxLength text) = maxLength)
    by (rewrite length_take; lia).
  assert (Hwhole : take maxLength text `prefix_of` text /\ (maxLength <= maxLength)%nat
                   /\ (maxLength <= 2 * maxLength)%nat
                   /\ ((maxLength < maxLength)%nat -> text !! maxLength = Some SPACE)).
  { split; [apply prefix_take |]. repeat split; lia. }
  destruct (lastIndexOf (take maxLength text) SPACE) as [lastSpace |] eqn:Hlast.
  2:{ simpl. rewrite Hlen. exact Hwhole. }
  destruct (maxLength <? 2 * lastSpace)%nat eqn:Hhalf.
  2:{ simpl. rewrite Hlen. exact Hwhole. }
  apply Nat.ltb_lt in Hhalf. apply lastIndexOf_Some in Hlast.
  assert (Hlt : (lastSpace < maxLength)%nat).
  { apply lookup_lt_Some in Hlast. lia. }
  cbv zeta. rewrite ?Nat.sub_0_r, ?drop_0. rewrite take_take, Nat.min_l by lia.
  assert (Hcut : List.length (take lastSpace text) = lastSpace)
    by (rewrite length_take; lia).
  rewrite Hcut. split; [apply prefix_take |]. repeat split; [lia | lia |].
  intros _. rewrite lookup_take_lt in Hlast by lia. exact Hlast.
Qed.

End ExcerptFacts.

(** X24.  The excerpt that [ExcerptExtractor.extract] makes of a file's
    content is the requested range of the content when that range has at
    most [maxLength] code units (1000 by default), and is marked truncated
    exactly when the range is longer.  A truncated excerpt is a beginning of
    the range, has at most [maxLength] and at least half of [maxLength]
    code units, and when it is shorter than [maxLength] it ends right
    before a space. *)
Theorem excerptOf_truncates_at_a_word_boundary
    (content : list Z) (startChar endChar : nat) (maxLength : option nat) :
  let limit := match maxLength with
               | Some n => n
               | None => ExcerptExtractor.DEFAULT_MAX_LENGTH
               end in
  let range := JS.slice content startChar endChar in
  let result := ExcerptExtractor.excerptOf content startChar endChar maxLength in
  (ExcerptResult.truncated result = true <-> (limit < length range)%nat)
  /\ (ExcerptResult.truncated result = false -> ExcerptResult.excerpt result = range)
  /\ ExcerptResult.excerpt result `prefix_of` range
  /\ (length (ExcerptResult.excerpt result) <= limit)%nat
  /\ (ExcerptResult.truncated result = true ->
      (limit <= 2 * length (ExcerptResult.excerpt result))%nat
      /\ ((length (ExcerptResult.excerpt result) < limit)%nat ->
          range !! length (ExcerptResult.excerpt result) = Some JS.SPACE)).
Proof.
  intros limit range result. unfold result, ExcerptExtractor.excerptOf.
  fold limit. fold range.
  destruct (limit <? length range)%nat eqn:E; simpl.
  - apply Nat.ltb_lt in E.
    destruct (truncateAtWordBoundary_long range limit E) as (H1 & H2 & H3 & H4).
    split; [tauto |]. split; [discriminate |]. split; [exact H1 |]. split; [exact H2 |].
    intros _. split; assumption.
  - apply Nat.ltb_ge in E.
    split; [split; [discriminate | lia] |]. split; [reflexivity |].
    split; [reflexivity |]. split; [exact E | discriminate].
Qed.

(** X25.  [ExcerptExtractor.extract] reads a file once: after a call that
    returned for a document, every later call for that document uses the
    content read then, whatever the file holds by that time, and leaves the
    cache as it is; only after [clearCache] is the file read again. *)
Theorem extract_serves_the_cached_content
    (this this' : ExcerptExtractor.t) (vault : list Z -> option (list Z)) (docUri : list Z)
    (startChar endChar : nat) (maxLength : option nat) (result : ExcerptResult.t) :
  ExcerptExtractor.extract this vault docUri startChar endChar maxLength
  = JS.Ok (result, this') ->
  exists content,
    result = ExcerptExtractor.excerptOf content startChar endChar maxLength
    /\ (JSMap.get docUri (ExcerptExtractor.fileCache this) = None ->
        vault docUri = Some content)
    /\ (forall vault' startChar' endChar' maxLength',
          ExcerptExtractor.extract this' vault' docUri startChar' endChar' maxLength'
          = JS.Ok (ExcerptExtractor.excerptOf content startChar' endChar' maxLength', this'))
    /\ (forall vault' startChar' endChar' maxLength',
          ExcerptExtractor.extract (ExcerptExtractor.clearCache this') vault' docUri
            startChar' endChar' maxLength'
          = match vault' docUri with
            | Some content' =>
                JS.Ok (ExcerptExtractor.excerptOf content' startChar' endChar' maxLength',
                       ExcerptExtractor.mk [(docUri, content')])
            | None => JS.Throw "ENOENT"%string
            end).
Proof.
  unfold ExcerptExtractor.extract, ExcerptExtractor.readFile.
  intros Hrun.
  assert (Hclear : forall vault' startChar' endChar' maxLength',
            match
              match JSMap.get docUri
                      (ExcerptExtractor.fileCache (ExcerptExtractor.clearCache this')) with
              | Some cached => JS.Ok (cached, ExcerptExtractor.clearCache this')
              | None =>
                  match vault' docUri with
                  | Some content =>
                      JS.Ok (content,
                             ExcerptExtractor.mk
                               (JSMap.set docUri content
                                  (ExcerptExtractor.fileCache
                                     (ExcerptExtractor.clearCache this'))))
                  | None => JS.Throw "ENOENT"%string
                  end
              end
            with
            | JS.Ok (content, this'0) =>
                JS.Ok (ExcerptExtractor.excerptOf content startChar' endChar' maxLength',
                       this'0)
            | JS.Throw e => JS.Throw e
            end
            = match vault' docUri with
              | Some content' =>
                  JS.Ok (ExcerptExtractor.excerptOf content' startChar' endChar' maxLength',
                         ExcerptExtractor.mk [(docUri, content')])
              | None => JS.Throw "ENOENT"%string
              end).
  { intros vault' s e m. simpl. destruct (vault' docUri); reflexivity. }
  destruct (JSMap.get docUri (ExcerptExtractor.fileCache this)) as [cached |] eqn:Hget.
  - injection Hrun as <- <-. exists cached.
    split; [reflexivity |]. split; [discriminate |]. split; [| exact Hclear].
    intros vault' s e m. rewrite Hget. reflexivity.
  - destruct (vault docUri) as [content |] eqn:Hvault; [| discriminate].
    injection Hrun as <- <-. exists content.
    split; [reflexivity |]. split; [reflexivity |]. split; [| exact Hclear].
    intros vault' s e m. simpl. rewrite get_set_eq. reflexivity.
Qed.

Lemma extract_serves_the_cached_content_witness :
  ExcerptExtractor.extract ExcerptExtractor.new
    (fun _ => Some (JS.lit "Hello world")) (JS.lit "test.md") 0 5 None
  = JS.Ok (ExcerptResult.mk (JS.lit "Hello") false,
           ExcerptExtractor.mk [(JS.lit "test.md", JS.lit "Hello world")])
  /\ exists content,
       ExcerptResult.mk (JS.lit "Hello") false
       = ExcerptExtractor.excerptOf content 0 5 None
       /\ forall vault' startChar' endChar' maxLength',
            ExcerptExtractor.extract
              (ExcerptExtractor.mk [(JS.lit "test.md", JS.lit "Hello world")])
              vault' (JS.lit "test.md") startChar' endChar' maxLength'
            = JS.Ok (ExcerptExtractor.excerptOf content startChar' endChar' maxLength',
                     ExcerptExtractor.mk [(JS.lit "test.md", JS.lit "Hello world")]).
Proof.
  assert (Hrun : ExcerptExtractor.extract ExcerptExtractor.new
                   (fun _ => Some (JS.lit "Hello world")) (JS.lit "test.md") 0 5 None
                 = JS.Ok (ExcerptResult.mk (JS.lit "Hello") false,
                          ExcerptExtractor.mk [(JS.lit "test.md", JS.lit "Hello world")])).
  { reflexivity. }
  split; [exact Hrun |].
  destruct (extract_serves_the_cached_content _ _ _ _ _ _ _ _ Hrun)
    as (content & H1 & _ & H3 & _).
  exists content. split; [exact H1 | exact H3].
Defined.

(** ** FileScanner.detectChanges *)

Section DetectChangesFacts.
Import JS FileScanner.

Lemma changesLoop_spec (prevMap : list (list Z * FileInfo.t)) (current : list FileInfo.t) :
  forall added modified,
    changesLoop prevMap current added modified
    = (added ++ List.filter (fun curr => negb (has prevMap (FileInfo.docUri curr))) current,
       modified
       ++ List.filter
            (fun curr =>
               match JSMap.get (FileInfo.docUri curr) prevMap with
               | Some prev =>
                   negb (Qeq_bool (FileInfo.mtimeMs prev) (FileInfo.mtimeMs curr))
                   || negb (FileInfo.size prev =? FileInfo.size curr)
               | None => false
               end) current).
Proof.
  induction current as [| curr rest IH]; intros added modified;
    cbn [changesLoop List.filter].
  - now rewrite !app_nil_r.
  - unfold has at 1.
    destruct (JSMap.get (FileInfo.docUri curr) prevMap) as [prev |]; simpl.
    + destruct (_ || _); rewrite IH; [rewrite <- app_assoc |]; reflexivity.
    + rewrite IH, <- app_assoc. reflexivity.
Qed.

Lemma deletedLoop_spec (currMap : list (list Z * FileInfo.t)) (previous : list FileInfo.t) :
  forall deleted,
    deletedLoop currMap previous deleted
    = deleted
      ++ map FileInfo.docUri
           (List.filter (fun prev => negb (has currMap (FileInfo.docUri prev))) previous).
Proof.
  induction previous as [| prev rest IH]; intros deleted; cbn [deletedLoop List.filter].
  - simpl. now rewrite app_nil_r.
  - destruct (negb (has currMap (FileInfo.docUri prev))); rewrite IH;
      [simpl; rewrite <- app_assoc |]; reflexivity.
Qed.

Lemma get_byUri (files : list FileInfo.t) (f : FileInfo.t) :
  NoDup (map FileInfo.docUri files) -> In f files ->
  JSMap.get (FileInfo.docUri f) (byUri files) = Some f.
Proof.
  intros Hnd Hin. exact (get_fill FileInfo.docUri (fun f => f) files Hnd [] f Hin).
Qed.

Lemma keys_byUri (files : list FileInfo.t) (uri : list Z) :
  In uri (JSMap.keys (byUri files)) <-> In uri (map FileInfo.docUri files).
Proof.
  unfold byUri.
  pose proof (keys_fill FileInfo.docUri (fun f => f) files [] uri) as H. simpl in H.
  tauto.
Qed.

Lemma NoDup_keys_byUri (files : list FileInfo.t) : NoDup (JSMap.keys (byUri files)).
Proof. apply (NoDup_keys_fill FileInfo.docUri (fun f => f)). constructor. Qed.

Lemma has_byUri (files : list FileInfo.t) (uri : list Z) :
  has (byUri files) uri = true <-> In uri (map FileInfo.docUri files).
Proof.
  unfold has. rewrite <- keys_byUri.
  destruct (JSMap.get uri (byUri files)) as [f |] eqn:Hget.
  - split; [intros _ | reflexivity].
    apply get_Some_In, (in_map fst) in Hget. exact Hget.
  - split; [discriminate |]. intros Hin. exfalso. now apply get_None_keys in Hget.
Qed.

Lemma detectChanges_lists (previous current : list FileInfo.t) :
  detectChanges previous current
  = mkChangeSet
      (List.filter (fun curr => negb (has (byUri previous) (FileInfo.docUri curr))) current)
      (List.filter
         (fun curr =>
            match JSMap.get (FileInfo.docUri curr) (byUri previous) with
            | Some prev =>
                negb (Qeq_bool (FileInfo.mtimeMs prev) (FileInfo.mtimeMs curr))
                || negb (FileInfo.size prev =? FileInfo.size curr)
            | None => false
            end) current)
      (map FileInfo.docUri
         (List.filter (fun prev => negb (has (byUri current) (FileInfo.docUri prev)))
            previous)).
Proof.
  unfold detectChanges. rewrite changesLoop_spec, deletedLoop_spec. reflexivity.
Qed.

Lemma detectChanges_facts (previous current : list FileInfo.t) :
  (forall f, In f (added (detectChanges previous current))
             <-> In f current /\ ~ In (FileInfo.docUri f) (map FileInfo.docUri previous))
  /\ (forall uri, In uri (deleted (detectChanges previous current))
                  <-> In uri (map FileInfo.docUri previous)
                      /\ ~ In uri (map FileInfo.docUri current))
  /\ map FileInfo.docUri (added (detectChanges previous current))
     = deleted (detectChanges current previous)
  /\ (NoDup (map FileInfo.docUri previous) ->
      forall f, In f (modified (detectChanges previous current))
                <-> In f current
                    /\ exists prev, In prev previous
                                    /\ FileInfo.docUri prev = FileInfo.docUri f
                                    /\ differs prev f)
  /\ (NoDup (map FileInfo.docUri previous) ->
      detectChanges previous previous = mkChangeSet [] [] []).
Proof.
  assert (Hhas : forall files uri,
            negb (has (byUri files) uri) = true <-> ~ In uri (map FileInfo.docUri files)).
  { intros files uri. rewrite negb_true_iff, <- has_byUri.
    destruct (has (byUri files) uri); split; congruence. }
  assert (Hchanged : forall prev f,
            negb (Qeq_bool (FileInfo.mtimeMs prev) (FileInfo.mtimeMs f))
            || negb (FileInfo.size prev =? FileInfo.size f) = true <-> differs prev f).
  { intros prev f. unfold differs. rewrite orb_true_iff, !negb_true_iff.
    rewrite Z.eqb_neq.
    assert (Qeq_bool (FileInfo.mtimeMs prev) (FileInfo.mtimeMs f) = false
            <-> ~ (FileInfo.mtimeMs prev == FileInfo.mtimeMs f)%Q).
    { rewrite <- Qeq_bool_iff. destruct (Qeq_bool _ _); split; congruence. }
    tauto. }
  rewrite !detectChanges_lists. simpl.
  split; [| split; [| split; [| split]]].
  - intros f. rewrite List.filter_In, Hhas. tauto.
  - intros uri. rewrite in_map_iff. split.
    + intros (prev & <- & Hin). apply List.filter_In in Hin as [Hin Hnot].
      apply Hhas in Hnot. split; [now apply in_map | exact Hnot].
    + intros [Hin Hnot]. apply in_map_iff in Hin as (prev & <- & Hin).
      exists prev. split; [reflexivity |]. apply List.filter_In. split; [exact Hin |].
      now apply Hhas.
  - reflexivity.
  - intros Hnd f. rewrite List.filter_In. split.
    + intros [Hin Hmod]. split; [exact Hin |].
      destruct (JSMap.get (FileInfo.docUri f) (byUri previous)) as [prev |] eqn:Hget;
        [| discriminate].
      exists prev. apply Hchanged in Hmod.
      assert (Hkey : In (FileInfo.docUri f) (JSMap.keys (byUri previous))).
      { pose proof Hget as Hin'. apply get_Some_In, (in_map fst) in Hin'. exact Hin'. }
      apply keys_byUri, in_map_iff in Hkey as (p & Hp & Hpin).
      pose proof (get_byUri previous p Hnd Hpin) as Hgetp.
      rewrite Hp, Hget in Hgetp. injection Hgetp as ->.
      repeat split; auto.
    + intros [Hin (prev & Hprev & Huri & Hdiff)]. split; [exact Hin |].
      pose proof (get_byUri previous prev Hnd Hprev) as Hget.
      rewrite Huri in Hget. rewrite Hget.
      now apply Hchanged.
  - intros Hnd. f_equal.
    + apply NoDup_nil_iff. intros f Hin. apply List.filter_In in Hin as [Hin Hnot].
      apply Hhas in Hnot. apply Hnot. now apply in_map.
    + apply NoDup_nil_iff. intros f Hin. apply List.filter_In in Hin as [Hin Hmod].
      rewrite (get_byUri previous f Hnd Hin) in Hmod.
      apply Hchanged in Hmod. destruct Hmod as [Hm | Hs]; [apply Hm; reflexivity | congruence].
    + apply NoDup_nil_iff. intros uri Hin. apply in_map_iff in Hin as (f & _ & Hin).
      apply List.filter_In in Hin as [Hin Hnot]. apply Hhas in Hnot. apply Hnot.
      now apply in_map.
Qed.

End DetectChangesFacts.

(** X26.  [FileScanner.detectChanges] reports as added the current files
    whose URI no previous file has, and as deleted the URIs of previous
    files that no current file has, so that what it reports as added is
    what it reports as deleted when the two scans are swapped.  When the
    previous files have distinct URIs, it reports as modified the current
    files whose previous file differs in modification time or in size, and
    it reports nothing when a scan is compared with itself. *)
Theorem detectChanges_reports (previous current : list FileInfo.t) :
  (forall f, In f (FileScanner.added (FileScanner.detectChanges previous current))
             <-> In f current /\ ~ In (FileInfo.docUri f) (map FileInfo.docUri previous))
  /\ (forall uri, In uri (FileScanner.deleted (FileScanner.detectChanges previous current))
                  <-> In uri (map FileInfo.docUri previous)
                      /\ ~ In uri (map FileInfo.docUri current))
  /\ map FileInfo.docUri (FileScanner.added (FileScanner.detectChanges previous current))
     = FileScanner.deleted (FileScanner.detectChanges current previous)
  /\ (NoDup (map FileInfo.docUri previous) ->
      forall f, In f (FileScanner.modified (FileScanner.detectChanges previous current))
                <-> In f current
                    /\ exists prev, In prev previous
                                    /\ FileInfo.docUri prev = FileInfo.docUri f
                                    /\ FileScanner.differs prev f)
  /\ (NoDup (map FileInfo.docUri previous) ->
      FileScanner.detectChanges previous previous = FileScanner.mkChangeSet [] [] []).
Proof. apply detectChanges_facts. Qed.

Lemma detectChanges_reports_witness :
  NoDup (map FileInfo.docUri [FileInfo.mk (JS.lit "a.md") 100 1000])
  /\ FileScanner.detectChanges [FileInfo.mk (JS.lit "a.md") 100 1000]
       [FileInfo.mk (JS.lit "a.md") 100 1000]
     = FileScanner.mkChangeSet [] [] [].
Proof.
  assert (Hnd : NoDup (map FileInfo.docUri [FileInfo.mk (JS.lit "a.md") 100 1000]))
    by apply NoDup_singleton.
  split; [exact Hnd |].
  exact (proj2 (proj2 (proj2 (proj2
           (detectChanges_reports [FileInfo.mk (JS.lit "a.md") 100 1000]
              [FileInfo.mk (JS.lit "a.md") 100 1000])))) Hnd).
Defined.

(** ** SnapshotManager: what [cleanupOldSnapshots] keeps *)

Section CleanupFacts.
Import JS SnapshotManager.

Lemma listSnapshots_ids (fs : gmap string SnapshotMeta.t) :
  wellFormed fs -> NoDup (map SnapshotInfo.id (listSnapshots fs)).
Proof.
  intros [Hids _]. unfold listSnapshots.
  rewrite (Permutation_map SnapshotInfo.id (sort_Permutation _ _)).
  rewrite map_map.
  assert (Heq : map (fun entry : string * SnapshotMeta.t =>
                       SnapshotInfo.id (infoOf entry.1 entry.2)) (map_to_list fs)
                = (map_to_list fs).*1).
  { apply map_ext_in. intros [dir meta] Hin. simpl.
    apply Hids. apply elem_of_map_to_list. apply list_elem_of_In. exact Hin. }
  rewrite Heq. apply NoDup_fst_map_to_list.
Qed.

(** The loop of [cleanupOldSnapshots] on snapshots that are on the disk,
    with distinct ids, of which those that carry [activeId] are the active
    ones. *)
Lemma cleanupLoop_keeps (activeId : option string) (keepCount : Z)
    (snapshots : list SnapshotInfo.t) :
  forall kept (fs : gmap string SnapshotMeta.t),
    NoDup (map SnapshotInfo.id snapshots) ->
    (forall s, In s snapshots ->
               exists meta, fs !! SnapshotInfo.id s = Some meta
                            /\ s = infoOf (SnapshotInfo.id s) meta) ->
    (forall s, In s snapshots ->
               Some (SnapshotInfo.id s) = activeId <-> isActive s = true) ->
    let out := cleanupLoop snapshots activeId keepCount kept fs in
    (forall dir, ~ In dir (map SnapshotInfo.id snapshots) -> out.1 !! dir = fs !! dir)
    /\ (forall i s,
          List.filter (fun s => negb (isActive s)) snapshots !! i = Some s ->
          out.1 !! SnapshotInfo.id s
          = if kept + Z.of_nat i <? keepCount then fs !! SnapshotInfo.id s else None).
Proof.
  induction snapshots as [| s rest IH]; intros kept fs Hnd Hdisk Hactive;
    [simpl; split; [reflexivity | intros i s; discriminate] |].
  simpl in Hnd. apply NoDup_cons in Hnd as [Hnot Hnd].
  assert (Hfresh : ~ In (SnapshotInfo.id s) (map SnapshotInfo.id rest)).
  { intros Hin. apply Hnot, list_elem_of_In, Hin. }
  assert (HdiskRest : forall fs' : gmap string SnapshotMeta.t,
            (forall dir, dir <> SnapshotInfo.id s -> fs' !! dir = fs !! dir) ->
            forall s', In s' rest ->
              exists meta, fs' !! SnapshotInfo.id s' = Some meta
                           /\ s' = infoOf (SnapshotInfo.id s') meta).
  { intros fs' Hsame s' Hin. destruct (Hdisk s' ltac:(now right)) as (meta & Hl & Heq).
    exists meta. split; [| exact Heq]. rewrite Hsame; [exact Hl |].
    intros E. apply Hfresh. rewrite <- E. now apply in_map. }
  assert (HactiveRest : forall s', In s' rest ->
            Some (SnapshotInfo.id s') = activeId <-> isActive s' = true).
  { intros s' Hin. apply Hactive. now right. }
  cbn [cleanupLoop List.filter].
  destruct (bool_decide (Some (SnapshotInfo.id s) = activeId)) eqn:Eact.
  - apply bool_decide_eq_true in Eact. apply (Hactive s ltac:(now left)) in Eact.
    rewrite Eact. simpl negb. cbv iota.
    destruct (IH kept fs Hnd (HdiskRest fs ltac:(auto)) HactiveRest) as [H1 H2].
    split; [| exact H2].
    intros dir Hdir. apply H1. intros Hin. apply Hdir. simpl. now right.
  - apply bool_decide_eq_false in Eact.
    assert (Hs : isActive s = false).
    { destruct (isActive s) eqn:E; [| reflexivity].
      exfalso. apply Eact. now apply (Hactive s ltac:(now left)). }
    rewrite Hs. simpl negb. cbv iota.
    destruct (kept <? keepCount) eqn:Ekept.
    + apply Z.ltb_lt in Ekept.
      destruct (IH (kept + 1) fs Hnd (HdiskRest fs ltac:(auto)) HactiveRest) as [H1 H2].
      split.
      * intros dir Hdir. apply H1. intros Hin. apply Hdir. simpl. now right.
      * intros [| i] s' Hl; simpl in Hl.
        -- injection Hl as <-. rewrite (H1 _ Hfresh).
           destruct (Z.ltb_spec (kept + Z.of_nat 0) keepCount); [reflexivity | lia].
        -- rewrite (H2 i s' Hl).
           destruct (Z.ltb_spec (kept + 1 + Z.of_nat i) keepCount);
             destruct (Z.ltb_spec (kept + Z.of_nat (S i)) keepCount); try reflexivity; lia.
    + apply Z.ltb_ge in Ekept.
      destruct (Hdisk s ltac:(now left)) as (meta & Hl & Heq).
      assert (Hdel : deleteSnapshot fs (SnapshotInfo.id s)
                     = Ok (delete (SnapshotInfo.id s) fs)).
      { unfold deleteSnapshot, getSnapshotInfo. rewrite Hl. simpl.
        unfold isActive in Hs. rewrite Heq in Hs. simpl in Hs. rewrite Hs. reflexivity. }
      rewrite Hdel.
      assert (Hsame : forall dir, dir <> SnapshotInfo.id s ->
                delete (SnapshotInfo.id s) fs !! dir = fs !! dir).
      { intros dir Hne. apply lookup_delete_ne. congruence. }
      destruct (IH kept (delete (SnapshotInfo.id s) fs) Hnd
                  (HdiskRest _ Hsame) HactiveRest) as [H1 H2].
      split.
      * intros dir Hdir. rewrite H1.
        -- apply Hsame. intros ->. apply Hdir. simpl. now left.
        -- intros Hin. apply Hdir. simpl. now right.
      * intros [| i] s' Hl'; simpl in Hl'.
        -- injection Hl' as <-. rewrite (H1 _ Hfresh), lookup_delete_eq.
           destruct (Z.ltb_spec (kept + Z.of_nat 0) keepCount); [lia | reflexivity].
        -- rewrite (H2 i s' Hl').
           destruct (Z.ltb_spec (kept + Z.of_nat i) keepCount); [lia |].
           destruct (Z.ltb_spec (kept + Z.of_nat (S i)) keepCount); [lia | reflexivity].
Qed.

Lemma cleanupOldSnapshots_keeps (fs : gmap string SnapshotMeta.t) (keepCount : Z) :
  wellFormed fs ->
  forall i s,
    List.filter (fun s => negb (isActive s)) (listSnapshots fs) !! i = Some s ->
    (cleanupOldSnapshots fs keepCount).1 !! SnapshotInfo.id s
    = if Z.of_nat i <? keepCount then fs !! SnapshotInfo.id s else None.
Proof.
  intros Hwf i s Hl. unfold cleanupOldSnapshots.
  destruct (cleanupLoop_keeps (option_map SnapshotInfo.id (getActiveSnapshot fs)) keepCount
              (listSnapshots fs) 0 fs (listSnapshots_ids fs Hwf)) as [_ H2].
  - intros s' Hin. now apply listSnapshots_wellFormed.
  - intros s' Hin.
    destruct (listSnapshots_wellFormed fs s' Hwf Hin) as (meta & Hmeta & Heq).
    split.
    + intros Hid. destruct (getActiveSnapshot fs) as [a |] eqn:Ha; [| discriminate].
      simpl in Hid. injection Hid as Hid.
      apply getActiveSnapshot_Some in Ha as (dir & m & Hdir & -> & Hact).
      simpl in Hid. destruct Hwf as [Hids _]. rewrite (Hids dir m Hdir) in Hid. subst dir.
      rewrite Hmeta in Hdir. injection Hdir as <-.
      rewrite Heq. unfold isActive. simpl. now apply bool_decide_eq_true.
    + intros Hact. unfold isActive in Hact. apply bool_decide_eq_true in Hact.
      rewrite Heq in Hact. simpl in Hact.
      symmetry. now apply (wellFormed_activeId fs Hwf _ meta).
  - rewrite (H2 i s Hl). reflexivity.
Qed.

End CleanupFacts.

(** X27.  On a disk reached by the manager's operations,
    [cleanupOldSnapshots] keeps, of the snapshots that are not active, the
    [keepCount] newest ones as [listSnapshots] orders them, unchanged, and
    deletes every other one; it adds nothing to the disk. *)
Theorem cleanupOldSnapshots_keeps_the_newest
    (fs : gmap string SnapshotMeta.t) (keepCount : Z) :
  SnapshotManager.reachable fs ->
  (forall i s,
     List.filter (fun s => negb (SnapshotManager.isActive s))
       (SnapshotManager.listSnapshots fs) !! i = Some s ->
     (SnapshotManager.cleanupOldSnapshots fs keepCount).1 !! SnapshotInfo.id s
     = if Z.of_nat i <? keepCount then fs !! SnapshotInfo.id s else None)
  /\ (forall dir meta,
        (SnapshotManager.cleanupOldSnapshots fs keepCount).1 !! dir = Some meta ->
        fs !! dir = Some meta).
Proof.
  intros Hreach. split.
  - apply cleanupOldSnapshots_keeps, reachable_wellFormed, Hreach.
  - apply cleanupLoop_subset.
Qed.

Lemma cleanupOldSnapshots_keeps_the_newest_witness :
  SnapshotManager.reachable SnapshotExamples.activeA_buildingB
  /\ (SnapshotManager.cleanupOldSnapshots SnapshotExamples.activeA_buildingB 0).1
       !! "b"%string
     = None.
Proof.
  split; [exact activeA_buildingB_reachable |].
  exact (proj1 (cleanupOldSnapshots_keeps_the_newest SnapshotExamples.activeA_buildingB 0
                  activeA_buildingB_reachable)
           0%nat (SnapshotInfo.mk "b" "b" SnapshotState.building 2) eq_refl).
Defined.

(** ** MarkdownParser.parseHeadings *)

Section ParseHeadingsFacts.
Import JS MarkdownParser.

Lemma whiteSpaceRun_le (s : list Z) : (whiteSpaceRun s <= List.length s)%nat.
Proof. induction s as [| c s IH]; simpl; [lia |]. destruct (isWhiteSpace c); lia. Qed.

(** A heading line has a level from 1 to 6 and at least three code units. *)
Lemma matchHeading_Some (line : list Z) (level : Z) (title : list Z) :
  matchHeading line = Some (level, title) ->
  1 <= level <= 6 /\ (3 <= List.length line)%nat.
Proof.
  unfold matchHeading.
  set (hashes := runLength HASH line).
  set (afterHashes := drop hashes line).
  set (run := whiteSpaceRun afterHashes).
  pose proof (runLength_le HASH line) as Hh. fold hashes in Hh.
  pose proof (whiteSpaceRun_le afterHashes) as Hr. fold run in Hr.
  assert (Hlen : List.length afterHashes = (List.length line - hashes)%nat)
    by (unfold afterHashes; apply length_drop).
  destruct (drop run afterHashes) as [| c rest] eqn:Ed.
  - destruct (1 <=? hashes)%nat eqn:E1; [| discriminate].
    destruct (hashes <=? 6)%nat eqn:E2; [| discriminate].
    destruct (1 <=? run - 1)%nat eqn:E3; [| discriminate].
    cbn [andb]. destruct (forallb _ _); [| discriminate].
    intros H. injection H as <- _.
    apply Nat.leb_le in E1, E2, E3. lia.
  - destruct (1 <=? hashes)%nat eqn:E1; [| discriminate].
    destruct (hashes <=? 6)%nat eqn:E2; [| discriminate].
    destruct (1 <=? run)%nat eqn:E3; [| discriminate].
    cbn [andb]. destruct (forallb _ _); [| discriminate].
    intros H. injection H as <- _.
    apply Nat.leb_le in E1, E2, E3.
    assert (List.length (drop run afterHashes) = (List.length afterHashes - run)%nat)
      by apply length_drop.
    rewrite Ed in H. simpl in H. lia.
Qed.

Lemma sameHeading_refl (n : NodeObject.t) : sameHeading n n.
Proof. unfold sameHeading. tauto. Qed.

Lemma sameHeading_trans (n1 n2 n3 : NodeObject.t) :
  sameHeading n1 n2 -> sameHeading n2 n3 -> sameHeading n1 n3.
Proof. unfold sameHeading. intros (? & ? & ? & ? & ?) (? & ? & ? & ? & ?). repeat split; congruence. Qed.

Lemma lookup_setEndChar (store : list NodeObject.t) (ref e i : nat) (n : NodeObject.t) :
  store !! i = Some n ->
  exists n', setEndChar store ref e !! i = Some n'
             /\ sameHeading n n'
             /\ NodeObject.children n' = NodeObject.children n
             /\ NodeObject.endChar n' = (if Nat.eq_dec i ref then e else NodeObject.endChar n).
Proof.
  intros Hn. unfold setEndChar. destruct (Nat.eq_dec i ref) as [-> | Hne].
  - rewrite list_lookup_alter_eq, Hn. simpl. eexists. split; [reflexivity |].
    unfold sameHeading. simpl. tauto.
  - rewrite list_lookup_alter_ne by congruence. exists n.
    split; [exact Hn |]. split; [apply sameHeading_refl | tauto].
Qed.

Lemma lookup_pushChild (store : list NodeObject.t) (ref child i : nat) (n : NodeObject.t) :
  store !! i = Some n ->
  exists n', pushChild store ref child !! i = Some n'
             /\ sameHeading n n'
             /\ NodeObject.endChar n' = NodeObject.endChar n
             /\ NodeObject.children n'
                = (if Nat.eq_dec i ref then NodeObject.children n ++ [child]
                   else NodeObject.children n).
Proof.
  intros Hn. unfold pushChild. destruct (Nat.eq_dec i ref) as [-> | Hne].
  - rewrite list_lookup_alter_eq, Hn. simpl. eexists. split; [reflexivity |].
    unfold sameHeading. simpl. tauto.
  - rewrite list_lookup_alter_ne by congruence. exists n.
    split; [exact Hn |]. split; [apply sameHeading_refl | tauto].
Qed.

Lemma length_closeAll (lineStart : nat) (popped : list (Z * nat)) :
  forall store, List.length (closeAll lineStart store popped) = List.length store.
Proof.
  unfold closeAll. induction popped as [| e popped IH]; intros store; simpl; [reflexivity |].
  rewrite IH. unfold setEndChar. apply length_alter.
Qed.

Lemma lookup_closeAll (lineStart : nat) (popped : list (Z * nat)) :
  forall store i n,
    store !! i = Some n ->
    exists n', closeAll lineStart store popped !! i = Some n'
               /\ closedBy lineStart popped i n n'.
Proof.
  unfold closeAll, closedBy.
  induction popped as [| e popped IH]; intros store i n Hn; simpl.
  - exists n. split; [exact Hn |]. split; [apply sameHeading_refl |]. tauto.
  - destruct (lookup_setEndChar store (snd e) lineStart i n Hn) as (n1 & H1 & Hs1 & Hc1 & He1).
    destruct (IH _ i n1 H1) as (n' & Hn' & Hs & Hc & He).
    exists n'. split; [exact Hn' |].
    split; [eapply sameHeading_trans; eassumption |].
    split; [congruence |].
    destruct (Nat.eq_dec i (snd e)) as [-> | Hne].
    + left. split; [now left |]. destruct He as [[_ He] | [_ He]]; congruence.
    + destruct He as [[Hin He] | [Hin He]].
      * left. split; [now right | exact He].
      * right. split; [| congruence]. intros [E | Hin']; [congruence | tauto].
Qed.

(** The store after the loop body for a heading line. *)
Lemma lookup_step (lineStart : nat) (popped : list (Z * nat)) (parent : nat)
    (node : NodeObject.t) (store : list NodeObject.t) :
  let child := List.length store in
  let store' := pushChild (closeAll lineStart store popped ++ [node]) parent
                  (List.length (closeAll lineStart store popped)) in
  (parent < List.length store)%nat ->
  List.length store' = S (List.length store)
  /\ store' !! child = Some node
  /\ forall i n, store !! i = Some n ->
                 exists n', store' !! i = Some n'
                            /\ updatedBy lineStart popped parent child i n n'.
Proof.
  intros child store' Hparent. subst store'. rewrite length_closeAll. fold child.
  split; [| split].
  - unfold pushChild. rewrite length_alter, length_app, length_closeAll. simpl. lia.
  - unfold pushChild. rewrite list_lookup_alter_ne by (unfold child; lia).
    rewrite lookup_app_r by (rewrite length_closeAll; unfold child; lia).
    rewrite length_closeAll. unfold child. now rewrite Nat.sub_diag.
  - intros i n Hn.
    destruct (lookup_closeAll lineStart popped store i n Hn) as (n1 & H1 & Hs1 & Hc1 & He1).
    assert (H1' : (closeAll lineStart store popped ++ [node]) !! i = Some n1).
    { rewrite lookup_app_l; [exact H1 |]. apply lookup_lt_Some in H1. exact H1. }
    destruct (lookup_pushChild _ parent child i n1 H1') as (n' & Hn' & Hs & He & Hc).
    exists n'. split; [exact Hn' |]. unfold updatedBy.
    split; [eapply sameHeading_trans; eassumption |].
    split.
    + destruct He1 as [[Hin E] | [Hin E]]; [left | right]; split; auto; congruence.
    + destruct (Nat.eq_dec i parent) as [-> | Hne]; [left | right]; split; auto; congruence.
Qed.

(** The old state of an object of the new store. *)
Lemma lookup_step_inv (lineStart : nat) (popped : list (Z * nat)) (parent : nat)
    (node : NodeObject.t) (store : list NodeObject.t) (i : nat) (n' : NodeObject.t) :
  (parent < List.length store)%nat ->
  pushChild (closeAll lineStart store popped ++ [node]) parent
    (List.length (closeAll lineStart store popped)) !! i = Some n' ->
  (i = List.length store /\ n' = node)
  \/ exists n, store !! i = Some n
               /\ updatedBy lineStart popped parent (List.length store) i n n'.
Proof.
  intros Hparent Hn'.
  destruct (lookup_step lineStart popped parent node store Hparent) as (Hlen & Hnew & Hold).
  pose proof (lookup_lt_Some _ _ _ Hn') as Hlt. rewrite Hlen in Hlt.
  destruct (Nat.eq_dec i (List.length store)) as [-> | Hne].
  - left. split; [reflexivity | congruence].
  - right. destruct (lookup_lt_is_Some_2 store i ltac:(lia)) as [n Hn].
    destruct (Hold i n Hn) as (n'' & Hn'' & Hup). exists n.
    split; [exact Hn | congruence].
Qed.

(** What [popLoop] pops: the entries of a level at least [level] on top of
    the stack; it leaves an entry of a lower level on top. *)
Lemma popLoop_spec (level : Z) (lineStart : nat) (stack : list (Z * nat)) :
  forall store,
    last stack = Some (0, 0%nat) -> 1 <= level ->
    exists popped pl parent rest,
      stack = popped ++ (pl, parent) :: rest
      /\ Forall (fun entry => level <= fst entry) popped
      /\ pl < level
      /\ popLoop level lineStart stack store
         = ((pl, parent) :: rest, closeAll lineStart store popped).
Proof.
  induction stack as [| [l i] stack IH]; intros store Hlast Hlevel; [discriminate |].
  destruct stack as [| e stack].
  - simpl in Hlast. injection Hlast as -> ->.
    exists [], 0, 0%nat, []. repeat split; [constructor | lia].
  - cbn [popLoop]. destruct (level <=? l) eqn:E.
    + apply Z.leb_le in E.
      destruct (IH (setEndChar store i lineStart) Hlast Hlevel)
        as (popped & pl & parent & rest & Hst & Hall & Hpl & Hpop).
      exists ((l, i) :: popped), pl, parent, rest.
      split; [simpl; congruence |].
      split; [constructor; [exact E | exact Hall] |].
      split; [exact Hpl |]. exact Hpop.
    + apply Z.leb_gt in E.
      exists [], l, i, (e :: stack). repeat split; [constructor | exact E].
Qed.

Lemma buildHeadingPath_parent (store : list NodeObject.t) (popped rest : list (Z * nat))
    (pl : Z) (parent : nat) (np : NodeObject.t) (level : Z) (title : list Z) :
  Forall (fun entry => level <= fst entry) popped -> pl < level ->
  store !! parent = Some np ->
  buildHeadingPath store (popped ++ (pl, parent) :: rest) level title
  = extendPath (NodeObject.headingPath np) title.
Proof.
  intros Hpopped Hpl Hnp. unfold buildHeadingPath.
  assert (Hfind : find (fun entry : Z * nat => fst entry <? level)
                    (popped ++ (pl, parent) :: rest) = Some (pl, parent)).
  { induction Hpopped as [| e popped He _ IH]; simpl.
    - apply Z.ltb_lt in Hpl. now rewrite Hpl.
    - apply Z.ltb_ge in He. now rewrite He. }
  rewrite Hfind, Hnp. reflexivity.
Qed.

(** *** The loop body keeps the invariant *)

Section HeadingStep.
Variable sha256hex : list Z -> list Z.
Variable docUri : list Z.
Variables textLength lineStart offset' : nat.
Variables stack popped rest : list (Z * nat).
Variable store : list NodeObject.t.
Variables pl level : Z.
Variable parent : nat.
Variables title headingPath : list Z.
Hypothesis Hinv : Invariant sha256hex docUri textLength lineStart stack store.
Hypothesis Hstack : stack = popped ++ (pl, parent) :: rest.
Hypothesis Hpopped : Forall (fun entry => level <= fst entry) popped.
Hypothesis Hpl : pl < level.
Hypothesis Hlevel : 1 <= level <= 6.
Hypothesis Hline : (lineStart < textLength)%nat.
Hypothesis Hoffset : (lineStart < offset')%nat.
Hypothesis Hpath : forall np, store !! parent = Some np ->
                              headingPath = extendPath (NodeObject.headingPath np) title.

Local Abbreviation child := (List.length store).
Local Abbreviation node :=
  (NodeObject.mk (generateNodeId sha256hex docUri headingPath) level title
     headingPath lineStart textLength []).
Local Abbreviation stack' := ((level, child) :: (pl, parent) :: rest).
Local Abbreviation store' :=
  (pushChild (closeAll lineStart store popped ++ [node]) parent
     (List.length (closeAll lineStart store popped))).

Lemma step_stack :
  StronglySorted above ((pl, parent) :: rest)
  /\ (forall a b, In a popped -> In b ((pl, parent) :: rest) -> above a b)
  /\ (forall b, In b ((pl, parent) :: rest) -> fst b <= pl /\ (snd b <= parent)%nat)
  /\ (forall b, In b ((pl, parent) :: rest) -> In b stack)
  /\ (forall a, In a popped -> In a stack).
Proof.
  pose proof (inv_sorted _ _ _ _ _ _ Hinv) as Hs. rewrite Hstack in Hs.
  apply StronglySorted_app_cross in Hs as [Hs Hcross].
  split; [exact Hs |]. split; [exact Hcross |].
  split; [| split].
  - intros b [<- | Hb]; [simpl; lia |].
    apply StronglySorted_inv in Hs as [_ Hall].
    rewrite Forall_forall in Hall. apply list_elem_of_In, Hall in Hb.
    unfold above in Hb. simpl in Hb. lia.
  - intros b Hb. rewrite Hstack. apply in_or_app. now right.
  - intros a Ha. rewrite Hstack. apply in_or_app. now left.
Qed.

Lemma step_parent : (parent < List.length store)%nat.
Proof.
  destruct step_stack as (_ & _ & _ & Hin & _).
  destruct (inv_open _ _ _ _ _ _ Hinv pl parent) as (n & Hn & _).
  - apply Hin. now left.
  - exact (lookup_lt_Some _ _ _ Hn).
Qed.

Lemma step_refs (i : nat) :
  In i (map snd stack) <-> In i (map snd popped) \/ In i (map snd ((pl, parent) :: rest)).
Proof. rewrite Hstack, map_app, in_app_iff. reflexivity. Qed.

(** The entries that stay on the stack are not popped. *)
Lemma step_kept (b : Z * nat) :
  In b ((pl, parent) :: rest) -> ~ In (snd b) (map snd popped).
Proof.
  intros Hb Hin. apply in_map_iff in Hin as (a & E & Ha).
  destruct step_stack as (_ & Hcross & _).
  specialize (Hcross a b Ha Hb). unfold above in Hcross. lia.
Qed.

(** An object on the stack. *)
Lemma step_open (l : Z) (i : nat) (n : NodeObject.t) :
  In (l, i) stack -> store !! i = Some n ->
  NodeObject.level n = l /\ openSection textLength store i n.
Proof.
  intros Hin Hn. destruct (inv_open _ _ _ _ _ _ Hinv l i Hin) as (n0 & Hn0 & Hl & Ho).
  assert (n0 = n) by congruence. subst n0. tauto.
Qed.

(** Every heading after the parent has at least the level of the new one. *)
Lemma step_between :
  forall m k nk,
    (List.length store - k <= m)%nat -> (parent < k)%nat -> store !! k = Some nk ->
    level <= NodeObject.level nk.
Proof.
  induction m as [| m IH]; intros k nk Hm Hk Hnk.
  - apply lookup_lt_Some in Hnk. lia.
  - destruct (in_dec Nat.eq_dec k (map snd stack)) as [Hin | Hout].
    + apply step_refs in Hin as [Hin | Hin].
      * apply in_map_iff in Hin as ([l i] & E & Ha). simpl in E. subst i.
        destruct step_stack as (_ & _ & _ & _ & Hst).
        destruct (step_open l k nk (Hst _ Ha) Hnk) as [-> _].
        rewrite Forall_forall in Hpopped. apply list_elem_of_In, Hpopped in Ha. exact Ha.
      * apply in_map_iff in Hin as (b & E & Hb).
        destruct step_stack as (_ & _ & Hle & _).
        apply Hle in Hb. lia.
    + destruct (inv_closed _ _ _ _ _ _ Hinv k nk Hnk Hout)
        as (_ & j & nj & Hkj & Hnj & Hlev & _).
      pose proof (lookup_lt_Some _ _ _ Hnj) as Hlt.
      specialize (IH j nj ltac:(lia) ltac:(lia) Hnj). lia.
Qed.

Lemma step_new : List.length store' = S (List.length store) /\ store' !! child = Some node.
Proof.
  destruct (lookup_step lineStart popped parent node store step_parent) as (H1 & H2 & _).
  split; assumption.
Qed.

Lemma step_old (i : nat) (n : NodeObject.t) :
  store !! i = Some n ->
  exists n', store' !! i = Some n' /\ updatedBy lineStart popped parent child i n n'.
Proof.
  destruct (lookup_step lineStart popped parent node store step_parent) as (_ & _ & H).
  apply H.
Qed.

Lemma step_inv (i : nat) (n' : NodeObject.t) :
  store' !! i = Some n' ->
  (i = child /\ n' = node)
  \/ exists n, store !! i = Some n /\ updatedBy lineStart popped parent child i n n'.
Proof. apply lookup_step_inv, step_parent. Qed.

Lemma step_sorted : StronglySorted above stack'.
Proof.
  destruct step_stack as (Hs & _ & Hle & Hin & _).
  constructor; [exact Hs |].
  apply Forall_forall. intros b Hb. apply list_elem_of_In in Hb.
  destruct (Hle b Hb) as [Hl _]. destruct b as [l i].
  destruct (inv_open _ _ _ _ _ _ Hinv l i (Hin _ Hb)) as (n & Hn & _).
  apply lookup_lt_Some in Hn. unfold above. simpl in *. lia.
Qed.

Lemma step_bottom : last stack' = Some (0, 0%nat).
Proof.
  pose proof (inv_bottom _ _ _ _ _ _ Hinv) as Hb.
  rewrite Hstack, last_app_cons in Hb. exact Hb.
Qed.

Lemma step_opens (l : Z) (i : nat) :
  In (l, i) stack' ->
  exists n', store' !! i = Some n' /\ NodeObject.level n' = l
             /\ openSection textLength store' i n'.
Proof.
  destruct step_new as [Hlen Hnew].
  intros [E | Hin].
  - injection E as <- <-. exists node. split; [exact Hnew |]. split; [reflexivity |].
    split; [reflexivity |]. intros k nk Hk Hnk.
    apply lookup_lt_Some in Hnk. lia.
  - destruct step_stack as (_ & _ & Hle & Hst & _).
    destruct (inv_open _ _ _ _ _ _ Hinv l i (Hst _ Hin)) as (n & Hn & Hl & Hend & Hlater).
    destruct (step_old i n Hn) as (n' & Hn' & (_ & Hlev & _) & He & _).
    exists n'. split; [exact Hn' |]. split; [congruence |].
    split.
    + destruct He as [[Hp _] | [_ He]]; [| congruence].
      exfalso. exact (step_kept (l, i) Hin Hp).
    + intros k nk' Hk Hnk'. rewrite Hlev.
      destruct (step_inv k nk' Hnk') as [[_ ->] | (nk & Hnk & (_ & Hlevk & _) & _)].
      * simpl. apply Hle in Hin. simpl in Hin. lia.
      * rewrite Hlevk. eapply Hlater; eassumption.
Qed.

Lemma step_closed (i : nat) (n' : NodeObject.t) :
  store' !! i = Some n' -> ~ In i (map snd stack') ->
  (NodeObject.endChar n' <= offset')%nat /\ closedSection store' i n'.
Proof.
  destruct step_new as [Hlen Hnew].
  intros Hn' Hout.
  destruct (step_inv i n' Hn') as [[-> _] | (n & Hn & (_ & Hlev & _) & He & _)].
  { exfalso. apply Hout. now left. }
  destruct He as [[Hp He] | [Hp He]].
  - apply in_map_iff in Hp as ([l i0] & E & Ha). simpl in E. subst i0.
    destruct step_stack as (_ & _ & _ & _ & Hst).
    destruct (step_open l i n (Hst _ Ha) Hn) as [Hl [_ Hlater]].
    rewrite Forall_forall in Hpopped. apply list_elem_of_In, Hpopped in Ha. simpl in Ha.
    split; [lia |].
    exists child, node. split; [exact (lookup_lt_Some _ _ _ Hn) |].
    split; [exact Hnew |]. split; [simpl; lia |]. split; [exact He |].
    intros k nk' Hk Hnk'. rewrite Hlev.
    destruct (step_inv k nk' Hnk') as [[-> _] | (nk & Hnk & (_ & Hlevk & _) & _)]; [lia |].
    rewrite Hlevk. apply (Hlater k nk); [lia | exact Hnk].
  - assert (Hout0 : ~ In i (map snd stack)).
    { intros Hin. apply step_refs in Hin as [Hin | Hin]; [tauto |].
      apply Hout. now right. }
    destruct (inv_closed _ _ _ _ _ _ Hinv i n Hn Hout0)
      as (Hend & j & nj & Hij & Hnj & Hlevj & Hej & Hbetween).
    split; [lia |].
    destruct (step_old j nj Hnj) as (nj' & Hnj' & (_ & Hlj & _ & _ & Hsj) & _).
    exists j, nj'. split; [exact Hij |]. split; [exact Hnj' |].
    split; [congruence |]. split; [congruence |].
    intros k nk' Hk Hnk'. rewrite Hlev.
    pose proof (lookup_lt_Some _ _ _ Hnj) as Hlt.
    destruct (step_inv k nk' Hnk') as [[-> _] | (nk & Hnk & (_ & Hlevk & _) & _)];
      [lia |].
    rewrite Hlevk. apply (Hbetween k nk); [lia | exact Hnk].
Qed.

Lemma step_root :
  exists n, store' !! 0%nat = Some n
            /\ NodeObject.title n = [] /\ NodeObject.headingPath n = []
            /\ NodeObject.startChar n = 0%nat.
Proof.
  destruct (inv_root _ _ _ _ _ _ Hinv) as (n & Hn & Ht & Hp & Hs).
  destruct (step_old 0%nat n Hn) as (n' & Hn' & (_ & _ & Ht' & Hp' & Hs') & _).
  exists n'. repeat split; congruence.
Qed.

Lemma step_nodes (i : nat) (n' : NodeObject.t) :
  store' !! i = Some n' -> (0 < i)%nat ->
  1 <= NodeObject.level n' <= 6
  /\ (NodeObject.startChar n' < offset')%nat
  /\ (NodeObject.startChar n' < NodeObject.endChar n' <= textLength)%nat.
Proof.
  intros Hn' Hi.
  destruct (step_inv i n' Hn') as [[_ ->] | (n & Hn & (_ & Hl & _ & _ & Hs) & He & _)].
  - simpl. lia.
  - destruct (inv_nodes _ _ _ _ _ _ Hinv i n Hn Hi) as (Hlev & Hst & Hen).
    rewrite Hl, Hs. split; [exact Hlev |]. split; [lia |].
    destruct He as [[_ ->] | [_ ->]]; lia.
Qed.

Lemma step_ids (i : nat) (n' : NodeObject.t) :
  store' !! i = Some n' ->
  NodeObject.nodeId n' = generateNodeId sha256hex docUri (NodeObject.headingPath n').
Proof.
  intros Hn'.
  destruct (step_inv i n' Hn') as [[_ ->] | (n & Hn & (Hid & _ & _ & Hp & _) & _)].
  - reflexivity.
  - rewrite Hid, Hp. exact (inv_ids _ _ _ _ _ _ Hinv i n Hn).
Qed.

(** The children of an object of the new store. *)
Lemma step_children (p c : nat) (np' : NodeObject.t) :
  store' !! p = Some np' -> In c (NodeObject.children np') ->
  exists np, store !! p = Some np
             /\ updatedBy lineStart popped parent child p np np'
             /\ (In c (NodeObject.children np) \/ (p = parent /\ c = child)).
Proof.
  intros Hnp' Hc.
  destruct (step_inv p np' Hnp') as [[_ ->] | (np & Hnp & Hup)]; [contradiction |].
  exists np. split; [exact Hnp |]. split; [exact Hup |].
  destruct Hup as (_ & _ & [[-> E] | [_ E]]); rewrite E in Hc.
  - apply in_app_iff in Hc as [Hc | [<- | []]]; [now left | now right].
  - now left.
Qed.

Lemma step_links (p c : nat) (np' : NodeObject.t) :
  store' !! p = Some np' -> In c (NodeObject.children np') -> linked store' p np' c.
Proof.
  destruct step_new as [Hlen Hnew].
  intros Hnp' Hc.
  destruct (step_children p c np' Hnp' Hc) as (np & Hnp & Hup & [Hold | [-> ->]]).
  - destruct (inv_links _ _ _ _ _ _ Hinv p np c Hnp Hold)
      as (nc & Hnc & Hpc & Hlev & Hst & Hen & Hpa & Hbetween).
    destruct (step_old c nc Hnc) as (nc' & Hnc' & (_ & Hlc & Htc & Hpc' & Hsc) & Hec & _).
    destruct Hup as ((_ & Hlp & _ & Hpp & Hsp) & Hep & _).
    exists nc'. split; [exact Hnc' |]. split; [exact Hpc |].
    split; [congruence |]. split; [lia |].
    split; [| split; [congruence |]].
    + destruct Hep as [[Hp ->] | [Hp ->]]; destruct Hec as [[Hq ->] | [Hq ->]].
      * lia.
      * assert (Hout : ~ In c (map snd stack)).
        { intros Hin. apply step_refs in Hin as [Hin | Hin]; [tauto |].
          apply in_map_iff in Hin as (b & Eb & Hb).
          apply in_map_iff in Hp as (a & Ea & Ha).
          destruct step_stack as (_ & Hcross & _).
          specialize (Hcross a b Ha Hb). unfold above in Hcross. lia. }
        destruct (inv_closed _ _ _ _ _ _ Hinv c nc Hnc Hout) as [Hle _]. exact Hle.
      * apply in_map_iff in Hq as ([l i] & E & Ha). simpl in E. subst i.
        destruct step_stack as (_ & _ & _ & _ & Hst').
        destruct (step_open l c nc (Hst' _ Ha) Hnc) as [_ [Hopen _]]. lia.
      * exact Hen.
    + intros k nk' Hk Hnk'. rewrite Hlc.
      pose proof (lookup_lt_Some _ _ _ Hnc) as Hlt.
      destruct (step_inv k nk' Hnk') as [[-> _] | (nk & Hnk & (_ & Hlevk & _) & _)];
        [lia |].
      rewrite Hlevk. apply (Hbetween k nk); [lia | exact Hnk].
  - destruct step_stack as (_ & _ & _ & Hst' & _).
    destruct (step_open pl parent np (Hst' _ (or_introl eq_refl)) Hnp) as [Hlp [Hopen _]].
    destruct Hup as ((_ & Hlp' & _ & Hpp & Hsp) & Hep & _).
    exists node. split; [exact Hnew |]. split; [exact step_parent |].
    split; [simpl; lia |]. split; [| split; [| split]].
    + simpl. rewrite Hsp. destruct (Nat.eq_dec parent 0%nat) as [E0 | Hne].
      * destruct (inv_root _ _ _ _ _ _ Hinv) as (n0 & Hn0 & _ & _ & Hs0).
        rewrite E0 in Hnp. assert (n0 = np) by congruence. subst n0. lia.
      * destruct (inv_nodes _ _ _ _ _ _ Hinv parent np Hnp ltac:(lia)) as (_ & Hs & _). lia.
    + simpl. destruct Hep as [[Hp _] | [_ ->]]; [| lia].
      exfalso. exact (step_kept (pl, parent) (or_introl eq_refl) Hp).
    + simpl. rewrite Hpp. exact (Hpath np Hnp).
    + intros k nk' Hk Hnk'. simpl.
      destruct (step_inv k nk' Hnk') as [[-> _] | (nk & Hnk & (_ & Hlevk & _) & _)];
        [lia |].
      rewrite Hlevk. apply (step_between (List.length store) k nk); [lia | lia | exact Hnk].
Qed.

Lemma step_childOf (p c : nat) :
  childOf store' p c <-> (childOf store p c \/ (p = parent /\ c = child)).
Proof.
  split.
  - intros (np' & Hnp' & Hc).
    destruct (step_children p c np' Hnp' Hc) as (np & Hnp & _ & [Hold | Hnew]).
    + left. exists np. tauto.
    + now right.
  - intros [(np & Hnp & Hc) | [-> ->]].
    + destruct (step_old p np Hnp) as (np' & Hnp' & _ & _ & [[_ E] | [_ E]]);
        exists np'; (split; [exact Hnp' |]); rewrite E; [apply in_or_app; now left | exact Hc].
    + destruct (lookup_lt_is_Some_2 store parent step_parent) as [np Hnp].
      destruct (step_old parent np Hnp) as (np' & Hnp' & _ & _ & [[_ E] | [Hne _]]);
        [| congruence].
      exists np'. split; [exact Hnp' |]. rewrite E. apply in_or_app. right. now left.
Qed.

(** A child is an object of the store. *)
Lemma step_child_lt (p c : nat) : childOf store p c -> (c < List.length store)%nat.
Proof.
  intros (np & Hnp & Hc).
  destruct (inv_links _ _ _ _ _ _ Hinv p np c Hnp Hc) as (nc & Hnc & _).
  exact (lookup_lt_Some _ _ _ Hnc).
Qed.

Lemma step_has_parent (c : nat) :
  (0 < c < List.length store')%nat -> exists p, childOf store' p c.
Proof.
  destruct step_new as [Hlen _]. rewrite Hlen. intros Hc.
  destruct (Nat.eq_dec c child) as [-> | Hne].
  - exists parent. apply step_childOf. now right.
  - destruct (inv_parent _ _ _ _ _ _ Hinv c) as [p Hp]; [lia |].
    exists p. apply step_childOf. now left.
Qed.

Lemma step_unique (p p' c : nat) : childOf store' p c -> childOf store' p' c -> p = p'.
Proof.
  rewrite !step_childOf. intros [H | [-> ->]] [H' | [-> E]].
  - exact (inv_unique _ _ _ _ _ _ Hinv p p' c H H').
  - subst c. apply step_child_lt in H. lia.
  - apply step_child_lt in H'. lia.
  - reflexivity.
Qed.

Lemma step_NoDup (p : nat) (np' : NodeObject.t) :
  store' !! p = Some np' -> NoDup (NodeObject.children np').
Proof.
  intros Hnp'.
  destruct (step_inv p np' Hnp') as [[_ ->] | (np & Hnp & _ & _ & Hch)]; [constructor |].
  pose proof (inv_children _ _ _ _ _ _ Hinv p np Hnp) as Hnd.
  destruct Hch as [[_ ->] | [_ ->]]; [| exact Hnd].
  apply NoDup_app. split; [exact Hnd |]. split; [| apply NoDup_singleton].
  intros c Hc Hin. apply list_elem_of_In in Hc. apply list_elem_of_singleton in Hin.
  subst c. assert (Hch : childOf store p child) by (exists np; tauto).
  apply step_child_lt in Hch. lia.
Qed.

(** The loop body for a heading line keeps the invariant. *)
Lemma step_Invariant : Invariant sha256hex docUri textLength offset' stack' store'.
Proof.
  constructor.
  - exact step_sorted.
  - exact step_bottom.
  - exact step_opens.
  - exact step_closed.
  - exact step_root.
  - exact step_nodes.
  - exact step_ids.
  - intros p np c. exact (step_links p c np).
  - exact step_has_parent.
  - exact step_unique.
  - exact step_NoDup.
Qed.

End HeadingStep.

(** *** The loop *)

Lemma Invariant_later (sha256hex : list Z -> list Z) (docUri : list Z)
    (textLength offset offset' : nat) (stack : list (Z * nat)) (store : list NodeObject.t) :
  (offset <= offset')%nat ->
  Invariant sha256hex docUri textLength offset stack store ->
  Invariant sha256hex docUri textLength offset' stack store.
Proof.
  intros Hle [H1 H2 H3 H4 H5 H6 H7 H8 H9 H10 H11].
  constructor; try assumption.
  - intros i n Hn Hout. destruct (H4 i n Hn Hout). split; [lia | assumption].
  - intros i n Hn Hi. specialize (H6 i n Hn Hi). lia.
Qed.

Lemma Invariant_start (sha256hex : list Z -> list Z) (docUri : list Z) (textLength : nat) :
  Invariant sha256hex docUri textLength 0 [(0, 0%nat)] [rootNode sha256hex docUri textLength].
Proof.
  assert (Honly : forall i n, [rootNode sha256hex docUri textLength] !! i = Some n ->
                              i = 0%nat /\ n = rootNode sha256hex docUri textLength).
  { intros [| i] n H; simpl in H; [split; congruence | destruct i; discriminate]. }
  constructor.
  - repeat constructor.
  - reflexivity.
  - intros l i [E | []]. injection E as <- <-.
    eexists. split; [reflexivity |]. split; [reflexivity |]. split; [reflexivity |].
    intros k nk Hk Hnk. apply Honly in Hnk. lia.
  - intros i n Hn Hout. apply Honly in Hn as [-> _]. exfalso. apply Hout. now left.
  - eexists. split; [reflexivity |]. simpl. tauto.
  - intros i n Hn Hi. apply Honly in Hn. lia.
  - intros i n Hn. apply Honly in Hn as [_ ->]. reflexivity.
  - intros p np c Hnp Hc. apply Honly in Hnp as [_ ->]. contradiction.
  - simpl. intros c Hc. lia.
  - intros p p' c (np & Hnp & Hc). apply Honly in Hnp as [_ ->]. contradiction.
  - intros p np Hnp. apply Honly in Hnp as [_ ->]. constructor.
Qed.

(** The loop body never fails, and keeps the invariant. *)
Lemma parseLine_Invariant (sha256hex : list Z -> list Z) (docUri : list Z) (textLength : nat)
    (fencedRegions : list FencedRegion.t) (line : list Z) (offset : nat)
    (stack : list (Z * nat)) (store : list NodeObject.t) :
  (offset + List.length line <= textLength)%nat ->
  Invariant sha256hex docUri textLength offset stack store ->
  exists stack' store',
    parseLine sha256hex docUri textLength fencedRegions line offset (stack, store)
    = Some (stack', store')
    /\ Invariant sha256hex docUri textLength (offset + List.length line + 1) stack' store'.
Proof.
  intros Hline Hinv.
  assert (Hsame : Invariant sha256hex docUri textLength (offset + List.length line + 1)
                    stack store)
    by (eapply Invariant_later; [| exact Hinv]; lia).
  unfold parseLine.
  destruct (negb (FenceDetector.isInsideFence offset fencedRegions));
    [| exists stack, store; split; [reflexivity | exact Hsame]].
  destruct (matchHeading line) as [[level title] |] eqn:Em;
    [| exists stack, store; split; [reflexivity | exact Hsame]].
  apply matchHeading_Some in Em as [Hlevel Hlen].
  destruct (popLoop_spec level offset stack store (inv_bottom _ _ _ _ _ _ Hinv)
              ltac:(lia))
    as (popped & pl & parent & rest & Hstack & Hpopped & Hpl & Hpop).
  rewrite Hpop. eexists. eexists. split; [reflexivity |].
  replace ((level, List.length (closeAll offset store popped)) :: (pl, parent) :: rest)
    with ((level, List.length store) :: (pl, parent) :: rest)
    by now rewrite length_closeAll.
  eapply (step_Invariant sha256hex docUri textLength offset
            (offset + List.length line + 1) stack popped rest store pl level parent title);
    try eassumption; try lia.
  intros np Hnp. subst stack. eapply buildHeadingPath_parent; eassumption.
Qed.

Lemma parseLoop_Invariant (sha256hex : list Z -> list Z) (docUri : list Z) (textLength : nat)
    (fencedRegions : list FencedRegion.t) (lines : list (list Z)) :
  forall offset stack store,
    (lines <> [] -> (offset + FenceDetector.linesLength lines)%nat = textLength) ->
    Invariant sha256hex docUri textLength offset stack store ->
    exists stack' store' offset',
      parseLoop sha256hex docUri textLength fencedRegions lines offset (stack, store)
      = Some (stack', store')
      /\ Invariant sha256hex docUri textLength offset' stack' store'.
Proof.
  induction lines as [| line rest IH]; intros offset stack store Hlen Hinv.
  - exists stack, store, offset. split; [reflexivity | exact Hinv].
  - specialize (Hlen ltac:(discriminate)). cbn [FenceDetector.linesLength] in Hlen.
    destruct (parseLine_Invariant sha256hex docUri textLength fencedRegions line offset
                stack store ltac:(lia) Hinv) as (stack1 & store1 & Hstep & Hinv1).
    cbn [parseLoop]. rewrite Hstep.
    apply IH; [| exact Hinv1].
    intros Hrest. destruct rest; [congruence | lia].
Qed.

(** The store lists the heading lines in the order of the text. *)
Lemma map_alter_same {A B : Type} (f : A -> B) (g : A -> A) (l : list A) :
  (forall x, f (g x) = f x) -> forall i, map f (alter g i l) = map f l.
Proof.
  intros Hfg. induction l as [| x l IH]; intros [| i]; simpl; try reflexivity.
  - now rewrite Hfg.
  - f_equal. apply IH.
Qed.

Lemma popLoop_headings (level : Z) (lineStart : nat) (stack : list (Z * nat)) :
  forall store,
    map headingOf (snd (popLoop level lineStart stack store)) = map headingOf store.
Proof.
  induction stack as [| [l i] stack IH]; intros store; [reflexivity |].
  destruct stack as [| e stack]; [reflexivity |].
  change (map headingOf
            (snd (if level <=? l
                  then popLoop level lineStart (e :: stack) (setEndChar store i lineStart)
                  else ((l, i) :: e :: stack, store)))
          = map headingOf store).
  destruct (level <=? l); [| reflexivity].
  rewrite IH. unfold setEndChar. now apply map_alter_same.
Qed.

Lemma parseLoop_headings (sha256hex : list Z -> list Z) (docUri : list Z) (textLength : nat)
    (fencedRegions : list FencedRegion.t) (lines : list (list Z)) :
  forall offset stack store stack' store',
    parseLoop sha256hex docUri textLength fencedRegions lines offset (stack, store)
    = Some (stack', store') ->
    map headingOf store' = map headingOf store ++ headingLines fencedRegions lines offset.
Proof.
  induction lines as [| line rest IH]; intros offset stack store stack' store' Hloop.
  - injection Hloop as _ <-. simpl. now rewrite app_nil_r.
  - cbn [parseLoop headingLines] in *.
    destruct (parseLine sha256hex docUri textLength fencedRegions line offset (stack, store))
      as [[stack1 store1] |] eqn:Hstep; [| discriminate].
    rewrite (IH _ _ _ _ _ Hloop), app_assoc. f_equal.
    unfold parseLine in Hstep.
    destruct (negb (FenceDetector.isInsideFence offset fencedRegions));
      [| injection Hstep as _ <-; now rewrite app_nil_r].
    destruct (matchHeading line) as [[level title] |];
      [| injection Hstep as _ <-; now rewrite app_nil_r].
    pose proof (popLoop_headings level offset stack store) as Hpop.
    destruct (popLoop level offset stack store) as [stack2 store2]. simpl in Hpop.
    destruct stack2 as [| [pl parent] stack2]; [discriminate |].
    injection Hstep as _ <-. unfold pushChild.
    rewrite map_alter_same by reflexivity.
    rewrite map_app, Hpop. reflexivity.
Qed.

(** [parseHeadings] returns, and its store has the invariant. *)
Lemma parseHeadings_Invariant (sha256hex : list Z -> list Z) (docUri text : list Z) :
  exists store stack offset,
    parseHeadings sha256hex docUri text = Some store
    /\ Invariant sha256hex docUri (List.length text) offset stack store
    /\ map headingOf store
       = (0, [], 0%nat) :: headingLines (FenceDetector.detect text) (splitOn LF text) 0.
Proof.
  unfold parseHeadings.
  destruct (parseLoop_Invariant sha256hex docUri (List.length text)
              (FenceDetector.detect text) (splitOn LF text) 0 [(0, 0%nat)]
              [rootNode sha256hex docUri (List.length text)])
    as (stack & store & offset & Hloop & Hinv).
  - intros _. now rewrite linesLength_splitOn.
  - apply Invariant_start.
  - rewrite Hloop. exists store, stack, offset. split; [reflexivity |].
    split; [exact Hinv |].
    apply parseLoop_headings in Hloop. exact Hloop.
Qed.

End ParseHeadingsFacts.

(** X28.  [MarkdownParser.parseHeadings] returns for every
    text.  Object 0 of its store is the virtual root: level 0, empty title
    and path, spanning the whole text.  Every other object is a heading of
    level 1 to 6 whose range is not empty and lies in the text, and it is a
    child of exactly one object.  A child is a later object than its parent
    and of a higher level, its range lies inside the range of its parent,
    and no object lists a child twice. *)
Theorem parseHeadings_builds_a_tree_of_nested_sections
    (sha256hex : list Z -> list Z) (docUri text : list Z) :
  exists store,
    MarkdownParser.parseHeadings sha256hex docUri text = Some store
    /\ (exists root,
          store !! 0%nat = Some root
          /\ NodeObject.level root = 0
          /\ NodeObject.title root = []
          /\ NodeObject.headingPath root = []
          /\ NodeObject.startChar root = 0%nat
          /\ NodeObject.endChar root = length text)
    /\ (forall i n,
          store !! i = Some n -> (0 < i)%nat ->
          1 <= NodeObject.level n <= 6
          /\ (NodeObject.startChar n < NodeObject.endChar n <= length text)%nat
          /\ exists p, MarkdownParser.childOf store p i
                       /\ forall p', MarkdownParser.childOf store p' i -> p' = p)
    /\ (forall p np c,
          store !! p = Some np -> In c (NodeObject.children np) ->
          NoDup (NodeObject.children np)
          /\ exists nc,
               store !! c = Some nc
               /\ (p < c)%nat
               /\ NodeObject.level np < NodeObject.level nc
               /\ (NodeObject.startChar np <= NodeObject.startChar nc)%nat
               /\ (NodeObject.endChar nc <= NodeObject.endChar np)%nat).
Proof.
  destruct (parseHeadings_Invariant sha256hex docUri text)
    as (store & stack & offset & Hparse & Hinv & _).
  exists store. split; [exact Hparse |].
  split; [| split].
  - destruct (MarkdownParser.inv_root _ _ _ _ _ _ Hinv) as (root & Hroot & Ht & Hp & Hs).
    destruct (MarkdownParser.inv_open _ _ _ _ _ _ Hinv 0 0%nat)
      as (n & Hn & Hl & He & _).
    { pose proof (MarkdownParser.inv_bottom _ _ _ _ _ _ Hinv) as Hb.
      apply last_Some in Hb as [l ->]. apply in_or_app. right. now left. }
    assert (n = root) by congruence. subst n.
    exists root. tauto.
  - intros i n Hn Hi.
    destruct (MarkdownParser.inv_nodes _ _ _ _ _ _ Hinv i n Hn Hi) as (Hl & _ & Hr).
    split; [exact Hl |]. split; [exact Hr |].
    destruct (MarkdownParser.inv_parent _ _ _ _ _ _ Hinv i) as [p Hp].
    { apply lookup_lt_Some in Hn. lia. }
    exists p. split; [exact Hp |].
    intros p' Hp'. exact (MarkdownParser.inv_unique _ _ _ _ _ _ Hinv p' p i Hp' Hp).
  - intros p np c Hnp Hc.
    split; [exact (MarkdownParser.inv_children _ _ _ _ _ _ Hinv p np Hnp) |].
    destruct (MarkdownParser.inv_links _ _ _ _ _ _ Hinv p np c Hnp Hc)
      as (nc & Hnc & H1 & H2 & H3 & H4 & _).
    exists nc. tauto.
Qed.

(** X29.  The objects of the store after the root are the
    heading lines of the text in their order: the lines that match the
    heading pattern and do not start inside a fenced region, each with its
    level, its trimmed title and its offset.  The section of a heading ends
    where the next heading of the same or a lower level starts, and at the
    end of the text when there is none.  The parent of a heading is the
    nearest object before it of a lower level. *)
Theorem parseHeadings_sections_end_at_the_next_heading
    (sha256hex : list Z -> list Z) (docUri text : list Z) :
  exists store,
    MarkdownParser.parseHeadings sha256hex docUri text = Some store
    /\ map MarkdownParser.headingOf store
       = (0, [], 0%nat)
         :: MarkdownParser.headingLines (FenceDetector.detect text)
              (JS.splitOn JS.LF text) 0
    /\ (forall i n,
          store !! i = Some n ->
          MarkdownParser.openSection (length text) store i n
          \/ MarkdownParser.closedSection store i n)
    /\ (forall p np c nc,
          store !! p = Some np -> In c (NodeObject.children np) -> store !! c = Some nc ->
          (p < c)%nat
          /\ NodeObject.level np < NodeObject.level nc
          /\ forall k nk, (p < k < c)%nat -> store !! k = Some nk ->
                          NodeObject.level nc <= NodeObject.level nk).
Proof.
  destruct (parseHeadings_Invariant sha256hex docUri text)
    as (store & stack & offset & Hparse & Hinv & Hheadings).
  exists store. split; [exact Hparse |]. split; [exact Hheadings |].
  split.
  - intros i n Hn.
    destruct (in_dec Nat.eq_dec i (map snd stack)) as [Hin | Hout].
    + left. apply in_map_iff in Hin as ([l i'] & E & Hin). simpl in E. subst i'.
      destruct (MarkdownParser.inv_open _ _ _ _ _ _ Hinv l i Hin) as (n' & Hn' & _ & Ho).
      assert (n' = n) by congruence. subst n'. exact Ho.
    + right. exact (proj2 (MarkdownParser.inv_closed _ _ _ _ _ _ Hinv i n Hn Hout)).
  - intros p np c nc Hnp Hc Hnc.
    destruct (MarkdownParser.inv_links _ _ _ _ _ _ Hinv p np c Hnp Hc)
      as (nc' & Hnc' & H1 & H2 & _ & _ & _ & H3).
    assert (nc' = nc) by congruence. subst nc'. tauto.
Qed.

(** X30.  The path of a heading is the path of its parent,
    the separator and its title, and its title alone when the path of the
    parent is empty, as under the root.  A node id is made of the document
    URI and the path only, so two children of one object that have the
    same title have the same path and the same node id; the two headings of
    the text of two lines [# A] are such children of the root. *)
Theorem parseHeadings_paths_and_node_ids
    (sha256hex : list Z -> list Z) (docUri text : list Z) :
  (exists store,
     MarkdownParser.parseHeadings sha256hex docUri text = Some store
     /\ (forall i n,
           store !! i = Some n ->
           NodeObject.nodeId n
           = MarkdownParser.generateNodeId sha256hex docUri (NodeObject.headingPath n))
     /\ (forall p np c nc,
           store !! p = Some np -> In c (NodeObject.children np) -> store !! c = Some nc ->
           NodeObject.headingPath nc
           = MarkdownParser.extendPath (NodeObject.headingPath np) (NodeObject.title nc))
     /\ (forall p np c1 c2 n1 n2,
           store !! p = Some np ->
           In c1 (NodeObject.children np) -> In c2 (NodeObject.children np) ->
           store !! c1 = Some n1 -> store !! c2 = Some n2 ->
           NodeObject.title n1 = NodeObject.title n2 ->
           NodeObject.headingPath n1 = NodeObject.headingPath n2
           /\ NodeObject.nodeId n1 = NodeObject.nodeId n2))
  /\ (exists store root n1 n2,
        MarkdownParser.parseHeadings sha256hex docUri [35; 32; 65; 10; 35; 32; 65; 10]
        = Some store
        /\ store !! 0%nat = Some root
        /\ NodeObject.children root = [1%nat; 2%nat]
        /\ store !! 1%nat = Some n1
        /\ store !! 2%nat = Some n2
        /\ NodeObject.startChar n1 <> NodeObject.startChar n2
        /\ NodeObject.nodeId n1 = NodeObject.nodeId n2).
Proof.
  split.
  - destruct (parseHeadings_Invariant sha256hex docUri text)
      as (store & stack & offset & Hparse & Hinv & _).
    exists store. split; [exact Hparse |].
    assert (Hpaths : forall p np c nc,
               store !! p = Some np -> In c (NodeObject.children np) ->
               store !! c = Some nc ->
               NodeObject.headingPath nc
               = MarkdownParser.extendPath (NodeObject.headingPath np)
                   (NodeObject.title nc)).
    { intros p np c nc Hnp Hc Hnc.
      destruct (MarkdownParser.inv_links _ _ _ _ _ _ Hinv p np c Hnp Hc)
        as (nc' & Hnc' & _ & _ & _ & _ & H & _).
      assert (nc' = nc) by congruence. subst nc'. exact H. }
    split; [exact (MarkdownParser.inv_ids _ _ _ _ _ _ Hinv) |].
    split; [exact Hpaths |].
    intros p np c1 c2 n1 n2 Hnp Hc1 Hc2 Hn1 Hn2 Ht.
    assert (Hp : NodeObject.headingPath n1 = NodeObject.headingPath n2).
    { rewrite (Hpaths p np c1 n1 Hnp Hc1 Hn1), (Hpaths p np c2 n2 Hnp Hc2 Hn2), Ht.
      reflexivity. }
    split; [exact Hp |].
    rewrite (MarkdownParser.inv_ids _ _ _ _ _ _ Hinv c1 n1 Hn1),
      (MarkdownParser.inv_ids _ _ _ _ _ _ Hinv c2 n2 Hn2), Hp.
    reflexivity.
  - do 4 eexists. split; [reflexivity |].
    split; [reflexivity |]. split; [reflexivity |].
    split; [reflexivity |]. split; [reflexivity |].
    split; [simpl; lia | reflexivity].
Qed.
